(** * Finite model builder (FMB/FiniteModelBuilder.cpp)

    A shallow embedding of the parts of [FiniteModelBuilder] that lay out
    the SAT variables ([reset], [getSATLiteral]), emit the propositional
    clauses ([addNewInstances], [addNewFunctionalDefs],
    [addNewTotalityDefs]) and enumerate domain sizes (the CONTOUR growth
    step of [runImpl], [HackyDSAE::checkConstriant],
    [HackyDSAE::increaseModelSizes]), together with the properties of the
    design document that concern them.

    Conventions of the embedding:
    - a C++ [unsigned] is a [Z] in [0, 2^32); every arithmetic operation of
      the source is written with its wrap-around ([U32.add], [U32.sub],
      [U32.mul]);
    - a [DArray<unsigned>] is a [list Z] read with [rd] and written with
      stdpp's [<[i:=x]>]; an index outside the array is undefined behaviour
      in the source, the embedding reads 0 there and ignores the write;
    - indices (symbol numbers, sort numbers, clause variables) are [nat];
    - loops that mutate a table take the table and return it. *)

From Stdlib Require Import ZArith List Lia Bool.
From stdpp Require Import base list.
Import ListNotations.
Local Open Scope Z_scope.

(** ** Machine arithmetic *)

Module U32.
Definition modulus : Z := 2 ^ 32.
Definition UINT_MAX : Z := modulus - 1.
Definition wrap (z : Z) : Z := z mod modulus.
Definition add (a b : Z) : Z := wrap (a + b).
Definition sub (a b : Z) : Z := wrap (a - b).
Definition mul (a b : Z) : Z := wrap (a * b).
Definition inRange (z : Z) : Prop := 0 <= z < modulus.
End U32.

(** ** Arrays *)

Definition rd (a : list Z) (i : nat) : Z := default 0 (a !! i).
Definition rdb (a : list bool) (i : nat) : bool := default false (a !! i).
Definition rdn (a : list nat) (i : nat) : nat := default 0%nat (a !! i).
Definition rdl {A} (a : list (list A)) (i : nat) : list A := default [] (a !! i).

(** ** Data model *)

(** [SortInference]'s [SortedSignature]: the fields the builder reads. *)
Record SortedSignature := {
  sorts : nat;
  distinctSorts : nat;
  parents : list nat;
  sortBounds : list Z;
  monotonicSorts : list bool;
  functionSignatures : list (list nat);
  predicateSignatures : list (list nat)
}.

(** [env.signature]: number of symbols and their arities. *)
Record Signature := {
  functions : nat;
  predicates : nat;
  functionArity : list nat;
  predicateArity : list nat
}.

(** A [SATLiteral] is a variable and a polarity; a [SATClause] a stack of
    literals. *)
Definition SATLiteral : Type := Z * bool.
Definition SATClause : Type := list SATLiteral.

(** Flattened first-order literals: [x = y], [f(xs) = y], [p(xs)], each
    with a polarity; arguments are clause variables. *)
Inductive Literal :=
| TwoVarEq (polarity : bool) (x y : nat)
| FunEq (polarity : bool) (functor : nat) (args : list nat) (res : nat)
| PredLit (polarity : bool) (functor : nat) (args : list nat).

(** A clause of [_clauses] with [varCnt()] and its entry in
    [_clauseVariableSorts] (absent for a clause of variable equalities
    only). A clause of [_groundClauses] is a list of propositional
    symbols with polarities. *)
Record Clause := {
  literals : list Literal;
  varCnt : nat;
  varSorts : option (list nat)
}.

(** What [runImpl] only reads. [VAR_MAX] is
    [MinisatInterfacingNewSimp::VAR_MAX]. *)
Record Input := {
  VAR_MAX : Z;
  signature : Signature;
  _sortedSignature : SortedSignature;
  del_f : list bool;
  del_p : list bool;
  _xmass : bool;
  _startModelSize : Z;
  _sizeWeightRatio : Z;
  _distinctSortMins : list Z;
  _distinctSortMaxs : list Z;
  _distinct_sort_constraints : list (nat * nat);
  _strict_distinct_sort_constraints : list (nat * nat);
  _clauses : list Clause;
  _groundClauses : list (list (nat * bool));
  _isAppropriate : bool;
  units : list (list Literal)
}.

(** What the builder does to the SAT solver, in order. *)
Inductive Event :=
| NewSolver
| EnsureVarCount (n : Z)
| AddClauses (cs : list SATClause)
| SolveUnderAssumptions (assumptions : list SATLiteral).

(** The builder's mutable members. *)
Record FMB := {
  _sortModelSizes : list Z;
  _distinctSortSizes : list Z;
  f_offsets : list Z;
  p_offsets : list Z;
  marker_offsets : list Z;
  totalityMarker_offset : Z;
  instancesMarker_offset : Z;
  _curMaxVar : Z;
  _clausesToBeAdded : list SATClause;
  trace : list Event
}.

Definition with_sizes (st : FMB) (sm ds : list Z) : FMB :=
  {| _sortModelSizes := sm; _distinctSortSizes := ds;
     f_offsets := f_offsets st; p_offsets := p_offsets st;
     marker_offsets := marker_offsets st;
     totalityMarker_offset := totalityMarker_offset st;
     instancesMarker_offset := instancesMarker_offset st;
     _curMaxVar := _curMaxVar st;
     _clausesToBeAdded := _clausesToBeAdded st; trace := trace st |}.

Definition with_offsets (st : FMB) (fo po mo : list Z) (tm im : Z) : FMB :=
  {| _sortModelSizes := _sortModelSizes st;
     _distinctSortSizes := _distinctSortSizes st;
     f_offsets := fo; p_offsets := po; marker_offsets := mo;
     totalityMarker_offset := tm; instancesMarker_offset := im;
     _curMaxVar := _curMaxVar st;
     _clausesToBeAdded := _clausesToBeAdded st; trace := trace st |}.

Definition with_curMaxVar (st : FMB) (v : Z) : FMB :=
  {| _sortModelSizes := _sortModelSizes st;
     _distinctSortSizes := _distinctSortSizes st;
     f_offsets := f_offsets st; p_offsets := p_offsets st;
     marker_offsets := marker_offsets st;
     totalityMarker_offset := totalityMarker_offset st;
     instancesMarker_offset := instancesMarker_offset st;
     _curMaxVar := v;
     _clausesToBeAdded := _clausesToBeAdded st; trace := trace st |}.

Definition with_clauses (st : FMB) (cs : list SATClause) : FMB :=
  {| _sortModelSizes := _sortModelSizes st;
     _distinctSortSizes := _distinctSortSizes st;
     f_offsets := f_offsets st; p_offsets := p_offsets st;
     marker_offsets := marker_offsets st;
     totalityMarker_offset := totalityMarker_offset st;
     instancesMarker_offset := instancesMarker_offset st;
     _curMaxVar := _curMaxVar st;
     _clausesToBeAdded := cs; trace := trace st |}.

Definition log (st : FMB) (e : Event) : FMB :=
  {| _sortModelSizes := _sortModelSizes st;
     _distinctSortSizes := _distinctSortSizes st;
     f_offsets := f_offsets st; p_offsets := p_offsets st;
     marker_offsets := marker_offsets st;
     totalityMarker_offset := totalityMarker_offset st;
     instancesMarker_offset := instancesMarker_offset st;
     _curMaxVar := _curMaxVar st;
     _clausesToBeAdded := _clausesToBeAdded st; trace := trace st ++ [e] |}.

(** ** Variable layout: [reset] *)

(** The inner loop of [reset] over the slots of a signature:
    [n_add = add * _sortModelSizes[sig[i]]; if (n_add < add) return false;
    add = n_add]. [None] is the early [return false]. *)
Fixpoint block_loop (sizes : list Z) (slots : list nat) (add : Z) : option Z :=
  match slots with
  | [] => Some add
  | srt :: rest =>
      let n_add := U32.mul add (rd sizes srt) in
      if n_add <? add then None else block_loop sizes rest n_add
  end.

(** For a function [add] starts at the size of slot 0 and the loop runs
    from slot 1; for a predicate [add] starts at 1 and the loop runs from
    slot 0. *)
Definition function_add (sizes : list Z) (f_signature : list nat) : option Z :=
  block_loop sizes (tl f_signature) (rd sizes (hd 0%nat f_signature)).

Definition predicate_add (sizes : list Z) (p_signature : list nat) : option Z :=
  block_loop sizes p_signature 1.

(** [if (VAR_MAX - add < offsets) return false; offsets += add]. *)
Definition advance (var_max offsets add : Z) : option Z :=
  if U32.sub var_max add <? offsets then None else Some (U32.add offsets add).

(** The loop over the symbols [syms] (functions from 0, predicates from
    1): skip a deleted symbol, record the offset, compute the block size,
    check, advance. The table is returned also when the walk stops. *)
Fixpoint offsets_loop (var_max : Z) (add_of : nat -> option Z) (del : list bool)
    (syms : list nat) (offsets : Z) (offs : list Z) : list Z * option Z :=
  match syms with
  | [] => (offs, Some offsets)
  | f :: rest =>
      if rdb del f then offsets_loop var_max add_of del rest offsets offs
      else
        let offs := <[f := offsets]> offs in
        match add_of f with
        | None => (offs, None)
        | Some add =>
            match advance var_max offsets add with
            | None => (offs, None)
            | Some offsets' => offsets_loop var_max add_of del rest offsets' offs
            end
        end
  end.

Definition f_add (inp : Input) (st : FMB) (f : nat) : option Z :=
  function_add (_sortModelSizes st) (rdl (functionSignatures (_sortedSignature inp)) f).

Definition p_add (inp : Input) (st : FMB) (p : nat) : option Z :=
  predicate_add (_sortModelSizes st) (rdl (predicateSignatures (_sortedSignature inp)) p).

Definition reset_functions (inp : Input) (st : FMB) (syms : list nat)
    (offsets : Z) (offs : list Z) : list Z * option Z :=
  offsets_loop (VAR_MAX inp) (f_add inp st) (del_f inp) syms offsets offs.

Definition reset_predicates (inp : Input) (st : FMB) (syms : list nat)
    (offsets : Z) (offs : list Z) : list Z * option Z :=
  offsets_loop (VAR_MAX inp) (p_add inp st) (del_p inp) syms offsets offs.

(** CONTOUR: one block of [_distinctSortSizes[i]] markers per distinct
    sort; the offset is recorded before the check. *)
Fixpoint reset_markers (var_max : Z) (dsizes : list Z) (idxs : list nat)
    (offsets : Z) (mo : list Z) : list Z * option Z :=
  match idxs with
  | [] => (mo, Some offsets)
  | i :: rest =>
      let add := rd dsizes i in
      let mo := <[i := offsets]> mo in
      match advance var_max offsets add with
      | None => (mo, None)
      | Some offsets' => reset_markers var_max dsizes rest offsets' mo
      end
  end.

(** [reset]. The second component is the returned [bool]. The symmetry
    ordering recomputed at the end only feeds the symmetry axioms and is
    not part of the embedding. *)
Definition reset (inp : Input) (st : FMB) : FMB * bool :=
  let sig := signature inp in
  let '(fo, r) := reset_functions inp st (seq 0 (functions sig)) 1 (f_offsets st) in
  let st1 := with_offsets st fo (p_offsets st) (marker_offsets st)
               (totalityMarker_offset st) (instancesMarker_offset st) in
  match r with
  | None => (st1, false)
  | Some offsets =>
  let '(po, r) := reset_predicates inp st (seq 1 (predicates sig - 1)) offsets (p_offsets st) in
  let st2 := with_offsets st fo po (marker_offsets st)
               (totalityMarker_offset st) (instancesMarker_offset st) in
  match r with
  | None => (st2, false)
  | Some offsets =>
  let n := length (_distinctSortSizes st) in
  let '(st3, r) :=
    if _xmass inp then
      let '(mo, r) := reset_markers (VAR_MAX inp) (_distinctSortSizes st)
                        (seq 0 n) offsets (resize n 0 (marker_offsets st)) in
      (with_offsets st fo po mo (totalityMarker_offset st) (instancesMarker_offset st), r)
    else
      let add := Z.of_nat n in
      match advance (VAR_MAX inp) offsets add with
      | None =>
          (with_offsets st fo po (marker_offsets st) offsets (instancesMarker_offset st), None)
      | Some offsets' =>
          (with_offsets st fo po (marker_offsets st) offsets offsets',
           advance (VAR_MAX inp) offsets' add)
      end in
  match r with
  | None => (st3, false)
  | Some offsets =>
      let st4 := log st3 NewSolver in
      let st5 := with_curMaxVar st4 (U32.sub offsets 1) in
      (log st5 (EnsureVarCount (_curMaxVar st5)), true)
  end end end.

(** ** [getSATLiteral] *)

(** [var += mult*(grounding[i]-1); mult *= _sortModelSizes[signature[i]]]. *)
Fixpoint getSATLiteral_loop (sizes : list Z) (grounding : list Z)
    (sig : list nat) (var mult : Z) : Z :=
  match grounding with
  | [] => var
  | g :: gs =>
      let var := U32.add var (U32.mul mult (U32.sub g 1)) in
      let mult := U32.mul mult (rd sizes (hd 0%nat sig)) in
      getSATLiteral_loop sizes gs (tl sig) var mult
  end.

Definition symbol_offset (st : FMB) (isFunction : bool) (f : nat) : Z :=
  if isFunction then rd (f_offsets st) f else rd (p_offsets st) f.

Definition symbol_signature (inp : Input) (isFunction : bool) (f : nat) : list nat :=
  if isFunction then rdl (functionSignatures (_sortedSignature inp)) f
  else rdl (predicateSignatures (_sortedSignature inp)) f.

Definition getSATLiteral (inp : Input) (st : FMB) (f : nat) (grounding : list Z)
    (polarity isFunction : bool) : SATLiteral :=
  (getSATLiteral_loop (_sortModelSizes st) grounding
     (symbol_signature inp isFunction f) (symbol_offset st isFunction f) 1,
   polarity).

(** ** Grounding enumeration: the odometer *)

(** One pass of [for(var=n-1; var+1!=0; var--)] after a jump to its label:
    from the right, a position at its maximum is set back to 1 and the
    pass moves left; the first position that is not at its maximum is
    incremented and the body runs on the new grounding. [None]: every
    position was at its maximum, the loop is left. *)
Fixpoint odometer_next (grounding maxVarSize : list Z) : option (list Z) :=
  match grounding with
  | [] => None
  | g :: gs =>
      match odometer_next gs (tl maxVarSize) with
      | Some gs' => Some (g :: gs')
      | None =>
          if g =? hd 0 maxVarSize then None
          else Some (U32.add g 1 :: map (fun _ => 1) gs)
      end
  end.

(** The [goto]-driven enumeration: the body runs on every grounding the
    odometer reaches, until the pass falls through. *)
Fixpoint odometer_run {A} (fuel : nat) (maxVarSize : list Z)
    (body : list Z -> list A) (grounding : list Z) : list A :=
  match fuel with
  | O => []
  | S k =>
      match odometer_next grounding maxVarSize with
      | None => []
      | Some g' => body g' ++ odometer_run k maxVarSize body g'
      end
  end.

Definition product (l : list Z) : Z := fold_right Z.mul 1 l.

(** The number of groundings bounds the number of passes when every bound
    is at least 1, as it is for sorts of size at least 1. *)
Definition odometer_fuel (maxVarSize : list Z) : nat := S (Z.to_nat (product maxVarSize)).

(** [for(i<n) grounding[i]=1; grounding[n-1]=0]. *)
Definition initial_grounding (n : nat) : list Z := repeat 1 (n - 1) ++ [0].

Definition odometer {A} (maxVarSize : list Z) (body : list Z -> list A) : list A :=
  odometer_run (odometer_fuel maxVarSize) maxVarSize body
    (initial_grounding (length maxVarSize)).

(** [lo, lo+1, ..., hi], the values of a loop [for(i=lo; i<=hi; i++)]. *)
Definition zrange (lo hi : Z) : list Z :=
  map (fun k => lo + Z.of_nat k) (seq 0 (Z.to_nat (hi - lo + 1))).

(** [std::min(_sortedSignature->sortBounds[srt], _sortModelSizes[srt])]. *)
Definition boundedSize (inp : Input) (st : FMB) (srt : nat) : Z :=
  Z.min (rd (sortBounds (_sortedSignature inp)) srt) (rd (_sortModelSizes st) srt).

(** ** [addNewFunctionalDefs] *)

Definition functionalDefs_maxVarSize (inp : Input) (st : FMB) (f : nat) : list Z :=
  let arity := rdn (functionArity (signature inp)) f in
  let f_signature := rdl (functionSignatures (_sortedSignature inp)) f in
  let returnSrt := rdn f_signature arity in
  boundedSize inp st returnSrt :: boundedSize inp st returnSrt ::
    map (fun var => boundedSize inp st (rdn f_signature var)) (seq 0 arity).

(** The body under [newFuncLabel]; [grounding] is [[y, z, x1, ..., xn]]. *)
Definition functionalDef_body (inp : Input) (st : FMB) (f : nat) (grounding : list Z)
    : list SATClause :=
  let arity := rdn (functionArity (signature inp)) f in
  if rd grounding 0 >=? rd grounding 1 then []
  else
    let use := map (fun k => rd grounding (k + 2)) (seq 0 arity) in
    [[getSATLiteral inp st f (use ++ [rd grounding 0]) false true;
      getSATLiteral inp st f (use ++ [rd grounding 1]) false true]].

Definition functionalDefs_of (inp : Input) (st : FMB) (f : nat) : list SATClause :=
  odometer (functionalDefs_maxVarSize inp st f) (functionalDef_body inp st f).

(** The literal stacks handed to [addSATClause], in order. *)
Definition addNewFunctionalDefs (inp : Input) (st : FMB) : list SATClause :=
  flat_map (fun f => if rdb (del_f inp) f then [] else functionalDefs_of inp st f)
    (seq 0 (functions (signature inp))).

(** ** [addNewTotalityDefs] *)

(** CONTOUR: [marker(j) | ~marker(j+1)] for [j < _distinctSortSizes[i]-1]. *)
Definition staircase (st : FMB) : list SATClause :=
  flat_map (fun i =>
    map (fun j =>
      [(U32.add (rd (marker_offsets st) i) j, true);
       (U32.add (U32.add (rd (marker_offsets st) i) j) 1, false)])
      (zrange 0 (U32.sub (rd (_distinctSortSizes st) i) 1 - 1)))
    (seq 0 (length (_distinctSortSizes st))).

(** The marker literal closing the totality clause of version [i]. *)
Definition totality_marker (inp : Input) (st : FMB) (dsrt : nat) (i maxSize : Z)
    : SATLiteral :=
  if _xmass inp then
    let marker_idx :=
      if i =? maxSize then U32.sub (rd (_distinctSortSizes st) dsrt) 1
      else U32.sub i 1 in
    (U32.add (rd (marker_offsets st) dsrt) marker_idx, true)
  else (U32.add (totalityMarker_offset st) (Z.of_nat dsrt), false).

(** [for (i = (!_xmass || monotonic) ? maxSize : 1; i <= maxSize; i++)]. *)
Definition totality_versions (inp : Input) (dsrt : nat) (maxSize : Z) : list Z :=
  zrange (if negb (_xmass inp) || rdb (monotonicSorts (_sortedSignature inp)) dsrt
          then maxSize else 1) maxSize.

Definition totality_clause (inp : Input) (st : FMB) (f : nat) (args : list Z)
    (dsrt : nat) (maxSize i : Z) : SATClause :=
  map (fun constant => getSATLiteral inp st f (args ++ [constant]) true true) (zrange 1 i)
  ++ [totality_marker inp st dsrt i maxSize].

Definition totalityDefs_of (inp : Input) (st : FMB) (f : nat) : list SATClause :=
  let arity := rdn (functionArity (signature inp)) f in
  let f_signature := rdl (functionSignatures (_sortedSignature inp)) f in
  let parent := rdn (parents (_sortedSignature inp)) in
  if (arity =? 0)%nat then
    let srt := rdn f_signature 0 in
    let maxSize := boundedSize inp st srt in
    map (totality_clause inp st f [] (parent srt) maxSize)
      (totality_versions inp (parent srt) maxSize)
  else
    let maxVarSize := map (fun var => boundedSize inp st (rdn f_signature var)) (seq 0 arity) in
    let retSrt := rdn f_signature arity in
    let maxRtSrtSize := boundedSize inp st retSrt in
    odometer maxVarSize (fun grounding =>
      map (totality_clause inp st f grounding (parent retSrt) maxRtSrtSize)
        (totality_versions inp (parent retSrt) maxRtSrtSize)).

Definition addNewTotalityDefs (inp : Input) (st : FMB) : list SATClause :=
  (if _xmass inp then staircase st else [])
  ++ flat_map (fun f => if rdb (del_f inp) f then [] else totalityDefs_of inp st f)
       (seq 0 (functions (signature inp))).

(** The assumptions of the solver call. *)
Definition assumptions (inp : Input) (st : FMB) : list SATLiteral :=
  let idxs := seq 0 (length (_distinctSortSizes st)) in
  if _xmass inp then
    map (fun i => (U32.sub (U32.add (rd (marker_offsets st) i) (rd (_distinctSortSizes st) i)) 1,
                   false)) idxs
  else
    map (fun i => (U32.add (totalityMarker_offset st) (Z.of_nat i), true)) idxs
    ++ map (fun i => (U32.add (instancesMarker_offset st) (Z.of_nat i), true)) idxs.

(** ** [addNewInstances] *)

(** [maxVarSize[var] = std::min(_sortModelSizes[srt], sortBounds[srt])]. *)
Definition instances_maxVarSize (inp : Input) (st : FMB) (vars : nat)
    (varSorts : list nat) : list Z :=
  map (fun var =>
         let srt := rdn varSorts var in
         Z.min (rd (_sortModelSizes st) srt) (rd (sortBounds (_sortedSignature inp)) srt))
    (seq 0 vars).

(** SBMEAM: [varDistinctSortsMaxes.set(dsort,1)] for the non-monotonic
    distinct sort of every variable, once per clause. The [ArrayMap] is a
    table with 0 for an unset entry. *)
Definition sbmeam_sortsUsed (inp : Input) (st : FMB) (vars : nat)
    (varSorts : list nat) : list Z :=
  fold_left (fun m var =>
               let dsort := rdn (parents (_sortedSignature inp)) (rdn varSorts var) in
               if rdb (monotonicSorts (_sortedSignature inp)) dsort then m
               else <[dsort := 1]> m)
    (seq 0 vars) (repeat 0 (length (_distinctSortSizes st))).

(** CONTOUR: the largest value used by the grounding in every non-monotonic
    distinct sort, recomputed for each instance. *)
Definition contour_sortsMaxes (inp : Input) (st : FMB) (vars : nat)
    (varSorts : list nat) (grounding : list Z) : list Z :=
  fold_left (fun m var =>
               let dsr := rdn (parents (_sortedSignature inp)) (rdn varSorts var) in
               if rdb (monotonicSorts (_sortedSignature inp)) dsr then m
               else <[dsr := Z.max (rd grounding var) (rd m dsr)]> m)
    (seq 0 vars) (repeat 0 (length (_distinctSortSizes st))).

(** The marker literals pushed before the literals of the instance. *)
Definition instance_markers (inp : Input) (st : FMB) (vars : nat)
    (varSorts : list nat) (grounding : list Z) : list SATLiteral :=
  let idxs := seq 0 (length (_distinctSortSizes st)) in
  if _xmass inp then
    let m := contour_sortsMaxes inp st vars varSorts grounding in
    flat_map (fun i =>
                let val := rd m i in
                if val >? 1
                then [(U32.sub (U32.add (rd (marker_offsets st) i) val) 2, false)]
                else []) idxs
  else
    let m := sbmeam_sortsUsed inp st vars varSorts in
    flat_map (fun i =>
                if rd m i =? 0 then []
                else [(U32.add (instancesMarker_offset st) (Z.of_nat i), false)]) idxs.

(** What the loop over the literals does with one literal. *)
Inductive LiteralAction :=
| SkipInstance
| SkipLiteral
| Push (l : SATLiteral).

Definition ground_literal (inp : Input) (st : FMB) (grounding : list Z)
    (lit : Literal) : LiteralAction :=
  match lit with
  | TwoVarEq polarity x y =>
      let equal := rd grounding x =? rd grounding y in
      if (polarity && equal) || (negb polarity && negb equal) then SkipInstance
      else if (polarity && negb equal) || (negb polarity && equal) then SkipLiteral
      else SkipLiteral (* not reached: the two tests cover every case *)
  | FunEq polarity functor args res =>
      let use := map (rd grounding) args ++ [rd grounding res] in
      Push (getSATLiteral inp st functor use polarity true)
  | PredLit polarity functor args =>
      let use := map (rd grounding) args in
      Push (getSATLiteral inp st functor use polarity false)
  end.

(** The loop over the literals of the clause: [None] is the
    [goto instanceLabel] that abandons the instance. *)
Fixpoint ground_literals (inp : Input) (st : FMB) (grounding : list Z)
    (lits : list Literal) (satClauseLits : list SATLiteral) : option SATClause :=
  match lits with
  | [] => Some satClauseLits
  | lit :: rest =>
      match ground_literal inp st grounding lit with
      | SkipInstance => None
      | SkipLiteral => ground_literals inp st grounding rest satClauseLits
      | Push l => ground_literals inp st grounding rest (satClauseLits ++ [l])
      end
  end.

(** The instance of clause [c] under [grounding], if one is emitted. *)
Definition instance_of (inp : Input) (st : FMB) (c : Clause) (varSorts : list nat)
    (grounding : list Z) : option SATClause :=
  ground_literals inp st grounding (literals c)
    (instance_markers inp st (varCnt c) varSorts grounding).

(** What [addSATClause] receives for one grounding: nothing when the
    instance is abandoned. *)
Definition emitted_instance (inp : Input) (st : FMB) (c : Clause) (varSorts : list nat)
    (grounding : list Z) : list SATClause :=
  match instance_of inp st c varSorts grounding with
  | None => []
  | Some cl => [cl]
  end.

Definition instances_of (inp : Input) (st : FMB) (c : Clause) : list SATClause :=
  match varSorts c with
  | None => []
  | Some vs =>
      odometer (instances_maxVarSize inp st (varCnt c) vs)
        (emitted_instance inp st c vs)
  end.

Definition addNewInstances (inp : Input) (st : FMB) : list SATClause :=
  flat_map (instances_of inp st) (_clauses inp).

(** [estimateInstanceCount]. *)
Definition estimateInstanceCount (inp : Input) (dsizes : list Z) : Z :=
  fold_left (fun res c =>
    match varSorts c with
    | None => res
    | Some vs =>
        U32.add res
          (fold_left (fun instances var =>
             let srt := rdn vs var in
             U32.mul instances
               (Z.min (rd dsizes (rdn (parents (_sortedSignature inp)) srt))
                      (rd (sortBounds (_sortedSignature inp)) srt)))
             (seq 0 (varCnt c)) 1)
    end) (_clauses inp) 0.

(** [addGroundClauses]: propositional symbols only, empty grounding. *)
Definition addGroundClauses (inp : Input) (st : FMB) : list SATClause :=
  map (map (fun l : nat * bool => getSATLiteral inp st (fst l) [] (snd l) false))
    (_groundClauses inp).

(** ** Domain-size enumeration: no-goods and generators (SBMEAM) *)

Inductive ConstraintSign := EQ | LEQ | GEQ | STAR.

Abbreviation Constraint_Generator_Vals := (list (ConstraintSign * Z)).

Record Constraint_Generator := {
  _vals : Constraint_Generator_Vals;
  _weight : Z
}.

Definition rdc (a : Constraint_Generator_Vals) (i : nat) : ConstraintSign * Z :=
  default (STAR, 0) (a !! i).

Definition set_sign (s : ConstraintSign) (i : nat) (a : Constraint_Generator_Vals)
    : Constraint_Generator_Vals :=
  alter (fun cc => (s, snd cc)) i a.

Definition is_STAR (s : ConstraintSign) : bool :=
  match s with STAR => true | _ => false end.

(** The three tests of [checkConstriant] on entry [j]: [true] is the
    [return false] of the source. *)
Definition entry_fails (cc : ConstraintSign * Z) (v : Z) : bool :=
  match fst cc with
  | EQ => negb (snd cc =? v)
  | GEQ => snd cc >? v
  | LEQ => snd cc <? v
  | STAR => false
  end.

(** [HackyDSAE::checkConstriant]: [true] when the size vector is ruled out
    by the constraint. *)
Definition checkConstriant (newSortSizes : list Z)
    (constraint : Constraint_Generator_Vals) : bool :=
  forallb (fun j => negb (entry_fails (rdc constraint j) (rd newSortSizes j)))
    (seq 0 (length newSortSizes)).

(** The no-good [runImpl] builds after an UNSAT answer in SBMEAM mode. *)
Definition nogood_step (inp : Input) (st : FMB) (nogood : Constraint_Generator_Vals)
    (lit : SATLiteral) : Constraint_Generator_Vals :=
  let var := fst lit in
  if var <? instancesMarker_offset st then
    let dsort := Z.to_nat (U32.sub var (totalityMarker_offset st)) in
    if rdb (monotonicSorts (_sortedSignature inp)) dsort
    then set_sign LEQ dsort nogood
    else set_sign EQ dsort nogood
  else
    let dsort := Z.to_nat (U32.sub var (instancesMarker_offset st)) in
    if is_STAR (fst (rdc nogood dsort)) then set_sign GEQ dsort nogood else nogood.

Definition build_nogood (inp : Input) (st : FMB) (failed : list SATLiteral)
    : Constraint_Generator_Vals :=
  fold_left (nogood_step inp st) failed
    (map (fun s => (STAR, s)) (_distinctSortSizes st)).

(** [HackyDSAE]. The heap [_constraints_generators] is the list of its
    elements; which of them is on top is decided by the comparator. *)
Record HackyDSAE := {
  _constraints_generators : list Constraint_Generator;
  _old_generators : list Constraint_Generator;
  _maxWeightSoFar : Z;
  _keepOldGenerators : bool
}.

Definition heap_insert (g : Constraint_Generator) (e : HackyDSAE) (mw : Z) : HackyDSAE :=
  {| _constraints_generators := _constraints_generators e ++ [g];
     _old_generators := _old_generators e;
     _maxWeightSoFar := mw;
     _keepOldGenerators := _keepOldGenerators e |}.

(** [HackyDSAE::learnNogood]. *)
Definition learnNogood (e : HackyDSAE) (nogood : Constraint_Generator_Vals)
    (weight : Z) : HackyDSAE :=
  heap_insert {| _vals := nogood; _weight := weight |} e
    (if weight >? _maxWeightSoFar e then weight else _maxWeightSoFar e).

Definition ruled_out (newSortSizes : list Z) (gens : list Constraint_Generator) : bool :=
  existsb (fun g => checkConstriant newSortSizes (_vals g)) gens.

(** The generator inserted for a candidate that breaks a sort constraint. *)
Definition artificial_child (newSortSizes : list Z) (weight : Z)
    (constr : nat * nat) : Constraint_Generator :=
  {| _vals := set_sign GEQ (snd constr)
                (set_sign EQ (fst constr) (map (fun s => (STAR, s)) newSortSizes));
     _weight := weight |}.

Inductive Verdict :=
| AllPassed
| NextCandidate (e : HackyDSAE).

(** Tests 1, 2a, 2b and 3 of [increaseModelSizes] on the candidate
    [newSortSizes], already incremented at [i]. *)
Definition test_candidate (inp : Input) (e : HackyDSAE) (newSortSizes : list Z)
    (i : nat) (sortMaxes : list Z) : Verdict :=
  if rd newSortSizes i >? rd sortMaxes i then NextCandidate e
  else if ruled_out newSortSizes (_constraints_generators e) then NextCandidate e
  else if _keepOldGenerators e && ruled_out newSortSizes (_old_generators e) then
    let w := U32.add (_maxWeightSoFar e) 1 in
    NextCandidate
      (heap_insert {| _vals := map (fun s => (EQ, s)) newSortSizes; _weight := w |} e w)
  else
    match find (fun constr : nat * nat =>
                  rd newSortSizes (fst constr) <? rd newSortSizes (snd constr))
               (_distinct_sort_constraints inp) with
    | Some constr =>
        let w := U32.add (_maxWeightSoFar e) 1 in
        NextCandidate (heap_insert (artificial_child newSortSizes w constr) e w)
    | None =>
        match find (fun constr : nat * nat =>
                      rd newSortSizes (fst constr) <=? rd newSortSizes (snd constr))
                   (_strict_distinct_sort_constraints inp) with
        | Some constr =>
            let w := U32.add (_maxWeightSoFar e) 1 in
            NextCandidate (heap_insert (artificial_child newSortSizes w constr) e w)
        | None => AllPassed
        end
    end.

(** The loop over the increments [+1] at [i]; a rejected increment is
    undone. Returns the accepted vector, if any, and the enumerator. *)
Fixpoint try_increments (inp : Input) (e : HackyDSAE) (newSortSizes : list Z)
    (idxs : list nat) (sortMaxes : list Z) : option (list Z) * list Z * HackyDSAE :=
  match idxs with
  | [] => (None, newSortSizes, e)
  | i :: rest =>
      let incremented := <[i := U32.add (rd newSortSizes i) 1]> newSortSizes in
      match test_candidate inp e incremented i sortMaxes with
      | AllPassed => (Some incremented, incremented, e)
      | NextCandidate e' =>
          try_increments inp e' (<[i := U32.sub (rd incremented i) 1]> incremented)
            rest sortMaxes
      end
  end.

Section Enumerator.

(** The position in the heap of the generator the comparator puts on
    top; the comparator is declared with the class. *)
Variable heap_top : list Constraint_Generator -> nat.

Definition top (e : HackyDSAE) : Constraint_Generator :=
  default {| _vals := []; _weight := 0 |}
    (_constraints_generators e !! heap_top (_constraints_generators e)).

(** [_old_generators.push(pop())] or [delete pop()]. *)
Definition pop_top (e : HackyDSAE) : HackyDSAE :=
  let h := _constraints_generators e in
  {| _constraints_generators := delete (heap_top h) h;
     _old_generators :=
       if _keepOldGenerators e then _old_generators e ++ [top e]
       else _old_generators e;
     _maxWeightSoFar := _maxWeightSoFar e;
     _keepOldGenerators := _keepOldGenerators e |}.

(** [HackyDSAE::increaseModelSizes]: the returned [bool], the vector
    left in [newSortSizes] and the enumerator. [None]: the fuel did not
    reach the end of the [while] loop. *)
Fixpoint increaseModelSizes (fuel : nat) (inp : Input) (e : HackyDSAE)
    (newSortSizes sortMaxes : list Z) : option (bool * list Z * HackyDSAE) :=
  match fuel with
  | O => None
  | S k =>
      match _constraints_generators e with
      | [] => Some (false, newSortSizes, e)
      | _ :: _ =>
          let generator := _vals (top e) in
          let copied := map (fun i => snd (rdc generator i))
                            (seq 0 (length newSortSizes)) in
          match try_increments inp e copied (seq 0 (length newSortSizes)) sortMaxes with
          | (Some v, _, e') => Some (true, v, e')
          | (None, undone, e') => increaseModelSizes k inp (pop_top e') undone sortMaxes
          end
      end
  end.

End Enumerator.

(** ** The CONTOUR growth step of [runImpl] *)

(** [while (it.hasNext())] over the non-strict constraints; returns the
    sizes, the [updated] flag and the iterator as the loop leaves it. The
    constraint lists are in the order the stack iterator visits them. *)
Fixpoint nonstrict_pass (it : list (nat * nat)) (dsizes : list Z) (updated : bool)
    : list Z * bool * list (nat * nat) :=
  match it with
  | [] => (dsizes, updated, [])
  | constr :: rest =>
      if rd dsizes (fst constr) <? rd dsizes (snd constr)
      then nonstrict_pass rest (<[fst constr := rd dsizes (snd constr)]> dsizes) true
      else nonstrict_pass rest dsizes updated
  end.

(** The body of the second [while], run on the iterator it is given. *)
Fixpoint strict_pass (it : list (nat * nat)) (dsizes : list Z) (updated : bool)
    : list Z * bool * list (nat * nat) :=
  match it with
  | [] => (dsizes, updated, [])
  | constr :: rest =>
      if rd dsizes (fst constr) <=? rd dsizes (snd constr)
      then strict_pass rest
             (<[fst constr := U32.add (rd dsizes (snd constr)) 1]> dsizes) true
      else strict_pass rest dsizes updated
  end.

(** The [do ... while (updated)] block. The second loop declares [it2]
    over the strict constraints and then tests and advances [it1], which
    the first loop has left at its end. [None]: out of fuel. *)
Fixpoint sort_constraints_fixpoint (fuel : nat) (inp : Input) (dsizes : list Z)
    : option (list Z) :=
  match fuel with
  | O => None
  | S k =>
      let it1 := _distinct_sort_constraints inp in
      let '(dsizes, updated, it1) := nonstrict_pass it1 dsizes false in
      let it2 := _strict_distinct_sort_constraints inp in
      let '(dsizes, updated, it1) := strict_pass it1 dsizes updated in
      if updated then sort_constraints_fixpoint k inp dsizes else Some dsizes
  end.

(** [_sortModelSizes[s] = _distinctSortSizes[parents[s]]]. *)
Definition sortModelSizes_of (inp : Input) (dsizes : list Z) : list Z :=
  map (fun s => rd dsizes (rdn (parents (_sortedSignature inp)) s))
    (seq 0 (sorts (_sortedSignature inp))).

(** The initial assignment of [runImpl]. *)
Definition initial_sizes (inp : Input) : list Z :=
  map (fun i => Z.max (_startModelSize inp) (rd (_distinctSortMins inp) i))
    (seq 0 (distinctSorts (_sortedSignature inp))).

(** ** The driver [runImpl] *)

Inductive TerminationReason :=
| SATISFIABLE
| REFUTATION
| INAPPROPRIATE
| TIME_LIMIT
| REFUTATION_NOT_FOUND.

Inductive InferenceRule := MODEL_NOT_FOUND | INPUT.

(** [new(0) Clause(0, NonspecificInference0(AXIOM, rule))]. *)
Record RefutationClause := {
  clause_length : nat;
  clause_rule : InferenceRule
}.

Record MainLoopResult := {
  terminationReason : TerminationReason;
  refutation : option RefutationClause
}.

Definition result (r : TerminationReason) : MainLoopResult :=
  {| terminationReason := r; refutation := None |}.

Definition model_not_found : MainLoopResult :=
  {| terminationReason := REFUTATION;
     refutation := Some {| clause_length := 0; clause_rule := MODEL_NOT_FOUND |} |}.

(** The answer of [solveUnderAssumptions] with what the builder reads
    from the solver afterwards. *)
Inductive SATStatus :=
| SAT_SATISFIABLE (assignment : Z -> bool)
| SAT_UNSATISFIABLE (failedAssumptions : list SATLiteral).

(** The builder, its enumerator (null and untouched in CONTOUR mode) and
    the static counter [alternator]. *)
Record Run := {
  builder : FMB;
  _dsaEnumerator : HackyDSAE;
  alternator : Z
}.

Section Driver.

(** Declared outside FiniteModelBuilder.cpp. *)
Variable which_sort : FMB -> Z -> nat.
Variable removeDuplicateLiterals : SATClause -> option SATClause.
Variable heap_top : list Constraint_Generator -> nat.
Variable dsa_init : Input -> list Z -> HackyDSAE -> bool * HackyDSAE.
Variable isFmbComplete : HackyDSAE -> nat -> bool.
(** Outside the embedding: the symmetry axioms, the SAT solver and the
    clock. *)
Variable addNewSymmetryAxioms : Input -> FMB -> list SATClause.
Variable solver : list Event -> SATStatus.
Variable timeLimitReached : list Event -> bool.

(** [addSATClause] on every stack, in order. *)
Definition addSATClauses (st : FMB) (stacks : list SATClause) : FMB :=
  with_clauses st (_clausesToBeAdded st ++ omap removeDuplicateLiterals stacks).

Definition encode (inp : Input) (st : FMB) : FMB :=
  let st := addSATClauses st (addGroundClauses inp st) in
  let st := addSATClauses st (addNewInstances inp st) in
  let st := addSATClauses st (addNewFunctionalDefs inp st) in
  let st := addSATClauses st (addNewSymmetryAxioms inp st) in
  addSATClauses st (addNewTotalityDefs inp st).

(** One failed assumption in the choice of the sort to grow; the
    accumulator is [(domToGrow, domsWeight)]. *)
Definition contour_candidate (inp : Input) (st : FMB) (alt : Z) (acc : Z * Z)
    (lit : SATLiteral) : Z * Z :=
  let dsizes := _distinctSortSizes st in
  let srt := which_sort st (fst lit) in
  if rd dsizes srt =? rd (_distinctSortMaxs inp) srt then acc
  else
    let weight :=
      if negb (alt mod (U32.add (_sizeWeightRatio inp) 1) =? 0)
      then estimateInstanceCount inp (<[srt := U32.add (rd dsizes srt) 1]> dsizes)
      else rd dsizes srt in
    if weight <? snd acc then (Z.of_nat srt, weight) else acc.

Definition contour_choice (inp : Input) (st : FMB) (alt : Z)
    (failed : list SATLiteral) : Z * Z :=
  fold_left (contour_candidate inp st alt) failed (U32.UINT_MAX, U32.UINT_MAX).

(** The outcome of the handling of an UNSAT answer: the new size vector,
    or the result of the run with what is left in [_distinctSortSizes]. *)
Inductive Grown :=
| NewSizes (dsizes : list Z) (e : HackyDSAE)
| Finished (r : MainLoopResult) (dsizes : list Z) (e : HackyDSAE)
| OutOfFuel.

(** CONTOUR: grow the chosen sort, close the constraints. *)
Definition contour_grow (fuel : nat) (inp : Input) (st : FMB) (alt : Z)
    (failed : list SATLiteral) (e : HackyDSAE) : Grown :=
  let '(domToGrow, domsWeight) := contour_choice inp st alt failed in
  if domsWeight <? U32.UINT_MAX then
    let d := Z.to_nat domToGrow in
    let dsizes := <[d := U32.add (rd (_distinctSortSizes st) d) 1]> (_distinctSortSizes st) in
    match sort_constraints_fixpoint fuel inp dsizes with
    | Some dsizes => NewSizes dsizes e
    | None => OutOfFuel
    end
  else Finished model_not_found (_distinctSortSizes st) e.

(** SBMEAM: learn the no-good, ask the enumerator for the next vector. *)
Definition sbmeam_grow (fuel : nat) (inp : Input) (st : FMB) (weight : Z)
    (failed : list SATLiteral) (e : HackyDSAE) : Grown :=
  let nogood := build_nogood inp st failed in
  let e := learnNogood e nogood weight in
  match increaseModelSizes heap_top fuel inp e (_distinctSortSizes st)
          (_distinctSortMaxs inp) with
  | None => OutOfFuel
  | Some (true, dsizes, e) => NewSizes dsizes e
  | Some (false, dsizes, e) =>
      if isFmbComplete e (length dsizes)
      then Finished model_not_found dsizes e
      else Finished (result REFUTATION_NOT_FOUND) dsizes e
  end.

(** CONTOUR, after SAT: the size of sort [i] becomes [j+1] for the first
    [j] whose marker is false in the assignment. *)
Definition retract_sizes (st : FMB) (assignment : Z -> bool) : list Z :=
  map (fun i =>
         let size := rd (_distinctSortSizes st) i in
         match find (fun j => negb (assignment (U32.add (rd (marker_offsets st) i) j)))
                    (zrange 0 (size - 1)) with
         | Some j => U32.add j 1
         | None => U32.add size 1
         end)
    (seq 0 (length (_distinctSortSizes st))).

(** The builder when [solveUnderAssumptions] is called: the clauses are
    built, handed to the solver, and the assumptions are pushed. *)
Definition before_solve (inp : Input) (st : FMB) : FMB :=
  let st := encode inp st in
  let st := log st (AddClauses (_clausesToBeAdded st)) in
  log st (SolveUnderAssumptions (assumptions inp st)).

(** The [while(true)] loop. [None]: out of fuel. *)
Fixpoint main_loop (fuel : nat) (inp : Input) (r : Run) : option (MainLoopResult * Run) :=
  match fuel with
  | O => None
  | S k =>
      let st := builder r in
      if timeLimitReached (trace st)
      then Some (result TIME_LIMIT, r)
      else
        let st := before_solve inp st in
        match solver (trace st) with
        | SAT_SATISFIABLE assignment =>
            let st :=
              if _xmass inp
              then with_sizes st (_sortModelSizes st) (retract_sizes st assignment)
              else st in
            Some (result SATISFIABLE,
                  {| builder := st; _dsaEnumerator := _dsaEnumerator r;
                     alternator := alternator r |})
        | SAT_UNSATISFIABLE failed =>
            let weight := U32.wrap (Z.of_nat (length (_clausesToBeAdded st))) in
            let st := with_clauses st [] in
            let alt := if _xmass inp then U32.add (alternator r) 1 else alternator r in
            let grown :=
              if _xmass inp
              then contour_grow k inp st alt failed (_dsaEnumerator r)
              else sbmeam_grow k inp st weight failed (_dsaEnumerator r) in
            match grown with
            | OutOfFuel => None
            | Finished res dsizes e =>
                Some (res, {| builder := with_sizes st (_sortModelSizes st) dsizes;
                              _dsaEnumerator := e; alternator := alt |})
            | NewSizes dsizes e =>
                let st := with_sizes st (sortModelSizes_of inp dsizes) dsizes in
                let '(st, ok) := reset inp st in
                let r' := {| builder := st; _dsaEnumerator := e; alternator := alt |} in
                if ok then main_loop k inp r'
                else Some (result REFUTATION_NOT_FOUND, r')
            end
        end
  end.

(** [runImpl]. *)
Definition runImpl (fuel : nat) (inp : Input) (r : Run) : option (MainLoopResult * Run) :=
  if negb (_isAppropriate inp) then Some (result INAPPROPRIATE, r)
  else
    match units inp with
    | [] => Some (result SATISFIABLE, r)
    | _ :: _ =>
        let dsizes := initial_sizes inp in
        let st := with_sizes (builder r) (sortModelSizes_of inp dsizes) dsizes in
        let '(ok, e) :=
          if _xmass inp then (true, _dsaEnumerator r)
          else dsa_init inp dsizes (_dsaEnumerator r) in
        if ok then
          let '(st, ok) := reset inp st in
          let r' := {| builder := st; _dsaEnumerator := e; alternator := alternator r |} in
          if ok then main_loop fuel inp r'
          else Some (result REFUTATION_NOT_FOUND, r')
        else
          Some (result REFUTATION_NOT_FOUND,
                {| builder := st; _dsaEnumerator := e; alternator := alternator r |})
    end.

End Driver.


(** ** Vocabulary of the properties *)

Definition isTwoVarEquality (lit : Literal) : bool :=
  match lit with TwoVarEq _ _ _ => true | _ => false end.

(** A two-variable equality that is true under the grounding: positive
    with equal values, or negative with different values. *)
Definition true_under (grounding : list Z) (lit : Literal) : bool :=
  match lit with
  | TwoVarEq polarity x y => Bool.eqb polarity (rd grounding x =? rd grounding y)
  | _ => false
  end.

(** The SAT literal of a literal that is not a two-variable equality. *)
Definition translated (inp : Input) (st : FMB) (grounding : list Z) (lit : Literal)
    : list SATLiteral :=
  match lit with
  | TwoVarEq _ _ _ => []
  | FunEq polarity functor args res =>
      [getSATLiteral inp st functor (map (rd grounding) args ++ [rd grounding res])
         polarity true]
  | PredLit polarity functor args =>
      [getSATLiteral inp st functor (map (rd grounding) args) polarity false]
  end.

(** The result sort of [f], its distinct sort and the bound on the result
    values, as [addNewTotalityDefs] computes them. *)
Definition retSrt (inp : Input) (f : nat) : nat :=
  rdn (rdl (functionSignatures (_sortedSignature inp)) f)
      (rdn (functionArity (signature inp)) f).

Definition dRetSrt (inp : Input) (f : nat) : nat :=
  rdn (parents (_sortedSignature inp)) (retSrt inp f).

Definition maxRtSrtSize (inp : Input) (st : FMB) (f : nat) : Z :=
  boundedSize inp st (retSrt inp f).

(** The reading of the design document: the clause of version [i] carries
    the marker of index [min(i-1, size-1)]. *)
Definition marker_index_is_min (inp : Input) (st : FMB) : Prop :=
  forall f args i,
    (f < functions (signature inp))%nat ->
    rdb (del_f inp) f = false ->
    In i (totality_versions inp (dRetSrt inp f) (maxRtSrtSize inp st f)) ->
    In (U32.add (rd (marker_offsets st) (dRetSrt inp f))
          (Z.min (i - 1) (rd (_distinctSortSizes st) (dRetSrt inp f) - 1)), true)
       (totality_clause inp st f args (dRetSrt inp f) (maxRtSrtSize inp st f) i).

(** A size vector matches a no-good: equal on the [EQ] entries, at least
    the [GEQ] entries, at most the [LEQ] entries. *)
Definition matches (v : list Z) (G : Constraint_Generator_Vals) : Prop :=
  forall j, (j < length v)%nat ->
    match fst (rdc G j) with
    | EQ => snd (rdc G j) = rd v j
    | GEQ => snd (rdc G j) <= rd v j
    | LEQ => snd (rdc G j) >= rd v j
    | STAR => True
    end.

(** The assumption variable [var] is among the failed assumptions. *)
Definition failedVar (failed : list SATLiteral) (var : Z) : bool :=
  existsb (fun l => fst l =? var) failed.

(** The tag of sort [s] in the no-good, by the failed assumptions. *)
Definition nogood_tag (inp : Input) (st : FMB) (failed : list SATLiteral) (s : nat)
    : ConstraintSign :=
  if failedVar failed (totalityMarker_offset st + Z.of_nat s) then
    if rdb (monotonicSorts (_sortedSignature inp)) s then LEQ else EQ
  else if failedVar failed (instancesMarker_offset st + Z.of_nat s) then GEQ
  else STAR.

(** Every distinct sort's size lies between its minimum and its maximum. *)
Definition within_bounds (inp : Input) (dsizes : list Z) : Prop :=
  length dsizes = distinctSorts (_sortedSignature inp)
  /\ forall s, (s < distinctSorts (_sortedSignature inp))%nat ->
       rd (_distinctSortMins inp) s <= rd dsizes s <= rd (_distinctSortMaxs inp) s.

(** The sizes a generator holds lie within the bounds and below [K]. *)
Definition generator_within (inp : Input) (K : Z) (G : Constraint_Generator) : Prop :=
  forall s, (s < distinctSorts (_sortedSignature inp))%nat ->
    rd (_distinctSortMins inp) s <= snd (rdc (_vals G) s) <= rd (_distinctSortMaxs inp) s
    /\ snd (rdc (_vals G) s) <= K.

Definition heap_within (inp : Input) (K : Z) (e : HackyDSAE) : Prop :=
  forall G, In G (_constraints_generators e) -> generator_within inp K G.

(** A candidate vector: within the bounds and below [K] everywhere, except
    that the incremented sort [i] may exceed its maximum. *)
Definition candidate (inp : Input) (K : Z) (i : nat) (v : list Z) : Prop :=
  forall s, (s < distinctSorts (_sortedSignature inp))%nat ->
    rd (_distinctSortMins inp) s <= rd v s <= K
    /\ (s <> i -> rd v s <= rd (_distinctSortMaxs inp) s).

(** *** The layout of the SAT variables *)

(** The sizes of the slots of a signature. *)
Definition slotSizes (st : FMB) (sig : list nat) : list Z :=
  map (rd (_sortModelSizes st)) sig.

Definition sum (l : list Z) : Z := fold_right Z.add 0 l.

(** The mixed-radix index of the design document:
    [Sum_i (tuple[i]-1) * Prod_{j<i} size(sort_j)]. *)
Definition mixedRadixIndex (ssz tuple : list Z) : Z :=
  sum (map (fun i => (rd tuple i - 1) * product (firstn i ssz)) (seq 0 (length tuple))).

(** The same index, slot by slot. *)
Fixpoint horner (ssz tuple : list Z) {struct tuple} : Z :=
  match tuple, ssz with
  | x :: t, s :: ss => (x - 1) + s * horner ss t
  | _, _ => 0
  end.

(** A tuple within the domain sizes of its slots: values in [1..size]. *)
Definition in_domain (ssz tuple : list Z) : Prop :=
  Forall2 (fun x s => 1 <= x <= s) tuple ssz.

(** A symbol that owns a block: a function, or a predicate other than
    equality, that is not deleted. *)
Definition is_symbol (inp : Input) (isFunction : bool) (f : nat) : Prop :=
  if isFunction
  then (f < functions (signature inp))%nat /\ rdb (del_f inp) f = false
  else (1 <= f < predicates (signature inp))%nat /\ rdb (del_p inp) f = false.

(** The variable of a symbol at a tuple, and the tuples it is defined on. *)
Definition varId (inp : Input) (st : FMB) (isFunction : bool) (f : nat)
    (tuple : list Z) : Z :=
  fst (getSATLiteral inp st f tuple true isFunction).

Definition is_tuple (inp : Input) (st : FMB) (isFunction : bool) (f : nat)
    (tuple : list Z) : Prop :=
  in_domain (slotSizes st (symbol_signature inp isFunction f)) tuple.

(** The number of variables a symbol needs, without wrap-around. *)
Definition blockSize (inp : Input) (st : FMB) (isFunction : bool) (f : nat) : Z :=
  product (slotSizes st (symbol_signature inp isFunction f)).

Definition blocksTotal (B : nat -> Z) (del : list bool) (syms : list nat) : Z :=
  fold_right (fun f acc => (if rdb del f then 0 else B f) + acc) 0 syms.

(** The number of marker variables: one per value of every distinct sort
    in CONTOUR mode, two per distinct sort in SBMEAM mode. *)
Definition markerCount (inp : Input) (st : FMB) : Z :=
  if _xmass inp
  then fold_right (fun i acc => rd (_distinctSortSizes st) i + acc) 0
         (seq 0 (length (_distinctSortSizes st)))
  else 2 * Z.of_nat (length (_distinctSortSizes st)).

(** The symbols [reset] walks, and their deleted flags. *)
Definition symbolSyms (inp : Input) (isFunction : bool) : list nat :=
  if isFunction then seq 0 (functions (signature inp))
  else seq 1 (predicates (signature inp) - 1).

Definition symbolDel (inp : Input) (isFunction : bool) : list bool :=
  if isFunction then del_f inp else del_p inp.

(** The first variable after the blocks of the functions, and after the
    blocks of all the symbols. *)
Definition functionsEnd (inp : Input) (st : FMB) : Z :=
  1 + blocksTotal (blockSize inp st true) (symbolDel inp true) (symbolSyms inp true).

Definition symbolsEnd (inp : Input) (st : FMB) : Z :=
  functionsEnd inp st
  + blocksTotal (blockSize inp st false) (symbolDel inp false) (symbolSyms inp false).

(** The builder can be laid out: the tables have the size [init] gives
    them, every slot of a symbol has a sort of size at least 1, and the
    number of variables, counted without wrap-around, fits [VAR_MAX]. *)
Definition Encodable (inp : Input) (st : FMB) : Prop :=
  length (f_offsets st) = functions (signature inp)
  /\ length (p_offsets st) = predicates (signature inp)
  /\ (forall isFunction f, is_symbol inp isFunction f ->
        Forall (fun srt => 1 <= rd (_sortModelSizes st) srt)
          (symbol_signature inp isFunction f))
  /\ (forall f, is_symbol inp true f -> symbol_signature inp true f <> [])
  /\ (forall i, 0 <= rd (_distinctSortSizes st) i)
  /\ symbolsEnd inp st + markerCount inp st <= VAR_MAX inp
  /\ VAR_MAX inp < U32.modulus.

(** The reading of the design document: every variable up to
    [_curMaxVar] is the variable of some symbol at some tuple. *)
Definition varId_onto_curMaxVar (inp : Input) (st : FMB) : Prop :=
  forall v, 1 <= v <= _curMaxVar st ->
    exists isFunction f tuple,
      is_symbol inp isFunction f /\ is_tuple inp st isFunction f tuple
      /\ varId inp st isFunction f tuple = v.

(** Recorded offsets of consecutive blocks starting at [offsets]. *)
Fixpoint laid_out (offs : list Z) (B : nat -> Z) (del : list bool)
    (syms : list nat) (offsets : Z) : Prop :=
  match syms with
  | [] => True
  | f :: rest =>
      if rdb del f then laid_out offs B del rest offsets
      else rd offs f = offsets /\ laid_out offs B del rest (offsets + B f)
  end.

(** *** Groundings and assignments *)

(** The position of a grounding in the order the odometer visits them. *)
Fixpoint rank (maxVarSize grounding : list Z) {struct grounding} : Z :=
  match grounding, maxVarSize with
  | x :: g, m :: ms => (x - 1) * product ms + rank ms g
  | _, _ => 0
  end.

(** A literal, a clause under an assignment of the SAT variables. *)
Definition sat_literal (a : Z -> bool) (l : SATLiteral) : bool :=
  Bool.eqb (a (fst l)) (snd l).

Definition sat_clause (a : Z -> bool) (cl : SATClause) : bool :=
  existsb (sat_literal a) cl.

(** What [SATClause::removeDuplicateLiterals] is relied on for: the clause
    it returns has the same literals, and it returns null only for a
    clause with a variable in both polarities. *)
Definition removeDuplicateLiterals_ok (rdl : SATClause -> option SATClause) : Prop :=
  forall cl,
    match rdl cl with
    | Some cl' => forall l, In l cl' <-> In l cl
    | None => exists v, In (v, true) cl /\ In (v, false) cl
    end.

(** The bounds [addNewFunctionalDefs] and [addNewTotalityDefs] put on the
    arguments of [f]. *)
Definition argumentBounds (inp : Input) (st : FMB) (f : nat) : list Z :=
  map (fun var => boundedSize inp st
                    (rdn (rdl (functionSignatures (_sortedSignature inp)) f) var))
    (seq 0 (rdn (functionArity (signature inp)) f)).


(** The reading of the design document: of the result variables of [f] at
    [args], one for every value [1..size] of the result sort, exactly one
    is true in an assignment that satisfies the clauses and the
    assumptions. *)
Definition exactly_one_result_variable
    (removeDuplicateLiterals : SATClause -> option SATClause)
    (addNewSymmetryAxioms : Input -> FMB -> list SATClause)
    (inp : Input) (st : FMB) : Prop :=
  forall (a : Z -> bool) (f : nat) (args : list Z),
    (forall cl,
       In cl (_clausesToBeAdded
                (encode removeDuplicateLiterals addNewSymmetryAxioms inp st)) ->
       sat_clause a cl = true) ->
    (forall l, In l (assumptions inp st) -> sat_literal a l = true) ->
    (f < functions (signature inp))%nat ->
    rdb (del_f inp) f = false ->
    in_domain (argumentBounds inp st f) args ->
    exists r,
      (1 <= r <= rd (_sortModelSizes st) (retSrt inp f)
       /\ a (varId inp st true f (args ++ [r])) = true)
      /\ forall r',
           1 <= r' <= rd (_sortModelSizes st) (retSrt inp f) ->
           a (varId inp st true f (args ++ [r'])) = true -> r' = r.

(** ** A small problem used to run the embedding

    One source sort, which is its own distinct sort; a constant [f0] and a
    unary function [f1]; equality and a unary predicate [p1]. *)

Definition ex_sortedSignature (bound : Z) (mono : bool) : SortedSignature :=
  {| sorts := 1; distinctSorts := 1; parents := [0%nat];
     sortBounds := [bound]; monotonicSorts := [mono];
     functionSignatures := [[0%nat]; [0%nat; 0%nat]];
     predicateSignatures := [[0%nat; 0%nat]; [0%nat]] |}.

Definition ex_signature : Signature :=
  {| functions := 2; predicates := 2;
     functionArity := [0%nat; 1%nat]; predicateArity := [2%nat; 1%nat] |}.

Definition ex_input (xmass : bool) (bound max : Z) (us : list (list Literal)) : Input :=
  {| VAR_MAX := 2 ^ 30 - 1;
     signature := ex_signature;
     _sortedSignature := ex_sortedSignature bound false;
     del_f := [false; false]; del_p := [false; false];
     _xmass := xmass;
     _startModelSize := 1;
     _sizeWeightRatio := 1;
     _distinctSortMins := [1];
     _distinctSortMaxs := [max];
     _distinct_sort_constraints := [];
     _strict_distinct_sort_constraints := [];
     _clauses := [];
     _groundClauses := [];
     _isAppropriate := true;
     units := us |}.

(** Two sorts, each its own distinct sort, a constant in each, and sort
    constraints between them; CONTOUR mode. *)
Definition ex2_input (start : Z) (mins maxs : list Z)
    (nonstrict strict : list (nat * nat)) : Input :=
  {| VAR_MAX := 2 ^ 30 - 1;
     signature := {| functions := 2; predicates := 1;
                     functionArity := [0%nat; 0%nat]; predicateArity := [2%nat] |};
     _sortedSignature :=
       {| sorts := 2; distinctSorts := 2; parents := [0%nat; 1%nat];
          sortBounds := [U32.UINT_MAX; U32.UINT_MAX];
          monotonicSorts := [false; false];
          functionSignatures := [[0%nat]; [1%nat]];
          predicateSignatures := [[0%nat; 0%nat]] |};
     del_f := [false; false]; del_p := [false];
     _xmass := true;
     _startModelSize := start;
     _sizeWeightRatio := 1;
     _distinctSortMins := mins;
     _distinctSortMaxs := maxs;
     _distinct_sort_constraints := nonstrict;
     _strict_distinct_sort_constraints := strict;
     _clauses := [];
     _groundClauses := [];
     _isAppropriate := true;
     units := [[PredLit true 0 [0%nat; 0%nat]]] |}.

Definition ex2_builder (dsizes : list Z) : FMB :=
  {| _sortModelSizes := dsizes; _distinctSortSizes := dsizes;
     f_offsets := [0; 0]; p_offsets := [0]; marker_offsets := [];
     totalityMarker_offset := 0; instancesMarker_offset := 0;
     _curMaxVar := 0; _clausesToBeAdded := []; trace := [] |}.

(** The builder as [init] leaves it, with the sort at size [n]. *)
Definition ex_builder (n : Z) : FMB :=
  {| _sortModelSizes := [n]; _distinctSortSizes := [n];
     f_offsets := [0; 0]; p_offsets := [0; 0]; marker_offsets := [];
     totalityMarker_offset := 0; instancesMarker_offset := 0;
     _curMaxVar := 0; _clausesToBeAdded := []; trace := [] |}.

(** CONTOUR mode with the sort bounded by 1 and at size 2, after [reset]:
    [f0] owns variables 1-2, [f1] 3-6, [p1] 7-8, the markers are 9 and 10. *)
Definition ex_bounded_input : Input := ex_input true 1 U32.UINT_MAX [].
Definition ex_bounded_builder : FMB := fst (reset ex_bounded_input (ex_builder 2)).

(** An assignment of that problem in which both result variables of the
    constant [f0] are true: [f0 = 1], [f0 = 2], [f1(1) = 1], and both
    markers false. *)
Definition ex_bounded_assignment : Z -> bool :=
  fun v => existsb (Z.eqb v) [1; 2; 3].

(** SBMEAM mode at size 2 with the flat clause [X0 = X1 | p1(X0)]. *)
Definition ex_equality_clause : Clause :=
  {| literals := [TwoVarEq true 0 1; PredLit true 1 [0%nat]];
     varCnt := 2; varSorts := Some [0%nat; 0%nat] |}.

Definition ex_equality_input : Input :=
  {| VAR_MAX := 2 ^ 30 - 1;
     signature := ex_signature;
     _sortedSignature := ex_sortedSignature U32.UINT_MAX false;
     del_f := [false; false]; del_p := [false; false];
     _xmass := false;
     _startModelSize := 1;
     _sizeWeightRatio := 1;
     _distinctSortMins := [1];
     _distinctSortMaxs := [U32.UINT_MAX];
     _distinct_sort_constraints := [];
     _strict_distinct_sort_constraints := [];
     _clauses := [ex_equality_clause];
     _groundClauses := [];
     _isAppropriate := true;
     units := [] |}.

Definition ex_equality_builder : FMB := fst (reset ex_equality_input (ex_builder 2)).

(** SBMEAM mode at size 2, after [reset]: [f0] owns variables 1-2, [f1]
    3-6, [p1] 7-8, the markers are 9 and 10; and the assignment in which
    [f0 = 1] and [f1] maps both values to 1. *)
Definition ex_sized_input : Input := ex_input false U32.UINT_MAX U32.UINT_MAX [].
Definition ex_sized_builder : FMB := fst (reset ex_sized_input (ex_builder 2)).
Definition ex_assignment : Z -> bool :=
  fun v => existsb (Z.eqb v) [1; 3; 4; 9; 10].

Definition ex_enumerator : HackyDSAE :=
  {| _constraints_generators := []; _old_generators := [];
     _maxWeightSoFar := 0; _keepOldGenerators := false |}.


(** The run after a [reset] at size [n]. *)
Definition ex_run_reset (xmass : bool) (n : Z) : Run :=
  {| builder := fst (reset (ex_input xmass U32.UINT_MAX n [[PredLit true 1 [0%nat]]])
                       (ex_builder n));
     _dsaEnumerator := ex_enumerator; alternator := 0 |}.

Definition ex_removeDuplicateLiterals : SATClause -> option SATClause := Some.
Definition ex_heap_top : list Constraint_Generator -> nat := fun _ => 0%nat.
Definition ex_isFmbComplete : HackyDSAE -> nat -> bool := fun _ _ => true.
Definition ex_symmetry : Input -> FMB -> list SATClause := fun _ _ => [].

(** ** Vocabulary of the further properties *)

(** The groundings the odometer visits, in the order it visits them. *)
Definition visited (maxVarSize : list Z) : list (list Z) :=
  odometer maxVarSize (fun grounding => [grounding]).


(** The weight [runImpl] gives, in CONTOUR mode, to the sort of a failed
    assumption, and whether that sort can still grow. *)
Definition contour_weight (which_sort : FMB -> Z -> nat) (inp : Input) (st : FMB)
    (alt : Z) (lit : SATLiteral) : Z :=
  let dsizes := _distinctSortSizes st in
  let srt := which_sort st (fst lit) in
  if negb (alt mod (U32.add (_sizeWeightRatio inp) 1) =? 0)
  then estimateInstanceCount inp (<[srt := U32.add (rd dsizes srt) 1]> dsizes)
  else rd dsizes srt.

Definition growable (which_sort : FMB -> Z -> nat) (inp : Input) (st : FMB)
    (lit : SATLiteral) : Prop :=
  rd (_distinctSortSizes st) (which_sort st (fst lit))
  <> rd (_distinctSortMaxs inp) (which_sort st (fst lit)).

(** A size vector above [dsizes] that satisfies the non-strict sort
    constraints. *)
Definition closed_above (inp : Input) (dsizes w : list Z) : Prop :=
  (forall s, rd dsizes s <= rd w s)
  /\ forall a b, In (a, b) (_distinct_sort_constraints inp) -> rd w b <= rd w a.

(** The copy loop of [increaseModelSizes]:
    [newSortSizes[i] = generator[i].second] for [i < n]. *)
Definition generator_sizes (G : Constraint_Generator) (n : nat) : list Z :=
  map (fun i => snd (rdc (_vals G) i)) (seq 0 n).

(** The sizes the generators of the heap hold are values of [unsigned]. *)
Definition unsigned_generator (G : Constraint_Generator) : Prop :=
  forall j, 0 <= snd (rdc (_vals G) j) < U32.modulus.

Definition unsigned_heap (e : HackyDSAE) : Prop :=
  forall G, In G (_constraints_generators e) -> unsigned_generator G.

(** Both families of sort constraints hold of a size vector. *)
Definition satisfies_constraints (inp : Input) (v : list Z) : Prop :=
  (forall a b, In (a, b) (_distinct_sort_constraints inp) -> rd v b <= rd v a)
  /\ (forall a b, In (a, b) (_strict_distinct_sort_constraints inp) -> rd v b < rd v a).

(** A generator the enumerator holds, in the heap or among the old ones. *)
Definition held (e : HackyDSAE) (G : Constraint_Generator) : Prop :=
  In G (_constraints_generators e) \/ In G (_old_generators e).

(** The two-sort problem in SBMEAM mode, and an enumerator that keeps its
    old generators and holds the no-good [EQ 1, EQ 1]. *)
Definition ex2_sbmeam_input (maxs : list Z) (nonstrict strict : list (nat * nat)) : Input :=
  {| VAR_MAX := 2 ^ 30 - 1;
     signature := {| functions := 2; predicates := 1;
                     functionArity := [0%nat; 0%nat]; predicateArity := [2%nat] |};
     _sortedSignature :=
       {| sorts := 2; distinctSorts := 2; parents := [0%nat; 1%nat];
          sortBounds := [U32.UINT_MAX; U32.UINT_MAX];
          monotonicSorts := [false; false];
          functionSignatures := [[0%nat]; [1%nat]];
          predicateSignatures := [[0%nat; 0%nat]] |};
     del_f := [false; false]; del_p := [false];
     _xmass := false;
     _startModelSize := 1;
     _sizeWeightRatio := 1;
     _distinctSortMins := [1; 1];
     _distinctSortMaxs := maxs;
     _distinct_sort_constraints := nonstrict;
     _strict_distinct_sort_constraints := strict;
     _clauses := [];
     _groundClauses := [];
     _isAppropriate := true;
     units := [[PredLit true 0 [0%nat; 0%nat]]] |}.

Definition ex2_enumerator : HackyDSAE :=
  {| _constraints_generators := [{| _vals := [(EQ, 1); (EQ, 1)]; _weight := 0 |}];
     _old_generators := [];
     _maxWeightSoFar := 0; _keepOldGenerators := true |}.

(** The SAT variable of marker [j] of distinct sort [i] in CONTOUR mode:
    [marker_offsets[i]+j]. *)
Definition marker (st : FMB) (i : nat) (j : Z) : Z :=
  U32.add (rd (marker_offsets st) i) j.

(** CONTOUR mode at size 2 after [reset], and the assignment in which
    [f0 = 1], [f1] maps both values to 1 and both markers are false. *)
Definition ex_contour_input : Input := ex_input true U32.UINT_MAX U32.UINT_MAX [].
Definition ex_contour_builder : FMB := fst (reset ex_contour_input (ex_builder 2)).

(** The number of groundings of a clause and of all the clauses, counted
    without wrap-around: what [estimateInstanceCount] computes in 32 bits. *)
Definition clause_groundings (inp : Input) (dsizes : list Z) (c : Clause) : Z :=
  match varSorts c with
  | None => 0
  | Some vs =>
      product (map (fun var =>
                      Z.min (rd dsizes (rdn (parents (_sortedSignature inp)) (rdn vs var)))
                            (rd (sortBounds (_sortedSignature inp)) (rdn vs var)))
                 (seq 0 (varCnt c)))
  end.

Definition instanceCount (inp : Input) (dsizes : list Z) : Z :=
  sum (map (clause_groundings inp dsizes) (_clauses inp)).

(** The sizes of the sorts follow those of their distinct sorts on the
    variables of the clauses, and every variable ranges over at least one
    value. *)
Definition clauses_sized (inp : Input) (st : FMB) : Prop :=
  forall c vs, In c (_clauses inp) -> varSorts c = Some vs ->
    forall var, (var < varCnt c)%nat ->
      rd (_sortModelSizes st) (rdn vs var)
      = rd (_distinctSortSizes st) (rdn (parents (_sortedSignature inp)) (rdn vs var))
      /\ 1 <= Z.min (rd (_sortModelSizes st) (rdn vs var))
                    (rd (sortBounds (_sortedSignature inp)) (rdn vs var)).

(** The small problem with the clause [f1(X0) = X1 \/ p1(X1)]. *)
Definition ex_clause : Clause :=
  {| literals := [FunEq true 1 [0%nat] 1; PredLit true 1 [1%nat]];
     varCnt := 2; varSorts := Some [0%nat; 0%nat] |}.

Definition ex_clausal_input : Input :=
  {| VAR_MAX := 2 ^ 30 - 1;
     signature := ex_signature;
     _sortedSignature := ex_sortedSignature U32.UINT_MAX false;
     del_f := [false; false]; del_p := [false; false];
     _xmass := false;
     _startModelSize := 1;
     _sizeWeightRatio := 1;
     _distinctSortMins := [1];
     _distinctSortMaxs := [U32.UINT_MAX];
     _distinct_sort_constraints := [];
     _strict_distinct_sort_constraints := [];
     _clauses := [ex_clause];
     _groundClauses := [];
     _isAppropriate := true;
     units := [[PredLit true 1 [0%nat]]] |}.

(** What a result of the main loop rests on. [SATISFIABLE]: the solver
    answered SAT on the clauses built from some builder state, and the
    builder is left as that call left it, with the sizes retracted in
    CONTOUR mode. [REFUTATION]: the solver answered UNSAT and the result
    carries the empty clause of rule [MODEL_NOT_FOUND]. [TIME_LIMIT]: the
    clock said so at the state returned. *)
Definition result_grounded
    (removeDuplicateLiterals : SATClause -> option SATClause)
    (addNewSymmetryAxioms : Input -> FMB -> list SATClause)
    (solver : list Event -> SATStatus) (timeLimitReached : list Event -> bool)
    (inp : Input) (res : MainLoopResult) (r' : Run) : Prop :=
  match terminationReason res with
  | SATISFIABLE =>
      exists st assignment,
        let solved := before_solve removeDuplicateLiterals addNewSymmetryAxioms inp st in
        solver (trace solved) = SAT_SATISFIABLE assignment
        /\ refutation res = None
        /\ builder r'
           = if _xmass inp
             then with_sizes solved (_sortModelSizes solved) (retract_sizes solved assignment)
             else solved
  | REFUTATION =>
      exists st failed,
        solver (trace (before_solve removeDuplicateLiterals addNewSymmetryAxioms inp st))
        = SAT_UNSATISFIABLE failed
        /\ res = model_not_found
  | TIME_LIMIT => timeLimitReached (trace (builder r')) = true /\ refutation res = None
  | REFUTATION_NOT_FOUND => refutation res = None
  | INAPPROPRIATE => False
  end.

(** ** [onModelFound]: the interpretation of the functions *)

(** The calls [model.addConstantDefinition(f,c)] and
    [model.addFunctionDefinition(f,grounding,c)] that [onModelFound] makes,
    in order, when the proof output is not switched off. *)
Inductive ModelDefinition :=
| ConstantDefinition (f : nat) (c : Z)
| FunctionDefinition (f : nat) (grounding : list Z) (c : Z).

(** [_solver->trueInAssignment(slit)]. *)
Definition trueInAssignment (assignment : Z -> bool) (slit : SATLiteral) : bool :=
  sat_literal assignment slit.

(** "Record interpretation of constants": the values [c] up to the size
    of the sort whose literal is true. *)
Definition recordConstants (inp : Input) (st : FMB) (assignment : Z -> bool)
    : list ModelDefinition :=
  flat_map (fun f =>
    if (0 <? rdn (functionArity (signature inp)) f)%nat then []
    else if rdb (del_f inp) f then []
    else
      flat_map (fun c =>
        if trueInAssignment assignment (getSATLiteral inp st f [c] true true)
        then [ConstantDefinition f c] else [])
        (zrange 1 (rd (_sortModelSizes st)
                     (rdn (rdl (functionSignatures (_sortedSignature inp)) f) 0))))
    (seq 0 (functions (signature inp))).

(** "Record interpretation of functions": for every grounding of the
    arguments, the values [c] up to [maxRtSrtSize] whose literal is true. *)
Definition recordFunctions (inp : Input) (st : FMB) (assignment : Z -> bool)
    : list ModelDefinition :=
  flat_map (fun f =>
    let arity := rdn (functionArity (signature inp)) f in
    if (arity =? 0)%nat then []
    else if rdb (del_f inp) f then []
    else
      let f_signature := rdl (functionSignatures (_sortedSignature inp)) f in
      let maxVarSize :=
        map (fun var => Z.min (rd (sortBounds (_sortedSignature inp)) (rdn f_signature var))
                              (rd (_sortModelSizes st) (rdn f_signature var)))
          (seq 0 arity) in
      let retSrt := rdn f_signature arity in
      let maxRtSrtSize := Z.min (rd (sortBounds (_sortedSignature inp)) retSrt)
                                (rd (_sortModelSizes st) retSrt) in
      odometer maxVarSize (fun grounding =>
        flat_map (fun c =>
          if trueInAssignment assignment (getSATLiteral inp st f (grounding ++ [c]) true true)
          then [FunctionDefinition f grounding c] else [])
          (zrange 1 maxRtSrtSize)))
    (seq 0 (functions (signature inp))).

(** ** [SmtBasedDSAE::learnNogood] *)

(** The atoms of the clause handed to the SMT solver, over the integer
    constants [s_i] that stand for the sizes: [s_i != val], [s_i > val],
    [s_i < val]. The clause is their disjunction, built from [false]. *)
Inductive SizeAtom :=
| SizeNe (i : nat) (val : Z)
| SizeGt (i : nat) (val : Z)
| SizeLt (i : nat) (val : Z).

Definition smt_nogood_clause (nogood : Constraint_Generator_Vals) : list SizeAtom :=
  flat_map (fun i =>
    match fst (rdc nogood i) with
    | EQ => [SizeNe i (snd (rdc nogood i))]
    | LEQ => [SizeGt i (snd (rdc nogood i))]
    | GEQ => [SizeLt i (snd (rdc nogood i))]
    | STAR => []
    end) (seq 0 (length nogood)).

(** The value of an atom and of a clause under an interpretation of the
    size constants. *)
Definition atom_holds (sizes : list Z) (atom : SizeAtom) : bool :=
  match atom with
  | SizeNe i val => negb (rd sizes i =? val)
  | SizeGt i val => rd sizes i >? val
  | SizeLt i val => rd sizes i <? val
  end.

Definition clause_holds (sizes : list Z) (clause : list SizeAtom) : bool :=
  existsb (atom_holds sizes) clause.

(** ** Symmetry breaking: [createSymmetryOrdering] and the ordering axioms *)

(** [struct GroundedTerm]: a function symbol and the values of its
    arguments. *)
Record GroundedTerm := {
  gt_f : nat;
  gt_grounding : list Z
}.

(** [Options::FMBWidgetOrders]. *)
Inductive FMBWidgetOrders := FUNCTION_FIRST | ARGUMENT_FIRST | DIAGONAL.

(** The two fields of [SortedSignature] that only the symmetry code reads:
    the constants and the functions of every sort. *)
Record SortedSymbols := {
  sortedConstants : list (list nat);
  sortedFunctions : list (list nat)
}.

(** The body of the two inner loops of [createSymmetryOrdering]: the term
    pushed for function [gf] grounded with [groundWith], or nothing when
    the range of [gf] is bounded below [size] or an argument is out of the
    bound of its sort. *)
Definition symmetry_widget (inp : Input) (st : FMB) (size : Z) (gf : nat)
    (groundWith : Z) : list GroundedTerm :=
  let arity := rdn (functionArity (signature inp)) gf in
  let f_signature := rdl (functionSignatures (_sortedSignature inp)) gf in
  let gfsrt := rdn f_signature arity in
  if rd (sortBounds (_sortedSignature inp)) gfsrt <? size then []
  else
    let grounding :=
      map (fun i => Z.min groundWith (rd (_sortModelSizes st) (rdn f_signature i)))
        (seq 0 arity) in
    let outOfBounds :=
      existsb (fun i => rd (sortBounds (_sortedSignature inp)) (rdn f_signature i)
                        <? rd grounding i) (seq 0 arity) in
    if outOfBounds then [] else [{| gt_f := gf; gt_grounding := grounding |}].

(** [1+((m+f)%size)] in [unsigned] arithmetic. *)
Definition diagonal (size m : Z) (f : nat) : Z :=
  U32.add 1 (U32.add m (Z.of_nat f) mod size).

(** The constants of sort [s], pushed first. *)
Definition constant_terms (sym : SortedSymbols) (s : nat) : list GroundedTerm :=
  map (fun c => {| gt_f := c; gt_grounding := [] |}) (rdl (sortedConstants sym) s).

(** [_sortedGroundedTerms[s]] after [createSymmetryOrdering], for a size of
    the sort below [UINT_MAX] (at [UINT_MAX] the loop over [m] does not
    end). [ARGUMENT_FIRST] falls through to the code of [DIAGONAL] with
    [arg_first] set. *)
Definition createSymmetryOrdering_sort (order : FMBWidgetOrders) (sym : SortedSymbols)
    (inp : Input) (st : FMB) (s : nat) : list GroundedTerm :=
  let size := rd (_sortModelSizes st) s in
  let funs := rdl (sortedFunctions sym) s in
  constant_terms sym s ++
  match order with
  | FUNCTION_FIRST =>
      flat_map (fun f =>
        flat_map (fun m => symmetry_widget inp st size (rdn funs f) m) (zrange 1 size))
        (seq 0 (length funs))
  | _ =>
      let arg_first := match order with ARGUMENT_FIRST => true | _ => false end in
      flat_map (fun m =>
        flat_map (fun f =>
          let groundWith := if arg_first then m else diagonal size m f in
          symmetry_widget inp st size (rdn funs f) groundWith)
          (seq 0 (length funs)))
        (zrange 1 size)
  end.

Definition createSymmetryOrdering (order : FMBWidgetOrders) (sym : SortedSymbols)
    (inp : Input) (st : FMB) : list (list GroundedTerm) :=
  map (createSymmetryOrdering_sort order sym inp st)
    (seq 0 (sorts (_sortedSignature inp))).

(** [addNewSymmetryOrderingAxioms]: the literal stacks handed to
    [addSATClause]. [None] stands for the read of [groundedTerms[size-1]]
    outside the stack, which happens for [size = 0] only. *)
Definition addNewSymmetryOrderingAxioms (inp : Input) (st : FMB) (size : Z)
    (groundedTerms : list GroundedTerm) : option (list SATClause) :=
  if Z.of_nat (length groundedTerms) <? size then Some []
  else
    match groundedTerms !! Z.to_nat (U32.sub size 1) with
    | None => None
    | Some gt =>
        let arity := rdn (functionArity (signature inp)) (gt_f gt) in
        let grounding := map (rd (gt_grounding gt)) (seq 0 arity) in
        Some [map (fun i => getSATLiteral inp st (gt_f gt) (grounding ++ [i]) true true)
                (zrange 1 size)]
    end.

(** [groundedTerms[i]]. *)
Definition rdt (a : list GroundedTerm) (i : nat) : GroundedTerm :=
  default {| gt_f := 0%nat; gt_grounding := [] |} (a !! i).

(** The argument part of [grounding_i] and [grounding_j]: the first
    [arity] values of the term's grounding. *)
Definition term_arguments (inp : Input) (gt : GroundedTerm) : list Z :=
  map (rd (gt_grounding gt)) (seq 0 (rdn (functionArity (signature inp)) (gt_f gt))).

(** The clause built for [i] in [addNewSymmetryCanonicityAxioms]: the
    term [i] does not take the value [size], or a term before it takes
    [size-1]. *)
Definition canonicity_clause (inp : Input) (st : FMB) (size : Z)
    (groundedTerms : list GroundedTerm) (i : nat) : SATClause :=
  let gti := rdt groundedTerms i in
  getSATLiteral inp st (gt_f gti) (term_arguments inp gti ++ [size]) false true
  :: map (fun j =>
            let gtj := rdt groundedTerms j in
            getSATLiteral inp st (gt_f gtj)
              (term_arguments inp gtj ++ [U32.sub size 1]) true true)
       (seq 0 i).

(** The loop [for(i=1;i<w;i++)], left by [return] at the first term with
    an argument. *)
Fixpoint canonicity_loop (inp : Input) (st : FMB) (size : Z)
    (groundedTerms : list GroundedTerm) (indices : list nat) : list SATClause :=
  match indices with
  | [] => []
  | i :: rest =>
      if (0 <? rdn (functionArity (signature inp)) (gt_f (rdt groundedTerms i)))%nat
      then []
      else canonicity_clause inp st size groundedTerms i
           :: canonicity_loop inp st size groundedTerms rest
  end.

(** [addNewSymmetryCanonicityAxioms]: the literal stacks handed to
    [addSATClause]. [ratioTimesMaxSize] is the value of
    [_symmetryRatio * maxSize] as converted to [unsigned]; the ratio is an
    option of the run. *)
Definition addNewSymmetryCanonicityAxioms (inp : Input) (st : FMB) (size : Z)
    (groundedTerms : list GroundedTerm) (ratioTimesMaxSize : Z) : list SATClause :=
  if size <=? 1 then []
  else
    let w := if ratioTimesMaxSize >? Z.of_nat (length groundedTerms)
             then Z.of_nat (length groundedTerms) else ratioTimesMaxSize in
    canonicity_loop inp st size groundedTerms (seq 1 (Z.to_nat w - 1)).

(** The invariant of [SortedSignature] the symmetry code relies on: the
    constants listed for a sort have no argument, and the result of every
    symbol listed for a sort is of that sort. *)
Definition symbols_sorted (sym : SortedSymbols) (inp : Input) (s : nat) : Prop :=
  (forall c, In c (rdl (sortedConstants sym) s) ->
     rdn (functionArity (signature inp)) c = 0%nat /\ retSrt inp c = s)
  /\ (forall f, In f (rdl (sortedFunctions sym) s) -> retSrt inp f = s).

(** Every argument sort of the functions of sort [s] has a value. *)
Definition arguments_inhabited (sym : SortedSymbols) (inp : Input) (st : FMB)
    (s : nat) : Prop :=
  forall f i, In f (rdl (sortedFunctions sym) s) ->
    (i < rdn (functionArity (signature inp)) f)%nat ->
    1 <= rd (_sortModelSizes st)
           (rdn (rdl (functionSignatures (_sortedSignature inp)) f) i).

(** The symbols of the small problem by sort: the constant [f0] and the
    function [f1]. *)
Definition ex_symbols : SortedSymbols :=
  {| sortedConstants := [[0%nat]]; sortedFunctions := [[1%nat]] |}.

(** One sort with the two constants [f0] and [f1], at size 2 after
    [reset]: [f0] owns variables 1-2 and [f1] 3-4. *)
Definition ex_constants_input : Input :=
  {| VAR_MAX := 2 ^ 30 - 1;
     signature := {| functions := 2; predicates := 1;
                     functionArity := [0%nat; 0%nat]; predicateArity := [2%nat] |};
     _sortedSignature :=
       {| sorts := 1; distinctSorts := 1; parents := [0%nat];
          sortBounds := [U32.UINT_MAX]; monotonicSorts := [false];
          functionSignatures := [[0%nat]; [0%nat]];
          predicateSignatures := [[0%nat; 0%nat]] |};
     del_f := [false; false]; del_p := [false];
     _xmass := true;
     _startModelSize := 1;
     _sizeWeightRatio := 1;
     _distinctSortMins := [1];
     _distinctSortMaxs := [U32.UINT_MAX];
     _distinct_sort_constraints := [];
     _strict_distinct_sort_constraints := [];
     _clauses := [];
     _groundClauses := [];
     _isAppropriate := true;
     units := [[PredLit true 0 [0%nat; 0%nat]]] |}.

Definition ex_constants_builder : FMB := fst (reset ex_constants_input (ex2_builder [2])).

Definition ex_constants_symbols : SortedSymbols :=
  {| sortedConstants := [[0%nat; 1%nat]]; sortedFunctions := [[]] |}.

(** ** [estimateFunctionalDefCount] *)

Definition estimateFunctionalDefCount (inp : Input) (dsizes : list Z) : Z :=
  fold_left (fun res f =>
    if rdb (del_f inp) f then res
    else
      let arity := rdn (functionArity (signature inp)) f in
      let f_signature := rdl (functionSignatures (_sortedSignature inp)) f in
      let returnSrt := rdn f_signature arity in
      let bounded srt :=
        Z.min (rd (sortBounds (_sortedSignature inp)) srt)
              (rd dsizes (rdn (parents (_sortedSignature inp)) srt)) in
      let instances := U32.mul (U32.mul 1 (bounded returnSrt)) (bounded returnSrt) in
      let instances :=
        fold_left (fun instances var => U32.mul instances (bounded (rdn f_signature var)))
          (seq 0 arity) instances in
      U32.add res (instances / 2))
    (seq 0 (functions (signature inp))) 0.

(** The number of groundings [[y, z, x1, ..., xn]] of a function, counted
    without wrap-around, and half of it summed over the functions that are
    not deleted: what [estimateFunctionalDefCount] computes in 32 bits. *)
Definition functionalDef_groundings (inp : Input) (st : FMB) (f : nat) : Z :=
  product (functionalDefs_maxVarSize inp st f).

Definition functionalDefCount (inp : Input) (st : FMB) : Z :=
  sum (map (fun f => if rdb (del_f inp) f then 0 else functionalDef_groundings inp st f / 2)
         (seq 0 (functions (signature inp)))).

(** The sizes of the sorts follow those of their distinct sorts on the
    signatures of the functions that are not deleted, and every argument
    and result ranges over at least one value. *)
Definition functions_sized (inp : Input) (st : FMB) : Prop :=
  forall f, (f < functions (signature inp))%nat -> rdb (del_f inp) f = false ->
    forall var, (var <= rdn (functionArity (signature inp)) f)%nat ->
      let srt := rdn (rdl (functionSignatures (_sortedSignature inp)) f) var in
      rd (_sortModelSizes st) srt
      = rd (_distinctSortSizes st) (rdn (parents (_sortedSignature inp)) srt)
      /\ 1 <= boundedSize inp st srt.

(** ** [SmtBasedDSAE]: the enumerator that asks an SMT solver *)

(** What is asserted in [_smtSolver] over the size constants: [s_i > c],
    [s_a >= s_b], [s_a > s_b], the clause of a no-good, and
    [s_0 + ... + s_(n-1) = weight]. *)
Inductive SmtAssertion :=
| AboveConstant (i : nat) (c : Z)
| AtLeastSize (a b : nat)
| AboveSize (a b : nat)
| NogoodClause (clause : list SizeAtom)
| SumEquals (n : nat) (weight : Z).

(** The value of an assertion in a model, which gives the integer value
    of every size constant. *)
Definition assertion_holds (model : list Z) (a : SmtAssertion) : bool :=
  match a with
  | AboveConstant i c => rd model i >? c
  | AtLeastSize a b => rd model a >=? rd model b
  | AboveSize a b => rd model a >? rd model b
  | NogoodClause clause => clause_holds model clause
  | SumEquals n weight => sum (map (rd model) (seq 0 n)) =? weight
  end.

(** The members of [SmtBasedDSAE]: the assertions of [_smtSolver], the
    number of size constants, [_lastWeight], [_skippedSomeSizes]; and the
    number of calls of [check] so far, since the solver may answer two
    calls differently. *)
Record SmtBasedDSAE := {
  _smtSolver : list SmtAssertion;
  _sizeConstants : nat;
  _lastWeight : Z;
  _skippedSomeSizes : bool;
  smt_checks : nat
}.

Definition smt_checked (e : SmtBasedDSAE) : SmtBasedDSAE :=
  {| _smtSolver := _smtSolver e; _sizeConstants := _sizeConstants e;
     _lastWeight := _lastWeight e; _skippedSomeSizes := _skippedSomeSizes e;
     smt_checks := S (smt_checks e) |}.

Definition smt_next_weight (e : SmtBasedDSAE) : SmtBasedDSAE :=
  {| _smtSolver := _smtSolver e; _sizeConstants := _sizeConstants e;
     _lastWeight := U32.add (_lastWeight e) 1; _skippedSomeSizes := _skippedSomeSizes e;
     smt_checks := smt_checks e |}.

(** [SmtBasedDSAE::learnNogood]. *)
Definition smt_learnNogood (e : SmtBasedDSAE) (nogood : Constraint_Generator_Vals)
    (weight : Z) : SmtBasedDSAE :=
  {| _smtSolver := _smtSolver e ++ [NogoodClause (smt_nogood_clause nogood)];
     _sizeConstants := _sizeConstants e;
     _lastWeight := _lastWeight e; _skippedSomeSizes := _skippedSomeSizes e;
     smt_checks := smt_checks e |}.

(** [loadSizesFromSmt]: the new sizes and their weight, for a model whose
    values fit an [int]. *)
Definition loadSizesFromSmt (model : list Z) (szs : list Z) : list Z * Z :=
  (map (fun i => U32.wrap (rd model i)) (seq 0 (length szs)),
   fold_left (fun weight i => U32.add weight (rd model i)) (seq 0 (length szs)) 0).

Section SmtSolver.

(** [_smtSolver.check()] on the assertions of the solver, at a given
    number of earlier calls: a model, or [None] for [unsat]. *)
Variable smt_check : nat -> list SmtAssertion -> option (list Z).

(** [SmtBasedDSAE::init], on a solver without assertions. *)
Definition smt_init (_startModelSize : Z) (_distinctSortSizes : list Z)
    (_distinct_sort_constraints _strict_distinct_sort_constraints : list (nat * nat))
    : bool * SmtBasedDSAE :=
  let zero := U32.sub _startModelSize 1 in
  let n := length _distinctSortSizes in
  let e :=
    {| _smtSolver :=
         map (fun i => AboveConstant i zero) (seq 0 n)
         ++ map (fun constr => AtLeastSize (fst constr) (snd constr))
              _distinct_sort_constraints
         ++ map (fun constr => AboveSize (fst constr) (snd constr))
              _strict_distinct_sort_constraints;
       _sizeConstants := n;
       _lastWeight := U32.wrap (Z.of_nat n * _startModelSize);
       _skippedSomeSizes := _startModelSize >? 1;
       smt_checks := 0 |} in
  match _strict_distinct_sort_constraints with
  | [] => (true, e)
  | _ :: _ =>
      match smt_check 0 (_smtSolver e) with
      | None => (false, smt_checked e)
      | Some _ => (true, smt_checked e)
      end
  end.

(** The loop [while (true)] that minimises the weight: the assertion
    [sum == _lastWeight] is pushed, checked and popped. *)
Fixpoint smt_minimize (fuel : nat) (e : SmtBasedDSAE) (newSortSizes : list Z)
    : option (list Z * SmtBasedDSAE) :=
  match fuel with
  | O => None
  | S fuel =>
      match smt_check (smt_checks e)
              (_smtSolver e ++ [SumEquals (length newSortSizes) (_lastWeight e)]) with
      | Some model => Some (fst (loadSizesFromSmt model newSortSizes), smt_checked e)
      | None => smt_minimize fuel (smt_next_weight (smt_checked e)) newSortSizes
      end
  end.

(** [SmtBasedDSAE::increaseModelSizes]: the answer, [newSortSizes] and the
    enumerator afterwards; [None] when the fuel of the minimising loop
    runs out. [sortMaxes] is not read. *)
Definition smt_increaseModelSizes (fuel : nat) (e : SmtBasedDSAE)
    (newSortSizes sortMaxes : list Z) : option (bool * list Z * SmtBasedDSAE) :=
  match smt_check (smt_checks e) (_smtSolver e) with
  | None => Some (false, newSortSizes, smt_checked e)
  | Some model =>
      let loaded := loadSizesFromSmt model newSortSizes in
      if snd loaded =? _lastWeight e then Some (true, fst loaded, smt_checked e)
      else
        match smt_minimize fuel (smt_checked e) (fst loaded) with
        | Some (sizes, e') => Some (true, sizes, e')
        | None => None
        end
  end.

End SmtSolver.

(** The solver is sound and its models fit an [int]. *)
Definition smt_check_sound (smt_check : nat -> list SmtAssertion -> option (list Z))
    : Prop :=
  forall n assertions model, smt_check n assertions = Some model ->
    (forall a, In a assertions -> assertion_holds model a = true)
    /\ forall i, - 2 ^ 31 <= rd model i < 2 ^ 31.

(** A model of all the assertions of the enumerator. *)
Definition smt_model (e : SmtBasedDSAE) (model : list Z) : Prop :=
  forall a, In a (_smtSolver e) -> assertion_holds model a = true.

(** The weight of the first [n] size constants in a model. *)
Definition smt_weight (n : nat) (model : list Z) : Z :=
  sum (map (rd model) (seq 0 n)).

(** No model of the assertions is lighter than [_lastWeight]. *)
Definition weight_floor (e : SmtBasedDSAE) (n : nat) : Prop :=
  0 <= _lastWeight e
  /\ forall model, smt_model e model -> _lastWeight e <= smt_weight n model.

(** On the queries of [increaseModelSizes], the assertions of the
    enumerator alone or with a weight, an answer [unsat] is right and the
    models given have a weight that fits [unsigned]. *)
Definition smt_answers_rightly (smt_check : nat -> list SmtAssertion -> option (list Z))
    (e : SmtBasedDSAE) (n : nat) : Prop :=
  (forall k model, smt_check k (_smtSolver e) = None -> ~ smt_model e model)
  /\ (forall k w model,
        smt_check k (_smtSolver e ++ [SumEquals n w]) = None ->
        ~ (smt_model e model /\ smt_weight n model = w))
  /\ (forall k model, smt_check k (_smtSolver e) = Some model ->
        smt_weight n model < U32.modulus).

(** A solver that tries four models of two size constants in turn. *)
Definition ex_smt_check (n : nat) (assertions : list SmtAssertion) : option (list Z) :=
  find (fun model => forallb (assertion_holds model) assertions)
    [[1; 1]; [2; 1]; [1; 2]; [2; 2]].

(** Two sorts with the constraint [size[0] >= size[1]], started at size
    1, after three no-goods: no sort of size 3 or more, and not both of
    size 1. *)
Definition ex_smt_nogoods : list (Constraint_Generator_Vals * Z) :=
  [([(GEQ, 3); (STAR, 1)], 4); ([(STAR, 1); (GEQ, 3)], 4); ([(EQ, 1); (EQ, 1)], 2)].

Definition ex_smt_enumerator : SmtBasedDSAE :=
  fold_left (fun e ng => smt_learnNogood e (fst ng) (snd ng)) ex_smt_nogoods
    (snd (smt_init ex_smt_check 1 [1; 1] [(0%nat, 1%nat)] [])).

(* ================================================================== *)
(** * Properties *)
(* ================================================================== *)

(** ** The driver *)

Section DriverProperties.

Variable which_sort : FMB -> Z -> nat.
Variable removeDuplicateLiterals : SATClause -> option SATClause.
Variable heap_top : list Constraint_Generator -> nat.
Variable dsa_init : Input -> list Z -> HackyDSAE -> bool * HackyDSAE.
Variable isFmbComplete : HackyDSAE -> nat -> bool.
Variable addNewSymmetryAxioms : Input -> FMB -> list SATClause.
Variable solver : list Event -> SATStatus.
Variable timeLimitReached : list Event -> bool.

Local Abbreviation main_loop' :=
  (main_loop which_sort removeDuplicateLiterals heap_top isFmbComplete
     addNewSymmetryAxioms solver timeLimitReached).
Local Abbreviation runImpl' :=
  (runImpl which_sort removeDuplicateLiterals heap_top dsa_init isFmbComplete
     addNewSymmetryAxioms solver timeLimitReached).
Local Abbreviation before_solve' := (before_solve removeDuplicateLiterals addNewSymmetryAxioms).


(** What is left of the builder when the clauses of an UNSAT round have
    been destroyed. *)
Local Abbreviation after_unsat inp r := (with_clauses (before_solve' inp (builder r)) []).



End DriverProperties.




(** ** The odometer: what it visits *)

Lemma odometer_run_sound {A} (fuel : nat) (maxs : list Z) (body : list Z -> list A)
    (g : list Z) (x : A) :
  In x (odometer_run fuel maxs body g) -> exists g', In x (body g').
Proof.
  revert g. induction fuel as [|k IH]; intros g; simpl.
  - intros [].
  - destruct (odometer_next g maxs) as [g'|]; [|intros []].
    rewrite in_app_iff. intros [H|H]; eauto.
Qed.

Lemma odometer_sound {A} (maxs : list Z) (body : list Z -> list A) (x : A) :
  In x (odometer maxs body) -> exists g, In x (body g).
Proof. apply odometer_run_sound. Qed.

Lemma in_zrange (lo hi i : Z) : In i (zrange lo hi) <-> lo <= i <= hi.
Proof.
  unfold zrange. rewrite in_map_iff. split.
  - intros (k & <- & Hk). apply in_seq in Hk. lia.
  - intros H. exists (Z.to_nat (i - lo)). split; [lia|]. apply in_seq. lia.
Qed.

(** ** Instances of flat clauses *)

Lemma ground_literals_spec (inp : Input) (st : FMB) (grounding : list Z)
    (lits : list Literal) (acc : list SATLiteral) :
  ground_literals inp st grounding lits acc
  = if existsb (true_under grounding) lits then None
    else Some (acc ++ flat_map (translated inp st grounding) lits).
Proof.
  revert acc. induction lits as [|lit lits IH]; intros acc; simpl.
  - now rewrite app_nil_r.
  - destruct lit as [pol x y|pol f args res|pol p args]; simpl.
    + destruct pol, (rd grounding x =? rd grounding y); simpl;
        reflexivity || apply IH.
    + rewrite IH. destruct (existsb _ lits); [reflexivity|].
      now rewrite <- app_assoc.
    + rewrite IH. destruct (existsb _ lits); [reflexivity|].
      now rewrite <- app_assoc.
Qed.

Lemma emitted_instance_spec (inp : Input) (st : FMB) (c : Clause)
    (vs : list nat) (grounding : list Z) :
  emitted_instance inp st c vs grounding
  = if existsb (true_under grounding) (literals c) then []
    else [instance_markers inp st (varCnt c) vs grounding
          ++ flat_map (translated inp st grounding) (literals c)].
Proof.
  unfold emitted_instance, instance_of. rewrite ground_literals_spec.
  now destruct (existsb _ _).
Qed.

(** Every instance handed to [addSATClause] comes from a grounding under
    which no two-variable equality of its clause is true. *)
Lemma instances_of_sound (inp : Input) (st : FMB) (c : Clause) (cl : SATClause) :
  In cl (instances_of inp st c) ->
  exists vs grounding,
    varSorts c = Some vs
    /\ existsb (true_under grounding) (literals c) = false
    /\ cl = instance_markers inp st (varCnt c) vs grounding
            ++ flat_map (translated inp st grounding) (literals c).
Proof.
  unfold instances_of. destruct (varSorts c) as [vs|]; [|intros []].
  intros H. apply odometer_sound in H as [g H].
  rewrite emitted_instance_spec in H. exists vs, g. split; [reflexivity|].
  destruct (existsb _ _); [destruct H|].
  destruct H as [<-|[]]. now split.
Qed.

(** ** CONTOUR: the sort constraints after a growth step *)

Lemma nonstrict_pass_spec (it : list (nat * nat)) (dsizes : list Z) (updated : bool) :
  forall dsizes' updated' rest,
    nonstrict_pass it dsizes updated = (dsizes', updated', rest) ->
    rest = []
    /\ (updated' = false ->
        updated = false /\ dsizes' = dsizes
        /\ forall constr, In constr it ->
             rd dsizes (snd constr) <= rd dsizes (fst constr)).
Proof.
  revert dsizes updated.
  induction it as [|constr it IH]; intros dsizes updated dsizes' updated' rest; simpl.
  - intros [= <- <- <-]. split; [reflexivity|]. intros ->. now repeat split.
  - destruct (rd dsizes (fst constr) <? rd dsizes (snd constr)) eqn:E; intros H.
    + apply IH in H as [-> H]. split; [reflexivity|].
      intros Hu. now destruct (H Hu) as [? _].
    + apply IH in H as [-> H]. split; [reflexivity|].
      intros Hu. destruct (H Hu) as (-> & -> & Hall). repeat split.
      intros c' [<-|Hin]; [lia|now apply Hall].
Qed.

(** The non-strict constraints do hold when the block is left. *)
Lemma contour_nonstrict_closed (fuel : nat) (inp : Input) (dsizes dsizes' : list Z) :
  sort_constraints_fixpoint fuel inp dsizes = Some dsizes' ->
  forall a b, In (a, b) (_distinct_sort_constraints inp) ->
    rd dsizes' b <= rd dsizes' a.
Proof.
  revert dsizes. induction fuel as [|k IH]; intros dsizes; simpl; [discriminate|].
  destruct (nonstrict_pass _ dsizes false) as [[d1 u1] it1] eqn:E1.
  apply nonstrict_pass_spec in E1 as [-> H1]. simpl.
  destruct u1.
  - apply IH.
  - intros [= <-] a b Hin. destruct (H1 eq_refl) as (_ & -> & Hall).
    apply (Hall (a, b) Hin).
Qed.

(** The block ends: every pass that sets [updated] raises the sum of the
    sizes, which no entry above [M] bounds. *)
Lemma sum_cons (x : Z) (l : list Z) : sum (x :: l) = x + sum l.
Proof. reflexivity. Qed.

Lemma sum_insert (a : list Z) (i : nat) (x : Z) :
  (i < length a)%nat -> sum (<[i := x]> a) = sum a - rd a i + x.
Proof.
  revert i. induction a as [|y a IH]; intros [|i] H; simpl in H; try lia.
  - unfold sum, rd. simpl. lia.
  - change (sum (y :: <[i := x]> a) = sum (y :: a) - rd a i + x).
    rewrite !sum_cons, IH by lia. lia.
Qed.

Lemma sum_le_bound (a : list Z) (M : Z) :
  Forall (fun x => x <= M) a -> sum a <= Z.of_nat (length a) * M.
Proof.
  induction 1 as [|x a Hx _ IH]; [simpl; lia|].
  rewrite sum_cons. simpl length. lia.
Qed.

Lemma rd_le_bound (a : list Z) (M : Z) (i : nat) :
  0 <= M -> Forall (fun x => x <= M) a -> rd a i <= M.
Proof.
  intros HM Ha. unfold rd. destruct (a !! i) as [x|] eqn:E; simpl; [|assumption].
  apply (Forall_lookup_1 _ _ _ _ Ha E).
Qed.

Lemma nonstrict_pass_progress (M : Z) (it : list (nat * nat)) :
  0 <= M ->
  forall dsizes updated dsizes' updated' rest,
    (forall constr, In constr it -> (fst constr < length dsizes)%nat) ->
    Forall (fun x => x <= M) dsizes ->
    nonstrict_pass it dsizes updated = (dsizes', updated', rest) ->
    length dsizes' = length dsizes
    /\ Forall (fun x => x <= M) dsizes'
    /\ sum dsizes <= sum dsizes'
    /\ (updated' = true -> updated = true \/ sum dsizes < sum dsizes').
Proof.
  intros HM. induction it as [|constr it IH];
    intros dsizes updated dsizes' updated' rest Hwf Hb; simpl.
  - intros [= <- <- <-]. repeat split; [assumption|lia|now left].
  - assert (Hwf' : forall c, In c it -> (fst c < length dsizes)%nat)
      by (intros c Hc; apply Hwf; now right).
    destruct (rd dsizes (fst constr) <? rd dsizes (snd constr)) eqn:E; intros H.
    + apply Z.ltb_lt in E.
      apply IH in H as (Hlen & Hb' & Hsum & _).
      * rewrite length_insert in Hlen.
        rewrite sum_insert in Hsum by (apply Hwf; now left).
        repeat split; [assumption|assumption|lia|]. intros _. right. lia.
      * intros c Hc. rewrite length_insert. now apply Hwf'.
      * apply Forall_insert; [assumption|]. now apply rd_le_bound.
    + now apply IH in H.
Qed.

Lemma sort_constraints_fixpoint_terminates (inp : Input) (M : Z) :
  0 <= M ->
  forall fuel dsizes,
    (forall constr, In constr (_distinct_sort_constraints inp) ->
       (fst constr < length dsizes)%nat) ->
    Forall (fun x => x <= M) dsizes ->
    Z.of_nat (length dsizes) * M - sum dsizes < Z.of_nat fuel ->
    exists dsizes', sort_constraints_fixpoint fuel inp dsizes = Some dsizes'.
Proof.
  intros HM. induction fuel as [|k IH]; intros dsizes Hwf Hb Hfuel.
  - pose proof (sum_le_bound dsizes M Hb). lia.
  - simpl. destruct (nonstrict_pass _ dsizes false) as [[d1 u1] it1] eqn:E1.
    pose proof (nonstrict_pass_progress M _ HM _ _ _ _ _ Hwf Hb E1)
      as (Hlen & Hb1 & Hsum & Hup).
    apply nonstrict_pass_spec in E1 as [-> _]. simpl.
    destruct u1; [|now eexists].
    destruct (Hup eq_refl) as [Hf|Hlt]; [discriminate Hf|].
    apply IH; [now rewrite Hlen|assumption|rewrite Hlen; lia].
Qed.

(** C7, on the code: sorts 0 and 1 at size 1 with the strict constraint
    (0,1), the failed assumption belongs to sort 1. Sort 1 grows to 2, the
    block closing the constraints is left with sizes [1; 2], and the
    strict constraint [size[0] > size[1]] does not hold: the second loop
    of the block runs on the exhausted iterator of the first. *)
Theorem contour_strict_constraint_not_applied :
  let inp := ex2_input 1 [1; 1] [U32.UINT_MAX; U32.UINT_MAX] [] [(0%nat, 1%nat)] in
  let st := ex2_builder [1; 1] in
  contour_grow (fun _ _ => 1%nat) 4 inp st 1 [(5, false)] ex_enumerator
  = NewSizes [1; 2] ex_enumerator
  /\ In (0%nat, 1%nat) (_strict_distinct_sort_constraints inp)
  /\ ~ rd [1; 2] 0 > rd [1; 2] 1.
Proof.
  cbv zeta. split; [vm_compute; reflexivity|]. split; [now left|].
  vm_compute. congruence.
Qed.

(** ** Totality clauses and their markers *)

Lemma totalityDefs_of_sound (inp : Input) (st : FMB) (f : nat) (cl : SATClause) :
  In cl (totalityDefs_of inp st f) ->
  exists args i,
    In i (totality_versions inp (dRetSrt inp f) (maxRtSrtSize inp st f))
    /\ cl = totality_clause inp st f args (dRetSrt inp f) (maxRtSrtSize inp st f) i.
Proof.
  unfold totalityDefs_of, dRetSrt, maxRtSrtSize, retSrt.
  destruct (rdn (functionArity (signature inp)) f =? 0)%nat eqn:E.
  - apply Nat.eqb_eq in E. rewrite E. intros H.
    apply in_map_iff in H as (i & <- & Hi). now exists [], i.
  - intros H. apply odometer_sound in H as (g & H).
    apply in_map_iff in H as (i & <- & Hi). now exists g, i.
Qed.

(** C6, as the code has it. In CONTOUR mode every totality clause of a
    function with result in distinct sort [s] is the clause of some
    version [i <= maxRet], and it carries the positive marker
    [marker[s][m]] where [m = size[s] - 1] for the top version
    [i = maxRet] and [m = i - 1] for the versions below. *)
Theorem totality_marker_index (inp : Input) (st : FMB) (f : nat) (cl : SATClause) :
  _xmass inp = true ->
  In cl (totalityDefs_of inp st f) ->
  exists args i,
    i <= maxRtSrtSize inp st f
    /\ cl = totality_clause inp st f args (dRetSrt inp f) (maxRtSrtSize inp st f) i
    /\ In (U32.add (rd (marker_offsets st) (dRetSrt inp f))
             (if i =? maxRtSrtSize inp st f
              then U32.sub (rd (_distinctSortSizes st) (dRetSrt inp f)) 1
              else U32.sub i 1), true) cl.
Proof.
  intros Hx H. apply totalityDefs_of_sound in H as (args & i & Hi & ->).
  exists args, i. split; [|split; [reflexivity|]].
  - unfold totality_versions in Hi. apply in_zrange in Hi. lia.
  - unfold totality_clause. apply in_or_app. right. left.
    unfold totality_marker. now rewrite Hx.
Qed.

Lemma totality_marker_index_witness :
  exists args i,
    i <= maxRtSrtSize ex_bounded_input ex_bounded_builder 0
    /\ [(1, true); (10, true)]
       = totality_clause ex_bounded_input ex_bounded_builder 0 args
           (dRetSrt ex_bounded_input 0) (maxRtSrtSize ex_bounded_input ex_bounded_builder 0) i
    /\ In (U32.add (rd (marker_offsets ex_bounded_builder) (dRetSrt ex_bounded_input 0))
             (if i =? maxRtSrtSize ex_bounded_input ex_bounded_builder 0
              then U32.sub (rd (_distinctSortSizes ex_bounded_builder)
                              (dRetSrt ex_bounded_input 0)) 1
              else U32.sub i 1), true) [(1, true); (10, true)].
Proof.
  apply (totality_marker_index ex_bounded_input ex_bounded_builder 0).
  - reflexivity.
  - vm_compute. left. reflexivity.
Defined.

(** C6, as stated, fails where the bound of the result sort is below the
    size of its distinct sort: with bound 1 and size 2 the only totality
    clause of the constant [f0] is the top version [i = 1], it carries
    marker 1 (variable 10) and not marker [min(0, 1) = 0] (variable 9). *)
Lemma marker_index_is_min_counterexample :
  ~ marker_index_is_min ex_bounded_input ex_bounded_builder.
Proof.
  intros H. specialize (H 0%nat [] 1).
  assert (Hcl : In (9, true) [(1, true); (10, true)]).
  { apply H; vm_compute; auto. }
  destruct Hcl as [E|[E|[]]]; discriminate E.
Qed.

(** ** SBMEAM: no-goods *)

Lemma rdc_set_sign (sg : ConstraintSign) (i j : nat) (a : Constraint_Generator_Vals) :
  rdc (set_sign sg i a) j
  = if decide (i = j /\ (i < length a)%nat) then (sg, snd (rdc a j)) else rdc a j.
Proof.
  unfold rdc, set_sign. destruct (decide (i = j)) as [->|Hne].
  - rewrite list_lookup_alter_eq. destruct (a !! j) as [cc|] eqn:E; simpl.
    + apply lookup_lt_Some in E. destruct (decide _) as [|n]; [reflexivity|].
      exfalso. apply n. split; [reflexivity|lia].
    + apply lookup_ge_None in E. destruct (decide _) as [[_ H]|]; [lia|reflexivity].
  - rewrite list_lookup_alter_ne by assumption.
    destruct (decide _) as [[H _]|]; [contradiction|reflexivity].
Qed.

Lemma length_set_sign (sg : ConstraintSign) (i : nat) (a : Constraint_Generator_Vals) :
  length (set_sign sg i a) = length a.
Proof. unfold set_sign. apply length_alter. Qed.

Lemma failedVar_app (P Q : list SATLiteral) (var : Z) :
  failedVar (P ++ Q) var = failedVar P var || failedVar Q var.
Proof. unfold failedVar. apply existsb_app. Qed.

Lemma failedVar_single (l : SATLiteral) (var : Z) :
  failedVar [l] var = (fst l =? var).
Proof. unfold failedVar. simpl. apply orb_false_r. Qed.

Section Nogood.

Variable inp : Input.
Variable st : FMB.

Let n := length (_distinctSortSizes st).
Let tot := totalityMarker_offset st.
Let inst := instancesMarker_offset st.

Hypothesis Hinst : inst = tot + Z.of_nat n.
Hypothesis Htot : 0 <= tot.
Hypothesis Hend : inst + Z.of_nat n <= U32.modulus.

Lemma build_nogood_invariant (failed : list SATLiteral) :
  (forall l, In l failed -> tot <= fst l < inst + Z.of_nat n) ->
  length (build_nogood inp st failed) = n
  /\ forall s, (s < n)%nat ->
       rdc (build_nogood inp st failed) s
       = (nogood_tag inp st failed s, rd (_distinctSortSizes st) s).
Proof.
  induction failed as [|l P IH] using rev_ind; intros Hrange.
  - unfold build_nogood; simpl. split; [now rewrite length_map|].
    intros s Hs. unfold rdc, rd. rewrite list_lookup_fmap.
    destruct (_distinctSortSizes st !! s) as [x|] eqn:E; simpl; [reflexivity|].
    apply lookup_ge_None in E. fold n in E. lia.
  - destruct IH as [Hlen IH].
    { intros l' Hl'. apply Hrange. apply in_or_app. now left. }
    assert (Hl : tot <= fst l < inst + Z.of_nat n).
    { apply Hrange. apply in_or_app. right. now left. }
    unfold build_nogood in *. rewrite fold_left_app. simpl.
    set (ng := fold_left (nogood_step inp st) P _) in *.
    unfold nogood_step. fold inst tot.
    assert (Hwrap : forall base, tot <= base -> base <= fst l -> fst l < base + Z.of_nat n ->
              Z.to_nat (U32.sub (fst l) base) = Z.to_nat (fst l - base)
              /\ (Z.to_nat (fst l - base) < n)%nat).
    { intros base H1 H2 H3. unfold U32.sub, U32.wrap.
      rewrite Z.mod_small by (unfold U32.modulus in *; lia). lia. }
    destruct (fst l <? inst) eqn:Elt.
    + apply Z.ltb_lt in Elt.
      destruct (Hwrap tot) as [-> Hk]; [lia..|].
      set (k := Z.to_nat (fst l - tot)) in *.
      assert (Hvar : fst l = tot + Z.of_nat k) by (subst k; lia).
      split.
      { destruct (rdb _ k); now rewrite length_set_sign. }
      intros s Hs.
      assert (Htag : forall sg,
                (if rdb (monotonicSorts (_sortedSignature inp)) k then LEQ else EQ) = sg ->
                rdc (set_sign sg k ng) s
                = (nogood_tag inp st (P ++ [l]) s, rd (_distinctSortSizes st) s)).
      { intros sg Hsg. rewrite rdc_set_sign, (IH s Hs). simpl.
        unfold nogood_tag. fold tot inst. rewrite !failedVar_app, !failedVar_single.
        destruct (decide _) as [[-> _]|Hne].
        - rewrite Hvar, Z.eqb_refl, orb_true_r. now rewrite Hsg.
        - assert (k <> s) by (intros ->; apply Hne; split; [reflexivity|lia]).
          replace (fst l =? tot + Z.of_nat s) with false
            by (symmetry; apply Z.eqb_neq; lia).
          replace (fst l =? inst + Z.of_nat s) with false
            by (symmetry; apply Z.eqb_neq; lia).
          now rewrite !orb_false_r. }
      destruct (rdb (monotonicSorts (_sortedSignature inp)) k) eqn:Em;
        apply Htag; reflexivity.
    + apply Z.ltb_ge in Elt.
      destruct (Hwrap inst) as [-> Hk]; [lia..|].
      set (k := Z.to_nat (fst l - inst)) in *.
      assert (Hvar : fst l = inst + Z.of_nat k) by (subst k; lia).
      rewrite (IH k Hk). simpl.
      assert (Hother : forall s, (s < n)%nat -> s <> k ->
                nogood_tag inp st (P ++ [l]) s = nogood_tag inp st P s).
      { intros s Hs Hne. unfold nogood_tag. fold tot inst.
        rewrite !failedVar_app, !failedVar_single.
        replace (fst l =? tot + Z.of_nat s) with false
          by (symmetry; apply Z.eqb_neq; lia).
        replace (fst l =? inst + Z.of_nat s) with false
          by (symmetry; apply Z.eqb_neq; lia).
        now rewrite !orb_false_r. }
      assert (Hsame : nogood_tag inp st (P ++ [l]) k
                      = if is_STAR (nogood_tag inp st P k) then GEQ
                        else nogood_tag inp st P k).
      { unfold nogood_tag. fold tot inst.
        rewrite !failedVar_app, !failedVar_single.
        replace (fst l =? tot + Z.of_nat k) with false
          by (symmetry; apply Z.eqb_neq; lia).
        rewrite Hvar, Z.eqb_refl, orb_false_r, orb_true_r.
        destruct (failedVar P (tot + Z.of_nat k)).
        - now destruct (rdb _ k).
        - now destruct (failedVar P (inst + Z.of_nat k)). }
      destruct (is_STAR (nogood_tag inp st P k)) eqn:Estar.
      * split; [now rewrite length_set_sign|].
        intros s Hs. rewrite rdc_set_sign, (IH s Hs). simpl.
        destruct (decide _) as [[-> _]|Hne].
        -- now rewrite Hsame.
        -- rewrite Hother; [reflexivity|assumption|].
           intros ->. apply Hne. split; [reflexivity|lia].
      * split; [assumption|].
        intros s Hs. rewrite (IH s Hs).
        destruct (Nat.eq_dec s k) as [->|Hne].
        -- now rewrite Hsame.
        -- now rewrite Hother.
Qed.

End Nogood.

Lemma entry_fails_spec (cc : ConstraintSign * Z) (v : Z) :
  entry_fails cc v = false <->
  match fst cc with
  | EQ => snd cc = v
  | GEQ => snd cc <= v
  | LEQ => snd cc >= v
  | STAR => True
  end.
Proof.
  unfold entry_fails. destruct (fst cc).
  - rewrite negb_false_iff. apply Z.eqb_eq.
  - rewrite Z.ltb_ge. lia.
  - rewrite Z.gtb_ltb, Z.ltb_ge. lia.
  - tauto.
Qed.

(** [checkConstriant] answers [true] exactly on the vectors that match. *)
Lemma checkConstriant_matches (v : list Z) (G : Constraint_Generator_Vals) :
  checkConstriant v G = true <-> matches v G.
Proof.
  unfold checkConstriant, matches. rewrite forallb_forall. split.
  - intros H j Hj. apply entry_fails_spec. apply negb_true_iff.
    apply H. apply in_seq. lia.
  - intros H j Hj. apply in_seq in Hj. apply negb_true_iff.
    apply entry_fails_spec. apply H. lia.
Qed.

Lemma ruled_out_false (v : list Z) (gens : list Constraint_Generator) :
  ruled_out v gens = false <-> forall G, In G gens -> ~ matches v (_vals G).
Proof.
  unfold ruled_out. split.
  - intros H G HG Hm. apply checkConstriant_matches in Hm.
    assert (existsb (fun g => checkConstriant v (_vals g)) gens = true)
      by (apply existsb_exists; eauto).
    congruence.
  - intros H. apply not_true_is_false. intros E.
    apply existsb_exists in E as (G & HG & Hc).
    apply checkConstriant_matches in Hc. now apply (H G).
Qed.

(** A candidate that passes every test matches no generator of the heap,
    nor an old one when these are kept, and is within the maximum at the
    incremented sort. *)
Lemma test_candidate_AllPassed (inp : Input) (e : HackyDSAE) (v : list Z) (i : nat)
    (sortMaxes : list Z) :
  test_candidate inp e v i sortMaxes = AllPassed ->
  rd v i <= rd sortMaxes i
  /\ ruled_out v (_constraints_generators e) = false
  /\ (_keepOldGenerators e = true -> ruled_out v (_old_generators e) = false).
Proof.
  unfold test_candidate.
  destruct (rd v i >? rd sortMaxes i) eqn:E1; [discriminate|].
  destruct (ruled_out v (_constraints_generators e)) eqn:E2; [discriminate|].
  destruct (_keepOldGenerators e && ruled_out v (_old_generators e)) eqn:E3;
    [discriminate|].
  intros _. rewrite Z.gtb_ltb, Z.ltb_ge in E1. repeat split; [assumption|].
  intros Hk. rewrite Hk in E3. exact E3.
Qed.

Lemma try_increments_accepted (inp : Input) (idxs : list nat) (sortMaxes : list Z) :
  forall e newSortSizes v undone e',
    try_increments inp e newSortSizes idxs sortMaxes = (Some v, undone, e') ->
    ruled_out v (_constraints_generators e') = false
    /\ (_keepOldGenerators e' = true -> ruled_out v (_old_generators e') = false).
Proof.
  induction idxs as [|i idxs IH]; intros e nss v undone e'; simpl; [discriminate|].
  destruct (test_candidate inp e _ i sortMaxes) as [|e1] eqn:E.
  - intros [= <- <- <-]. now apply test_candidate_AllPassed in E as (_ & ? & ?).
  - apply IH.
Qed.

Lemma increaseModelSizes_accepted (heap_top : list Constraint_Generator -> nat)
    (inp : Input) (fuel : nat) (sortMaxes : list Z) :
  forall e newSortSizes v e',
    increaseModelSizes heap_top fuel inp e newSortSizes sortMaxes = Some (true, v, e') ->
    ruled_out v (_constraints_generators e') = false
    /\ (_keepOldGenerators e' = true -> ruled_out v (_old_generators e') = false).
Proof.
  induction fuel as [|k IH]; intros e nss v e'; simpl; [discriminate|].
  destruct (_constraints_generators e) as [|g gs] eqn:Eh; [discriminate|].
  destruct (try_increments inp e _ _ sortMaxes) as [[[w|] undone] e1] eqn:E.
  - intros [= <- <-]. now apply try_increments_accepted in E.
  - apply IH.
Qed.

(** C4. SBMEAM, after an UNSAT answer. The failed assumptions are markers
    of the two blocks [tot] and [inst] laid out by [reset]. The no-good
    tags sort [s] with [EQ] ([LEQ] if [s] is monotonic) when [tot[s]]
    failed, else with [GEQ] when [inst[s]] failed, else with [STAR], and
    keeps the current size in every entry; once learnt it is in the heap.
    [checkConstriant] answers [true] exactly on the vectors that match the
    no-good; a candidate that matches a generator of the heap is rejected
    by the tests of [increaseModelSizes]; and a vector [increaseModelSizes]
    returns matches no generator of the heap, nor an old generator when
    these are kept. *)
Theorem nogood_soundness (inp : Input) (st : FMB) (failed : list SATLiteral) :
  let n := length (_distinctSortSizes st) in
  instancesMarker_offset st = totalityMarker_offset st + Z.of_nat n ->
  0 <= totalityMarker_offset st ->
  instancesMarker_offset st + Z.of_nat n <= U32.modulus ->
  (forall l, In l failed ->
     totalityMarker_offset st <= fst l < instancesMarker_offset st + Z.of_nat n) ->
  (forall s, (s < n)%nat ->
     rdc (build_nogood inp st failed) s
     = (nogood_tag inp st failed s, rd (_distinctSortSizes st) s))
  /\ (forall e weight,
        In {| _vals := build_nogood inp st failed; _weight := weight |}
           (_constraints_generators (learnNogood e (build_nogood inp st failed) weight)))
  /\ (forall v G, checkConstriant v G = true <-> matches v G)
  /\ (forall e v i sortMaxes G,
        In G (_constraints_generators e) -> matches v (_vals G) ->
        test_candidate inp e v i sortMaxes = NextCandidate e)
  /\ (forall heap_top fuel e newSortSizes sortMaxes v e',
        increaseModelSizes heap_top fuel inp e newSortSizes sortMaxes = Some (true, v, e') ->
        (forall G, In G (_constraints_generators e') -> ~ matches v (_vals G))
        /\ (_keepOldGenerators e' = true ->
            forall G, In G (_old_generators e') -> ~ matches v (_vals G))).
Proof.
  intros n Hinst Htot Hend Hrange. split; [|split; [|split; [|split]]].
  - now apply build_nogood_invariant.
  - intros e weight. unfold learnNogood, heap_insert. simpl.
    apply in_or_app. right. now left.
  - apply checkConstriant_matches.
  - intros e v i sortMaxes G HG Hm. unfold test_candidate.
    destruct (rd v i >? rd sortMaxes i); [reflexivity|].
    assert (E : ruled_out v (_constraints_generators e) = true).
    { apply not_false_is_true. intros E.
      now apply (proj1 (ruled_out_false _ _) E G). }
    now rewrite E.
  - intros heap_top fuel e nss sortMaxes v e' H.
    apply increaseModelSizes_accepted in H as [H1 H2]. split.
    + now apply ruled_out_false.
    + intros Hk. apply ruled_out_false. now apply H2.
Qed.

Lemma nogood_soundness_witness :
  rdc (build_nogood ex_sized_input (builder (ex_run_reset false 1)) [(5, true); (4, true)]) 0
  = (nogood_tag ex_sized_input (builder (ex_run_reset false 1)) [(5, true); (4, true)] 0,
     rd (_distinctSortSizes (builder (ex_run_reset false 1))) 0).
Proof.
  apply (nogood_soundness ex_sized_input (builder (ex_run_reset false 1))
           [(5, true); (4, true)]).
  - reflexivity.
  - vm_compute. discriminate.
  - vm_compute. discriminate.
  - intros l [<-|[<-|[]]]; vm_compute; split; congruence.
  - simpl. lia.
Defined.

(** ** The sizes stay within their bounds *)

Lemma rd_map_seq (f : nat -> Z) (n s : nat) :
  (s < n)%nat -> rd (map f (seq 0 n)) s = f s.
Proof.
  intros H. unfold rd. rewrite list_lookup_fmap.
  replace (seq 0 n !! s) with (Some s); [reflexivity|].
  symmetry. apply lookup_seq. split; [reflexivity|assumption].
Qed.

Lemma wrap_small z : 0 <= z < U32.modulus -> U32.wrap z = z.
Proof. intros H. unfold U32.wrap. now apply Z.mod_small. Qed.

Lemma rd_insert_eq (a : list Z) i x : (i < length a)%nat -> rd (<[i:=x]> a) i = x.
Proof. intros H. unfold rd. now rewrite list_lookup_insert_eq. Qed.

Lemma rd_insert_ne (a : list Z) i j x : i <> j -> rd (<[i:=x]> a) j = rd a j.
Proof. intros H. unfold rd. now rewrite list_lookup_insert_ne. Qed.

Lemma within_bounds_insert (inp : Input) (dsizes : list Z) (s : nat) (x : Z) :
  within_bounds inp dsizes ->
  ((s < length dsizes)%nat ->
   rd (_distinctSortMins inp) s <= x <= rd (_distinctSortMaxs inp) s) ->
  within_bounds inp (<[s := x]> dsizes).
Proof.
  intros [Hlen Hb] Hx. split; [now rewrite length_insert|].
  intros t Ht. destruct (Nat.eq_dec s t) as [->|Hne].
  - rewrite rd_insert_eq by lia. apply Hx. lia.
  - rewrite rd_insert_ne by assumption. now apply Hb.
Qed.

Section Bounds.

Variable inp : Input.

Hypothesis Hstart : forall s, (s < distinctSorts (_sortedSignature inp))%nat ->
  _startModelSize inp <= rd (_distinctSortMaxs inp) s
  /\ 0 <= rd (_distinctSortMins inp) s <= rd (_distinctSortMaxs inp) s
  /\ rd (_distinctSortMaxs inp) s <= U32.UINT_MAX.
Hypothesis Hcompat : forall a b, In (a, b) (_distinct_sort_constraints inp) ->
  (b < distinctSorts (_sortedSignature inp))%nat
  /\ rd (_distinctSortMaxs inp) b <= rd (_distinctSortMaxs inp) a.

Lemma initial_sizes_within : within_bounds inp (initial_sizes inp).
Proof.
  unfold within_bounds, initial_sizes. split.
  - now rewrite length_map, length_seq.
  - intros s Hs. rewrite rd_map_seq by assumption.
    destruct (Hstart s Hs) as (? & ? & ?). lia.
Qed.

Lemma nonstrict_pass_within (it : list (nat * nat)) :
  (forall c, In c it -> In c (_distinct_sort_constraints inp)) ->
  forall dsizes updated dsizes' updated' rest,
    within_bounds inp dsizes ->
    nonstrict_pass it dsizes updated = (dsizes', updated', rest) ->
    within_bounds inp dsizes'.
Proof.
  induction it as [|[a b] it IH]; intros Hit dsizes updated dsizes' updated' rest Hw; simpl.
  - now intros [= <- _ _].
  - assert (Hit' : forall c, In c it -> In c (_distinct_sort_constraints inp))
      by (intros c Hc; apply Hit; now right).
    destruct (rd dsizes a <? rd dsizes b) eqn:E.
    + apply IH; [assumption|]. apply within_bounds_insert; [assumption|].
      intros Ha. apply Z.ltb_lt in E.
      destruct (Hcompat a b) as [Hb Hmax]; [apply Hit; now left|].
      destruct Hw as [Hlen Hw].
      pose proof (Hw a ltac:(lia)). pose proof (Hw b Hb). lia.
    + now apply IH.
Qed.

Lemma sort_constraints_fixpoint_within (fuel : nat) :
  forall dsizes dsizes',
    within_bounds inp dsizes ->
    sort_constraints_fixpoint fuel inp dsizes = Some dsizes' ->
    within_bounds inp dsizes'.
Proof.
  induction fuel as [|k IH]; intros dsizes dsizes' Hw; simpl; [discriminate|].
  destruct (nonstrict_pass _ dsizes false) as [[d1 u1] it1] eqn:E1.
  pose proof (nonstrict_pass_within _ (fun c H => H) _ _ _ _ _ Hw E1) as Hw1.
  apply nonstrict_pass_spec in E1 as [-> _]. simpl.
  destruct u1.
  - now apply IH.
  - now intros [= <-].
Qed.

Lemma contour_choice_spec (which_sort : FMB -> Z -> nat) (st : FMB) (alt : Z)
    (failed : list SATLiteral) :
  forall acc,
    (snd acc < U32.UINT_MAX ->
     exists srt, fst acc = Z.of_nat srt
       /\ rd (_distinctSortSizes st) srt <> rd (_distinctSortMaxs inp) srt) ->
    let r := fold_left (contour_candidate which_sort inp st alt) failed acc in
    snd r < U32.UINT_MAX ->
    exists srt, fst r = Z.of_nat srt
      /\ rd (_distinctSortSizes st) srt <> rd (_distinctSortMaxs inp) srt.
Proof.
  induction failed as [|lit failed IH]; intros acc Hacc; simpl; [exact Hacc|].
  apply IH. unfold contour_candidate.
  destruct (rd (_distinctSortSizes st) (which_sort st (fst lit))
            =? rd (_distinctSortMaxs inp) (which_sort st (fst lit))) eqn:E; [exact Hacc|].
  apply Z.eqb_neq in E.
  match goal with |- context [if ?w <? snd acc then _ else _] =>
    destruct (w <? snd acc) end; [|exact Hacc].
  intros _. now exists (which_sort st (fst lit)).
Qed.

Lemma contour_grow_within (which_sort : FMB -> Z -> nat) (fuel : nat) (st : FMB)
    (alt : Z) (failed : list SATLiteral) (e e' : HackyDSAE) (dsizes' : list Z) :
  within_bounds inp (_distinctSortSizes st) ->
  contour_grow which_sort fuel inp st alt failed e = NewSizes dsizes' e' ->
  within_bounds inp dsizes'.
Proof.
  intros Hw. unfold contour_grow, contour_choice.
  pose proof (contour_choice_spec which_sort st alt failed (U32.UINT_MAX, U32.UINT_MAX)) as Hc.
  simpl in Hc.
  destruct (fold_left _ failed _) as [d w] eqn:E. simpl in Hc.
  destruct (w <? U32.UINT_MAX) eqn:Ew; [|discriminate].
  apply Z.ltb_lt in Ew.
  destruct Hc as (srt & -> & Hne); [lia|assumption|].
  rewrite Nat2Z.id.
  destruct (sort_constraints_fixpoint fuel inp _) as [r|] eqn:Ef; [|discriminate].
  intros [= <- _].
  refine (sort_constraints_fixpoint_within _ _ _ _ Ef).
  apply within_bounds_insert; [assumption|].
  intros Hs. destruct Hw as [Hlen Hw].
  pose proof (Hw srt ltac:(lia)) as Hb. destruct (Hstart srt ltac:(lia)) as (_ & Hm & Hu).
  unfold U32.add. rewrite wrap_small; unfold U32.UINT_MAX in Hu; lia.
Qed.

(** *** SBMEAM *)

Lemma snd_rdc_stars (dsizes : list Z) (sg : ConstraintSign) (s : nat) :
  snd (rdc (map (fun x => (sg, x)) dsizes) s) = rd dsizes s.
Proof.
  unfold rdc, rd. rewrite list_lookup_fmap.
  now destruct (dsizes !! s).
Qed.

Lemma snd_rdc_set_sign (sg : ConstraintSign) (i s : nat) (a : Constraint_Generator_Vals) :
  snd (rdc (set_sign sg i a) s) = snd (rdc a s).
Proof. rewrite rdc_set_sign. now destruct (decide _). Qed.

Lemma snd_build_nogood (st : FMB) (failed : list SATLiteral) (s : nat) :
  snd (rdc (build_nogood inp st failed) s) = rd (_distinctSortSizes st) s.
Proof.
  unfold build_nogood.
  assert (H : forall ng, (forall t, snd (rdc ng t) = rd (_distinctSortSizes st) t) ->
            forall t, snd (rdc (fold_left (nogood_step inp st) failed ng) t)
                      = rd (_distinctSortSizes st) t).
  { induction failed as [|l failed IH]; intros ng Hng; simpl; [exact Hng|].
    apply IH. intros t. unfold nogood_step.
    repeat match goal with |- context [if ?b then _ else _] => destruct b end;
      rewrite ?snd_rdc_set_sign; apply Hng. }
  apply H. intros t. apply snd_rdc_stars.
Qed.

Lemma heap_within_mono (K K' : Z) (e : HackyDSAE) :
  K <= K' -> heap_within inp K e -> heap_within inp K' e.
Proof.
  intros HK H G HG s Hs. destruct (H G HG s Hs) as [? ?]. split; [assumption|lia].
Qed.

Lemma heap_within_insert (K mw : Z) (e : HackyDSAE) (G : Constraint_Generator) :
  heap_within inp K e -> generator_within inp K G ->
  heap_within inp K (heap_insert G e mw).
Proof.
  intros He HG G' HG'. unfold heap_insert in HG'. simpl in HG'.
  apply in_app_or in HG' as [H|[<-|[]]]; [now apply He|assumption].
Qed.

Lemma test_candidate_within (K : Z) (e e' : HackyDSAE) (v : list Z) (i : nat) :
  heap_within inp K e -> candidate inp K i v ->
  test_candidate inp e v i (_distinctSortMaxs inp) = NextCandidate e' ->
  heap_within inp K e'.
Proof.
  intros He Hv. unfold test_candidate.
  destruct (rd v i >? rd (_distinctSortMaxs inp) i) eqn:E1; [now intros [= <-]|].
  rewrite Z.gtb_ltb, Z.ltb_ge in E1.
  assert (Hin : forall s, (s < distinctSorts (_sortedSignature inp))%nat ->
            rd (_distinctSortMins inp) s <= rd v s <= rd (_distinctSortMaxs inp) s
            /\ rd v s <= K).
  { intros s Hs. destruct (Hv s Hs) as [? Hmax].
    destruct (Nat.eq_dec s i) as [->|Hne]; [lia|]. specialize (Hmax Hne). lia. }
  destruct (ruled_out v (_constraints_generators e)); [now intros [= <-]|].
  destruct (_keepOldGenerators e && ruled_out v (_old_generators e)).
  { intros [= <-]. apply heap_within_insert; [assumption|].
    intros s Hs. simpl. rewrite snd_rdc_stars. now apply Hin. }
  assert (Hchild : forall w constr,
            heap_within inp K (heap_insert (artificial_child v w constr) e w)).
  { intros w constr. apply heap_within_insert; [assumption|].
    intros s Hs. unfold artificial_child. simpl.
    rewrite !snd_rdc_set_sign, snd_rdc_stars. now apply Hin. }
  destruct (find _ (_distinct_sort_constraints inp)); [intros [= <-]; apply Hchild|].
  destruct (find _ (_strict_distinct_sort_constraints inp));
    [intros [= <-]; apply Hchild|discriminate].
Qed.

Lemma try_increments_within (K : Z) (copied : list Z) :
  K < U32.UINT_MAX ->
  within_bounds inp copied ->
  (forall s, (s < distinctSorts (_sortedSignature inp))%nat -> rd copied s <= K) ->
  forall idxs e r undone e',
    heap_within inp (K + 1) e ->
    try_increments inp e copied idxs (_distinctSortMaxs inp) = (r, undone, e') ->
    heap_within inp (K + 1) e'
    /\ match r with
       | Some v => within_bounds inp v
       | None => undone = copied
       end.
Proof.
  intros HK [Hlen Hw] HcK.
  induction idxs as [|i idxs IH]; intros e r undone e' He; simpl.
  - intros [= <- <- <-]. now split.
  - set (inc := <[i := U32.add (rd copied i) 1]> copied).
    assert (Hi : (i < length copied)%nat -> U32.add (rd copied i) 1 = rd copied i + 1).
    { intros Hi. rewrite Hlen in Hi. pose proof (Hw i Hi). pose proof (HcK i Hi).
      destruct (Hstart i Hi) as (_ & ? & ?).
      unfold U32.add. apply wrap_small. unfold U32.UINT_MAX in *. lia. }
    assert (Hcand : candidate inp (K + 1) i inc).
    { intros s Hs. pose proof (Hw s Hs). pose proof (HcK s Hs). subst inc.
      destruct (Nat.eq_dec i s) as [->|Hne].
      - rewrite rd_insert_eq by lia. rewrite Hi by lia. split; [lia|congruence].
      - rewrite rd_insert_ne by assumption. split; [lia|]. intros _. lia. }
    destruct (test_candidate inp e inc i (_distinctSortMaxs inp)) as [|e1] eqn:E.
    + intros [= <- <- <-]. split; [assumption|].
      apply test_candidate_AllPassed in E as (Hmax & _).
      split; [subst inc; now rewrite length_insert|].
      intros s Hs. destruct (Hcand s Hs) as [? Hm].
      destruct (Nat.eq_dec s i) as [->|Hne]; [lia|]. specialize (Hm Hne). lia.
    + assert (Hundo : <[i := U32.sub (rd inc i) 1]> inc = copied).
      { destruct (Nat.lt_ge_cases i (length copied)) as [Hlt|Hge].
        - subst inc. rewrite rd_insert_eq by assumption. rewrite Hi by assumption.
          rewrite list_insert_insert_eq. apply list_insert_id.
          unfold U32.sub. replace (rd copied i + 1 - 1) with (rd copied i) by lia.
          rewrite Hlen in Hlt. pose proof (Hw i Hlt). pose proof (HcK i Hlt).
          destruct (Hstart i Hlt) as (_ & ? & ?).
          rewrite wrap_small by (unfold U32.UINT_MAX in *; lia).
          unfold rd. destruct (copied !! i) eqn:El; [reflexivity|].
          apply lookup_ge_None in El. lia.
        - subst inc. now rewrite !list_insert_ge by (rewrite ?length_insert; lia). }
      rewrite Hundo. apply IH.
      now apply (test_candidate_within (K + 1) e e1 inc i).
Qed.

Lemma In_delete {A} (x : A) (i : nat) (l : list A) : In x (delete i l) -> In x l.
Proof.
  revert i. induction l as [|y l IH]; intros [|i]; simpl; auto.
  intros [H|H]; auto. right. now apply (IH i).
Qed.

Section Loop.

Variable heap_top : list Constraint_Generator -> nat.
Hypothesis heap_top_valid : forall h, h <> [] -> (heap_top h < length h)%nat.

Lemma top_in_heap (e : HackyDSAE) :
  _constraints_generators e <> [] -> In (top heap_top e) (_constraints_generators e).
Proof.
  intros H. unfold top. pose proof (heap_top_valid _ H) as Hlt.
  destruct (_constraints_generators e !! heap_top (_constraints_generators e)) as [G|] eqn:E.
  - simpl. apply list_elem_of_In. apply list_elem_of_lookup. eauto.
  - apply lookup_ge_None in E. lia.
Qed.

Lemma increaseModelSizes_within (fuel : nat) :
  forall K e newSortSizes v e',
    heap_within inp K e ->
    K + Z.of_nat fuel < U32.UINT_MAX ->
    length newSortSizes = distinctSorts (_sortedSignature inp) ->
    increaseModelSizes heap_top fuel inp e newSortSizes (_distinctSortMaxs inp)
    = Some (true, v, e') ->
    within_bounds inp v /\ heap_within inp (K + Z.of_nat fuel) e'.
Proof.
  induction fuel as [|k IH]; intros K e nss v e' He HK Hlen; simpl; [discriminate|].
  destruct (_constraints_generators e) as [|g gs] eqn:Eh; [discriminate|].
  assert (Htop : generator_within inp K (top heap_top e)).
  { apply He. apply top_in_heap. rewrite Eh. discriminate. }
  set (copied := map (fun i => snd (rdc (_vals (top heap_top e)) i)) (seq 0 (length nss))).
  assert (Hcw : within_bounds inp copied).
  { split; [subst copied; now rewrite length_map, length_seq|].
    intros s Hs. subst copied. rewrite rd_map_seq by lia. now apply Htop. }
  assert (HcK : forall s, (s < distinctSorts (_sortedSignature inp))%nat -> rd copied s <= K).
  { intros s Hs. subst copied. rewrite rd_map_seq by lia. now apply Htop. }
  destruct (try_increments inp e copied _ _) as [[r undone] e1] eqn:E.
  apply (try_increments_within K copied ltac:(lia) Hcw HcK) in E as [He1 Hr];
    [|apply (heap_within_mono K); [lia|assumption]].
  destruct r as [w|].
  - intros [= <- <-]. split; [assumption|].
    apply (heap_within_mono (K + 1)); [lia|assumption].
  - subst undone. intros H.
    apply (IH (K + 1)) in H.
    + destruct H as [? H]. split; [assumption|].
      apply (heap_within_mono (K + 1 + Z.of_nat k)); [lia|assumption].
    + intros G HG. apply He1. unfold pop_top in HG. simpl in HG.
      now apply In_delete in HG.
    + lia.
    + now destruct Hcw.
Qed.

Lemma sbmeam_grow_within (isFmbComplete : HackyDSAE -> nat -> bool) (fuel : nat)
    (st : FMB) (weight K : Z) (failed : list SATLiteral) (e e' : HackyDSAE)
    (dsizes' : list Z) :
  within_bounds inp (_distinctSortSizes st) ->
  (forall s, (s < distinctSorts (_sortedSignature inp))%nat ->
     rd (_distinctSortSizes st) s <= K) ->
  heap_within inp K e ->
  K + Z.of_nat fuel < U32.UINT_MAX ->
  sbmeam_grow heap_top isFmbComplete fuel inp st weight failed e = NewSizes dsizes' e' ->
  within_bounds inp dsizes' /\ heap_within inp (K + Z.of_nat fuel) e'.
Proof.
  intros Hw HsK He HK. unfold sbmeam_grow.
  destruct (increaseModelSizes _ _ _ _ _ _) as [[[[] v] e1]|] eqn:E;
    [|destruct (isFmbComplete _ _); discriminate|discriminate].
  intros [= <- <-].
  apply (increaseModelSizes_within fuel K) in E; [assumption| |assumption|apply Hw].
  unfold learnNogood. apply heap_within_insert; [assumption|].
  intros s Hs. simpl. rewrite snd_build_nogood.
  split; [now apply Hw|now apply HsK].
Qed.

End Loop.

End Bounds.

(** C8, as the code has it. Suppose the start size and the minimum of
    every distinct sort are at most its maximum, and the maxima respect
    the non-strict sort constraints ([max[b] <= max[a]] for a constraint
    [size[a] >= size[b]]). Then every size vector submitted to the
    encoding lies within [[min, max]]: the initial assignment does; a
    CONTOUR growth step with its constraint block keeps it so; and so
    does an SBMEAM increment, whose generators hold sizes within the
    bounds, as long as no size reaches [UINT_MAX]. *)
Theorem sizes_within_bounds (inp : Input) :
  (forall s, (s < distinctSorts (_sortedSignature inp))%nat ->
     _startModelSize inp <= rd (_distinctSortMaxs inp) s
     /\ 0 <= rd (_distinctSortMins inp) s <= rd (_distinctSortMaxs inp) s
     /\ rd (_distinctSortMaxs inp) s <= U32.UINT_MAX) ->
  (forall a b, In (a, b) (_distinct_sort_constraints inp) ->
     (b < distinctSorts (_sortedSignature inp))%nat
     /\ rd (_distinctSortMaxs inp) b <= rd (_distinctSortMaxs inp) a) ->
  within_bounds inp (initial_sizes inp)
  /\ (forall which_sort fuel st alt failed e dsizes' e',
        within_bounds inp (_distinctSortSizes st) ->
        contour_grow which_sort fuel inp st alt failed e = NewSizes dsizes' e' ->
        within_bounds inp dsizes')
  /\ (forall heap_top isFmbComplete fuel st weight K failed e dsizes' e',
        (forall h, h <> [] -> (heap_top h < length h)%nat) ->
        within_bounds inp (_distinctSortSizes st) ->
        (forall s, (s < distinctSorts (_sortedSignature inp))%nat ->
           rd (_distinctSortSizes st) s <= K) ->
        heap_within inp K e ->
        K + Z.of_nat fuel < U32.UINT_MAX ->
        sbmeam_grow heap_top isFmbComplete fuel inp st weight failed e
        = NewSizes dsizes' e' ->
        within_bounds inp dsizes' /\ heap_within inp (K + Z.of_nat fuel) e').
Proof.
  intros Hstart Hcompat. split; [|split].
  - now apply initial_sizes_within.
  - intros which_sort fuel st alt failed e dsizes' e'.
    now apply contour_grow_within.
  - intros heap_top isFmbComplete fuel st weight K failed e dsizes' e' Htop.
    now apply sbmeam_grow_within.
Qed.

(** The three parts on small problems: the initial vector [1; 1] of two
    sorts with maxima 5 and the constraint [size[0] >= size[1]]; the
    CONTOUR step that grows sort 1 and lets the constraint raise sort 0, to
    [2; 2]; and the SBMEAM increment of one sort from 1 to 2 after its
    totality marker failed. *)
Lemma sizes_within_bounds_witness :
  within_bounds (ex2_input 1 [1; 1] [5; 5] [(0%nat, 1%nat)] [])
    (initial_sizes (ex2_input 1 [1; 1] [5; 5] [(0%nat, 1%nat)] []))
  /\ within_bounds (ex2_input 1 [1; 1] [5; 5] [(0%nat, 1%nat)] []) [2; 2]
  /\ within_bounds (ex_input false U32.UINT_MAX 5 []) [2].
Proof.
  assert (H2 : forall s, (s < 2)%nat ->
            1 <= rd [5; 5] s /\ 0 <= rd [1; 1] s <= rd [5; 5] s
            /\ rd [5; 5] s <= U32.UINT_MAX).
  { intros [|[|s]] Hs; [| |lia]; vm_compute; repeat split; intros H; discriminate H. }
  assert (Hc : forall a b, In (a, b) [(0%nat, 1%nat)] ->
            (b < 2)%nat /\ rd [5; 5] b <= rd [5; 5] a).
  { intros a b [[= <- <-]|[]]. split; [lia|vm_compute; intros H; discriminate H]. }
  assert (H1 : forall s, (s < 1)%nat ->
            1 <= rd [5] s /\ 0 <= rd [1] s <= rd [5] s /\ rd [5] s <= U32.UINT_MAX).
  { intros [|s] Hs; [|lia]. vm_compute; repeat split; intros H; discriminate H. }
  split; [|split].
  - exact (proj1 (sizes_within_bounds
                    (ex2_input 1 [1; 1] [5; 5] [(0%nat, 1%nat)] []) H2 Hc)).
  - apply (proj1 (proj2 (sizes_within_bounds
                           (ex2_input 1 [1; 1] [5; 5] [(0%nat, 1%nat)] []) H2 Hc))
             (fun _ _ => 1%nat) 4%nat (ex2_builder [1; 1]) 1 [(5, false)]
             ex_enumerator [2; 2] ex_enumerator).
    + split; [reflexivity|]. intros s Hs. destruct (H2 s Hs) as (_ & ? & _).
      destruct s as [|[|s]]; [| |simpl in Hs; lia]; vm_compute;
        split; intros H'; discriminate H'.
    + vm_compute. reflexivity.
  - eapply (proj1 (proj2 (proj2 (sizes_within_bounds
                                   (ex_input false U32.UINT_MAX 5 []) H1
                                   (fun a b (H : In (a, b) []) => match H with end)))
                     ex_heap_top ex_isFmbComplete 1%nat
                     (fst (reset (ex_input false U32.UINT_MAX 5 []) (ex_builder 1)))
                     0 1 [(4, true)] ex_enumerator [2] _ _ _ _ _ _ _)).
    Unshelve.
    + exact (learnNogood ex_enumerator [(EQ, 1)] 0).
    + intros [|g h] Hh; [contradiction|unfold ex_heap_top; simpl; lia].
    + split; [reflexivity|]. intros [|s] Hs; [|simpl in Hs; lia].
      vm_compute; split; intros H'; discriminate H'.
    + intros [|s] Hs; [|simpl in Hs; lia]. vm_compute. intros H'; discriminate H'.
    + intros G [].
    + vm_compute. reflexivity.
    + vm_compute. reflexivity.
Defined.

(** C8, as stated, fails at the initial assignment: with start size 3
    and maximum 2 the first vector submitted is [3; 3]. *)
Lemma initial_sizes_counterexample :
  ~ within_bounds (ex2_input 3 [1; 1] [2; 2] [] [])
      (initial_sizes (ex2_input 3 [1; 1] [2; 2] [] [])).
Proof.
  intros [_ H]. specialize (H 0%nat ltac:(simpl; lia)). vm_compute in H.
  destruct H as [_ H]. now apply H.
Qed.

(** Nor does the constraint block look at the maxima: with the constraint
    [size[0] >= size[1]], maxima [1; 5] and sizes [1; 1], growing sort 1
    raises sort 0 to 2, above its maximum. *)
Lemma contour_fixpoint_exceeds_maximum :
  let inp := ex2_input 1 [1; 1] [1; 5] [(0%nat, 1%nat)] [] in
  within_bounds inp [1; 1]
  /\ contour_grow (fun _ _ => 1%nat) 4 inp (ex2_builder [1; 1]) 1 [(5, false)] ex_enumerator
     = NewSizes [2; 2] ex_enumerator
  /\ ~ within_bounds inp [2; 2].
Proof.
  cbv zeta. split; [|split].
  - split; [reflexivity|].
    intros [|[|s]] Hs; [| |simpl in Hs; lia];
      vm_compute; repeat split; intros H; discriminate H.
  - vm_compute. reflexivity.
  - intros [_ H]. specialize (H 0%nat ltac:(simpl; lia)). vm_compute in H.
    destruct H as [_ H]. now apply H.
Qed.

(** ** [reset]: the overflow checks *)

(** A failed [reset] leaves the trace as it was: no solver is created. A
    successful one creates the solver and sets its variable count. *)
Lemma reset_trace (inp : Input) (st : FMB) :
  trace (fst (reset inp st))
  = if snd (reset inp st)
    then trace st ++ [NewSolver; EnsureVarCount (_curMaxVar (fst (reset inp st)))]
    else trace st.
Proof.
  unfold reset.
  destruct (reset_functions inp st _ 1 _) as [fo [o1|]]; [|reflexivity].
  destruct (reset_predicates inp st _ o1 _) as [po [o2|]]; [|reflexivity].
  destruct (_xmass inp).
  - destruct (reset_markers _ _ _ o2 _) as [mo [o3|]]; [|reflexivity].
    simpl. now rewrite <- app_assoc.
  - destruct (advance (VAR_MAX inp) o2 _) as [o3|]; [|reflexivity].
    destruct (advance (VAR_MAX inp) o3 _) as [o4|]; [|reflexivity].
    simpl. now rewrite <- app_assoc.
Qed.

(** When the test [n_add < add] holds at some slot, the block loop stops. *)
Lemma block_loop_check_fires (sizes : list Z) (pre post : list nat) (srt : nat)
    (add0 add : Z) :
  block_loop sizes pre add0 = Some add ->
  U32.mul add (rd sizes srt) < add ->
  block_loop sizes (pre ++ srt :: post) add0 = None.
Proof.
  revert add0. induction pre as [|s pre IH]; intros add0; simpl.
  - intros [= ->] H. apply Z.ltb_lt in H. now rewrite H.
  - destruct (U32.mul add0 (rd sizes s) <? add0); [discriminate|]. apply IH.
Qed.

Lemma offsets_loop_app (var_max : Z) (add_of : nat -> option Z) (del : list bool)
    (pre post : list nat) :
  forall offsets offs,
    offsets_loop var_max add_of del (pre ++ post) offsets offs
    = match offsets_loop var_max add_of del pre offsets offs with
      | (offs', Some offsets') => offsets_loop var_max add_of del post offsets' offs'
      | (offs', None) => (offs', None)
      end.
Proof.
  induction pre as [|f pre IH]; intros offsets offs; simpl; [reflexivity|].
  destruct (rdb del f); [apply IH|].
  destruct (add_of f) as [add|]; [|reflexivity].
  destruct (advance var_max offsets add); [apply IH|reflexivity].
Qed.

(** When the walk reaches a symbol that is not deleted and either its
    block loop stops or [VAR_MAX - add < offsets] holds, the walk stops. *)
Lemma offsets_loop_check_fires (var_max : Z) (add_of : nat -> option Z)
    (del : list bool) (pre post : list nat) (f : nat) (offsets0 offsets : Z)
    (offs0 offs : list Z) :
  offsets_loop var_max add_of del pre offsets0 offs0 = (offs, Some offsets) ->
  rdb del f = false ->
  (add_of f = None
   \/ exists add, add_of f = Some add /\ U32.sub var_max add < offsets) ->
  snd (offsets_loop var_max add_of del (pre ++ f :: post) offsets0 offs0) = None.
Proof.
  intros Hpre Hdel Hfire. rewrite offsets_loop_app, Hpre. simpl. rewrite Hdel.
  destruct Hfire as [->|(add & -> & H)]; [reflexivity|].
  unfold advance. apply Z.ltb_lt in H. now rewrite H.
Qed.

(** A walk of the functions or of the predicates that stops makes [reset]
    return [false]. *)
Lemma reset_stops (inp : Input) (st : FMB) :
  (snd (reset_functions inp st (seq 0 (functions (signature inp))) 1 (f_offsets st)) = None
   \/ exists fo offsets,
        reset_functions inp st (seq 0 (functions (signature inp))) 1 (f_offsets st)
        = (fo, Some offsets)
        /\ snd (reset_predicates inp st (seq 1 (predicates (signature inp) - 1))
                  offsets (p_offsets st)) = None) ->
  snd (reset inp st) = false /\ trace (fst (reset inp st)) = trace st.
Proof.
  intros H. assert (E : snd (reset inp st) = false).
  { unfold reset. destruct H as [H|(fo & offsets & -> & H)].
    - destruct (reset_functions inp st _ 1 _) as [fo [o1|]]; [discriminate|reflexivity].
    - destruct (reset_predicates inp st _ offsets _) as [po [o2|]];
        [discriminate|reflexivity]. }
  split; [assumption|]. now rewrite reset_trace, E.
Qed.

(** C5, on the code: the test [n_add < add] does not see every overflow.
    With the sort at size 65537 the unary function [f1] needs
    [65537 * 65537 = 2^32 + 131073] variables; the 32-bit product is
    131073, which is not below 65537, so the block is taken to have 131073
    variables, [reset] returns [true] and creates the solver. The tuples
    (1, 65537) and (65537, 1) of [f1] then share a variable. *)
Theorem reset_accepts_wrapped_block :
  let inp := ex_input false U32.UINT_MAX U32.UINT_MAX [] in
  let st := ex_builder 65537 in
  65537 * 65537 > U32.UINT_MAX
  /\ f_add inp st 1 = Some 131073
  /\ snd (reset inp st) = true
  /\ trace (fst (reset inp st)) = [NewSolver; EnsureVarCount 262149]
  /\ getSATLiteral inp (fst (reset inp st)) 1 [1; 65537] true true
     = getSATLiteral inp (fst (reset inp st)) 1 [65537; 1] true true.
Proof. cbv zeta. repeat split; vm_compute; reflexivity. Qed.

(** Nor does the test [VAR_MAX - add < offsets] see a block larger than
    [VAR_MAX]: the subtraction wraps. In CONTOUR mode with two sorts of
    size 2^30, a constant in each and [VAR_MAX = 2^30 - 1], the four blocks
    of 2^30 variables are accepted, the running offset wraps to 1 and
    [reset] returns [true] with no variable at all. *)
Lemma reset_accepts_oversized_block :
  let inp := ex2_input (2 ^ 30) [1; 1] [U32.UINT_MAX; U32.UINT_MAX] [] [] in
  let st := ex2_builder [2 ^ 30; 2 ^ 30] in
  VAR_MAX inp < 2 ^ 30
  /\ snd (reset inp st) = true
  /\ _curMaxVar (fst (reset inp st)) = 0.
Proof. cbv zeta. repeat split; vm_compute; reflexivity. Qed.

(** ** The layout of the SAT variables *)

(** *** Mixed-radix numbering *)

Lemma product_pos (l : list Z) : Forall (fun s => 1 <= s) l -> 1 <= product l.
Proof.
  induction 1 as [|s l Hs _ IH]; simpl; [lia|]. nia.
Qed.

Lemma in_domain_sizes (ssz tuple : list Z) :
  in_domain ssz tuple -> Forall (fun s => 1 <= s) ssz.
Proof.
  induction 1 as [|x s t ss Hx _ IH]; constructor; [lia|assumption].
Qed.

Lemma sum_map_scale {A} (f g : A -> Z) (c : Z) (l : list A) :
  (forall a, g a = c * f a) -> sum (map g l) = c * sum (map f l).
Proof.
  intros H. induction l as [|a l IH]; simpl; [lia|].
  unfold sum in *. simpl. rewrite IH, H. lia.
Qed.

Lemma mixedRadixIndex_cons (x s : Z) (t ss : list Z) :
  mixedRadixIndex (s :: ss) (x :: t) = (x - 1) + s * mixedRadixIndex ss t.
Proof.
  unfold mixedRadixIndex. simpl length. rewrite <- cons_seq, <- seq_shift.
  rewrite map_cons, sum_cons, map_map.
  rewrite (sum_map_scale (fun i => (rd t i - 1) * product (firstn i ss)) _ s).
  - simpl. unfold rd at 1. simpl. lia.
  - intros i. simpl. unfold rd at 1. simpl. fold (rd t i). lia.
Qed.

(** The sum of the design document is the slot-by-slot index. *)
Lemma mixedRadixIndex_horner (ssz tuple : list Z) :
  in_domain ssz tuple -> mixedRadixIndex ssz tuple = horner ssz tuple.
Proof.
  induction 1 as [|x s t ss Hx Ht IH]; [reflexivity|].
  rewrite mixedRadixIndex_cons. simpl. now rewrite IH.
Qed.

Lemma horner_range (ssz tuple : list Z) :
  in_domain ssz tuple -> 0 <= horner ssz tuple < product ssz.
Proof.
  induction 1 as [|x s t ss Hx Ht IH]; simpl; [lia|].
  pose proof (product_pos ss (in_domain_sizes _ _ Ht)). nia.
Qed.

Lemma horner_inj (ssz t1 t2 : list Z) :
  in_domain ssz t1 -> in_domain ssz t2 ->
  horner ssz t1 = horner ssz t2 -> t1 = t2.
Proof.
  intros H1. revert t2. induction H1 as [|x s t ss Hx Ht IH]; intros t2 H2 E.
  - now inversion H2.
  - inversion H2 as [|y s' t' ss' Hy Ht' E1 E2]; subst. simpl in E.
    pose proof (horner_range _ _ Ht). pose proof (horner_range _ _ Ht').
    assert (horner ss t = horner ss t') by nia.
    assert (x = y) by nia. subst. f_equal. now apply IH.
Qed.

Lemma horner_onto (ssz : list Z) :
  Forall (fun s => 1 <= s) ssz ->
  forall k, 0 <= k < product ssz ->
    exists tuple, in_domain ssz tuple /\ horner ssz tuple = k.
Proof.
  induction 1 as [|s ss Hs Hss IH]; intros k Hk; simpl in Hk.
  - exists []. split; [constructor|simpl; lia].
  - destruct (IH (k / s)) as (t & Ht & E).
    { pose proof (product_pos ss Hss). split; [apply Z.div_pos; lia|].
      apply Z.div_lt_upper_bound; lia. }
    exists (k mod s + 1 :: t). split.
    + constructor; [|assumption]. pose proof (Z.mod_pos_bound k s). lia.
    + simpl. rewrite E. pose proof (Z.div_mod k s). lia.
Qed.

(** *** The loops without wrap-around *)

Lemma getSATLiteral_loop_exact (sizes : list Z) (sig : list nat) :
  forall tuple var mult,
    in_domain (map (rd sizes) sig) tuple ->
    0 <= var -> 1 <= mult ->
    mult * product (map (rd sizes) sig) < U32.modulus ->
    var + mult * (product (map (rd sizes) sig) - 1) < U32.modulus ->
    getSATLiteral_loop sizes tuple sig var mult
    = var + mult * horner (map (rd sizes) sig) tuple.
Proof.
  induction sig as [|s ss IH]; intros tuple var mult Hdom Hvar Hmult Hfit Hmax;
    inversion Hdom as [|x sz t ssz Hx Ht]; subst; simpl.
  - lia.
  - simpl in Hfit, Hmax.
    pose proof (product_pos _ (in_domain_sizes _ _ Ht)) as Hp.
    set (S := rd sizes s) in *. set (P := product (map (rd sizes) ss)) in *.
    assert (H1 : S <= S * P) by nia.
    assert (H2 : S * P <= mult * (S * P)) by nia.
    assert (H3 : mult * (x - 1) <= mult * (S - 1)) by nia.
    assert (H4 : mult * S <= mult * (S * P)) by nia.
    assert (H5 : mult * (S - 1) + mult * S * (P - 1) = mult * (S * P - 1)) by lia.
    assert (H6 : 0 <= mult * (x - 1)) by nia.
    assert (H7 : 0 <= mult * S * (P - 1)) by nia.
    assert (Hsub : U32.sub x 1 = x - 1).
    { unfold U32.sub. apply wrap_small. lia. }
    assert (Hmul : U32.mul mult (x - 1) = mult * (x - 1)).
    { unfold U32.mul. apply wrap_small. lia. }
    assert (Hadd : U32.add var (mult * (x - 1)) = var + mult * (x - 1)).
    { unfold U32.add. apply wrap_small. lia. }
    assert (Hm' : U32.mul mult S = mult * S).
    { unfold U32.mul. apply wrap_small. nia. }
    rewrite Hsub, Hmul, Hadd, Hm'. fold P in IH.
    rewrite IH; [lia|assumption|lia|nia|lia|lia].
Qed.

Lemma block_loop_exact (sizes : list Z) (slots : list nat) :
  forall add,
    0 <= add ->
    Forall (fun srt => 1 <= rd sizes srt) slots ->
    add * product (map (rd sizes) slots) < U32.modulus ->
    block_loop sizes slots add = Some (add * product (map (rd sizes) slots)).
Proof.
  induction slots as [|s ss IH]; intros add Hadd Hpos Hfit; simpl.
  - f_equal. lia.
  - inversion Hpos as [|? ? Hs Hss]; subst. simpl in Hfit.
    pose proof (product_pos _ (proj2 (Forall_map _ _ _) Hss)) as Hp.
    assert (Hm : U32.mul add (rd sizes s) = add * rd sizes s).
    { unfold U32.mul. apply wrap_small. nia. }
    rewrite Hm. replace (add * rd sizes s <? add) with false
      by (symmetry; apply Z.ltb_ge; nia).
    rewrite IH; [f_equal; lia|nia|assumption|nia].
Qed.

Lemma advance_exact (var_max offsets add : Z) :
  0 <= offsets -> 0 <= add -> offsets + add <= var_max -> var_max < U32.modulus ->
  advance var_max offsets add = Some (offsets + add).
Proof.
  intros Ho Ha Hfit Hvm. unfold advance, U32.sub, U32.add.
  rewrite !wrap_small by lia.
  now replace (var_max - add <? offsets) with false by (symmetry; apply Z.ltb_ge; lia).
Qed.

Lemma blocksTotal_nonneg (B : nat -> Z) (del : list bool) (syms : list nat) :
  (forall f, In f syms -> rdb del f = false -> 0 <= B f) ->
  0 <= blocksTotal B del syms.
Proof.
  induction syms as [|f syms IH]; intros HB; simpl; [lia|].
  assert (0 <= blocksTotal B del syms) by (apply IH; intros g Hg; apply HB; now right).
  destruct (rdb del f) eqn:E; [lia|]. specialize (HB f (or_introl eq_refl) E). lia.
Qed.

Lemma laid_out_ext (offs offs' : list Z) (B : nat -> Z) (del : list bool)
    (syms : list nat) (offsets : Z) :
  (forall f, In f syms -> rd offs' f = rd offs f) ->
  laid_out offs B del syms offsets -> laid_out offs' B del syms offsets.
Proof.
  revert offsets. induction syms as [|f syms IH]; intros offsets Hext; simpl; [trivial|].
  assert (Hext' : forall g, In g syms -> rd offs' g = rd offs g)
    by (intros g Hg; apply Hext; now right).
  destruct (rdb del f); [now apply IH|].
  intros [H1 H2]. split; [now rewrite Hext by now left|now apply IH].
Qed.

(** The walk over the symbols, when nothing wraps: every block is taken
    at its true size, the offsets recorded are consecutive, and the
    entries of the other symbols are left alone. *)
Lemma offsets_loop_exact (var_max : Z) (add_of : nat -> option Z) (del : list bool)
    (B : nat -> Z) (syms : list nat) :
  var_max < U32.modulus ->
  NoDup syms ->
  (forall f, In f syms -> rdb del f = false -> add_of f = Some (B f) /\ 0 <= B f) ->
  forall offsets offs,
    (forall f, In f syms -> (f < length offs)%nat) ->
    0 <= offsets ->
    offsets + blocksTotal B del syms <= var_max ->
    exists offs',
      offsets_loop var_max add_of del syms offsets offs
      = (offs', Some (offsets + blocksTotal B del syms))
      /\ length offs' = length offs
      /\ (forall f, ~ In f syms -> rd offs' f = rd offs f)
      /\ laid_out offs' B del syms offsets.
Proof.
  intros Hvm Hnd HB. induction syms as [|f syms IH]; intros offsets offs Hlen Ho Hfit; simpl.
  - exists offs. split; [|repeat split; auto].
    unfold blocksTotal. simpl. now rewrite Z.add_0_r.
  - inversion Hnd as [|? ? Hnotin Hnd']; subst.
    assert (HB' : forall g, In g syms -> rdb del g = false -> add_of g = Some (B g) /\ 0 <= B g)
      by (intros g Hg; apply HB; now right).
    pose proof (blocksTotal_nonneg B del syms (fun g Hg Hd => proj2 (HB' g Hg Hd))) as Hnn.
    simpl in Hfit. destruct (rdb del f) eqn:Ed.
    + destruct (IH Hnd' HB' offsets offs) as (offs' & E & Hl & Hout & Hlay);
        [intros g Hg; apply Hlen; now right|lia|lia|].
      exists offs'. rewrite E.
      split; [do 2 f_equal; lia|]. split; [assumption|]. split; [|assumption].
      intros g Hg. apply Hout. intros Hin. apply Hg. now right.
    + destruct (HB f (or_introl eq_refl) Ed) as [-> HBf].
      rewrite advance_exact by lia.
      destruct (IH Hnd' HB' (offsets + B f) (<[f := offsets]> offs))
        as (offs' & E & Hl & Hout & Hlay);
        [intros g Hg; rewrite length_insert; apply Hlen; now right|lia|lia|].
      exists offs'. rewrite E. rewrite length_insert in Hl.
      split; [do 2 f_equal; lia|]. split; [assumption|]. split; [|split; [|assumption]].
      * intros g Hg. rewrite Hout by (intros Hin; apply Hg; now right).
        apply rd_insert_ne. intros ->. apply Hg. now left.
      * rewrite Hout by (now rewrite <- list_elem_of_In).
        apply rd_insert_eq. apply Hlen. now left.
Qed.

(** What consecutive offsets give: every block lies inside the walked
    range, two blocks do not overlap, and every variable of the range is
    in some block. *)
Lemma laid_out_range (offs : list Z) (B : nat -> Z) (del : list bool) (syms : list nat) :
  (forall f, In f syms -> rdb del f = false -> 0 <= B f) ->
  forall offsets, laid_out offs B del syms offsets ->
  forall f, In f syms -> rdb del f = false ->
    offsets <= rd offs f /\ rd offs f + B f <= offsets + blocksTotal B del syms.
Proof.
  induction syms as [|g syms IH]; intros HB offsets Hlay f Hin Hd; [destruct Hin|].
  assert (HB' : forall h, In h syms -> rdb del h = false -> 0 <= B h)
    by (intros h Hh; apply HB; now right).
  pose proof (blocksTotal_nonneg B del syms HB') as Hnn.
  simpl in Hlay |- *. destruct (rdb del g) eqn:Eg.
  - destruct Hin as [->|Hin]; [congruence|].
    destruct (IH HB' offsets Hlay f Hin Hd). lia.
  - destruct Hlay as [Hg Hlay]. pose proof (HB g (or_introl eq_refl) Eg).
    destruct Hin as [->|Hin]; [lia|].
    destruct (IH HB' _ Hlay f Hin Hd). lia.
Qed.

Lemma laid_out_disjoint (offs : list Z) (B : nat -> Z) (del : list bool) (syms : list nat) :
  NoDup syms ->
  (forall f, In f syms -> rdb del f = false -> 0 <= B f) ->
  forall offsets, laid_out offs B del syms offsets ->
  forall f g, In f syms -> In g syms -> rdb del f = false -> rdb del g = false ->
    f <> g ->
    rd offs f + B f <= rd offs g \/ rd offs g + B g <= rd offs f.
Proof.
  induction syms as [|h syms IH]; intros Hnd HB offsets Hlay f g Hf Hg Hdf Hdg Hne;
    [destruct Hf|].
  inversion Hnd as [|? ? Hnotin Hnd']; subst.
  assert (HB' : forall k, In k syms -> rdb del k = false -> 0 <= B k)
    by (intros k Hk; apply HB; now right).
  simpl in Hlay. destruct (rdb del h) eqn:Eh.
  - destruct Hf as [->|Hf]; [congruence|]. destruct Hg as [->|Hg]; [congruence|].
    now apply (IH Hnd' HB' offsets Hlay).
  - destruct Hlay as [Hh Hlay].
    destruct Hf as [->|Hf], Hg as [->|Hg].
    + contradiction.
    + left. destruct (laid_out_range offs B del syms HB' _ Hlay g Hg Hdg). lia.
    + right. destruct (laid_out_range offs B del syms HB' _ Hlay f Hf Hdf). lia.
    + now apply (IH Hnd' HB' _ Hlay).
Qed.

Lemma laid_out_cover (offs : list Z) (B : nat -> Z) (del : list bool) (syms : list nat) :
  (forall f, In f syms -> rdb del f = false -> 0 <= B f) ->
  forall offsets, laid_out offs B del syms offsets ->
  forall v, offsets <= v < offsets + blocksTotal B del syms ->
    exists f, In f syms /\ rdb del f = false /\ rd offs f <= v < rd offs f + B f.
Proof.
  induction syms as [|g syms IH]; intros HB offsets Hlay v Hv; simpl in Hv; [lia|].
  assert (HB' : forall h, In h syms -> rdb del h = false -> 0 <= B h)
    by (intros h Hh; apply HB; now right).
  simpl in Hlay. destruct (rdb del g) eqn:Eg.
  - destruct (IH HB' offsets Hlay v) as (f & Hf & Hd & Hr); [lia|].
    exists f. repeat split; [now right|assumption|lia..].
  - destruct Hlay as [Hg Hlay].
    destruct (Z.lt_ge_cases v (offsets + B g)) as [Hlt|Hge].
    + exists g. repeat split; [now left|assumption|lia..].
    + destruct (IH HB' _ Hlay v) as (f & Hf & Hd & Hr); [lia|].
      exists f. repeat split; [now right|assumption|lia..].
Qed.

(** *** [reset] when the variables fit *)

Lemma reset_sizes (inp : Input) (st : FMB) :
  _sortModelSizes (fst (reset inp st)) = _sortModelSizes st
  /\ _distinctSortSizes (fst (reset inp st)) = _distinctSortSizes st.
Proof.
  unfold reset.
  destruct (reset_functions inp st _ 1 _) as [fo [o1|]]; [|now split].
  destruct (reset_predicates inp st _ o1 _) as [po [o2|]]; [|now split].
  destruct (_xmass inp).
  - destruct (reset_markers _ _ _ o2 _) as [mo [o3|]]; now split.
  - destruct (advance (VAR_MAX inp) o2 _) as [o3|]; [|now split].
    destruct (advance (VAR_MAX inp) o3 _) as [o4|]; now split.
Qed.

Lemma blocksTotal_ge (B : nat -> Z) (del : list bool) (syms : list nat) (f : nat) :
  (forall g, In g syms -> rdb del g = false -> 0 <= B g) ->
  In f syms -> rdb del f = false -> B f <= blocksTotal B del syms.
Proof.
  induction syms as [|g syms IH]; intros HB Hin Hd; [destruct Hin|].
  assert (HB' : forall h, In h syms -> rdb del h = false -> 0 <= B h)
    by (intros h Hh; apply HB; now right).
  pose proof (blocksTotal_nonneg B del syms HB'). simpl.
  destruct Hin as [->|Hin].
  - rewrite Hd. lia.
  - specialize (IH HB' Hin Hd). destruct (rdb del g) eqn:E; [lia|].
    pose proof (HB g (or_introl eq_refl) E). lia.
Qed.

Lemma reset_markers_exact (var_max : Z) (dsizes : list Z) (idxs : list nat) :
  var_max < U32.modulus ->
  (forall i, 0 <= rd dsizes i) ->
  forall offsets mo,
    0 <= offsets ->
    offsets + fold_right (fun i acc => rd dsizes i + acc) 0 idxs <= var_max ->
    exists mo',
      reset_markers var_max dsizes idxs offsets mo
      = (mo', Some (offsets + fold_right (fun i acc => rd dsizes i + acc) 0 idxs)).
Proof.
  intros Hvm Hnn. induction idxs as [|i idxs IH]; intros offsets mo Ho Hfit; simpl.
  - exists mo. now rewrite Z.add_0_r.
  - simpl in Hfit.
    assert (0 <= fold_right (fun i acc => rd dsizes i + acc) 0 idxs).
    { clear -Hnn. induction idxs as [|j idxs IHi]; simpl; [lia|]. pose proof (Hnn j). lia. }
    pose proof (Hnn i).
    rewrite advance_exact by lia.
    destruct (IH (offsets + rd dsizes i) (<[i := offsets]> mo)) as (mo' & E); [lia..|].
    exists mo'. rewrite E. do 2 f_equal. lia.
Qed.

Section Layout.

Variable inp : Input.
Variable st : FMB.
Hypothesis Henc : Encodable inp st.

Lemma is_symbol_syms (isFunction : bool) (f : nat) :
  is_symbol inp isFunction f <->
  In f (symbolSyms inp isFunction) /\ rdb (symbolDel inp isFunction) f = false.
Proof.
  unfold is_symbol, symbolSyms, symbolDel.
  destruct isFunction; rewrite in_seq; split; intros [H1 H2]; (split; [lia|assumption]).
Qed.

Lemma blockSize_pos (isFunction : bool) (f : nat) :
  is_symbol inp isFunction f -> 1 <= blockSize inp st isFunction f.
Proof.
  intros H. unfold blockSize, slotSizes. apply product_pos.
  apply Forall_map. now apply Henc.
Qed.

Lemma blocks_nonneg (isFunction : bool) :
  forall f, In f (symbolSyms inp isFunction) ->
    rdb (symbolDel inp isFunction) f = false ->
    0 <= blockSize inp st isFunction f.
Proof.
  intros f Hin Hd.
  pose proof (blockSize_pos isFunction f (proj2 (is_symbol_syms _ _) (conj Hin Hd))). lia.
Qed.

Lemma markerCount_nonneg : 0 <= markerCount inp st.
Proof.
  unfold markerCount. destruct (_xmass inp); [|lia].
  destruct Henc as (_ & _ & _ & _ & Hnn & _).
  induction (seq 0 (length (_distinctSortSizes st))) as [|i l IH]; simpl; [lia|].
  pose proof (Hnn i). lia.
Qed.

Lemma blockSize_fits (isFunction : bool) (f : nat) :
  is_symbol inp isFunction f -> blockSize inp st isFunction f < U32.modulus.
Proof.
  intros H. apply is_symbol_syms in H as [Hin Hd].
  destruct Henc as (_ & _ & _ & _ & _ & Hfit & Hvm).
  pose proof markerCount_nonneg. unfold symbolsEnd, functionsEnd in Hfit.
  pose proof (blocksTotal_nonneg _ _ _ (blocks_nonneg true)).
  pose proof (blocksTotal_nonneg _ _ _ (blocks_nonneg false)).
  pose proof (blocksTotal_ge _ _ _ f (blocks_nonneg isFunction) Hin Hd) as Hge.
  destruct isFunction; lia.
Qed.

Lemma f_add_exact (f : nat) :
  is_symbol inp true f -> f_add inp st f = Some (blockSize inp st true f).
Proof.
  intros H. pose proof (blockSize_fits true f H) as Hfit.
  destruct Henc as (_ & _ & Hpos & Hne & _). specialize (Hpos true f H).
  specialize (Hne f H). unfold f_add, function_add, blockSize, slotSizes in *.
  simpl symbol_signature in *.
  destruct (rdl (functionSignatures (_sortedSignature inp)) f) as [|s0 rest];
    [contradiction|].
  inversion Hpos as [|? ? Hs0 Hrest]; subst. simpl in *.
  apply block_loop_exact; [lia|assumption|assumption].
Qed.

Lemma p_add_exact (p : nat) :
  is_symbol inp false p -> p_add inp st p = Some (blockSize inp st false p).
Proof.
  intros H. pose proof (blockSize_fits false p H) as Hfit.
  destruct Henc as (_ & _ & Hpos & _). specialize (Hpos false p H).
  unfold p_add, predicate_add, blockSize, slotSizes in *. simpl symbol_signature in *.
  rewrite block_loop_exact; [f_equal; lia|lia|assumption|lia].
Qed.

(** [reset] succeeds, records consecutive offsets for the functions from 1
    and for the predicates from the end of the functions, and sets
    [_curMaxVar] to the last marker. *)
Lemma reset_exact :
  snd (reset inp st) = true
  /\ laid_out (f_offsets (fst (reset inp st))) (blockSize inp st true)
       (symbolDel inp true) (symbolSyms inp true) 1
  /\ laid_out (p_offsets (fst (reset inp st))) (blockSize inp st false)
       (symbolDel inp false) (symbolSyms inp false) (functionsEnd inp st)
  /\ _curMaxVar (fst (reset inp st)) = symbolsEnd inp st + markerCount inp st - 1.
Proof.
  pose proof Henc as (Hlf & Hlp & Hpos & Hne & Hnn & Hfit & Hvm).
  pose proof markerCount_nonneg as Hmc.
  pose proof (blocksTotal_nonneg _ _ _ (blocks_nonneg true)) as HnF.
  pose proof (blocksTotal_nonneg _ _ _ (blocks_nonneg false)) as HnP.
  assert (HFE : 1 <= functionsEnd inp st) by (unfold functionsEnd; lia).
  assert (Hse : functionsEnd inp st <= symbolsEnd inp st) by (unfold symbolsEnd; lia).
  destruct (offsets_loop_exact (VAR_MAX inp) (f_add inp st) (symbolDel inp true)
              (blockSize inp st true) (symbolSyms inp true) Hvm) with (offsets := 1)
    (offs := f_offsets st) as (fo & EF & _ & _ & HlayF).
  { apply NoDup_seq. }
  { intros f Hin Hd. split; [|now apply (blocks_nonneg true)].
    apply f_add_exact. apply (is_symbol_syms true). now split. }
  { intros f Hin. apply in_seq in Hin. lia. }
  { lia. }
  { fold (functionsEnd inp st). lia. }
  destruct (offsets_loop_exact (VAR_MAX inp) (p_add inp st) (symbolDel inp false)
              (blockSize inp st false) (symbolSyms inp false) Hvm)
    with (offsets := functionsEnd inp st)
    (offs := p_offsets st) as (po & EP & _ & _ & HlayP).
  { apply NoDup_seq. }
  { intros p Hin Hd. split; [|now apply (blocks_nonneg false)].
    apply p_add_exact. apply (is_symbol_syms false). now split. }
  { intros p Hin. apply in_seq in Hin. lia. }
  { lia. }
  { fold (symbolsEnd inp st). lia. }
  fold (functionsEnd inp st) in EF. fold (symbolsEnd inp st) in EP.
  unfold reset, reset_functions, reset_predicates.
  change (seq 0 (functions (signature inp))) with (symbolSyms inp true).
  change (seq 1 (predicates (signature inp) - 1)) with (symbolSyms inp false).
  change (del_f inp) with (symbolDel inp true).
  change (del_p inp) with (symbolDel inp false).
  rewrite EF, EP.
  unfold markerCount in *. destruct (_xmass inp).
  - destruct (reset_markers_exact (VAR_MAX inp) (_distinctSortSizes st)
                (seq 0 (length (_distinctSortSizes st))) Hvm Hnn (symbolsEnd inp st)
                (resize (length (_distinctSortSizes st)) 0 (marker_offsets st)))
      as (mo & EM); [lia|lia|].
    rewrite EM. simpl. repeat split; try assumption.
    unfold U32.sub. apply wrap_small. lia.
  - rewrite advance_exact by lia. rewrite advance_exact by lia.
    simpl. repeat split; try assumption.
    unfold U32.sub. rewrite wrap_small by lia. lia.
Qed.

End Layout.

(** *** The variables of the symbols *)

Section VarId.

Variable inp : Input.
Variable st : FMB.
Hypothesis Henc : Encodable inp st.

Lemma symbol_block (isFunction : bool) (f : nat) :
  is_symbol inp isFunction f ->
  (if isFunction then 1 else functionsEnd inp st)
  <= symbol_offset (fst (reset inp st)) isFunction f
  /\ symbol_offset (fst (reset inp st)) isFunction f + blockSize inp st isFunction f
     <= (if isFunction then functionsEnd inp st else symbolsEnd inp st).
Proof.
  intros H. apply (is_symbol_syms inp) in H as [Hin Hd].
  destruct (reset_exact inp st Henc) as (_ & HF & HP & _).
  destruct isFunction; simpl symbol_offset.
  - apply (laid_out_range _ _ _ _ (blocks_nonneg inp st Henc true) _ HF f Hin Hd).
  - apply (laid_out_range _ _ _ _ (blocks_nonneg inp st Henc false) _ HP f Hin Hd).
Qed.

Lemma ends_ordered :
  1 <= functionsEnd inp st <= symbolsEnd inp st /\ symbolsEnd inp st <= VAR_MAX inp.
Proof.
  pose proof (blocksTotal_nonneg _ _ _ (blocks_nonneg inp st Henc true)).
  pose proof (blocksTotal_nonneg _ _ _ (blocks_nonneg inp st Henc false)).
  pose proof (markerCount_nonneg inp st Henc).
  destruct Henc as (_ & _ & _ & _ & _ & Hfit & _).
  unfold symbolsEnd, functionsEnd in *. lia.
Qed.

(** [getSATLiteral] computes the offset of the symbol plus the index of
    the tuple. *)
Lemma varId_exact (isFunction : bool) (f : nat) (tuple : list Z) :
  is_symbol inp isFunction f -> is_tuple inp st isFunction f tuple ->
  varId inp (fst (reset inp st)) isFunction f tuple
  = symbol_offset (fst (reset inp st)) isFunction f
    + horner (slotSizes st (symbol_signature inp isFunction f)) tuple.
Proof.
  intros Hs Ht. unfold varId, getSATLiteral. simpl fst.
  rewrite (proj1 (reset_sizes inp st)).
  pose proof (symbol_block isFunction f Hs) as [Hlo Hhi].
  pose proof ends_ordered as [[? ?] ?].
  pose proof (blockSize_fits inp st Henc isFunction f Hs) as Hfit.
  pose proof Henc as (_ & _ & _ & _ & _ & _ & Hvm).
  unfold blockSize, slotSizes in *.
  rewrite getSATLiteral_loop_exact; [lia|assumption| |lia|lia|].
  - destruct isFunction; lia.
  - destruct isFunction; lia.
Qed.

Lemma varId_range (isFunction : bool) (f : nat) (tuple : list Z) :
  is_symbol inp isFunction f -> is_tuple inp st isFunction f tuple ->
  symbol_offset (fst (reset inp st)) isFunction f
  <= varId inp (fst (reset inp st)) isFunction f tuple
  < symbol_offset (fst (reset inp st)) isFunction f + blockSize inp st isFunction f.
Proof.
  intros Hs Ht. rewrite varId_exact by assumption.
  pose proof (horner_range _ _ Ht). unfold blockSize. lia.
Qed.

Lemma varId_below_markers (isFunction : bool) (f : nat) (tuple : list Z) :
  is_symbol inp isFunction f -> is_tuple inp st isFunction f tuple ->
  1 <= varId inp (fst (reset inp st)) isFunction f tuple < symbolsEnd inp st.
Proof.
  intros Hs Ht. pose proof (varId_range isFunction f tuple Hs Ht).
  pose proof (symbol_block isFunction f Hs). pose proof ends_ordered.
  destruct isFunction; lia.
Qed.

Lemma varId_inj (isF isF' : bool) (f f' : nat) (t t' : list Z) :
  is_symbol inp isF f -> is_tuple inp st isF f t ->
  is_symbol inp isF' f' -> is_tuple inp st isF' f' t' ->
  varId inp (fst (reset inp st)) isF f t = varId inp (fst (reset inp st)) isF' f' t' ->
  isF = isF' /\ f = f' /\ t = t'.
Proof.
  intros Hs Ht Hs' Ht' E.
  pose proof (varId_range isF f t Hs Ht) as R.
  pose proof (varId_range isF' f' t' Hs' Ht') as R'.
  pose proof (symbol_block isF f Hs) as Bk.
  pose proof (symbol_block isF' f' Hs') as Bk'.
  pose proof ends_ordered as Ho.
  assert (EF : isF = isF') by (destruct isF, isF'; try reflexivity; exfalso; lia).
  subst isF'. split; [reflexivity|].
  assert (Ef : f = f').
  { destruct (Nat.eq_dec f f') as [|Hne]; [assumption|exfalso].
    destruct (reset_exact inp st Henc) as (_ & HF & HP & _).
    apply (is_symbol_syms inp) in Hs as [Hin Hd].
    apply (is_symbol_syms inp) in Hs' as [Hin' Hd'].
    destruct isF; simpl symbol_offset in *.
    - destruct (laid_out_disjoint _ _ _ _ (NoDup_seq _ _)
                  (blocks_nonneg inp st Henc true) _ HF f f' Hin Hin' Hd Hd' Hne); lia.
    - destruct (laid_out_disjoint _ _ _ _ (NoDup_seq _ _)
                  (blocks_nonneg inp st Henc false) _ HP f f' Hin Hin' Hd Hd' Hne); lia. }
  subst f'. split; [reflexivity|].
  rewrite !varId_exact in E by assumption.
  apply (horner_inj _ _ _ Ht Ht'). lia.
Qed.

Lemma varId_onto (v : Z) :
  1 <= v < symbolsEnd inp st ->
  exists isFunction f tuple,
    is_symbol inp isFunction f /\ is_tuple inp st isFunction f tuple
    /\ varId inp (fst (reset inp st)) isFunction f tuple = v.
Proof.
  intros Hv. destruct (reset_exact inp st Henc) as (_ & HF & HP & _).
  assert (Hblock : exists isFunction f,
            is_symbol inp isFunction f
            /\ symbol_offset (fst (reset inp st)) isFunction f <= v
               < symbol_offset (fst (reset inp st)) isFunction f
                 + blockSize inp st isFunction f).
  { destruct (Z.lt_ge_cases v (functionsEnd inp st)) as [Hlt|Hge].
    - destruct (laid_out_cover _ _ _ _ (blocks_nonneg inp st Henc true) _ HF v)
        as (f & Hin & Hd & Hr); [unfold functionsEnd in Hlt; lia|].
      exists true, f. split; [apply (is_symbol_syms inp); now split|exact Hr].
    - destruct (laid_out_cover _ _ _ _ (blocks_nonneg inp st Henc false) _ HP v)
        as (f & Hin & Hd & Hr); [unfold symbolsEnd in Hv; lia|].
      exists false, f. split; [apply (is_symbol_syms inp); now split|exact Hr]. }
  destruct Hblock as (isF & f & Hs & Hr).
  destruct (horner_onto (slotSizes st (symbol_signature inp isF f)))
    with (k := v - symbol_offset (fst (reset inp st)) isF f) as (t & Ht & E).
  - unfold slotSizes. apply Forall_map.
    destruct Henc as (_ & _ & Hpos & _). now apply Hpos.
  - unfold blockSize in Hr. lia.
  - exists isF, f, t. split; [assumption|]. split; [exact Ht|].
    rewrite varId_exact by assumption. lia.
Qed.

End VarId.

(** C1, as the code has it. When the number of variables, counted without
    wrap-around, fits [VAR_MAX], [reset] succeeds and, with the offsets it
    records: the variable [getSATLiteral] computes for a symbol that is
    not deleted at a tuple within the domain sizes is the offset of the
    symbol plus the mixed-radix index of the tuple; two different pairs of
    a symbol and a tuple have different variables, so the tuples of one
    symbol are told apart and the blocks of two symbols do not overlap;
    the variables of the symbols are exactly [1 .. symbolsEnd - 1]; and
    the markers take the variables from [symbolsEnd] to [_curMaxVar]. The
    sizes are those of the builder, which [reset] does not change. *)
Theorem varId_layout (inp : Input) (st : FMB) :
  Encodable inp st ->
  snd (reset inp st) = true
  /\ (forall isFunction f tuple,
        is_symbol inp isFunction f -> is_tuple inp st isFunction f tuple ->
        varId inp (fst (reset inp st)) isFunction f tuple
        = symbol_offset (fst (reset inp st)) isFunction f
          + mixedRadixIndex (slotSizes st (symbol_signature inp isFunction f)) tuple)
  /\ (forall isF f t isF' f' t',
        is_symbol inp isF f -> is_tuple inp st isF f t ->
        is_symbol inp isF' f' -> is_tuple inp st isF' f' t' ->
        varId inp (fst (reset inp st)) isF f t = varId inp (fst (reset inp st)) isF' f' t' ->
        isF = isF' /\ f = f' /\ t = t')
  /\ (forall isFunction f tuple,
        is_symbol inp isFunction f -> is_tuple inp st isFunction f tuple ->
        1 <= varId inp (fst (reset inp st)) isFunction f tuple < symbolsEnd inp st)
  /\ (forall v, 1 <= v < symbolsEnd inp st ->
        exists isFunction f tuple,
          is_symbol inp isFunction f /\ is_tuple inp st isFunction f tuple
          /\ varId inp (fst (reset inp st)) isFunction f tuple = v)
  /\ _curMaxVar (fst (reset inp st)) = symbolsEnd inp st + markerCount inp st - 1
  /\ 0 <= markerCount inp st.
Proof.
  intros Henc. split; [apply (reset_exact inp st Henc)|].
  split.
  { intros isF f t Hs Ht. rewrite (mixedRadixIndex_horner _ _ Ht).
    now apply varId_exact. }
  split; [intros *; now apply varId_inj|].
  split; [intros *; now apply varId_below_markers|].
  split; [intros v; now apply varId_onto|].
  split; [apply (reset_exact inp st Henc)|now apply markerCount_nonneg].
Qed.

(** The small problem in SBMEAM mode can be laid out. At size 1, [f0],
    [f1] and [p1] get the variables 1, 2 and 3, the two markers 4 and 5; at
    size 2, [f0] gets 1-2, [f1] 3-6, [p1] 7-8, the markers 9 and 10. *)
Ltac small_problem_encodable :=
  unfold Encodable; split; [reflexivity|]; split; [reflexivity|];
  split;
  [ intros [] f [Hf _]; simpl in Hf;
    [ destruct f as [|[|f]]; [| |lia]; vm_compute; repeat constructor;
        intros H; discriminate H
    | destruct f as [|[|f]]; [lia| |lia]; vm_compute; repeat constructor;
        intros H; discriminate H ]
  | split;
    [ intros f [Hf _]; simpl in Hf;
      destruct f as [|[|f]]; [| |lia]; vm_compute; discriminate
    | split;
      [ intros [|i]; vm_compute; intros H; discriminate H
      | split; vm_compute; [intros H; discriminate H|reflexivity] ] ] ].

Lemma ex_encodable :
  Encodable (ex_input false U32.UINT_MAX U32.UINT_MAX []) (ex_builder 1).
Proof. small_problem_encodable. Qed.

Lemma ex_encodable_2 :
  Encodable (ex_input false U32.UINT_MAX U32.UINT_MAX []) (ex_builder 2).
Proof. small_problem_encodable. Qed.

(** At size 2: [reset] succeeds, the variable of [f1] at the tuple (2, 1)
    is its offset plus the index of the tuple, and the last variable is
    the last marker. *)
Lemma varId_layout_witness :
  snd (reset ex_sized_input (ex_builder 2)) = true
  /\ varId ex_sized_input ex_sized_builder true 1 [2; 1]
     = symbol_offset ex_sized_builder true 1
       + mixedRadixIndex (slotSizes (ex_builder 2) (symbol_signature ex_sized_input true 1))
           [2; 1]
  /\ _curMaxVar ex_sized_builder
     = symbolsEnd ex_sized_input (ex_builder 2) + markerCount ex_sized_input (ex_builder 2) - 1.
Proof.
  destruct (varId_layout ex_sized_input (ex_builder 2) ex_encodable_2)
    as (H1 & H2 & _ & _ & _ & H6 & _).
  split; [exact H1|]. split; [|exact H6].
  apply (H2 true 1%nat [2; 1]).
  - split; [simpl; lia|reflexivity].
  - repeat constructor; vm_compute; intros H; discriminate H.
Defined.

(** C1, as stated, fails on the markers: after [reset] of the small
    problem [_curMaxVar] is 5, and variable 4, the totality marker of the
    sort, is the variable of no symbol. *)
Lemma varId_onto_curMaxVar_counterexample :
  ~ varId_onto_curMaxVar (ex_input false U32.UINT_MAX U32.UINT_MAX [])
      (fst (reset (ex_input false U32.UINT_MAX U32.UINT_MAX []) (ex_builder 1))).
Proof.
  intros H. destruct (H 4) as (isF & f & t & Hs & Ht & E).
  { vm_compute. split; intros H'; discriminate H'. }
  pose proof (varId_below_markers _ _ ex_encodable isF f t Hs Ht) as [_ Hlt].
  rewrite E in Hlt. vm_compute in Hlt. discriminate Hlt.
Qed.

(** ** The odometer visits every grounding *)

Lemma rank_range (maxs g : list Z) :
  in_domain maxs g -> 0 <= rank maxs g < product maxs.
Proof.
  induction 1 as [|x m g ms Hx Hg IH]; simpl; [lia|].
  pose proof (product_pos ms (in_domain_sizes _ _ Hg)). nia.
Qed.

Lemma rank_inj (maxs g1 g2 : list Z) :
  in_domain maxs g1 -> in_domain maxs g2 -> rank maxs g1 = rank maxs g2 -> g1 = g2.
Proof.
  intros H1. revert g2. induction H1 as [|x m g ms Hx Hg IH]; intros g2 H2 E.
  - now inversion H2.
  - inversion H2 as [|y m' g' ms' Hy Hg' E1 E2]; subst. simpl in E.
    pose proof (rank_range _ _ Hg). pose proof (rank_range _ _ Hg').
    assert (x = y) by nia. subst.
    f_equal. apply IH; [assumption|lia].
Qed.

Lemma ones_in_domain (maxs : list Z) :
  Forall (fun m => 1 <= m) maxs -> in_domain maxs (map (fun _ => 1) maxs).
Proof. induction 1; simpl; constructor; [lia|assumption]. Qed.

Lemma rank_ones (maxs : list Z) : rank maxs (map (fun _ => 1) maxs) = 0.
Proof. induction maxs as [|m ms IH]; simpl; [reflexivity|]. rewrite IH. lia. Qed.

Lemma map_ones {A B} (g : list A) (maxs : list B) :
  length g = length maxs -> map (fun _ => 1) g = map (fun _ => 1) maxs.
Proof.
  revert maxs. induction g as [|x g IH]; intros [|m ms] H; try discriminate; simpl.
  - reflexivity.
  - f_equal. apply IH. simpl in H. lia.
Qed.

(** One pass moves to the next grounding in the order, or finds the last. *)
Lemma odometer_next_spec (maxs g : list Z) :
  Forall (fun m => m < U32.modulus) maxs ->
  in_domain maxs g ->
  match odometer_next g maxs with
  | Some g' => in_domain maxs g' /\ rank maxs g' = rank maxs g + 1
  | None => rank maxs g = product maxs - 1
  end.
Proof.
  intros Hfit Hg. induction Hg as [|x m g ms Hx Hg IH]; simpl; [lia|].
  inversion Hfit as [|? ? Hm Hms]; subst. specialize (IH Hms).
  destruct (odometer_next g ms) as [g'|].
  - destruct IH as [Hg' E]. split; [constructor; assumption|]. simpl. lia.
  - destruct (x =? m) eqn:Ex.
    + apply Z.eqb_eq in Ex. subst. lia.
    + apply Z.eqb_neq in Ex.
      assert (Hadd : U32.add x 1 = x + 1).
      { unfold U32.add. apply wrap_small. unfold U32.modulus in *. lia. }
      rewrite Hadd, (map_ones g ms) by (apply (Forall2_length _ _ _ Hg)).
      split.
      * constructor; [lia|]. apply ones_in_domain. apply (in_domain_sizes _ _ Hg).
      * simpl. rewrite rank_ones. lia.
Qed.

Lemma odometer_next_initial (maxs : list Z) :
  maxs <> [] -> Forall (fun m => 1 <= m) maxs ->
  odometer_next (initial_grounding (length maxs)) maxs = Some (map (fun _ => 1) maxs).
Proof.
  intros Hne Hpos. induction Hpos as [|m ms Hm Hms IH]; [contradiction|].
  destruct ms as [|m' ms].
  - simpl. destruct m; [lia|reflexivity|lia].
  - assert (E : initial_grounding (length (m :: m' :: ms))
                = 1 :: initial_grounding (length (m' :: ms))).
    { unfold initial_grounding. simpl. now rewrite Nat.sub_0_r. }
    rewrite E. cbn [odometer_next tl]. rewrite IH by discriminate. reflexivity.
Qed.

Lemma odometer_run_complete {A} (maxs : list Z) (body : list Z -> list A) :
  Forall (fun m => m < U32.modulus) maxs ->
  forall fuel g t x,
    in_domain maxs g -> in_domain maxs t ->
    rank maxs g < rank maxs t <= rank maxs g + Z.of_nat fuel ->
    In x (body t) -> In x (odometer_run fuel maxs body g).
Proof.
  intros Hfit. induction fuel as [|k IH]; intros g t x Hg Ht Hr Hx; [lia|].
  simpl. pose proof (odometer_next_spec maxs g Hfit Hg) as Hn.
  pose proof (rank_range _ _ Ht).
  destruct (odometer_next g maxs) as [g'|]; [|lia].
  destruct Hn as [Hg' E]. apply in_or_app.
  destruct (Z.eq_dec (rank maxs t) (rank maxs g')) as [Eq|Hne].
  - left. now rewrite <- (rank_inj _ _ _ Ht Hg' Eq).
  - right. apply (IH g' t x Hg' Ht); [lia|assumption].
Qed.

(** The body runs on every grounding within the bounds. *)
Lemma odometer_complete {A} (maxs : list Z) (body : list Z -> list A) (t : list Z) (x : A) :
  maxs <> [] ->
  Forall (fun m => m < U32.modulus) maxs ->
  in_domain maxs t -> In x (body t) -> In x (odometer maxs body).
Proof.
  intros Hne Hfit Ht Hx. unfold odometer, odometer_fuel.
  pose proof (in_domain_sizes _ _ Ht) as Hpos.
  simpl. rewrite (odometer_next_initial maxs Hne Hpos). apply in_or_app.
  pose proof (rank_range _ _ Ht) as Hr.
  destruct (Z.eq_dec (rank maxs t) 0) as [E|Hnz].
  - left. rewrite <- (rank_ones maxs) in E.
    now rewrite <- (rank_inj _ _ _ Ht (ones_in_domain _ Hpos) E).
  - right. apply (odometer_run_complete maxs body Hfit _ _ t);
      [now apply ones_in_domain|assumption| |assumption].
    rewrite rank_ones. lia.
Qed.

(** The enumeration ends by itself: passes beyond [odometer_fuel] find the
    odometer at its end. *)
Lemma odometer_run_stable {A} (maxs : list Z) (body : list Z -> list A) :
  Forall (fun m => m < U32.modulus) maxs ->
  forall fuel extra g,
    in_domain maxs g ->
    product maxs - 1 - rank maxs g < Z.of_nat fuel ->
    odometer_run (fuel + extra) maxs body g = odometer_run fuel maxs body g.
Proof.
  intros Hfit. induction fuel as [|k IH]; intros extra g Hg Hr.
  - pose proof (rank_range _ _ Hg). lia.
  - simpl. pose proof (odometer_next_spec maxs g Hfit Hg) as Hn.
    destruct (odometer_next g maxs) as [g'|]; [|reflexivity].
    destruct Hn as [Hg' E]. f_equal. apply IH; [assumption|lia].
Qed.

Lemma odometer_fuel_enough {A} (maxs : list Z) (body : list Z -> list A) (extra : nat) :
  maxs <> [] ->
  Forall (fun m => 1 <= m) maxs ->
  Forall (fun m => m < U32.modulus) maxs ->
  odometer_run (odometer_fuel maxs + extra) maxs body (initial_grounding (length maxs))
  = odometer maxs body.
Proof.
  intros Hne Hpos Hfit. unfold odometer, odometer_fuel. simpl.
  rewrite (odometer_next_initial maxs Hne Hpos). f_equal.
  apply odometer_run_stable; [assumption|now apply ones_in_domain|].
  rewrite rank_ones. pose proof (product_pos maxs Hpos). lia.
Qed.

(** ** The odometer: the groundings it visits, in order *)

Lemma zrange_cons (lo hi : Z) : lo <= hi -> zrange lo hi = lo :: zrange (lo + 1) hi.
Proof.
  intros H. unfold zrange.
  replace (Z.to_nat (hi - lo + 1)) with (S (Z.to_nat (hi - (lo + 1) + 1))) by lia.
  rewrite <- cons_seq, <- seq_shift. simpl. rewrite map_map. f_equal; [lia|].
  apply map_ext. intros k. lia.
Qed.

Lemma zrange_empty (lo hi : Z) : hi < lo -> zrange lo hi = [].
Proof.
  intros H. unfold zrange. now replace (Z.to_nat (hi - lo + 1)) with 0%nat by lia.
Qed.

Lemma odometer_run_flat_map {A} (maxs : list Z) (body : list Z -> list A) :
  forall fuel g,
    odometer_run fuel maxs body g
    = flat_map body (odometer_run fuel maxs (fun grounding => [grounding]) g).
Proof.
  induction fuel as [|k IH]; intros g; simpl; [reflexivity|].
  destruct (odometer_next g maxs) as [g'|]; [|reflexivity].
  simpl. now rewrite IH.
Qed.

Lemma odometer_run_ranks (maxs : list Z) :
  Forall (fun m => m < U32.modulus) maxs ->
  forall fuel g,
    in_domain maxs g ->
    product maxs - 1 - rank maxs g <= Z.of_nat fuel ->
    map (rank maxs) (odometer_run fuel maxs (fun grounding => [grounding]) g)
    = zrange (rank maxs g + 1) (product maxs - 1)
    /\ Forall (in_domain maxs) (odometer_run fuel maxs (fun grounding => [grounding]) g).
Proof.
  intros Hfit. induction fuel as [|k IH]; intros g Hg Hfuel.
  - pose proof (rank_range _ _ Hg). simpl. rewrite zrange_empty by lia. now split.
  - simpl. pose proof (odometer_next_spec maxs g Hfit Hg) as Hn.
    pose proof (rank_range _ _ Hg).
    destruct (odometer_next g maxs) as [g'|].
    + destruct Hn as [Hg' E]. destruct (IH g' Hg') as [IH1 IH2]; [lia|].
      pose proof (rank_range _ _ Hg').
      simpl. rewrite IH1, E. split; [|now constructor].
      now rewrite (zrange_cons (rank maxs g + 1)) by lia.
    + simpl. rewrite zrange_empty by lia. now split.
Qed.

Lemma visited_spec (maxVarSize : list Z) :
  maxVarSize <> [] ->
  Forall (fun m => 1 <= m) maxVarSize ->
  Forall (fun m => m < U32.modulus) maxVarSize ->
  (forall grounding, In grounding (visited maxVarSize) <-> in_domain maxVarSize grounding)
  /\ map (rank maxVarSize) (visited maxVarSize) = zrange 0 (product maxVarSize - 1).
Proof.
  intros Hne Hpos Hfit.
  assert (Hvis : visited maxVarSize
                 = map (fun _ => 1) maxVarSize
                   :: odometer_run (Z.to_nat (product maxVarSize)) maxVarSize
                        (fun grounding => [grounding]) (map (fun _ => 1) maxVarSize)).
  { unfold visited, odometer, odometer_fuel. simpl.
    now rewrite (odometer_next_initial maxVarSize Hne Hpos). }
  pose proof (product_pos maxVarSize Hpos) as HP.
  destruct (odometer_run_ranks maxVarSize Hfit (Z.to_nat (product maxVarSize))
              (map (fun _ => 1) maxVarSize) (ones_in_domain _ Hpos)) as [Hr Hd].
  { rewrite rank_ones. lia. }
  split.
  - intros g. split.
    + rewrite Hvis. intros [<-|Hin]; [now apply ones_in_domain|].
      rewrite Forall_forall in Hd. apply Hd. now apply list_elem_of_In.
    + intros Hg. apply (odometer_complete maxVarSize _ g g Hne Hfit Hg). now left.
  - rewrite Hvis. simpl. rewrite Hr, rank_ones.
    now rewrite (zrange_cons 0) by lia.
Qed.

Lemma odometer_visited {A} (maxVarSize : list Z) (body : list Z -> list A) :
  odometer maxVarSize body = flat_map body (visited maxVarSize).
Proof. unfold visited, odometer. apply odometer_run_flat_map. Qed.

(** Every clause the loop hands on is the body's at a grounding within the
    bounds. *)
Lemma odometer_sound_domain {A} (maxVarSize : list Z) (body : list Z -> list A) (x : A) :
  maxVarSize <> [] ->
  Forall (fun m => 1 <= m) maxVarSize ->
  Forall (fun m => m < U32.modulus) maxVarSize ->
  In x (odometer maxVarSize body) ->
  exists grounding, in_domain maxVarSize grounding /\ In x (body grounding).
Proof.
  intros Hne Hpos Hfit. rewrite odometer_visited, in_flat_map.
  intros (g & Hg & Hx). exists g. split; [|assumption].
  now apply (visited_spec maxVarSize Hne Hpos Hfit).
Qed.

(** ** Instances of flat clauses: the four cases of [x = y] *)

Lemma true_under_exists (grounding : list Z) (lits : list Literal) :
  existsb (true_under grounding) lits = true
  <-> (exists x y, In (TwoVarEq true x y) lits /\ rd grounding x = rd grounding y)
      \/ (exists x y, In (TwoVarEq false x y) lits /\ rd grounding x <> rd grounding y).
Proof.
  rewrite existsb_exists. split.
  - intros ([pol x y|pol f args res|pol p args] & Hin & Ht); simpl in Ht;
      try discriminate Ht.
    destruct pol, (rd grounding x =? rd grounding y) eqn:E; try discriminate Ht.
    + left. exists x, y. split; [exact Hin|now apply Z.eqb_eq].
    + right. exists x, y. split; [exact Hin|now apply Z.eqb_neq].
  - intros [(x & y & Hin & E)|(x & y & Hin & E)].
    + exists (TwoVarEq true x y). split; [exact Hin|]. simpl.
      now rewrite (proj2 (Z.eqb_eq _ _) E).
    + exists (TwoVarEq false x y). split; [exact Hin|]. simpl.
      now rewrite (proj2 (Z.eqb_neq _ _) E).
Qed.

(** C3. What [addNewInstances] hands to [addSATClause] for a clause [c]
    of [_clauses] with its variable sorts ([init] records them for every
    clause), at least one variable and every variable ranging over at
    least one value: the loop runs its body once on every grounding
    within the bounds, in order, and the body follows the four cases of a
    two-variable equality [x = y]. If some positive [x = y] of the clause
    has equal values under the grounding, or some negative one has
    different values, the grounding is skipped: nothing is handed on for
    it. Otherwise, every positive [x = y] having different values and
    every negative one equal values, exactly one clause is handed on for
    the grounding, and it is among the clauses of [addNewInstances]: the
    markers followed by the translations of the literals in order, with
    nothing for the two-variable equalities and one SAT literal for each
    of the other literals. *)
Theorem two_variable_equality_rule (inp : Input) (st : FMB) (c : Clause)
    (vs : list nat) :
  In c (_clauses inp) ->
  varSorts c = Some vs ->
  instances_maxVarSize inp st (varCnt c) vs <> [] ->
  Forall (fun m => 1 <= m) (instances_maxVarSize inp st (varCnt c) vs) ->
  Forall (fun m => m < U32.modulus) (instances_maxVarSize inp st (varCnt c) vs) ->
  instances_of inp st c
  = flat_map (emitted_instance inp st c vs)
      (visited (instances_maxVarSize inp st (varCnt c) vs))
  /\ (forall grounding,
        In grounding (visited (instances_maxVarSize inp st (varCnt c) vs))
        <-> in_domain (instances_maxVarSize inp st (varCnt c) vs) grounding)
  /\ forall grounding,
       in_domain (instances_maxVarSize inp st (varCnt c) vs) grounding ->
       (forall x y, In (TwoVarEq true x y) (literals c) ->
          rd grounding x = rd grounding y ->
          emitted_instance inp st c vs grounding = [])
       /\ (forall x y, In (TwoVarEq false x y) (literals c) ->
             rd grounding x <> rd grounding y ->
             emitted_instance inp st c vs grounding = [])
       /\ ((forall x y, In (TwoVarEq true x y) (literals c) ->
              rd grounding x <> rd grounding y) ->
           (forall x y, In (TwoVarEq false x y) (literals c) ->
              rd grounding x = rd grounding y) ->
           emitted_instance inp st c vs grounding
           = [instance_markers inp st (varCnt c) vs grounding
              ++ flat_map (translated inp st grounding) (literals c)]
           /\ In (instance_markers inp st (varCnt c) vs grounding
                  ++ flat_map (translated inp st grounding) (literals c))
                (addNewInstances inp st)).
Proof.
  intros Hc Hvs Hne Hpos Hfit.
  set (maxs := instances_maxVarSize inp st (varCnt c) vs) in *.
  split; [|split].
  - unfold instances_of. rewrite Hvs. apply odometer_visited.
  - apply (visited_spec maxs Hne Hpos Hfit).
  - intros grounding Hg. rewrite emitted_instance_spec. split; [|split].
    + intros x y Hin E.
      rewrite (proj2 (true_under_exists grounding (literals c))); [reflexivity|].
      left. now exists x, y.
    + intros x y Hin E.
      rewrite (proj2 (true_under_exists grounding (literals c))); [reflexivity|].
      right. now exists x, y.
    + intros Hposeq Hnegeq.
      assert (Hno : existsb (true_under grounding) (literals c) = false).
      { apply Bool.not_true_iff_false. intros Ht.
        apply true_under_exists in Ht as [(x & y & Hin & E)|(x & y & Hin & E)].
        - exact (Hposeq x y Hin E).
        - exact (E (Hnegeq x y Hin)). }
      rewrite Hno. split; [reflexivity|].
      unfold addNewInstances. apply in_flat_map. exists c. split; [exact Hc|].
      unfold instances_of. rewrite Hvs. fold maxs.
      apply (odometer_complete maxs _ grounding _ Hne Hfit Hg).
      rewrite emitted_instance_spec, Hno. now left.
Qed.

(** The clause [X0 = X1 | p1(X0)] at size 2: the groundings [1;1] and
    [2;2] are skipped, [1;2] and [2;1] give the instances marker followed
    by [p1(1)] and by [p1(2)]. *)
Lemma two_variable_equality_rule_witness :
  instances_of ex_equality_input ex_equality_builder ex_equality_clause
  = flat_map (emitted_instance ex_equality_input ex_equality_builder ex_equality_clause
                [0%nat; 0%nat])
      (visited (instances_maxVarSize ex_equality_input ex_equality_builder
                  (varCnt ex_equality_clause) [0%nat; 0%nat]))
  /\ (forall grounding,
        In grounding (visited (instances_maxVarSize ex_equality_input ex_equality_builder
                                 (varCnt ex_equality_clause) [0%nat; 0%nat]))
        <-> in_domain (instances_maxVarSize ex_equality_input ex_equality_builder
                         (varCnt ex_equality_clause) [0%nat; 0%nat]) grounding)
  /\ forall grounding,
       in_domain (instances_maxVarSize ex_equality_input ex_equality_builder
                    (varCnt ex_equality_clause) [0%nat; 0%nat]) grounding ->
       (forall x y, In (TwoVarEq true x y) (literals ex_equality_clause) ->
          rd grounding x = rd grounding y ->
          emitted_instance ex_equality_input ex_equality_builder ex_equality_clause
            [0%nat; 0%nat] grounding = [])
       /\ (forall x y, In (TwoVarEq false x y) (literals ex_equality_clause) ->
             rd grounding x <> rd grounding y ->
             emitted_instance ex_equality_input ex_equality_builder ex_equality_clause
               [0%nat; 0%nat] grounding = [])
       /\ ((forall x y, In (TwoVarEq true x y) (literals ex_equality_clause) ->
              rd grounding x <> rd grounding y) ->
           (forall x y, In (TwoVarEq false x y) (literals ex_equality_clause) ->
              rd grounding x = rd grounding y) ->
           emitted_instance ex_equality_input ex_equality_builder ex_equality_clause
             [0%nat; 0%nat] grounding
           = [instance_markers ex_equality_input ex_equality_builder
                (varCnt ex_equality_clause) [0%nat; 0%nat] grounding
              ++ flat_map (translated ex_equality_input ex_equality_builder grounding)
                   (literals ex_equality_clause)]
           /\ In (instance_markers ex_equality_input ex_equality_builder
                    (varCnt ex_equality_clause) [0%nat; 0%nat] grounding
                  ++ flat_map (translated ex_equality_input ex_equality_builder grounding)
                       (literals ex_equality_clause))
                (addNewInstances ex_equality_input ex_equality_builder)).
Proof.
  apply (two_variable_equality_rule ex_equality_input ex_equality_builder
           ex_equality_clause [0%nat; 0%nat]).
  - now left.
  - reflexivity.
  - discriminate.
  - repeat constructor; vm_compute; intros H; discriminate H.
  - repeat constructor; reflexivity.
Defined.

(** ** Totality and functional definitions make every function total and
    single-valued *)

Lemma In_omap {A B} (f : A -> option B) (l : list A) (y : B) :
  In y (omap f l) <-> exists x, In x l /\ f x = Some y.
Proof.
  rewrite <- list_elem_of_In, list_elem_of_omap.
  split; intros (x & H1 & H2); exists x; (split; [|assumption]);
    now apply list_elem_of_In.
Qed.

(** The clauses [addNewFunctionalDefs] and [addNewTotalityDefs] hand to
    [addSATClause] reach [_clausesToBeAdded] unless they are dropped. *)
Lemma in_encode (removeDuplicateLiterals : SATClause -> option SATClause)
    (addNewSymmetryAxioms : Input -> FMB -> list SATClause) (inp : Input) (st : FMB)
    (cl cl' : SATClause) :
  In cl (addNewFunctionalDefs inp st) \/ In cl (addNewTotalityDefs inp st) ->
  removeDuplicateLiterals cl = Some cl' ->
  In cl' (_clausesToBeAdded (encode removeDuplicateLiterals addNewSymmetryAxioms inp st)).
Proof.
  intros Hin Hrdl. unfold encode, addSATClauses. simpl _clausesToBeAdded.
  destruct Hin as [Hin|Hin].
  - apply in_or_app. left. apply in_or_app. left. apply in_or_app. right.
    apply In_omap. exists cl. split; [exact Hin|assumption].
  - apply in_or_app. right.
    apply In_omap. exists cl. split; [exact Hin|assumption].
Qed.

Lemma marker_variable (mo size : Z) :
  U32.add mo (U32.sub size 1) = U32.sub (U32.add mo size) 1.
Proof.
  unfold U32.add, U32.sub, U32.wrap.
  rewrite Z.add_mod_idemp_r by (unfold U32.modulus; lia).
  rewrite Zminus_mod_idemp_l. f_equal. lia.
Qed.

Lemma map_rd_seq (l : list Z) : map (rd l) (seq 0 (length l)) = l.
Proof.
  induction l as [|x l IH]; [reflexivity|].
  simpl length. rewrite <- cons_seq, <- seq_shift. simpl. rewrite map_map.
  f_equal. exact IH.
Qed.

Lemma argumentBounds_length (inp : Input) (st : FMB) (f : nat) (args : list Z) :
  in_domain (argumentBounds inp st f) args ->
  length args = rdn (functionArity (signature inp)) f.
Proof.
  intros H. apply Forall2_length in H. rewrite H.
  unfold argumentBounds. now rewrite length_map, length_seq.
Qed.

Section Functional.

Variable inp : Input.
Variable st : FMB.
Variable f : nat.
Variable args : list Z.

Hypothesis Hsizes : forall srt, rd (_sortModelSizes st) srt < U32.modulus.
Hypothesis Hf : (f < functions (signature inp))%nat.
Hypothesis Hdel : rdb (del_f inp) f = false.
Hypothesis Hret : 1 <= maxRtSrtSize inp st f.
Hypothesis Hargs : in_domain (argumentBounds inp st f) args.

Lemma boundedSize_fits (srt : nat) : boundedSize inp st srt < U32.modulus.
Proof. unfold boundedSize. pose proof (Hsizes srt). lia. Qed.

Lemma argumentBounds_fit : Forall (fun m => m < U32.modulus) (argumentBounds inp st f).
Proof.
  unfold argumentBounds. apply Forall_map. apply Forall_forall.
  intros var _. apply boundedSize_fits.
Qed.

(** The top version of the totality clause of [f] at [args] is emitted. *)
Lemma totality_clause_emitted :
  In (totality_clause inp st f args (dRetSrt inp f) (maxRtSrtSize inp st f)
        (maxRtSrtSize inp st f))
     (addNewTotalityDefs inp st).
Proof.
  unfold addNewTotalityDefs. apply in_or_app. right.
  apply in_flat_map. exists f. split; [apply in_seq; lia|]. rewrite Hdel.
  assert (Hv : In (maxRtSrtSize inp st f)
                 (totality_versions inp (dRetSrt inp f) (maxRtSrtSize inp st f))).
  { unfold totality_versions. apply in_zrange.
    destruct (negb (_xmass inp) || _); lia. }
  pose proof (argumentBounds_length inp st f args Hargs) as Hlen.
  unfold totalityDefs_of. unfold argumentBounds in Hargs, Hlen.
  fold (retSrt inp f). fold (maxRtSrtSize inp st f). fold (dRetSrt inp f).
  destruct (rdn (functionArity (signature inp)) f =? 0)%nat eqn:E.
  - apply Nat.eqb_eq in E. rewrite E in Hlen.
    destruct args; [|discriminate].
    unfold dRetSrt, maxRtSrtSize, retSrt in *. rewrite E in *.
    apply in_map_iff. eexists. split; [reflexivity|exact Hv].
  - apply Nat.eqb_neq in E.
    apply (odometer_complete _ _ args).
    + destruct (rdn (functionArity (signature inp)) f); [contradiction|discriminate].
    + apply argumentBounds_fit.
    + exact Hargs.
    + apply in_map_iff. eexists. split; [reflexivity|exact Hv].
Qed.

(** The functional definition of [f] at [args] for two results [y < z]
    is emitted. *)
Lemma functionalDef_emitted (y z : Z) :
  1 <= y -> y < z -> z <= maxRtSrtSize inp st f ->
  In [getSATLiteral inp st f (args ++ [y]) false true;
      getSATLiteral inp st f (args ++ [z]) false true]
     (addNewFunctionalDefs inp st).
Proof.
  intros Hy Hyz Hz. unfold addNewFunctionalDefs.
  apply in_flat_map. exists f. split; [apply in_seq; lia|]. rewrite Hdel.
  pose proof (argumentBounds_length inp st f args Hargs) as Hlen.
  unfold functionalDefs_of.
  apply (odometer_complete _ _ (y :: z :: args)).
  - discriminate.
  - unfold functionalDefs_maxVarSize. repeat constructor; try apply boundedSize_fits.
    apply argumentBounds_fit.
  - unfold functionalDefs_maxVarSize. unfold maxRtSrtSize, retSrt in Hz.
    constructor; [lia|]. constructor; [lia|]. exact Hargs.
  - unfold functionalDef_body.
    change (rd (y :: z :: args) 0) with y. change (rd (y :: z :: args) 1) with z.
    replace (y >=? z) with false by (symmetry; rewrite Z.geb_leb; apply Z.leb_gt; lia).
    rewrite <- Hlen.
    assert (E : map (fun k => rd (y :: z :: args) (k + 2)) (seq 0 (length args)) = args).
    { rewrite <- (map_rd_seq args) at 2. apply map_ext. intros k.
      now replace (k + 2)%nat with (S (S k)) by lia. }
    rewrite E. now left.
Qed.

End Functional.

Lemma sat_clause_true (a : Z -> bool) (cl : SATClause) :
  sat_clause a cl = true <-> exists l, In l cl /\ a (fst l) = snd l.
Proof.
  unfold sat_clause, sat_literal. rewrite existsb_exists.
  split; intros (l & Hl & H); exists l; (split; [assumption|]);
    now apply eqb_true_iff.
Qed.

Lemma in_totality_clause (inp : Input) (st : FMB) (f : nat) (args : list Z)
    (dsrt : nat) (maxSize i : Z) (l : SATLiteral) :
  In l (totality_clause inp st f args dsrt maxSize i) ->
  (exists r, 1 <= r <= i /\ l = getSATLiteral inp st f (args ++ [r]) true true)
  \/ l = totality_marker inp st dsrt i maxSize.
Proof.
  unfold totality_clause. rewrite in_app_iff. intros [H|[<-|[]]]; [left|now right].
  apply in_map_iff in H as (r & <- & Hr). apply in_zrange in Hr. now exists r.
Qed.

(** The marker of the top version is false under the assumptions. *)
Lemma totality_marker_false (inp : Input) (st : FMB) (dsrt : nat) (maxSize : Z)
    (a : Z -> bool) :
  (dsrt < length (_distinctSortSizes st))%nat ->
  (forall l, In l (assumptions inp st) -> sat_literal a l = true) ->
  a (fst (totality_marker inp st dsrt maxSize maxSize))
  = negb (snd (totality_marker inp st dsrt maxSize maxSize)).
Proof.
  intros Hd Ha. unfold totality_marker, assumptions in *. rewrite Z.eqb_refl.
  destruct (_xmass inp); simpl.
  - specialize (Ha (U32.sub (U32.add (rd (marker_offsets st) dsrt)
                               (rd (_distinctSortSizes st) dsrt)) 1, false)).
    rewrite marker_variable. unfold sat_literal in Ha. simpl in Ha.
    rewrite eqb_true_iff in Ha. apply Ha.
    apply in_map_iff. exists dsrt. split; [reflexivity|apply in_seq; lia].
  - specialize (Ha (U32.add (totalityMarker_offset st) (Z.of_nat dsrt), true)).
    unfold sat_literal in Ha. simpl in Ha. rewrite eqb_true_iff in Ha. apply Ha.
    apply in_or_app. left.
    apply in_map_iff. exists dsrt. split; [reflexivity|apply in_seq; lia].
Qed.

(** C2. Take an assignment that satisfies the clauses of
    [_clausesToBeAdded] after the encoding and the assumptions of the
    solver call. For every function [f] that is not deleted and every
    tuple of arguments within the bounds there is exactly one result value
    [r] within the bound of the result sort whose variable
    [varId(f, <args, r>)] is true: at least one by the totality clause of
    the top version, whose marker the assumptions make false, at most one
    by the functional definitions emitted for every pair [y < z]. *)
Theorem exactly_one_result
    (removeDuplicateLiterals : SATClause -> option SATClause)
    (addNewSymmetryAxioms : Input -> FMB -> list SATClause)
    (inp : Input) (st : FMB) (a : Z -> bool) (f : nat) (args : list Z) :
  removeDuplicateLiterals_ok removeDuplicateLiterals ->
  (forall srt, rd (_sortModelSizes st) srt < U32.modulus) ->
  (f < functions (signature inp))%nat ->
  rdb (del_f inp) f = false ->
  (dRetSrt inp f < length (_distinctSortSizes st))%nat ->
  1 <= maxRtSrtSize inp st f ->
  in_domain (argumentBounds inp st f) args ->
  (forall cl,
     In cl (_clausesToBeAdded (encode removeDuplicateLiterals addNewSymmetryAxioms inp st)) ->
     sat_clause a cl = true) ->
  (forall l, In l (assumptions inp st) -> sat_literal a l = true) ->
  exists r,
    (1 <= r <= maxRtSrtSize inp st f /\ a (varId inp st true f (args ++ [r])) = true)
    /\ forall r',
         1 <= r' <= maxRtSrtSize inp st f ->
         a (varId inp st true f (args ++ [r'])) = true -> r' = r.
Proof.
  intros Hrdl Hsizes Hf Hdel Hd Hret Hargs Hsat Hass.
  set (maxRt := maxRtSrtSize inp st f) in *.
  (* at least one *)
  assert (Hsome : exists r, 1 <= r <= maxRt /\ a (varId inp st true f (args ++ [r])) = true).
  { pose proof (totality_clause_emitted inp st f args Hsizes Hf Hdel Hret Hargs) as Hin.
    fold maxRt in Hin.
    set (T := totality_clause inp st f args (dRetSrt inp f) maxRt maxRt) in *.
    pose proof (totality_marker_false inp st (dRetSrt inp f) maxRt a Hd Hass) as Hm.
    specialize (Hrdl T). destruct (removeDuplicateLiterals T) as [T'|] eqn:E.
    - assert (HT : sat_clause a T' = true).
      { apply Hsat. apply (in_encode _ _ inp st T T'); [now right|assumption]. }
      apply sat_clause_true in HT as (l & Hl & Hal). apply Hrdl in Hl.
      apply in_totality_clause in Hl as [(r & Hr & ->)| ->].
      + exists r. split; [assumption|exact Hal].
      + rewrite Hm in Hal. now destruct (snd (totality_marker _ _ _ _ _)).
    - destruct Hrdl as (v & Hpos & Hneg).
      apply in_totality_clause in Hpos as [(r & Hr & Er)|Er];
        apply in_totality_clause in Hneg as [(r' & Hr' & Er')|Er']; try discriminate Er'.
      + exists r. split; [assumption|].
        unfold varId. rewrite <- Er. rewrite <- Er' in Hm. exact Hm.
      + rewrite <- Er in Er'. discriminate Er'. }
  destruct Hsome as (r & Hr & Har). exists r. split; [now split|].
  (* at most one *)
  assert (Hpair : forall y z, 1 <= y -> y < z -> z <= maxRt ->
            a (varId inp st true f (args ++ [y])) = true ->
            a (varId inp st true f (args ++ [z])) = true -> False).
  { intros y z Hy Hyz Hz Hay Haz.
    pose proof (functionalDef_emitted inp st f args Hsizes Hf Hdel Hargs y z Hy Hyz Hz) as Hin.
    set (C := [getSATLiteral inp st f (args ++ [y]) false true;
               getSATLiteral inp st f (args ++ [z]) false true]) in *.
    specialize (Hrdl C). destruct (removeDuplicateLiterals C) as [C'|] eqn:E.
    - assert (HC : sat_clause a C' = true).
      { apply Hsat. apply (in_encode _ _ inp st C C'); [now left|assumption]. }
      apply sat_clause_true in HC as (l & Hl & Hal). apply Hrdl in Hl.
      unfold varId in Hay, Haz.
      destruct Hl as [<-|[<-|[]]]; simpl in Hal; simpl in Hay, Haz; congruence.
    - destruct Hrdl as (v & Hpos & _).
      destruct Hpos as [E1|[E1|[]]]; discriminate E1. }
  intros r' Hr' Har'.
  destruct (Z.lt_trichotomy r' r) as [Hlt|[Heq|Hgt]]; [exfalso|assumption|exfalso].
  - apply (Hpair r' r); [lia|assumption|lia|assumption|assumption].
  - apply (Hpair r r'); [lia|assumption|lia|assumption|assumption].
Qed.

Lemma exactly_one_result_witness :
  exists r,
    (1 <= r <= maxRtSrtSize ex_sized_input ex_sized_builder 1
     /\ ex_assignment (varId ex_sized_input ex_sized_builder true 1 ([2] ++ [r])) = true)
    /\ forall r',
         1 <= r' <= maxRtSrtSize ex_sized_input ex_sized_builder 1 ->
         ex_assignment (varId ex_sized_input ex_sized_builder true 1 ([2] ++ [r'])) = true ->
         r' = r.
Proof.
  apply (exactly_one_result ex_removeDuplicateLiterals ex_symmetry
           ex_sized_input ex_sized_builder ex_assignment 1 [2]).
  - intros cl l. reflexivity.
  - intros [|srt]; vm_compute; reflexivity.
  - cbv. lia.
  - reflexivity.
  - cbv. lia.
  - vm_compute. intros H. discriminate H.
  - constructor; [|constructor]. vm_compute. split; intros H; discriminate H.
  - intros cl Hcl. vm_compute in Hcl.
    repeat (destruct Hcl as [<-|Hcl]; [reflexivity|]). destruct Hcl.
  - intros l Hl. vm_compute in Hl.
    repeat (destruct Hl as [<-|Hl]; [reflexivity|]). destruct Hl.
Defined.

(** C2, as stated, fails where the bound of the result sort is below its
    size: the emitters range over [min(sortBounds, size)] only. With
    bound 1 and size 2 the clauses are [f0=1 | m1], [f1(1)=1 | m1] and
    [m0 | ~m1]; the assignment above satisfies them and the assumption
    [~m1], and makes the variables of [f0 = 1] and [f0 = 2] both true. *)
Lemma exactly_one_result_variable_counterexample :
  ~ exactly_one_result_variable ex_removeDuplicateLiterals ex_symmetry
      ex_bounded_input ex_bounded_builder.
Proof.
  intros H.
  destruct (H ex_bounded_assignment 0%nat []) as (r & _ & Huniq).
  - intros cl Hcl. vm_compute in Hcl.
    repeat (destruct Hcl as [<-|Hcl]; [reflexivity|]). destruct Hcl.
  - intros l Hl. vm_compute in Hl.
    repeat (destruct Hl as [<-|Hl]; [reflexivity|]). destruct Hl.
  - simpl. lia.
  - reflexivity.
  - constructor.
  - assert (E1 : 1 = r).
    { apply Huniq; [vm_compute; split; intros H'; discriminate H'|reflexivity]. }
    assert (E2 : 2 = r).
    { apply Huniq; [vm_compute; split; intros H'; discriminate H'|reflexivity]. }
    lia.
Qed.

(* ================================================================== *)
(** * Further properties of the builder *)
(* ================================================================== *)

(** ** The odometer, exactly *)

(** X1. The grounding loop shared by [addNewInstances],
    [addNewFunctionalDefs] and [addNewTotalityDefs]. With every bound at
    least 1, the odometer visits exactly the groundings whose values lie
    within the bounds, each once and in lexicographic order (the grounding
    visited at step [k] has rank [k]), and the clauses handed on are those
    of the body on these groundings, in that order. *)
Theorem odometer_enumerates (maxVarSize : list Z) :
  maxVarSize <> [] ->
  Forall (fun m => 1 <= m) maxVarSize ->
  Forall (fun m => m < U32.modulus) maxVarSize ->
  (forall grounding, In grounding (visited maxVarSize) <-> in_domain maxVarSize grounding)
  /\ map (rank maxVarSize) (visited maxVarSize) = zrange 0 (product maxVarSize - 1)
  /\ forall (body : list Z -> list SATClause),
       odometer maxVarSize body = flat_map body (visited maxVarSize).
Proof.
  intros Hne Hpos Hfit.
  destruct (visited_spec maxVarSize Hne Hpos Hfit) as [H1 H2].
  split; [exact H1|]. split; [exact H2|]. intros body. apply odometer_visited.
Qed.

Lemma odometer_enumerates_witness :
  In [2; 1] (visited [2; 2])
  /\ map (rank [2; 2]) (visited [2; 2]) = zrange 0 (product [2; 2] - 1).
Proof.
  destruct (odometer_enumerates [2; 2]) as (H1 & H2 & _).
  - discriminate.
  - repeat constructor; lia.
  - repeat constructor; reflexivity.
  - split; [|exact H2]. apply H1.
    repeat constructor; vm_compute; intros H; discriminate H.
Defined.

(** ** [reset]: what it changes and when it succeeds *)

(** X2. [reset] never touches the sizes or the pending clauses. When it
    returns [false] it has created no solver and has left [_curMaxVar] as it
    was; when it returns [true] it has created exactly one solver and set
    its variable count to the new [_curMaxVar]. *)
Theorem reset_effects (inp : Input) (st : FMB) :
  _sortModelSizes (fst (reset inp st)) = _sortModelSizes st
  /\ _distinctSortSizes (fst (reset inp st)) = _distinctSortSizes st
  /\ _clausesToBeAdded (fst (reset inp st)) = _clausesToBeAdded st
  /\ trace (fst (reset inp st))
     = (if snd (reset inp st)
        then trace st ++ [NewSolver; EnsureVarCount (_curMaxVar (fst (reset inp st)))]
        else trace st)
  /\ (if snd (reset inp st) then True
      else _curMaxVar (fst (reset inp st)) = _curMaxVar st).
Proof.
  unfold reset.
  destruct (reset_functions inp st _ 1 _) as [fo [o1|]]; [|now repeat split].
  destruct (reset_predicates inp st _ o1 _) as [po [o2|]]; [|now repeat split].
  destruct (_xmass inp).
  - destruct (reset_markers _ _ _ o2 _) as [mo [o3|]]; [|now repeat split].
    simpl. repeat split. now rewrite <- app_assoc.
  - destruct (advance (VAR_MAX inp) o2 _) as [o3|]; [|now repeat split].
    destruct (advance (VAR_MAX inp) o3 _) as [o4|]; [|now repeat split].
    simpl. repeat split. now rewrite <- app_assoc.
Qed.







(** ** CONTOUR: the growth step *)

Lemma rd_insert (a : list Z) (i j : nat) (x : Z) :
  rd (<[i := x]> a) j = if decide (i = j /\ (i < length a)%nat) then x else rd a j.
Proof.
  destruct (decide _) as [[-> H]|H].
  - now apply rd_insert_eq.
  - destruct (Nat.eq_dec i j) as [->|Hne]; [|now apply rd_insert_ne].
    rewrite list_insert_ge; [reflexivity|]. 
    destruct (Nat.lt_ge_cases j (length a)); [exfalso; apply H; now split|assumption].
Qed.

Lemma nonstrict_pass_least (it : list (nat * nat)) :
  forall dsizes updated dsizes' updated' rest,
    nonstrict_pass it dsizes updated = (dsizes', updated', rest) ->
    length dsizes' = length dsizes
    /\ (forall s, rd dsizes s <= rd dsizes' s)
    /\ forall w, (forall s, rd dsizes s <= rd w s) ->
         (forall constr, In constr it -> rd w (snd constr) <= rd w (fst constr)) ->
         forall s, rd dsizes' s <= rd w s.
Proof.
  induction it as [|constr it IH]; intros dsizes updated dsizes' updated' rest; simpl.
  - intros [= <- <- <-]. repeat split; [intros s; lia|]. intros w Hw _. exact Hw.
  - destruct (rd dsizes (fst constr) <? rd dsizes (snd constr)) eqn:E; intros H.
    + apply Z.ltb_lt in E. apply IH in H as (Hlen & Hmono & Hleast).
      rewrite length_insert in Hlen. split; [assumption|]. split.
      * intros s. specialize (Hmono s). rewrite rd_insert in Hmono.
        destruct (decide _) as [[<- _]|_]; lia.
      * intros w Hw Hc. apply Hleast.
        -- intros s. rewrite rd_insert. destruct (decide _) as [[<- _]|_]; [|apply Hw].
           pose proof (Hc constr (or_introl eq_refl)). pose proof (Hw (snd constr)). lia.
        -- intros c Hin. apply Hc. now right.
    + apply IH in H as (Hlen & Hmono & Hleast). repeat split; [assumption..|].
      intros w Hw Hc. apply Hleast; [assumption|]. intros c Hin. apply Hc. now right.
Qed.

Lemma sort_constraints_fixpoint_least (inp : Input) (fuel : nat) :
  forall dsizes dsizes',
    sort_constraints_fixpoint fuel inp dsizes = Some dsizes' ->
    length dsizes' = length dsizes
    /\ (forall s, rd dsizes s <= rd dsizes' s)
    /\ forall w, closed_above inp dsizes w -> forall s, rd dsizes' s <= rd w s.
Proof.
  induction fuel as [|k IH]; intros dsizes dsizes'; simpl; [discriminate|].
  destruct (nonstrict_pass _ dsizes false) as [[d1 u1] it1] eqn:E1.
  pose proof (nonstrict_pass_least _ _ _ _ _ _ E1) as (Hlen & Hmono & Hleast).
  apply nonstrict_pass_spec in E1 as [-> _]. simpl.
  assert (H1 : forall w, closed_above inp dsizes w -> forall s, rd d1 s <= rd w s).
  { intros w [Hw Hc]. apply Hleast; [assumption|]. intros [a b] Hin. now apply Hc. }
  destruct u1.
  - intros H. apply IH in H as (Hlen' & Hmono' & Hleast').
    split; [congruence|]. split.
    + intros s. specialize (Hmono s). specialize (Hmono' s). lia.
    + intros w Hw. apply Hleast'. split; [now apply H1|apply Hw].
  - intros [= <-]. now repeat split.
Qed.

Lemma Forall_le_max (l : list Z) : Forall (fun x => x <= fold_right Z.max 0 l) l.
Proof.
  induction l as [|x l IH]; simpl; constructor; [lia|].
  eapply Forall_impl; [exact IH|]. simpl. intros y Hy. lia.
Qed.

(** X4. The block of [runImpl] that closes the sort constraints after a
    CONTOUR growth step. When the constrained sorts exist, the block ends,
    and it leaves the least size vector above the one it was given that
    satisfies every non-strict constraint [size[a] >= size[b]]: no size
    shrinks, the number of sorts is unchanged, and every other vector
    above the given one that satisfies the constraints is at least as
    large in every sort. *)
Theorem contour_constraint_block (inp : Input) (dsizes : list Z) :
  (forall constr, In constr (_distinct_sort_constraints inp) ->
     (fst constr < length dsizes)%nat) ->
  exists fuel dsizes',
    sort_constraints_fixpoint fuel inp dsizes = Some dsizes'
    /\ length dsizes' = length dsizes
    /\ closed_above inp dsizes dsizes'
    /\ forall w, closed_above inp dsizes w -> forall s, rd dsizes' s <= rd w s.
Proof.
  intros Hwf. set (M := fold_right Z.max 0 dsizes).
  assert (HM : 0 <= M).
  { subst M. clear. induction dsizes as [|x l IH]; simpl; lia. }
  destruct (sort_constraints_fixpoint_terminates inp M HM
              (S (Z.to_nat (Z.of_nat (length dsizes) * M - sum dsizes))) dsizes Hwf
              (Forall_le_max dsizes)) as [dsizes' E]; [lia|].
  exists (S (Z.to_nat (Z.of_nat (length dsizes) * M - sum dsizes))), dsizes'.
  pose proof (sort_constraints_fixpoint_least inp _ _ _ E) as (Hlen & Hmono & Hleast).
  split; [assumption|]. split; [assumption|]. split; [|assumption].
  split; [assumption|]. intros a b Hin.
  apply (contour_nonstrict_closed _ inp dsizes dsizes' E a b Hin).
Qed.

(** Sorts 0 and 1 at sizes 1 and 2 with the constraint
    [size[0] >= size[1]]. *)
Lemma contour_constraint_block_witness :
  exists fuel dsizes',
    sort_constraints_fixpoint fuel
      (ex2_input 1 [1; 1] [5; 5] [(0%nat, 1%nat)] []) [1; 2] = Some dsizes'
    /\ length dsizes' = length [1; 2]
    /\ closed_above (ex2_input 1 [1; 1] [5; 5] [(0%nat, 1%nat)] []) [1; 2] dsizes'
    /\ forall w, closed_above (ex2_input 1 [1; 1] [5; 5] [(0%nat, 1%nat)] []) [1; 2] w ->
         forall s, rd dsizes' s <= rd w s.
Proof.
  apply (contour_constraint_block (ex2_input 1 [1; 1] [5; 5] [(0%nat, 1%nat)] []) [1; 2]).
  intros constr [<-|[]]. simpl. lia.
Defined.

Lemma contour_choice_fold (which_sort : FMB -> Z -> nat) (inp : Input) (st : FMB)
    (alt : Z) (failed : list SATLiteral) :
  forall acc,
    let r := fold_left (contour_candidate which_sort inp st alt) failed acc in
    snd r <= snd acc
    /\ (forall lit, In lit failed -> growable which_sort inp st lit ->
          snd r <= contour_weight which_sort inp st alt lit)
    /\ (r = acc
        \/ exists lit, In lit failed /\ growable which_sort inp st lit
             /\ r = (Z.of_nat (which_sort st (fst lit)),
                     contour_weight which_sort inp st alt lit)).
Proof.
  induction failed as [|lit failed IH]; intros acc; simpl.
  - split; [lia|]. split; [intros lit []|now left].
  - set (acc' := contour_candidate which_sort inp st alt acc lit).
    destruct (IH acc') as (Hle & Hmin & Hsrc).
    assert (Hacc' : snd acc' <= snd acc
                    /\ (growable which_sort inp st lit ->
                        snd acc' <= contour_weight which_sort inp st alt lit)
                    /\ (acc' = acc
                        \/ growable which_sort inp st lit
                           /\ acc' = (Z.of_nat (which_sort st (fst lit)),
                                      contour_weight which_sort inp st alt lit))).
    { subst acc'. unfold contour_candidate, growable.
      fold (contour_weight which_sort inp st alt lit).
      destruct (rd (_distinctSortSizes st) (which_sort st (fst lit))
                =? rd (_distinctSortMaxs inp) (which_sort st (fst lit))) eqn:E.
      - apply Z.eqb_eq in E. split; [lia|]. split; [intros H; contradiction|now left].
      - apply Z.eqb_neq in E.
        destruct (contour_weight which_sort inp st alt lit <? snd acc) eqn:Ew.
        + apply Z.ltb_lt in Ew. simpl. split; [lia|]. split; [lia|]. right. now split.
        + apply Z.ltb_ge in Ew. split; [lia|]. split; [intros _; lia|now left]. }
    destruct Hacc' as (Hle' & Hmin' & Hsrc').
    split; [lia|]. split.
    + intros l [<-|Hin] Hg; [specialize (Hmin' Hg); lia|now apply Hmin].
    + destruct Hsrc as [->|(l & Hl & Hg & ->)].
      * destruct Hsrc' as [->|[Hg ->]]; [now left|]. right. exists lit. now repeat split; [left|..].
      * right. exists l. repeat split; [now right|assumption].
Qed.

Lemma contour_grow_choice_aux (which_sort : FMB -> Z -> nat) (fuel : nat) (inp : Input)
    (st : FMB) (alt : Z) (failed : list SATLiteral) (e : HackyDSAE) :
  match contour_grow which_sort fuel inp st alt failed e with
  | NewSizes dsizes' e' =>
      exists lit, In lit failed
        /\ sort_constraints_fixpoint fuel inp
             (<[which_sort st (fst lit)
                := U32.add (rd (_distinctSortSizes st) (which_sort st (fst lit))) 1]>
                (_distinctSortSizes st))
           = Some dsizes'
  | _ => True
  end.
Proof.
  unfold contour_grow, contour_choice.
  destruct (contour_choice_fold which_sort inp st alt failed (U32.UINT_MAX, U32.UINT_MAX))
    as (Hle & Hmin & Hsrc).
  destruct (fold_left _ failed _) as [d w]. simpl in Hle.
  destruct (w <? U32.UINT_MAX) eqn:Ew; [|exact I].
  apply Z.ltb_lt in Ew.
  destruct Hsrc as [[= -> ->]|(lit & Hl & Hg & [= -> ->])]; [lia|].
  rewrite Nat2Z.id.
  destruct (sort_constraints_fixpoint fuel inp _) as [r|] eqn:Ef; [|exact I].
  exists lit. now split.
Qed.


(** ** SBMEAM: what [increaseModelSizes] proposes *)

Lemma u32_add_sub (x : Z) : 0 <= x < U32.modulus -> U32.sub (U32.add x 1) 1 = x.
Proof.
  intros H. unfold U32.sub, U32.add, U32.wrap. rewrite Zminus_mod_idemp_l.
  replace (x + 1 - 1) with x by lia. now apply Z.mod_small.
Qed.

Lemma u32_add_range (x y : Z) : 0 <= U32.add x y < U32.modulus.
Proof. unfold U32.add, U32.wrap. apply Z.mod_pos_bound. reflexivity. Qed.

Lemma test_candidate_AllPassed_constraints (inp : Input) (e : HackyDSAE) (v : list Z)
    (i : nat) (sortMaxes : list Z) :
  test_candidate inp e v i sortMaxes = AllPassed -> satisfies_constraints inp v.
Proof.
  unfold test_candidate.
  destruct (rd v i >? rd sortMaxes i); [discriminate|].
  destruct (ruled_out v (_constraints_generators e)); [discriminate|].
  destruct (_keepOldGenerators e && ruled_out v (_old_generators e)); [discriminate|].
  destruct (find _ (_distinct_sort_constraints inp)) eqn:F1; [discriminate|].
  destruct (find _ (_strict_distinct_sort_constraints inp)) eqn:F2; [discriminate|].
  intros _. split; intros a b Hin.
  - pose proof (find_none _ _ F1 (a, b) Hin) as H. simpl in H. now apply Z.ltb_ge in H.
  - pose proof (find_none _ _ F2 (a, b) Hin) as H. simpl in H. now apply Z.leb_gt in H.
Qed.

(** A rejected candidate leaves the old generators alone and adds at most
    one generator, which holds the sizes of the candidate. *)
Lemma test_candidate_next (inp : Input) (e e' : HackyDSAE) (v : list Z) (i : nat)
    (sortMaxes : list Z) :
  test_candidate inp e v i sortMaxes = NextCandidate e' ->
  _old_generators e' = _old_generators e
  /\ _keepOldGenerators e' = _keepOldGenerators e
  /\ (forall G, In G (_constraints_generators e) -> In G (_constraints_generators e'))
  /\ (forall G, In G (_constraints_generators e') ->
        In G (_constraints_generators e) \/ forall j, snd (rdc (_vals G) j) = rd v j).
Proof.
  unfold test_candidate.
  assert (Hsame : forall e0, e = e0 ->
            _old_generators e0 = _old_generators e
            /\ _keepOldGenerators e0 = _keepOldGenerators e
            /\ (forall G, In G (_constraints_generators e) -> In G (_constraints_generators e0))
            /\ (forall G, In G (_constraints_generators e0) ->
                  In G (_constraints_generators e) \/ forall j, snd (rdc (_vals G) j) = rd v j)).
  { intros e0 <-. repeat split; auto. }
  assert (Hins : forall G0 w e0, (forall j, snd (rdc (_vals G0) j) = rd v j) ->
            heap_insert G0 e w = e0 ->
            _old_generators e0 = _old_generators e
            /\ _keepOldGenerators e0 = _keepOldGenerators e
            /\ (forall G, In G (_constraints_generators e) -> In G (_constraints_generators e0))
            /\ (forall G, In G (_constraints_generators e0) ->
                  In G (_constraints_generators e) \/ forall j, snd (rdc (_vals G) j) = rd v j)).
  { intros G0 w e0 HG0 <-. unfold heap_insert. simpl. repeat split.
    - intros G HG. apply in_or_app. now left.
    - intros G HG. apply in_app_or in HG as [HG|[<-|[]]]; [now left|now right]. }
  assert (Hchild : forall w constr j,
            snd (rdc (_vals (artificial_child v w constr)) j) = rd v j).
  { intros w constr j. unfold artificial_child. simpl.
    now rewrite !snd_rdc_set_sign, snd_rdc_stars. }
  destruct (rd v i >? rd sortMaxes i); [intros [= E]; now apply Hsame|].
  destruct (ruled_out v (_constraints_generators e)); [intros [= E]; now apply Hsame|].
  destruct (_keepOldGenerators e && ruled_out v (_old_generators e)).
  { intros [= E]. eapply Hins; [|exact E]. intros j. simpl. apply snd_rdc_stars. }
  destruct (find _ (_distinct_sort_constraints inp)).
  { intros [= E]. eapply Hins; [|exact E]. apply Hchild. }
  destruct (find _ (_strict_distinct_sort_constraints inp)); [|discriminate].
  intros [= E]. eapply Hins; [|exact E]. apply Hchild.
Qed.

Lemma try_increments_spec (inp : Input) (sortMaxes copied : list Z) :
  (forall j, 0 <= rd copied j < U32.modulus) ->
  forall idxs e r undone e',
    try_increments inp e copied idxs sortMaxes = (r, undone, e') ->
    _old_generators e' = _old_generators e
    /\ _keepOldGenerators e' = _keepOldGenerators e
    /\ (forall G, In G (_constraints_generators e) -> In G (_constraints_generators e'))
    /\ (unsigned_heap e -> unsigned_heap e')
    /\ match r with
       | Some v =>
           exists i, In i idxs
             /\ v = <[i := U32.add (rd copied i) 1]> copied
             /\ rd v i <= rd sortMaxes i
             /\ satisfies_constraints inp v
       | None => undone = copied
       end.
Proof.
  intros Hrange. induction idxs as [|i idxs IH]; intros e r undone e'; simpl.
  - intros [= <- <- <-]. split; [reflexivity|]. split; [reflexivity|].
    split; [auto|]. split; [auto|]. reflexivity.
  - set (inc := <[i := U32.add (rd copied i) 1]> copied).
    assert (Hinc : forall j, 0 <= rd inc j < U32.modulus).
    { intros j. subst inc. rewrite rd_insert.
      destruct (decide _); [apply u32_add_range|apply Hrange]. }
    destruct (test_candidate inp e inc i sortMaxes) as [|e1] eqn:E.
    + intros [= <- <- <-]. split; [reflexivity|]. split; [reflexivity|].
      split; [auto|]. split; [auto|].
      exists i. split; [now left|]. split; [reflexivity|].
      split; [now apply test_candidate_AllPassed in E as (? & _)|].
      now apply test_candidate_AllPassed_constraints in E.
    + assert (Hundo : <[i := U32.sub (rd inc i) 1]> inc = copied).
      { subst inc. destruct (Nat.lt_ge_cases i (length copied)) as [Hlt|Hge].
        - rewrite rd_insert_eq by assumption. rewrite u32_add_sub by apply Hrange.
          rewrite list_insert_insert_eq. apply list_insert_id.
          unfold rd. destruct (copied !! i) eqn:El; [reflexivity|].
          apply lookup_ge_None in El. lia.
        - now rewrite !list_insert_ge by (rewrite ?length_insert; lia). }
      rewrite Hundo. intros H. apply IH in H as (Ho & Hk & Hh & Hu & Hr).
      apply test_candidate_next in E as (Ho1 & Hk1 & Hh1 & Hnew).
      split; [congruence|]. split; [congruence|]. split; [auto|]. split.
      * intros He. apply Hu. intros G HG. destruct (Hnew G HG) as [Hold|Hv].
        -- now apply He.
        -- intros j. rewrite Hv. apply Hinc.
      * destruct r as [v|]; [|assumption].
        destruct Hr as (k & Hk' & Hr). exists k. split; [now right|assumption].
Qed.

Lemma generator_sizes_range (G : Constraint_Generator) (n : nat) :
  unsigned_generator G -> forall j, 0 <= rd (generator_sizes G n) j < U32.modulus.
Proof.
  intros HG j. unfold generator_sizes, rd. rewrite list_lookup_fmap.
  destruct (seq 0 n !! j) as [k|]; simpl; [apply HG|].
  unfold U32.modulus. lia.
Qed.

Lemma rd_generator_sizes (G : Constraint_Generator) (n i : nat) :
  (i < n)%nat -> rd (generator_sizes G n) i = snd (rdc (_vals G) i).
Proof. intros H. unfold generator_sizes. now rewrite rd_map_seq. Qed.

Lemma unsigned_heap_pop (heap_top : list Constraint_Generator -> nat) (e : HackyDSAE) :
  unsigned_heap e -> unsigned_heap (pop_top heap_top e).
Proof. intros He G HG. apply He. unfold pop_top in HG. simpl in HG. now apply In_delete in HG. Qed.

Lemma increaseModelSizes_spec (heap_top : list Constraint_Generator -> nat) (inp : Input)
    (sortMaxes : list Z) :
  (forall h, h <> [] -> (heap_top h < length h)%nat) ->
  forall fuel e newSortSizes v e',
    unsigned_heap e ->
    increaseModelSizes heap_top fuel inp e newSortSizes sortMaxes = Some (true, v, e') ->
    exists G i,
      In G (_constraints_generators e') /\ (i < length newSortSizes)%nat
      /\ v = <[i := U32.add (snd (rdc (_vals G) i)) 1]>
               (generator_sizes G (length newSortSizes))
      /\ rd v i <= rd sortMaxes i
      /\ satisfies_constraints inp v.
Proof.
  intros Hvalid. induction fuel as [|k IH]; intros e nss v e' He; simpl; [discriminate|].
  destruct (_constraints_generators e) as [|g gs] eqn:Eh; [discriminate|].
  assert (Htop : In (top heap_top e) (_constraints_generators e)).
  { apply top_in_heap; [assumption|]. rewrite Eh. discriminate. }
  fold (generator_sizes (top heap_top e) (length nss)).
  set (copied := generator_sizes (top heap_top e) (length nss)).
  assert (Hrange : forall j, 0 <= rd copied j < U32.modulus).
  { apply generator_sizes_range. now apply He. }
  destruct (try_increments inp e copied _ sortMaxes) as [[r undone] e1] eqn:E.
  apply (try_increments_spec inp sortMaxes copied Hrange) in E
    as (_ & _ & Hh & Hu & Hr).
  destruct r as [w|].
  - intros [= <- <-]. destruct Hr as (i & Hi & -> & Hmax & Hc).
    apply in_seq in Hi. exists (top heap_top e), i.
    split; [now apply Hh|]. split; [lia|]. split; [|now split].
    subst copied. now rewrite rd_generator_sizes by lia.
  - subst undone. intros H. apply IH in H.
    + destruct H as (G & i & HG & Hi & Hv & Hrest). exists G, i.
      assert (Hlc : length copied = length nss).
      { subst copied. unfold generator_sizes. now rewrite length_map, length_seq. }
      rewrite Hlc in Hi, Hv.
      split; [assumption|]. split; [assumption|]. split; [assumption|]. exact Hrest.
    + apply unsigned_heap_pop. now apply Hu.
Qed.

(** X6. Every size vector [increaseModelSizes] proposes is a child of a
    generator that is still in the heap: the sizes the generator holds
    with exactly one sort incremented by one, and that sort within its
    maximum. *)
Theorem increaseModelSizes_child (heap_top : list Constraint_Generator -> nat)
    (fuel : nat) (inp : Input) (e : HackyDSAE) (newSortSizes sortMaxes v : list Z)
    (e' : HackyDSAE) :
  (forall h, h <> [] -> (heap_top h < length h)%nat) ->
  unsigned_heap e ->
  increaseModelSizes heap_top fuel inp e newSortSizes sortMaxes = Some (true, v, e') ->
  exists G i,
    In G (_constraints_generators e') /\ (i < length newSortSizes)%nat
    /\ v = <[i := U32.add (snd (rdc (_vals G) i)) 1]>
             (generator_sizes G (length newSortSizes))
    /\ rd v i <= rd sortMaxes i.
Proof.
  intros Hvalid He H.
  destruct (increaseModelSizes_spec heap_top inp sortMaxes Hvalid fuel e newSortSizes v e' He H)
    as (G & i & HG & Hi & Hv & Hmax & _).
  now exists G, i.
Qed.

Lemma try_increments_constraints (inp : Input) (sortMaxes : list Z) :
  forall idxs e newSortSizes v undone e',
    try_increments inp e newSortSizes idxs sortMaxes = (Some v, undone, e') ->
    satisfies_constraints inp v.
Proof.
  induction idxs as [|i idxs IH]; intros e nss v undone e'; simpl; [discriminate|].
  destruct (test_candidate inp e _ i sortMaxes) as [|e1] eqn:E.
  - intros [= <- <- <-]. now apply test_candidate_AllPassed_constraints in E.
  - apply IH.
Qed.

(** X7. Every size vector [increaseModelSizes] proposes satisfies both
    families of sort constraints: [size[a] >= size[b]] for every
    non-strict constraint and [size[a] > size[b]] for every strict one. *)
Theorem increaseModelSizes_respects_constraints
    (heap_top : list Constraint_Generator -> nat) (fuel : nat) (inp : Input)
    (e : HackyDSAE) (newSortSizes sortMaxes v : list Z) (e' : HackyDSAE) :
  increaseModelSizes heap_top fuel inp e newSortSizes sortMaxes = Some (true, v, e') ->
  satisfies_constraints inp v.
Proof.
  revert e newSortSizes. induction fuel as [|k IH]; intros e nss; simpl; [discriminate|].
  destruct (_constraints_generators e) as [|g gs]; [discriminate|].
  destruct (try_increments inp e _ _ sortMaxes) as [[[w|] undone] e1] eqn:E.
  - intros [= <- <-]. now apply try_increments_constraints in E.
  - apply IH.
Qed.

(** Sorts 0 and 1 at size 1 with the constraint [size[1] >= size[0]] and
    the no-good [EQ 1, EQ 1]: the child (2, 1) breaks the constraint and
    becomes a generator, the child (1, 2) is proposed. *)
Lemma increaseModelSizes_child_witness :
  exists G i,
    In G (_constraints_generators
            (heap_insert (artificial_child [2; 1] 1 (1%nat, 0%nat)) ex2_enumerator 1))
    /\ (i < length [1; 1])%nat
    /\ [1; 2] = <[i := U32.add (snd (rdc (_vals G) i)) 1]>
                  (generator_sizes G (length [1; 1]))
    /\ rd [1; 2] i <= rd [5; 5] i.
Proof.
  apply (increaseModelSizes_child ex_heap_top 1
           (ex2_sbmeam_input [5; 5] [(1%nat, 0%nat)] []) ex2_enumerator [1; 1] [5; 5]).
  - intros [|g h] Hh; [contradiction|unfold ex_heap_top; simpl; lia].
  - intros G HG j. destruct HG as [<-|[]].
    destruct j as [|[|j]]; vm_compute; (split; [intros H; discriminate H|reflexivity]).
  - vm_compute. reflexivity.
Defined.

Lemma increaseModelSizes_respects_constraints_witness :
  satisfies_constraints (ex2_sbmeam_input [5; 5] [(1%nat, 0%nat)] []) [1; 2].
Proof.
  eapply (increaseModelSizes_respects_constraints ex_heap_top 1
            (ex2_sbmeam_input [5; 5] [(1%nat, 0%nat)] []) ex2_enumerator [1; 1] [5; 5]).
  vm_compute. reflexivity.
Defined.

(** ** SBMEAM: what the enumerator keeps *)

Lemma In_delete_or {A} (x : A) (i : nat) (l : list A) :
  In x l -> In x (delete i l) \/ l !! i = Some x.
Proof.
  revert i. induction l as [|y l IH]; intros i []; destruct i as [|i]; simpl.
  - right. now subst.
  - left. now left.
  - now left.
  - destruct (IH i H) as [H'|H']; [left; now right|now right].
Qed.

Lemma pop_top_held (heap_top : list Constraint_Generator -> nat) (e : HackyDSAE)
    (G : Constraint_Generator) :
  _keepOldGenerators e = true -> held e G -> held (pop_top heap_top e) G.
Proof.
  intros Hk. unfold held, pop_top. simpl. rewrite Hk. intros [H|H].
  - destruct (In_delete_or G (heap_top (_constraints_generators e)) _ H) as [H'|E];
      [now left|]. right. apply in_or_app. right. left. unfold top. now rewrite E.
  - right. apply in_or_app. now left.
Qed.

Lemma try_increments_retains (inp : Input) (sortMaxes : list Z) :
  forall idxs e newSortSizes r undone e',
    try_increments inp e newSortSizes idxs sortMaxes = (r, undone, e') ->
    _keepOldGenerators e' = _keepOldGenerators e
    /\ forall G, held e G -> held e' G.
Proof.
  induction idxs as [|i idxs IH]; intros e nss r undone e'; simpl.
  - intros [= <- <- <-]. now split.
  - destruct (test_candidate inp e _ i sortMaxes) as [|e1] eqn:E.
    + intros [= <- <- <-]. now split.
    + intros H. apply IH in H as [Hk Hh].
      apply test_candidate_next in E as (Ho & Hk1 & Hh1 & _).
      split; [congruence|]. intros G HG. apply Hh.
      destruct HG as [HG|HG]; [left; now apply Hh1|right; now rewrite Ho].
Qed.

Lemma increaseModelSizes_retains (heap_top : list Constraint_Generator -> nat)
    (inp : Input) (sortMaxes : list Z) :
  forall fuel e newSortSizes b v e',
    _keepOldGenerators e = true ->
    increaseModelSizes heap_top fuel inp e newSortSizes sortMaxes = Some (b, v, e') ->
    _keepOldGenerators e' = true /\ forall G, held e G -> held e' G.
Proof.
  induction fuel as [|k IH]; intros e nss b v e' Hk; simpl; [discriminate|].
  destruct (_constraints_generators e) as [|g gs] eqn:Eh.
  - intros [= <- <- <-]. now split.
  - destruct (try_increments inp e _ _ sortMaxes) as [[[w|] undone] e1] eqn:E;
      apply try_increments_retains in E as [Hk1 Hh1].
    + intros [= <- <- <-]. split; [congruence|assumption].
    + intros H. apply IH in H as [Hk2 Hh2].
      * split; [assumption|]. intros G HG. apply Hh2. apply pop_top_held; [congruence|auto].
      * unfold pop_top. simpl. congruence.
Qed.

(** The no-good built after an UNSAT answer matches the size vector that
    was refuted. *)
Lemma build_nogood_matches (inp : Input) (st : FMB) (failed : list SATLiteral) :
  matches (_distinctSortSizes st) (build_nogood inp st failed).
Proof.
  intros j _. pose proof (snd_build_nogood inp st failed j) as E.
  destruct (fst (rdc (build_nogood inp st failed) j)); try exact I; lia.
Qed.

(** X8. When the old generators are kept, an SBMEAM step never proposes
    the size vector that was just refuted, nor a vector matching a
    generator the enumerator held before the step: every such generator
    is still held afterwards, in the heap or among the old ones, and the
    proposed vector matches none of them. *)
Theorem sbmeam_never_repeats (heap_top : list Constraint_Generator -> nat)
    (isFmbComplete : HackyDSAE -> nat -> bool) (fuel : nat) (inp : Input) (st : FMB)
    (weight : Z) (failed : list SATLiteral) (e e' : HackyDSAE) (v : list Z) :
  _keepOldGenerators e = true ->
  sbmeam_grow heap_top isFmbComplete fuel inp st weight failed e = NewSizes v e' ->
  v <> _distinctSortSizes st
  /\ _keepOldGenerators e' = true
  /\ forall G, held e G -> held e' G /\ ~ matches v (_vals G).
Proof.
  intros Hk. unfold sbmeam_grow.
  set (N := build_nogood inp st failed).
  destruct (increaseModelSizes _ _ _ _ _ _) as [[[[] w] e1]|] eqn:E;
    [|destruct (isFmbComplete _ _); discriminate|discriminate].
  intros [= <- <-].
  pose proof (increaseModelSizes_accepted _ _ _ _ _ _ _ _ E) as [Hheap Hold].
  apply increaseModelSizes_retains in E as [Hk1 Hh]; [|exact Hk].
  assert (Hno : forall G, held e1 G -> ~ matches w (_vals G)).
  { intros G [HG|HG].
    - now apply (proj1 (ruled_out_false _ _) Hheap).
    - now apply (proj1 (ruled_out_false _ _) (Hold Hk1)). }
  assert (Hlearn : forall G, held e G -> held (learnNogood e N weight) G).
  { intros G [HG|HG]; [left|now right].
    unfold learnNogood, heap_insert. simpl. apply in_or_app. now left. }
  split; [|split; [assumption|]].
  - intros ->. apply (Hno {| _vals := N; _weight := weight |}).
    + apply Hh. left. unfold learnNogood, heap_insert. simpl.
      apply in_or_app. right. now left.
    + apply build_nogood_matches.
  - intros G HG. split; [auto|]. apply Hno. auto.
Qed.

(** The two sorts at size 1 after the totality marker of sort 0 failed. *)
Lemma sbmeam_never_repeats_witness :
  [2; 1] <> _distinctSortSizes
              (fst (reset (ex2_sbmeam_input [5; 5] [] []) (ex2_builder [1; 1])))
  /\ _keepOldGenerators (learnNogood ex2_enumerator [(EQ, 1); (STAR, 1)] 7) = true
  /\ forall G, held ex2_enumerator G ->
       held (learnNogood ex2_enumerator [(EQ, 1); (STAR, 1)] 7) G
       /\ ~ matches [2; 1] (_vals G).
Proof.
  apply (sbmeam_never_repeats ex_heap_top ex_isFmbComplete 2
           (ex2_sbmeam_input [5; 5] [] [])
           (fst (reset (ex2_sbmeam_input [5; 5] [] []) (ex2_builder [1; 1])))
           7 [(3, true)] ex2_enumerator).
  - reflexivity.
  - vm_compute. reflexivity.
Defined.

(** X9. [increaseModelSizes] returns [false] only with an empty heap:
    every generator has been tried and popped. When the old generators
    are kept, every generator the enumerator held is then among them. *)
Theorem increaseModelSizes_exhausted (heap_top : list Constraint_Generator -> nat)
    (fuel : nat) (inp : Input) (e : HackyDSAE) (newSortSizes sortMaxes v : list Z)
    (e' : HackyDSAE) :
  increaseModelSizes heap_top fuel inp e newSortSizes sortMaxes = Some (false, v, e') ->
  _constraints_generators e' = []
  /\ (_keepOldGenerators e = true -> forall G, held e G -> In G (_old_generators e')).
Proof.
  intros H.
  assert (Hempty : _constraints_generators e' = []).
  { revert e newSortSizes H. induction fuel as [|k IH]; intros e nss; simpl; [discriminate|].
    destruct (_constraints_generators e) as [|g gs] eqn:Eh.
    - now intros [= <- <-].
    - destruct (try_increments inp e _ _ sortMaxes) as [[[w|] undone] e1];
        [discriminate|apply IH]. }
  split; [assumption|]. intros Hk G HG.
  apply increaseModelSizes_retains in H as [_ Hh]; [|exact Hk].
  destruct (Hh G HG) as [Hin|Hin]; [|assumption]. rewrite Hempty in Hin. destruct Hin.
Qed.

(** Both sorts at their maximum 1: the only generator has no child. *)
Lemma increaseModelSizes_exhausted_witness :
  _constraints_generators
    {| _constraints_generators := [];
       _old_generators := _constraints_generators ex2_enumerator;
       _maxWeightSoFar := 0; _keepOldGenerators := true |} = []
  /\ (_keepOldGenerators ex2_enumerator = true ->
      forall G, held ex2_enumerator G ->
        In G (_old_generators
                {| _constraints_generators := [];
                   _old_generators := _constraints_generators ex2_enumerator;
                   _maxWeightSoFar := 0; _keepOldGenerators := true |})).
Proof.
  apply (increaseModelSizes_exhausted ex_heap_top 3 (ex2_sbmeam_input [1; 1] [] [])
           ex2_enumerator [1; 1] [1; 1] [1; 1]).
  vm_compute. reflexivity.
Defined.

(** ** CONTOUR: markers, totality versions and the retraction of the sizes *)

Lemma u32_add_succ (x j : Z) : U32.add (U32.add x j) 1 = U32.add x (j + 1).
Proof.
  unfold U32.add, U32.wrap. rewrite Zplus_mod_idemp_l. f_equal. lia.
Qed.

Lemma u32_add_1_neq (x : Z) : U32.add x 1 <> U32.wrap x.
Proof.
  unfold U32.add, U32.wrap, U32.modulus. intros E.
  pose proof (Z.mod_pos_bound x (2 ^ 32) ltac:(lia)) as Hb.
  rewrite <- Zplus_mod_idemp_l in E.
  destruct (Z.eq_dec (x mod 2 ^ 32 + 1) (2 ^ 32)) as [Hw|Hw].
  - rewrite Hw, Z_mod_same_full in E. lia.
  - rewrite Z.mod_small in E by lia. lia.
Qed.

Lemma in_staircase (inp : Input) (st : FMB) (i : nat) (j : Z) :
  _xmass inp = true ->
  (i < length (_distinctSortSizes st))%nat ->
  rd (_distinctSortSizes st) i < U32.modulus ->
  0 <= j -> j + 1 < rd (_distinctSortSizes st) i ->
  In [(marker st i j, true); (marker st i (j + 1), false)] (addNewTotalityDefs inp st).
Proof.
  intros Hx Hi Hsz Hj Hj'. unfold addNewTotalityDefs. rewrite Hx.
  apply in_or_app. left. unfold staircase. apply in_flat_map.
  exists i. split; [apply in_seq; lia|]. apply in_map_iff. exists j. split.
  - unfold marker. now rewrite u32_add_succ.
  - apply in_zrange. unfold U32.sub. rewrite wrap_small by lia. lia.
Qed.

Section Contour.

Variable removeDuplicateLiterals : SATClause -> option SATClause.
Variable addNewSymmetryAxioms : Input -> FMB -> list SATClause.
Variable inp : Input.
Variable st : FMB.
Variable a : Z -> bool.

Hypothesis Hrdl : removeDuplicateLiterals_ok removeDuplicateLiterals.
Hypothesis Hx : _xmass inp = true.
Hypothesis Hsat : forall cl,
  In cl (_clausesToBeAdded (encode removeDuplicateLiterals addNewSymmetryAxioms inp st)) ->
  sat_clause a cl = true.

(** A clause handed to [addSATClause] by the totality or functional
    definitions has a literal that is true in the assignment, unless it
    holds a variable in both polarities. *)
Lemma emitted_clause_true (cl : SATClause) :
  In cl (addNewFunctionalDefs inp st) \/ In cl (addNewTotalityDefs inp st) ->
  (exists l, In l cl /\ a (fst l) = snd l)
  \/ exists v, In (v, true) cl /\ In (v, false) cl.
Proof.
  intros Hin. pose proof (Hrdl cl) as Hc.
  destruct (removeDuplicateLiterals cl) as [cl'|] eqn:E; [left|now right].
  assert (HT : sat_clause a cl' = true).
  { apply Hsat. now apply (in_encode _ _ inp st cl cl'). }
  apply sat_clause_true in HT as (l & Hl & Hal). exists l. split; [now apply Hc|assumption].
Qed.

Lemma staircase_step (i : nat) (j : Z) :
  (i < length (_distinctSortSizes st))%nat ->
  rd (_distinctSortSizes st) i < U32.modulus ->
  0 <= j -> j + 1 < rd (_distinctSortSizes st) i ->
  a (marker st i (j + 1)) = true -> a (marker st i j) = true.
Proof.
  intros Hi Hsz Hj Hj' Ha.
  destruct (emitted_clause_true _ (or_intror (in_staircase inp st i j Hx Hi Hsz Hj Hj')))
    as [(l & Hl & Hal)|(v & Hpos & Hneg)].
  - destruct Hl as [<-|[<-|[]]]; simpl in Hal; [assumption|congruence].
  - destruct Hpos as [E1|[E1|[]]]; [|discriminate E1].
    destruct Hneg as [E2|[E2|[]]]; [discriminate E2|].
    injection E1 as E1. injection E2 as E2. exfalso.
    unfold marker in *. rewrite <- u32_add_succ in E2.
    apply (u32_add_1_neq (U32.add (rd (marker_offsets st) i) j)).
    rewrite E2, <- E1. unfold U32.add, U32.wrap. now rewrite Zmod_mod.
Qed.

Lemma staircase_closed (i : nat) (j : Z) :
  (i < length (_distinctSortSizes st))%nat ->
  rd (_distinctSortSizes st) i < U32.modulus ->
  0 <= j ->
  forall n, j + Z.of_nat n < rd (_distinctSortSizes st) i ->
    a (marker st i (j + Z.of_nat n)) = true -> a (marker st i j) = true.
Proof.
  intros Hi Hsz Hj. induction n as [|n IH]; intros Hk Ha.
  - now rewrite Z.add_0_r in Ha.
  - apply IH; [lia|]. apply staircase_step; [assumption|assumption|lia|lia|].
    now replace (j + Z.of_nat n + 1) with (j + Z.of_nat (S n)) by lia.
Qed.

End Contour.

(** X10. The staircase clauses of [addNewTotalityDefs] in CONTOUR mode.
    In an assignment that satisfies the clauses built for the current
    sizes, the markers of every distinct sort are downward closed: if
    marker [k] of a sort is true, so is every marker [j <= k] of the sort. *)
Theorem staircase_downward_closed
    (removeDuplicateLiterals : SATClause -> option SATClause)
    (addNewSymmetryAxioms : Input -> FMB -> list SATClause)
    (inp : Input) (st : FMB) (a : Z -> bool) (i : nat) (j k : Z) :
  removeDuplicateLiterals_ok removeDuplicateLiterals ->
  _xmass inp = true ->
  (forall cl,
     In cl (_clausesToBeAdded (encode removeDuplicateLiterals addNewSymmetryAxioms inp st)) ->
     sat_clause a cl = true) ->
  (i < length (_distinctSortSizes st))%nat ->
  rd (_distinctSortSizes st) i < U32.modulus ->
  0 <= j <= k -> k < rd (_distinctSortSizes st) i ->
  a (marker st i k) = true -> a (marker st i j) = true.
Proof.
  intros Hrdl Hx Hsat Hi Hsz Hjk Hk Ha.
  apply (staircase_closed removeDuplicateLiterals addNewSymmetryAxioms inp st a
           Hrdl Hx Hsat i j Hi Hsz (proj1 Hjk) (Z.to_nat (k - j))).
  - lia.
  - now replace (j + Z.of_nat (Z.to_nat (k - j))) with k by lia.
Qed.

(** Both markers of the sort true, every function variable false. *)
Lemma staircase_downward_closed_witness :
  (fun v => existsb (Z.eqb v) [9; 10]) (marker ex_contour_builder 0 0) = true.
Proof.
  apply (staircase_downward_closed ex_removeDuplicateLiterals ex_symmetry
           ex_contour_input ex_contour_builder (fun v => existsb (Z.eqb v) [9; 10])
           0%nat 0 1).
  - intros cl l. reflexivity.
  - reflexivity.
  - intros cl Hcl. vm_compute in Hcl.
    repeat (destruct Hcl as [<-|Hcl]; [reflexivity|]). destruct Hcl.
  - simpl. lia.
  - reflexivity.
  - lia.
  - reflexivity.
  - reflexivity.
Defined.

Section Versions.

Variable inp : Input.
Variable st : FMB.
Variable f : nat.
Variable args : list Z.

Hypothesis Hsizes : forall srt, rd (_sortModelSizes st) srt < U32.modulus.
Hypothesis Hf : (f < functions (signature inp))%nat.
Hypothesis Hdel : rdb (del_f inp) f = false.
Hypothesis Hargs : in_domain (argumentBounds inp st f) args.

(** Every version of the totality clause of [f] at [args] is emitted. *)
Lemma totality_version_emitted (i : Z) :
  In i (totality_versions inp (dRetSrt inp f) (maxRtSrtSize inp st f)) ->
  In (totality_clause inp st f args (dRetSrt inp f) (maxRtSrtSize inp st f) i)
     (addNewTotalityDefs inp st).
Proof.
  intros Hv. unfold addNewTotalityDefs. apply in_or_app. right.
  apply in_flat_map. exists f. split; [apply in_seq; lia|]. rewrite Hdel.
  pose proof (argumentBounds_length inp st f args Hargs) as Hlen.
  unfold totalityDefs_of. unfold argumentBounds in Hargs, Hlen.
  fold (retSrt inp f). fold (maxRtSrtSize inp st f). fold (dRetSrt inp f).
  destruct (rdn (functionArity (signature inp)) f =? 0)%nat eqn:E.
  - apply Nat.eqb_eq in E. rewrite E in Hlen.
    destruct args; [|discriminate].
    unfold dRetSrt, maxRtSrtSize, retSrt in *. rewrite E in *.
    apply in_map_iff. eexists. split; [reflexivity|exact Hv].
  - apply Nat.eqb_neq in E.
    apply (odometer_complete _ _ args).
    + destruct (rdn (functionArity (signature inp)) f); [contradiction|discriminate].
    + apply (argumentBounds_fit inp st f Hsizes Hf).
    + exact Hargs.
    + apply in_map_iff. eexists. split; [reflexivity|exact Hv].
Qed.

End Versions.

Section Retraction.

Variable removeDuplicateLiterals : SATClause -> option SATClause.
Variable addNewSymmetryAxioms : Input -> FMB -> list SATClause.
Variable inp : Input.
Variable st : FMB.
Variable a : Z -> bool.

Hypothesis Hrdl : removeDuplicateLiterals_ok removeDuplicateLiterals.
Hypothesis Hx : _xmass inp = true.
Hypothesis Hsat : forall cl,
  In cl (_clausesToBeAdded (encode removeDuplicateLiterals addNewSymmetryAxioms inp st)) ->
  sat_clause a cl = true.
Hypothesis Hass : forall l, In l (assumptions inp st) -> sat_literal a l = true.

(** Two different result values of [f] at [args] are not both true. *)
Lemma functional_at_most_one (f : nat) (args : list Z) (y z : Z) :
  (forall srt, rd (_sortModelSizes st) srt < U32.modulus) ->
  (f < functions (signature inp))%nat -> rdb (del_f inp) f = false ->
  in_domain (argumentBounds inp st f) args ->
  1 <= y -> y < z -> z <= maxRtSrtSize inp st f ->
  a (varId inp st true f (args ++ [y])) = true ->
  a (varId inp st true f (args ++ [z])) = true -> False.
Proof.
  intros Hsizes Hf Hdel Hargs Hy Hyz Hz Hay Haz.
  pose proof (functionalDef_emitted inp st f args Hsizes Hf Hdel Hargs y z Hy Hyz Hz) as Hin.
  destruct (emitted_clause_true removeDuplicateLiterals addNewSymmetryAxioms inp st a
              Hrdl Hsat _ (or_introl Hin)) as [(l & Hl & Hal)|(v & Hpos & _)].
  - unfold varId in Hay, Haz.
    destruct Hl as [<-|[<-|[]]]; simpl in Hal; simpl in Hay, Haz; congruence.
  - destruct Hpos as [E1|[E1|[]]]; discriminate E1.
Qed.


End Retraction.



(** ** The functional and totality definitions, exactly *)

Lemma functionalDefs_maxVarSize_eq (inp : Input) (st : FMB) (f : nat) :
  functionalDefs_maxVarSize inp st f
  = maxRtSrtSize inp st f :: maxRtSrtSize inp st f :: argumentBounds inp st f.
Proof. reflexivity. Qed.

Lemma map_shift2 (y z : Z) (args : list Z) :
  map (fun k => rd (y :: z :: args) (k + 2)) (seq 0 (length args)) = args.
Proof.
  rewrite <- (map_rd_seq args) at 2. apply map_ext. intros k.
  now replace (k + 2)%nat with (S (S k)) by lia.
Qed.

(** X12. When the bounds of the result and of the arguments of every
    function that is not deleted are at least 1, [addNewFunctionalDefs]
    hands to [addSATClause] exactly the
    clauses [~ f(args) = y \/ ~ f(args) = z] for the functions [f] that
    are not deleted, the argument tuples within the bounds and the result
    values [1 <= y < z] within the bound of the result sort: never a clause
    with [y = z], never one outside the bounds, and none is missing. *)
Theorem functionalDefs_exact (inp : Input) (st : FMB) (cl : SATClause) :
  (forall srt, rd (_sortModelSizes st) srt < U32.modulus) ->
  (forall f, (f < functions (signature inp))%nat -> rdb (del_f inp) f = false ->
     Forall (fun m => 1 <= m) (functionalDefs_maxVarSize inp st f)) ->
  In cl (addNewFunctionalDefs inp st) <->
  exists f args y z,
    (f < functions (signature inp))%nat /\ rdb (del_f inp) f = false
    /\ in_domain (argumentBounds inp st f) args
    /\ 1 <= y /\ y < z /\ z <= maxRtSrtSize inp st f
    /\ cl = [getSATLiteral inp st f (args ++ [y]) false true;
             getSATLiteral inp st f (args ++ [z]) false true].
Proof.
  intros Hsizes Hpos. split.
  - unfold addNewFunctionalDefs. rewrite in_flat_map. intros (f & Hf & Hin).
    apply in_seq in Hf. destruct (rdb (del_f inp) f) eqn:Hdel; [destruct Hin|].
    unfold functionalDefs_of in Hin.
    apply odometer_sound_domain in Hin as (g & Hg & Hcl).
    + rewrite functionalDefs_maxVarSize_eq in Hg.
      inversion Hg as [|y m1 g1 ms1 Hy Hg1]; subst.
      inversion Hg1 as [|z m2 args ms2 Hz Hargs]; subst.
      unfold functionalDef_body in Hcl.
      change (rd (y :: z :: args) 0) with y in Hcl.
      change (rd (y :: z :: args) 1) with z in Hcl.
      destruct (y >=? z) eqn:E; [destruct Hcl|]. destruct Hcl as [<-|[]].
      rewrite Z.geb_leb in E. apply Z.leb_gt in E.
      rewrite <- (argumentBounds_length inp st f args Hargs), map_shift2.
      exists f, args, y, z. repeat split; [lia|assumption|assumption|lia|assumption|lia].
    + discriminate.
    + apply Hpos; [lia|assumption].
    + rewrite functionalDefs_maxVarSize_eq.
      pose proof (boundedSize_fits inp st f Hsizes ltac:(lia)) as Hb.
      constructor; [apply Hb|]. constructor; [apply Hb|].
      apply (argumentBounds_fit inp st f Hsizes). lia.
  - intros (f & args & y & z & Hf & Hdel & Hargs & Hy & Hyz & Hz & ->).
    now apply functionalDef_emitted.
Qed.

Lemma functionalDefs_exact_witness :
  In [(3, false); (5, false)] (addNewFunctionalDefs ex_sized_input ex_sized_builder) <->
  exists f args y z,
    (f < functions (signature ex_sized_input))%nat /\ rdb (del_f ex_sized_input) f = false
    /\ in_domain (argumentBounds ex_sized_input ex_sized_builder f) args
    /\ 1 <= y /\ y < z /\ z <= maxRtSrtSize ex_sized_input ex_sized_builder f
    /\ [(3, false); (5, false)]
       = [getSATLiteral ex_sized_input ex_sized_builder f (args ++ [y]) false true;
          getSATLiteral ex_sized_input ex_sized_builder f (args ++ [z]) false true].
Proof.
  apply (functionalDefs_exact ex_sized_input ex_sized_builder).
  - intros [|srt]; vm_compute; reflexivity.
  - intros f Hf _. simpl in Hf. destruct f as [|[|f]]; [| |lia];
      vm_compute; repeat constructor; intros H; discriminate H.
Defined.

(** X13. In SBMEAM mode, when the bounds of the arguments of every
    function that is not deleted are at least 1, [addNewTotalityDefs]
    hands to [addSATClause]
    exactly one kind of clause: for a function [f] that is not deleted and
    an argument tuple within the bounds, the disjunction of [f(args) = c]
    for every result value [c] up to the bound of the result sort,
    followed by the negative totality marker of the distinct sort of the
    result; and it hands on every such clause. *)
Theorem totalityDefs_sbmeam_exact (inp : Input) (st : FMB) (cl : SATClause) :
  _xmass inp = false ->
  (forall srt, rd (_sortModelSizes st) srt < U32.modulus) ->
  (forall f, (f < functions (signature inp))%nat -> rdb (del_f inp) f = false ->
     Forall (fun m => 1 <= m) (argumentBounds inp st f)) ->
  In cl (addNewTotalityDefs inp st) <->
  exists f args,
    (f < functions (signature inp))%nat /\ rdb (del_f inp) f = false
    /\ in_domain (argumentBounds inp st f) args
    /\ cl = map (fun c => getSATLiteral inp st f (args ++ [c]) true true)
              (zrange 1 (maxRtSrtSize inp st f))
            ++ [(U32.add (totalityMarker_offset st) (Z.of_nat (dRetSrt inp f)), false)].
Proof.
  intros Hx Hsizes Hpos.
  assert (Hver : forall d m, totality_versions inp d m = [m]).
  { intros d m. unfold totality_versions. rewrite Hx. simpl.
    rewrite zrange_cons by lia. now rewrite zrange_empty by lia. }
  assert (Hcl : forall f args,
            totality_clause inp st f args (dRetSrt inp f) (maxRtSrtSize inp st f)
              (maxRtSrtSize inp st f)
            = map (fun c => getSATLiteral inp st f (args ++ [c]) true true)
                (zrange 1 (maxRtSrtSize inp st f))
              ++ [(U32.add (totalityMarker_offset st) (Z.of_nat (dRetSrt inp f)), false)]).
  { intros f args. unfold totality_clause, totality_marker. now rewrite Hx. }
  split.
  - unfold addNewTotalityDefs. rewrite Hx. simpl. rewrite in_flat_map.
    intros (f & Hf & Hin). apply in_seq in Hf.
    destruct (rdb (del_f inp) f) eqn:Hdel; [destruct Hin|].
    unfold totalityDefs_of in Hin.
    fold (retSrt inp f) in Hin. fold (maxRtSrtSize inp st f) in Hin.
    fold (dRetSrt inp f) in Hin. fold (argumentBounds inp st f) in Hin.
    destruct (rdn (functionArity (signature inp)) f =? 0)%nat eqn:E.
    + apply Nat.eqb_eq in E.
      assert (Hd0 : rdn (parents (_sortedSignature inp))
                      (rdn (rdl (functionSignatures (_sortedSignature inp)) f) 0)
                    = dRetSrt inp f) by (unfold dRetSrt, retSrt; now rewrite E).
      assert (Hm0 : boundedSize inp st
                      (rdn (rdl (functionSignatures (_sortedSignature inp)) f) 0)
                    = maxRtSrtSize inp st f) by (unfold maxRtSrtSize, retSrt; now rewrite E).
      rewrite Hd0, Hm0, Hver in Hin. destruct Hin as [<-|[]].
      exists f, []. split; [lia|]. split; [assumption|]. split; [|apply Hcl].
      unfold argumentBounds. rewrite E. constructor.
    + apply Nat.eqb_neq in E.
      apply odometer_sound_domain in Hin as (g & Hg & Hin).
      * rewrite Hver in Hin. destruct Hin as [<-|[]].
        exists f, g. split; [lia|]. split; [assumption|]. split; [assumption|apply Hcl].
      * unfold argumentBounds.
        destruct (rdn (functionArity (signature inp)) f); [contradiction|discriminate].
      * apply Hpos; [lia|assumption].
      * apply (argumentBounds_fit inp st f Hsizes). lia.
  - intros (f & args & Hf & Hdel & Hargs & ->). rewrite <- Hcl.
    apply totality_version_emitted; try assumption.
    rewrite Hver. now left.
Qed.

Lemma totalityDefs_sbmeam_exact_witness :
  In [(4, true); (6, true); (9, false)] (addNewTotalityDefs ex_sized_input ex_sized_builder) <->
  exists f args,
    (f < functions (signature ex_sized_input))%nat /\ rdb (del_f ex_sized_input) f = false
    /\ in_domain (argumentBounds ex_sized_input ex_sized_builder f) args
    /\ [(4, true); (6, true); (9, false)]
       = map (fun c => getSATLiteral ex_sized_input ex_sized_builder f (args ++ [c]) true true)
           (zrange 1 (maxRtSrtSize ex_sized_input ex_sized_builder f))
         ++ [(U32.add (totalityMarker_offset ex_sized_builder)
                (Z.of_nat (dRetSrt ex_sized_input f)), false)].
Proof.
  apply (totalityDefs_sbmeam_exact ex_sized_input ex_sized_builder).
  - reflexivity.
  - intros [|srt]; vm_compute; reflexivity.
  - intros f Hf _. simpl in Hf. destruct f as [|[|f]]; [| |lia];
      vm_compute; repeat constructor; intros H; discriminate H.
Defined.

(** ** The instances and their estimate *)

Lemma odometer_nil {A} (body : list Z -> list A) : odometer [] body = [].
Proof. reflexivity. Qed.

Lemma length_zrange (lo hi : Z) : length (zrange lo hi) = Z.to_nat (hi - lo + 1).
Proof. unfold zrange. now rewrite length_map, length_seq. Qed.

Lemma length_flat_map_le {A B} (body : A -> list B) (l : list A) :
  (forall x, (length (body x) <= 1)%nat) -> (length (flat_map body l) <= length l)%nat.
Proof.
  intros Hb. induction l as [|x l IH]; simpl; [lia|].
  rewrite length_app. specialize (Hb x). lia.
Qed.

(** The loop hands on at most one clause per grounding. *)
Lemma length_odometer_le {A} (maxs : list Z) (body : list Z -> list A) :
  Forall (fun m => 1 <= m) maxs ->
  Forall (fun m => m < U32.modulus) maxs ->
  (forall g, (length (body g) <= 1)%nat) ->
  Z.of_nat (length (odometer maxs body)) <= product maxs.
Proof.
  intros Hpos Hfit Hb. destruct maxs as [|m ms].
  - rewrite odometer_nil. simpl. lia.
  - destruct (visited_spec (m :: ms)) as [_ Hr]; [discriminate|assumption|assumption|].
    rewrite odometer_visited.
    pose proof (length_flat_map_le body (visited (m :: ms)) Hb) as Hle.
    apply (f_equal (@length Z)) in Hr. rewrite length_map, length_zrange in Hr.
    pose proof (product_pos _ Hpos). lia.
Qed.

Lemma fold_mul_exact (F : nat -> Z) (l : list nat) :
  Forall (fun v => 1 <= F v) l ->
  forall acc, 1 <= acc -> acc * product (map F l) < U32.modulus ->
    fold_left (fun instances var => U32.mul instances (F var)) l acc
    = acc * product (map F l).
Proof.
  induction 1 as [|v l Hv Hl IH]; intros acc Hacc Hfit; simpl in *; [lia|].
  pose proof (product_pos (map F l) (proj2 (Forall_map _ _ _) Hl)) as Hp.
  assert (Hm : U32.mul acc (F v) = acc * F v).
  { unfold U32.mul. apply wrap_small. nia. }
  rewrite Hm, IH; [lia|nia|]. now rewrite <- Z.mul_assoc.
Qed.

Lemma clause_groundings_bounds (inp : Input) (st : FMB) (c : Clause) :
  clauses_sized inp st -> In c (_clauses inp) ->
  0 <= clause_groundings inp (_distinctSortSizes st) c.
Proof.
  intros Hs Hc. unfold clause_groundings. destruct (varSorts c) as [vs|] eqn:E; [|lia].
  assert (1 <= product (map (fun var =>
                 Z.min (rd (_distinctSortSizes st)
                          (rdn (parents (_sortedSignature inp)) (rdn vs var)))
                       (rd (sortBounds (_sortedSignature inp)) (rdn vs var)))
                 (seq 0 (varCnt c)))); [|lia].
  apply product_pos. apply Forall_map. apply Forall_forall. intros var Hvar.
  apply list_elem_of_In, in_seq in Hvar.
  destruct (Hs c vs Hc E var ltac:(lia)) as [Heq Hpos]. now rewrite <- Heq.
Qed.

Lemma sum_nonneg (l : list Z) : Forall (fun x => 0 <= x) l -> 0 <= sum l.
Proof. induction 1 as [|x l Hx _ IH]; [simpl; lia|]. rewrite sum_cons. lia. Qed.

(** X14. When the sizes of the sorts follow those of their distinct
    sorts, every clause variable ranges over at least one value and the
    count does not wrap around, [estimateInstanceCount] is the number of
    groundings of the clauses, and [addNewInstances] hands at most that
    many clauses to [addSATClause]. *)
Theorem instances_within_estimate (inp : Input) (st : FMB) :
  clauses_sized inp st ->
  (forall srt, rd (_sortModelSizes st) srt < U32.modulus) ->
  instanceCount inp (_distinctSortSizes st) < U32.modulus ->
  estimateInstanceCount inp (_distinctSortSizes st) = instanceCount inp (_distinctSortSizes st)
  /\ Z.of_nat (length (addNewInstances inp st))
     <= estimateInstanceCount inp (_distinctSortSizes st).
Proof.
  intros Hs Hsizes Hfit. unfold instanceCount in Hfit.
  assert (Hgen : forall cs acc,
            (forall c, In c cs -> In c (_clauses inp)) ->
            0 <= acc ->
            acc + sum (map (clause_groundings inp (_distinctSortSizes st)) cs) < U32.modulus ->
            fold_left (fun res c =>
              match varSorts c with
              | None => res
              | Some vs =>
                  U32.add res
                    (fold_left (fun instances var =>
                       let srt := rdn vs var in
                       U32.mul instances
                         (Z.min (rd (_distinctSortSizes st)
                                   (rdn (parents (_sortedSignature inp)) srt))
                                (rd (sortBounds (_sortedSignature inp)) srt)))
                       (seq 0 (varCnt c)) 1)
              end) cs acc
            = acc + sum (map (clause_groundings inp (_distinctSortSizes st)) cs)
            /\ Z.of_nat (length (flat_map (instances_of inp st) cs))
               <= sum (map (clause_groundings inp (_distinctSortSizes st)) cs)).
  { induction cs as [|c cs IH]; intros acc Hin Hacc Hsum.
    - simpl. split; lia.
    - cbn [fold_left map flat_map] in *. rewrite sum_cons in Hsum |- *.
      pose proof (clause_groundings_bounds inp st c Hs (Hin c (or_introl eq_refl))) as Hc0.
      assert (Hrest : 0 <= sum (map (clause_groundings inp (_distinctSortSizes st)) cs)).
      { apply sum_nonneg. apply Forall_map. apply Forall_forall. intros c' Hc'.
        apply clause_groundings_bounds; [assumption|].
        apply Hin. right. now apply list_elem_of_In. }
      rewrite length_app, Nat2Z.inj_add.
      destruct (varSorts c) as [vs|] eqn:E.
      + set (F := fun var =>
                    Z.min (rd (_distinctSortSizes st)
                             (rdn (parents (_sortedSignature inp)) (rdn vs var)))
                          (rd (sortBounds (_sortedSignature inp)) (rdn vs var))).
        assert (Hcg : clause_groundings inp (_distinctSortSizes st) c
                      = product (map F (seq 0 (varCnt c))))
          by (unfold clause_groundings; now rewrite E).
        assert (Hio : instances_of inp st c
                      = odometer (instances_maxVarSize inp st (varCnt c) vs)
                          (emitted_instance inp st c vs))
          by (unfold instances_of; now rewrite E).
        rewrite Hcg in *. rewrite Hio.
        assert (HF : Forall (fun v => 1 <= F v) (seq 0 (varCnt c))).
        { apply Forall_forall. intros var Hvar. apply list_elem_of_In, in_seq in Hvar.
          destruct (Hs c vs (Hin c (or_introl eq_refl)) E var ltac:(lia)) as [Heq Hpos].
          subst F. simpl. now rewrite <- Heq. }
        match goal with |- context [fold_left ?f0 (seq 0 (varCnt c)) 1] =>
          assert (Hinner : fold_left f0 (seq 0 (varCnt c)) 1
                           = product (map F (seq 0 (varCnt c))))
            by (etransitivity;
                [exact (fold_mul_exact F _ HF 1 ltac:(lia) ltac:(lia))|apply Z.mul_1_l]);
          rewrite Hinner
        end.
        assert (Ha : U32.add acc (product (map F (seq 0 (varCnt c))))
                     = acc + product (map F (seq 0 (varCnt c)))).
        { unfold U32.add. apply wrap_small. lia. }
        rewrite Ha.
        destruct (IH (acc + product (map F (seq 0 (varCnt c))))) as [IH1 IH2];
          [intros c' Hc'; apply Hin; now right|lia|lia|].
        split; [rewrite IH1; lia|].
        assert (Hmax : instances_maxVarSize inp st (varCnt c) vs = map F (seq 0 (varCnt c))).
        { unfold instances_maxVarSize. apply map_ext_in. intros var Hvar.
          apply in_seq in Hvar.
          destruct (Hs c vs (Hin c (or_introl eq_refl)) E var ltac:(lia)) as [Heq _].
          subst F. simpl. now rewrite Heq. }
        rewrite Hmax.
        assert (Z.of_nat (length (odometer (map F (seq 0 (varCnt c)))
                                    (emitted_instance inp st c vs)))
                <= product (map F (seq 0 (varCnt c)))); [|lia].
        apply length_odometer_le.
        * now apply Forall_map.
        * apply Forall_forall. intros m Hm. apply list_elem_of_In, in_map_iff in Hm
            as (var & <- & Hvar). apply in_seq in Hvar. subst F. simpl.
          pose proof (Hsizes (rdn vs var)).
          destruct (Hs c vs (Hin c (or_introl eq_refl)) E var ltac:(lia)) as [Heq _]. lia.
        * intros g. unfold emitted_instance. destruct (instance_of _ _ _ _ _); simpl; lia.
      + assert (Hcg : clause_groundings inp (_distinctSortSizes st) c = 0)
          by (unfold clause_groundings; now rewrite E).
        assert (Hio : instances_of inp st c = [])
          by (unfold instances_of; now rewrite E).
        rewrite Hcg in *. rewrite Hio.
        destruct (IH acc) as [IH1 IH2];
          [intros c' Hc'; apply Hin; now right|lia|lia|].
        split; [rewrite IH1; lia|]. simpl. lia. }
  destruct (Hgen (_clauses inp) 0 (fun c H => H) ltac:(lia) ltac:(lia)) as [H1 H2].
  assert (E : estimateInstanceCount inp (_distinctSortSizes st)
              = instanceCount inp (_distinctSortSizes st)).
  { unfold instanceCount.
    rewrite <- (Z.add_0_l (sum (map (clause_groundings inp (_distinctSortSizes st))
                                  (_clauses inp)))).
    exact H1. }
  split; [exact E|]. rewrite E. exact H2.
Qed.

(** The clause [f1(X0) = X1 \/ p1(X1)] at size 2: four groundings, four
    instances. *)
Lemma instances_within_estimate_witness :
  estimateInstanceCount ex_clausal_input
    (_distinctSortSizes (fst (reset ex_clausal_input (ex_builder 2))))
  = instanceCount ex_clausal_input
      (_distinctSortSizes (fst (reset ex_clausal_input (ex_builder 2))))
  /\ Z.of_nat (length (addNewInstances ex_clausal_input
                         (fst (reset ex_clausal_input (ex_builder 2)))))
     <= estimateInstanceCount ex_clausal_input
          (_distinctSortSizes (fst (reset ex_clausal_input (ex_builder 2)))).
Proof.
  apply (instances_within_estimate ex_clausal_input
           (fst (reset ex_clausal_input (ex_builder 2)))).
  - intros c vs [<-|[]] [= <-] var Hvar. simpl in Hvar.
    destruct var as [|[|var]]; [| |lia]; vm_compute;
      (split; [reflexivity|intros H; discriminate H]).
  - intros [|srt]; vm_compute; reflexivity.
  - vm_compute. reflexivity.
Defined.

(** ** The driver: what a result rests on *)

Section DriverResults.

Variable which_sort : FMB -> Z -> nat.
Variable removeDuplicateLiterals : SATClause -> option SATClause.
Variable heap_top : list Constraint_Generator -> nat.
Variable dsa_init : Input -> list Z -> HackyDSAE -> bool * HackyDSAE.
Variable isFmbComplete : HackyDSAE -> nat -> bool.
Variable addNewSymmetryAxioms : Input -> FMB -> list SATClause.
Variable solver : list Event -> SATStatus.
Variable timeLimitReached : list Event -> bool.

Lemma main_loop_grounded (inp : Input) :
  forall fuel r res r',
    main_loop which_sort removeDuplicateLiterals heap_top isFmbComplete
      addNewSymmetryAxioms solver timeLimitReached fuel inp r = Some (res, r') ->
    result_grounded removeDuplicateLiterals addNewSymmetryAxioms solver timeLimitReached
      inp res r'.
Proof.
  induction fuel as [|k IH]; intros r res r'; [discriminate|].
  cbn [main_loop].
  destruct (timeLimitReached (trace (builder r))) eqn:Et.
  { intros [= <- <-]. unfold result_grounded. simpl. now split. }
  set (solved := before_solve removeDuplicateLiterals addNewSymmetryAxioms inp (builder r)).
  destruct (solver (trace solved)) as [assignment|failed] eqn:Es.
  { intros [= <- <-]. unfold result_grounded. simpl.
    exists (builder r), assignment. fold solved. now repeat split. }
  assert (Hfin : forall res0 dsizes e alt,
            res0 = model_not_found \/ res0 = result REFUTATION_NOT_FOUND ->
            result_grounded removeDuplicateLiterals addNewSymmetryAxioms solver
              timeLimitReached inp res0
              {| builder := with_sizes (with_clauses solved [])
                              (_sortModelSizes (with_clauses solved [])) dsizes;
                 _dsaEnumerator := e; alternator := alt |}).
  { intros res0 dsizes e alt [-> | ->]; unfold result_grounded; simpl; [|reflexivity].
    exists (builder r), failed. now split. }
  assert (Hnew : forall dsizes e alt,
            (let st := with_sizes (with_clauses solved []) (sortModelSizes_of inp dsizes)
                         dsizes in
             let '(st, ok) := reset inp st in
             let r1 := {| builder := st; _dsaEnumerator := e; alternator := alt |} in
             if ok
             then main_loop which_sort removeDuplicateLiterals heap_top isFmbComplete
                    addNewSymmetryAxioms solver timeLimitReached k inp r1
             else Some (result REFUTATION_NOT_FOUND, r1)) = Some (res, r') ->
            result_grounded removeDuplicateLiterals addNewSymmetryAxioms solver
              timeLimitReached inp res r').
  { intros dsizes e alt. cbv zeta.
    destruct (reset inp _) as [st1 []]; [apply IH|].
    intros [= <- <-]. reflexivity. }
  destruct (_xmass inp).
  - unfold contour_grow.
    destruct (contour_choice which_sort inp (with_clauses solved []) _ failed) as [d w].
    destruct (w <? U32.UINT_MAX).
    + destruct (sort_constraints_fixpoint k inp _) as [dsizes|]; [|discriminate].
      apply Hnew.
    + intros [= <- <-]. apply Hfin. now left.
  - unfold sbmeam_grow.
    destruct (increaseModelSizes heap_top k inp _ _ _) as [[[[] dsizes] e]|];
      [apply Hnew| |discriminate].
    destruct (isFmbComplete e (length dsizes)); intros [= <- <-]; apply Hfin; auto.
Qed.

End DriverResults.

(** X15. What [runImpl] returns is grounded in what happened. It answers
    INAPPROPRIATE only for a problem that is not appropriate, and then
    touches nothing. On a problem with units it answers SATISFIABLE only
    after the SAT solver answered SATISFIABLE on the clauses built from
    some builder state, leaving the builder as that call left it (sizes
    retracted in CONTOUR mode); it answers REFUTATION only after the
    solver answered UNSATISFIABLE, and always with the empty clause of
    rule MODEL_NOT_FOUND; it answers TIME_LIMIT only when the clock says
    so; and REFUTATION_NOT_FOUND carries no clause. *)
Theorem runImpl_result_grounded
    (which_sort : FMB -> Z -> nat)
    (removeDuplicateLiterals : SATClause -> option SATClause)
    (heap_top : list Constraint_Generator -> nat)
    (dsa_init : Input -> list Z -> HackyDSAE -> bool * HackyDSAE)
    (isFmbComplete : HackyDSAE -> nat -> bool)
    (addNewSymmetryAxioms : Input -> FMB -> list SATClause)
    (solver : list Event -> SATStatus) (timeLimitReached : list Event -> bool)
    (fuel : nat) (inp : Input) (r : Run) :
  match runImpl which_sort removeDuplicateLiterals heap_top dsa_init isFmbComplete
          addNewSymmetryAxioms solver timeLimitReached fuel inp r with
  | None => True
  | Some (res, r') =>
      if negb (_isAppropriate inp) then res = result INAPPROPRIATE /\ r' = r
      else
        match units inp with
        | [] => res = result SATISFIABLE /\ r' = r
        | _ :: _ =>
            result_grounded removeDuplicateLiterals addNewSymmetryAxioms solver
              timeLimitReached inp res r'
        end
  end.
Proof.
  unfold runImpl.
  destruct (negb (_isAppropriate inp)); [now split|].
  destruct (units inp) as [|u us]; [now split|].
  destruct (if _xmass inp then _ else _) as [[] e].
  - destruct (reset inp _) as [st1 []].
    + destruct (main_loop _ _ _ _ _ _ _ fuel inp _) as [[res r']|] eqn:E; [|exact I].
      now apply main_loop_grounded in E.
    + reflexivity.
  - reflexivity.
Qed.

(** ** The assumptions are markers *)

Lemma reset_markers_laid_out (var_max : Z) (dsizes : list Z) (idxs : list nat) :
  var_max < U32.modulus ->
  NoDup idxs ->
  (forall i, 0 <= rd dsizes i) ->
  forall offsets mo,
    (forall i, In i idxs -> (i < length mo)%nat) ->
    0 <= offsets ->
    offsets + blocksTotal (rd dsizes) [] idxs <= var_max ->
    exists mo',
      reset_markers var_max dsizes idxs offsets mo
      = (mo', Some (offsets + blocksTotal (rd dsizes) [] idxs))
      /\ length mo' = length mo
      /\ (forall i, ~ In i idxs -> rd mo' i = rd mo i)
      /\ laid_out mo' (rd dsizes) [] idxs offsets.
Proof.
  intros Hvm Hnd Hnn. induction idxs as [|i idxs IH]; intros offsets mo Hlen Ho Hfit.
  - exists mo. simpl. rewrite Z.add_0_r. repeat split; auto.
  - inversion Hnd as [|? ? Hnotin Hnd']; subst.
    assert (Hrest : 0 <= blocksTotal (rd dsizes) [] idxs).
    { apply blocksTotal_nonneg. intros j _ _. apply Hnn. }
    pose proof (Hnn i) as Hi.
    change (blocksTotal (rd dsizes) [] (i :: idxs))
      with (rd dsizes i + blocksTotal (rd dsizes) [] idxs) in *.
    cbn [reset_markers]. rewrite advance_exact by lia.
    destruct (IH Hnd' (offsets + rd dsizes i) (<[i := offsets]> mo))
      as (mo' & E & Hl & Hout & Hlay);
      [intros j Hj; rewrite length_insert; apply Hlen; now right|lia|lia|].
    exists mo'. rewrite E. rewrite length_insert in Hl.
    split; [do 2 f_equal; lia|]. split; [assumption|]. split.
    + intros j Hj. rewrite Hout by (intros Hin; apply Hj; now right).
      apply rd_insert_ne. intros ->. apply Hj. now left.
    + change (laid_out mo' (rd dsizes) [] (i :: idxs) offsets)
        with (rd mo' i = offsets /\ laid_out mo' (rd dsizes) [] idxs (offsets + rd dsizes i)).
      split; [|assumption].
      rewrite Hout by (now rewrite <- list_elem_of_In).
      apply rd_insert_eq. apply Hlen. now left.
Qed.

Lemma markerCount_blocksTotal (inp : Input) (st : FMB) :
  _xmass inp = true ->
  markerCount inp st
  = blocksTotal (rd (_distinctSortSizes st)) [] (seq 0 (length (_distinctSortSizes st))).
Proof. intros Hx. unfold markerCount. now rewrite Hx. Qed.

(** Where [reset] puts the markers when the variables fit. *)
Lemma reset_marker_offsets (inp : Input) (st : FMB) :
  Encodable inp st ->
  if _xmass inp
  then laid_out (marker_offsets (fst (reset inp st))) (rd (_distinctSortSizes st)) []
         (seq 0 (length (_distinctSortSizes st))) (symbolsEnd inp st)
  else totalityMarker_offset (fst (reset inp st)) = symbolsEnd inp st
       /\ instancesMarker_offset (fst (reset inp st))
          = symbolsEnd inp st + Z.of_nat (length (_distinctSortSizes st)).
Proof.
  intros Henc. pose proof Henc as (Hlf & Hlp & Hpos & Hne & Hnn & Hfit & Hvm).
  pose proof (markerCount_nonneg inp st Henc) as Hmc.
  pose proof (blocksTotal_nonneg _ _ _ (blocks_nonneg inp st Henc true)) as HnF.
  pose proof (blocksTotal_nonneg _ _ _ (blocks_nonneg inp st Henc false)) as HnP.
  assert (HFE : 1 <= functionsEnd inp st) by (unfold functionsEnd; lia).
  assert (Hse : functionsEnd inp st <= symbolsEnd inp st) by (unfold symbolsEnd; lia).
  destruct (offsets_loop_exact (VAR_MAX inp) (f_add inp st) (symbolDel inp true)
              (blockSize inp st true) (symbolSyms inp true) Hvm) with (offsets := 1)
    (offs := f_offsets st) as (fo & EF & _).
  { apply NoDup_seq. }
  { intros f Hin Hd. split; [|now apply (blocks_nonneg inp st Henc true)].
    apply (f_add_exact inp st Henc). apply (is_symbol_syms inp true). now split. }
  { intros f Hin. apply in_seq in Hin. lia. }
  { lia. }
  { fold (functionsEnd inp st). lia. }
  destruct (offsets_loop_exact (VAR_MAX inp) (p_add inp st) (symbolDel inp false)
              (blockSize inp st false) (symbolSyms inp false) Hvm)
    with (offsets := functionsEnd inp st)
    (offs := p_offsets st) as (po & EP & _).
  { apply NoDup_seq. }
  { intros p Hin Hd. split; [|now apply (blocks_nonneg inp st Henc false)].
    apply (p_add_exact inp st Henc). apply (is_symbol_syms inp false). now split. }
  { intros p Hin. apply in_seq in Hin. lia. }
  { lia. }
  { fold (symbolsEnd inp st). lia. }
  fold (functionsEnd inp st) in EF. fold (symbolsEnd inp st) in EP.
  unfold reset, reset_functions, reset_predicates.
  change (seq 0 (functions (signature inp))) with (symbolSyms inp true).
  change (seq 1 (predicates (signature inp) - 1)) with (symbolSyms inp false).
  change (del_f inp) with (symbolDel inp true).
  change (del_p inp) with (symbolDel inp false).
  rewrite EF, EP.
  destruct (_xmass inp) eqn:Hx.
  - rewrite (markerCount_blocksTotal inp st Hx) in Hfit, Hmc.
    destruct (reset_markers_laid_out (VAR_MAX inp) (_distinctSortSizes st)
                (seq 0 (length (_distinctSortSizes st))) Hvm (NoDup_seq _ _) Hnn
                (symbolsEnd inp st)
                (resize (length (_distinctSortSizes st)) 0 (marker_offsets st)))
      as (mo & EM & _ & _ & Hlay); [|lia|lia|].
    { intros i Hi. apply in_seq in Hi. rewrite length_resize. lia. }
    rewrite EM. exact Hlay.
  - unfold markerCount in Hfit. rewrite Hx in Hfit.
    rewrite advance_exact by lia. rewrite advance_exact by lia.
    simpl. now split.
Qed.

(** X16. The assumptions of the solver call are markers. After a [reset]
    whose variables fit, with every distinct sort of size at least 1,
    every assumption pushed by [runImpl] is a variable of the marker
    region, between the end of the symbol blocks and [_curMaxVar], with
    the polarity of the mode (negative in CONTOUR, positive in SBMEAM); it
    is the variable of no symbol at any tuple. *)
Theorem assumptions_are_markers (inp : Input) (st : FMB) (l : SATLiteral) :
  Encodable inp st ->
  (forall i, (i < length (_distinctSortSizes st))%nat -> 1 <= rd (_distinctSortSizes st) i) ->
  In l (assumptions inp (fst (reset inp st))) ->
  symbolsEnd inp st <= fst l <= _curMaxVar (fst (reset inp st))
  /\ snd l = negb (_xmass inp)
  /\ forall isFunction f tuple,
       is_symbol inp isFunction f -> is_tuple inp st isFunction f tuple ->
       varId inp (fst (reset inp st)) isFunction f tuple <> fst l.
Proof.
  intros Henc Hsz Hl.
  pose proof (reset_marker_offsets inp st Henc) as Hmo.
  destruct (reset_exact inp st Henc) as (_ & _ & _ & Hcur).
  pose proof Henc as (_ & _ & _ & _ & Hnn & Hfit & Hvm).
  pose proof (ends_ordered inp st Henc) as [[HFE Hse] _].
  assert (Hregion : symbolsEnd inp st <= fst l <= _curMaxVar (fst (reset inp st))
                    /\ snd l = negb (_xmass inp)).
  { unfold assumptions in Hl. rewrite (proj2 (reset_sizes inp st)) in Hl. rewrite Hcur.
    destruct (_xmass inp) eqn:Hx.
    - apply in_map_iff in Hl as (i & <- & Hi). apply in_seq in Hi. simpl.
      rewrite (markerCount_blocksTotal inp st Hx) in Hfit |- *.
      destruct (laid_out_range _ (rd (_distinctSortSizes st)) [] _
                  (fun j _ _ => Hnn j) _ Hmo i) as [Hlo Hhi];
        [apply in_seq; lia|reflexivity|].
      specialize (Hsz i ltac:(lia)).
      unfold U32.sub, U32.add. rewrite (wrap_small (_ + _)) by lia.
      rewrite wrap_small by lia. split; [lia|reflexivity].
    - destruct Hmo as [Ht Hi]. unfold markerCount in Hfit |- *. rewrite Hx in Hfit |- *.
      rewrite Ht, Hi in Hl.
      apply in_app_or in Hl as [Hl|Hl];
        apply in_map_iff in Hl as (i & <- & Hin); apply in_seq in Hin; simpl;
        unfold U32.add; rewrite wrap_small by lia; (split; [lia|reflexivity]). }
  split; [apply Hregion|]. split; [apply Hregion|].
  intros isF f tuple Hs Ht E.
  pose proof (varId_below_markers inp st Henc isF f tuple Hs Ht). lia.
Qed.

(** The small problem in SBMEAM mode at size 2: the assumption of the
    totality marker, variable 9. *)
Lemma assumptions_are_markers_witness :
  symbolsEnd ex_sized_input (ex_builder 2) <= fst (9, true)
    <= _curMaxVar (fst (reset ex_sized_input (ex_builder 2)))
  /\ snd (9, true) = negb (_xmass ex_sized_input)
  /\ forall isFunction f tuple,
       is_symbol ex_sized_input isFunction f ->
       is_tuple ex_sized_input (ex_builder 2) isFunction f tuple ->
       varId ex_sized_input (fst (reset ex_sized_input (ex_builder 2))) isFunction f tuple
       <> fst (9, true).
Proof.
  apply (assumptions_are_markers ex_sized_input (ex_builder 2) (9, true)).
  - exact ex_encodable_2.
  - intros [|i] Hi; [|simpl in Hi; lia]. vm_compute. intros H; discriminate H.
  - vm_compute. left. reflexivity.
Defined.

(** ** CONTOUR: every step grows *)

(** X17. A CONTOUR growth step makes progress: when the sort of every
    failed assumption exists and no size has reached [UINT_MAX], the new
    size vector has the same length, no sort is smaller than before, and
    the sort that was chosen is strictly larger. *)
Theorem contour_grow_strict (which_sort : FMB -> Z -> nat) (fuel : nat) (inp : Input)
    (st : FMB) (alt : Z) (failed : list SATLiteral) (e e' : HackyDSAE) (dsizes' : list Z) :
  (forall lit, In lit failed ->
     (which_sort st (fst lit) < length (_distinctSortSizes st))%nat) ->
  (forall s, 0 <= rd (_distinctSortSizes st) s < U32.UINT_MAX) ->
  contour_grow which_sort fuel inp st alt failed e = NewSizes dsizes' e' ->
  length dsizes' = length (_distinctSortSizes st)
  /\ (forall s, rd (_distinctSortSizes st) s <= rd dsizes' s)
  /\ exists lit, In lit failed
       /\ rd (_distinctSortSizes st) (which_sort st (fst lit))
          < rd dsizes' (which_sort st (fst lit)).
Proof.
  intros Hsort Hsz H.
  pose proof (contour_grow_choice_aux which_sort fuel inp st alt failed e) as Hc.
  rewrite H in Hc. destruct Hc as (lit & Hl & Hfix).
  set (d := which_sort st (fst lit)) in *.
  apply sort_constraints_fixpoint_least in Hfix as (Hlen & Hmono & _).
  rewrite length_insert in Hlen.
  assert (Hadd : U32.add (rd (_distinctSortSizes st) d) 1 = rd (_distinctSortSizes st) d + 1).
  { unfold U32.add. apply wrap_small. pose proof (Hsz d). unfold U32.UINT_MAX in *. lia. }
  split; [assumption|]. split.
  - intros s. specialize (Hmono s). rewrite rd_insert in Hmono.
    destruct (decide _) as [[<- _]|_]; lia.
  - exists lit. split; [assumption|]. specialize (Hmono d).
    rewrite rd_insert_eq in Hmono by (now apply Hsort). fold d. lia.
Qed.

(** Growing sort 1 of two sorts at size 1 under [size[0] >= size[1]]. *)
Lemma contour_grow_strict_witness :
  length [2; 2] = length (_distinctSortSizes (ex2_builder [1; 1]))
  /\ (forall s, rd (_distinctSortSizes (ex2_builder [1; 1])) s <= rd [2; 2] s)
  /\ exists lit, In lit [(5, false)]
       /\ rd (_distinctSortSizes (ex2_builder [1; 1])) ((fun _ _ => 1%nat) (ex2_builder [1; 1]) (fst lit))
          < rd [2; 2] ((fun _ _ => 1%nat) (ex2_builder [1; 1]) (fst lit)).
Proof.
  apply (contour_grow_strict (fun _ _ => 1%nat) 4
           (ex2_input 1 [1; 1] [5; 5] [(0%nat, 1%nat)] []) (ex2_builder [1; 1]) 1
           [(5, false)] ex_enumerator ex_enumerator [2; 2]).
  - intros lit _. simpl. lia.
  - intros [|[|s]]; vm_compute; (split; [intros H; discriminate H|reflexivity]).
  - vm_compute. reflexivity.
Defined.

(** ** [onModelFound]: the model is a function *)

Section Model.

Variable removeDuplicateLiterals : SATClause -> option SATClause.
Variable addNewSymmetryAxioms : Input -> FMB -> list SATClause.
Variable inp : Input.
Variable st : FMB.
Variable a : Z -> bool.

Hypothesis Hrdl : removeDuplicateLiterals_ok removeDuplicateLiterals.
Hypothesis Hsat : forall cl,
  In cl (_clausesToBeAdded (encode removeDuplicateLiterals addNewSymmetryAxioms inp st)) ->
  sat_clause a cl = true.
Hypothesis Hass : forall l, In l (assumptions inp st) -> sat_literal a l = true.
Hypothesis Hsizes : forall srt, rd (_sortModelSizes st) srt < U32.modulus.

Variable f : nat.
Variable args : list Z.
Hypothesis Hf : (f < functions (signature inp))%nat.
Hypothesis Hdel : rdb (del_f inp) f = false.
Hypothesis Hd : (dRetSrt inp f < length (_distinctSortSizes st))%nat.
Hypothesis Hret : 1 <= maxRtSrtSize inp st f.
Hypothesis Hargs : in_domain (argumentBounds inp st f) args.

(** Some result value of [f] at [args] is true. *)
Lemma result_at_least_one :
  exists r, 1 <= r <= maxRtSrtSize inp st f /\ a (varId inp st true f (args ++ [r])) = true.
Proof.
  pose proof (totality_clause_emitted inp st f args Hsizes Hf Hdel Hret Hargs) as Hin.
  pose proof (totality_marker_false inp st (dRetSrt inp f) (maxRtSrtSize inp st f) a Hd Hass)
    as Hm.
  destruct (emitted_clause_true removeDuplicateLiterals addNewSymmetryAxioms inp st a
              Hrdl Hsat _ (or_intror Hin)) as [(l & Hl & Hal)|(v & Hpos & Hneg)].
  - apply in_totality_clause in Hl as [(r & Hr & ->)| ->].
    + exists r. split; [assumption|exact Hal].
    + rewrite Hm in Hal. now destruct (snd (totality_marker _ _ _ _ _)).
  - apply in_totality_clause in Hpos as [(r & Hr & Er)|Er];
      apply in_totality_clause in Hneg as [(r' & Hr' & Er')|Er']; try discriminate Er'.
    + exists r. split; [assumption|].
      unfold varId. rewrite <- Er. rewrite <- Er' in Hm. exact Hm.
    + rewrite <- Er in Er'. discriminate Er'.
Qed.

(** Exactly one result value of [f] at [args] is true. *)
Lemma result_unique :
  exists r, 1 <= r <= maxRtSrtSize inp st f
    /\ forall c, 1 <= c <= maxRtSrtSize inp st f ->
         (a (varId inp st true f (args ++ [c])) = true <-> c = r).
Proof.
  destruct result_at_least_one as (r & Hr & Har). exists r. split; [assumption|].
  intros c Hc. split; [|now intros ->]. intros Hac.
  destruct (Z.lt_trichotomy c r) as [Hlt|[Heq|Hgt]]; [exfalso|assumption|exfalso].
  - apply (functional_at_most_one removeDuplicateLiterals addNewSymmetryAxioms inp st a
             Hrdl Hsat f args c r Hsizes Hf Hdel Hargs); [lia|assumption|lia|assumption|assumption].
  - apply (functional_at_most_one removeDuplicateLiterals addNewSymmetryAxioms inp st a
             Hrdl Hsat f args r c Hsizes Hf Hdel Hargs); [lia|assumption|lia|assumption|assumption].
Qed.

End Model.

Lemma in_recorded_values (a : Z -> bool) (lit : Z -> SATLiteral) (mk : Z -> ModelDefinition)
    (m : Z) (entry : ModelDefinition) :
  In entry (flat_map (fun c => if trueInAssignment a (lit c) then [mk c] else [])
              (zrange 1 m))
  <-> exists c, 1 <= c <= m /\ trueInAssignment a (lit c) = true /\ entry = mk c.
Proof.
  rewrite in_flat_map. split.
  - intros (c & Hc & Hin). apply in_zrange in Hc.
    destruct (trueInAssignment a (lit c)) eqn:E; [|destruct Hin].
    destruct Hin as [<-|[]]. now exists c.
  - intros (c & Hc & E & ->). exists c. split; [now apply in_zrange|].
    rewrite E. now left.
Qed.

(** X18. The interpretation of a function recorded by [onModelFound].
    For an assignment that satisfies the clauses built for the current
    sizes and the assumptions of the solver call, every function [f] of
    arity at least 1 that is not deleted gets, at every argument tuple
    within the bounds, exactly one [addFunctionDefinition]: that of the
    one result value whose variable is true. *)
Theorem recordFunctions_functional
    (removeDuplicateLiterals : SATClause -> option SATClause)
    (addNewSymmetryAxioms : Input -> FMB -> list SATClause)
    (inp : Input) (st : FMB) (a : Z -> bool) (f : nat) (args : list Z) :
  removeDuplicateLiterals_ok removeDuplicateLiterals ->
  (forall cl,
     In cl (_clausesToBeAdded (encode removeDuplicateLiterals addNewSymmetryAxioms inp st)) ->
     sat_clause a cl = true) ->
  (forall l, In l (assumptions inp st) -> sat_literal a l = true) ->
  (forall srt, rd (_sortModelSizes st) srt < U32.modulus) ->
  (f < functions (signature inp))%nat ->
  rdb (del_f inp) f = false ->
  rdn (functionArity (signature inp)) f <> 0%nat ->
  (dRetSrt inp f < length (_distinctSortSizes st))%nat ->
  1 <= maxRtSrtSize inp st f ->
  in_domain (argumentBounds inp st f) args ->
  exists r,
    1 <= r <= maxRtSrtSize inp st f
    /\ a (varId inp st true f (args ++ [r])) = true
    /\ forall c, In (FunctionDefinition f args c) (recordFunctions inp st a) <-> c = r.
Proof.
  intros Hrdl Hsat Hass Hsizes Hf Hdel Har Hd Hret Hargs.
  destruct (result_unique removeDuplicateLiterals addNewSymmetryAxioms inp st a
              Hrdl Hsat Hass Hsizes f args Hf Hdel Hd Hret Hargs) as (r & Hr & Huniq).
  exists r. split; [assumption|]. split; [now apply Huniq|].
  assert (Hbody : forall f' g c,
            In (FunctionDefinition f args c)
              (flat_map (fun c' =>
                 if trueInAssignment a (getSATLiteral inp st f' (g ++ [c']) true true)
                 then [FunctionDefinition f' g c'] else [])
                 (zrange 1 (maxRtSrtSize inp st f')))
            <-> f' = f /\ g = args /\ 1 <= c <= maxRtSrtSize inp st f
                /\ a (varId inp st true f (args ++ [c])) = true).
  { intros f' g c.
    rewrite (in_recorded_values a (fun c' => getSATLiteral inp st f' (g ++ [c']) true true)
               (FunctionDefinition f' g)).
    split.
    - intros (c' & Hc' & E & [= <- <- <-]). repeat split; try assumption; try lia.
      unfold trueInAssignment, sat_literal in E. simpl in E. now apply eqb_prop in E.
    - intros (-> & -> & Hc & E). exists c. repeat split; try assumption; try lia.
      unfold trueInAssignment, sat_literal. simpl. unfold varId in E. simpl in E.
      now rewrite E. }
  pose proof (in_domain_sizes _ _ Hargs) as Hpos.
  pose proof (argumentBounds_fit inp st f Hsizes Hf) as Hfit.
  intros c. unfold recordFunctions. rewrite in_flat_map. split.
  - intros (f' & Hf' & Hin).
    destruct (rdn (functionArity (signature inp)) f' =? 0)%nat eqn:E0; [destruct Hin|].
    destruct (rdb (del_f inp) f'); [destruct Hin|].
    apply odometer_sound in Hin as (g & Hin).
    change (Z.min (rd (sortBounds (_sortedSignature inp))
                     (rdn (rdl (functionSignatures (_sortedSignature inp)) f')
                        (rdn (functionArity (signature inp)) f')))
                  (rd (_sortModelSizes st)
                     (rdn (rdl (functionSignatures (_sortedSignature inp)) f')
                        (rdn (functionArity (signature inp)) f'))))
      with (maxRtSrtSize inp st f') in Hin.
    apply Hbody in Hin as (-> & -> & Hc & Hac). now apply Huniq.
  - intros ->. exists f. split; [apply in_seq; lia|].
    apply Nat.eqb_neq in Har. rewrite Har, Hdel.
    apply (odometer_complete _ _ args).
    + unfold argumentBounds in Hargs.
      destruct (rdn (functionArity (signature inp)) f);
        [now apply Nat.eqb_neq in Har|discriminate].
    + exact Hfit.
    + exact Hargs.
    + apply (Hbody f args r). split; [reflexivity|]. split; [reflexivity|].
      split; [assumption|]. now apply Huniq.
Qed.

(** The small problem at size 2 in SBMEAM mode, [f1] at the argument 2. *)
Lemma recordFunctions_functional_witness :
  exists r,
    1 <= r <= maxRtSrtSize ex_sized_input ex_sized_builder 1
    /\ ex_assignment (varId ex_sized_input ex_sized_builder true 1 ([2] ++ [r])) = true
    /\ forall c,
         In (FunctionDefinition 1 [2] c)
            (recordFunctions ex_sized_input ex_sized_builder ex_assignment) <-> c = r.
Proof.
  apply (recordFunctions_functional ex_removeDuplicateLiterals ex_symmetry
           ex_sized_input ex_sized_builder ex_assignment 1 [2]).
  - intros cl l. reflexivity.
  - intros cl Hcl. vm_compute in Hcl.
    repeat (destruct Hcl as [<-|Hcl]; [reflexivity|]). destruct Hcl.
  - intros l Hl. vm_compute in Hl.
    repeat (destruct Hl as [<-|Hl]; [reflexivity|]). destruct Hl.
  - intros [|srt]; vm_compute; reflexivity.
  - cbv. lia.
  - reflexivity.
  - discriminate.
  - cbv. lia.
  - vm_compute. intros H. discriminate H.
  - constructor; [|constructor]. vm_compute. split; intros H; discriminate H.
Defined.

(** X19. The interpretation of a constant recorded by [onModelFound].
    For an assignment that satisfies the clauses built for the current
    sizes and the assumptions of the solver call, a constant that is not
    deleted and whose sort is not bounded below its size gets exactly one
    [addConstantDefinition]: that of the one value whose variable is
    true. *)
Theorem recordConstants_functional
    (removeDuplicateLiterals : SATClause -> option SATClause)
    (addNewSymmetryAxioms : Input -> FMB -> list SATClause)
    (inp : Input) (st : FMB) (a : Z -> bool) (f : nat) :
  removeDuplicateLiterals_ok removeDuplicateLiterals ->
  (forall cl,
     In cl (_clausesToBeAdded (encode removeDuplicateLiterals addNewSymmetryAxioms inp st)) ->
     sat_clause a cl = true) ->
  (forall l, In l (assumptions inp st) -> sat_literal a l = true) ->
  (forall srt, rd (_sortModelSizes st) srt < U32.modulus) ->
  (f < functions (signature inp))%nat ->
  rdb (del_f inp) f = false ->
  rdn (functionArity (signature inp)) f = 0%nat ->
  (dRetSrt inp f < length (_distinctSortSizes st))%nat ->
  1 <= rd (_sortModelSizes st) (retSrt inp f)
    <= rd (sortBounds (_sortedSignature inp)) (retSrt inp f) ->
  exists r,
    1 <= r <= rd (_sortModelSizes st) (retSrt inp f)
    /\ a (varId inp st true f [r]) = true
    /\ forall c, In (ConstantDefinition f c) (recordConstants inp st a) <-> c = r.
Proof.
  intros Hrdl Hsat Hass Hsizes Hf Hdel Har Hd Hsz.
  assert (Hmax : maxRtSrtSize inp st f = rd (_sortModelSizes st) (retSrt inp f)).
  { unfold maxRtSrtSize, boundedSize. lia. }
  assert (Hargs : in_domain (argumentBounds inp st f) []).
  { unfold argumentBounds. rewrite Har. constructor. }
  destruct (result_unique removeDuplicateLiterals addNewSymmetryAxioms inp st a
              Hrdl Hsat Hass Hsizes f [] Hf Hdel Hd ltac:(lia) Hargs) as (r & Hr & Huniq).
  rewrite Hmax in Hr, Huniq. simpl app in Huniq.
  exists r. split; [assumption|]. split; [now apply Huniq|].
  assert (Hsrt : rdn (rdl (functionSignatures (_sortedSignature inp)) f) 0 = retSrt inp f)
    by (unfold retSrt; now rewrite Har).
  intros c. unfold recordConstants. rewrite in_flat_map. split.
  - intros (f' & Hf' & Hin).
    destruct (0 <? rdn (functionArity (signature inp)) f')%nat; [destruct Hin|].
    destruct (rdb (del_f inp) f'); [destruct Hin|].
    apply (in_recorded_values a (fun c' => getSATLiteral inp st f' [c'] true true)
             (ConstantDefinition f')) in Hin as (c' & Hc' & E & [= <- <-]).
    rewrite Hsrt in Hc'. apply Huniq; [assumption|].
    unfold trueInAssignment, sat_literal in E. simpl in E. now apply eqb_prop in E.
  - intros ->. exists f. split; [apply in_seq; lia|].
    rewrite Har, Hdel. simpl.
    apply (in_recorded_values a (fun c' => getSATLiteral inp st f [c'] true true)
             (ConstantDefinition f)).
    exists r. rewrite Hsrt. split; [assumption|]. split; [|reflexivity].
    unfold trueInAssignment, sat_literal. simpl.
    assert (E : a (varId inp st true f [r]) = true) by now apply Huniq.
    unfold varId in E. simpl in E. now rewrite E.
Qed.

(** The constant [f0] of the small problem at size 2. *)
Lemma recordConstants_functional_witness :
  exists r,
    1 <= r <= rd (_sortModelSizes ex_sized_builder) (retSrt ex_sized_input 0)
    /\ ex_assignment (varId ex_sized_input ex_sized_builder true 0 [r]) = true
    /\ forall c,
         In (ConstantDefinition 0 c)
            (recordConstants ex_sized_input ex_sized_builder ex_assignment) <-> c = r.
Proof.
  apply (recordConstants_functional ex_removeDuplicateLiterals ex_symmetry
           ex_sized_input ex_sized_builder ex_assignment 0).
  - intros cl l. reflexivity.
  - intros cl Hcl. vm_compute in Hcl.
    repeat (destruct Hcl as [<-|Hcl]; [reflexivity|]). destruct Hcl.
  - intros l Hl. vm_compute in Hl.
    repeat (destruct Hl as [<-|Hl]; [reflexivity|]). destruct Hl.
  - intros [|srt]; vm_compute; reflexivity.
  - cbv. lia.
  - reflexivity.
  - reflexivity.
  - cbv. lia.
  - vm_compute. split; intros H; discriminate H.
Defined.

(** ** The two enumerators agree on what a no-good excludes *)

Lemma existsb_flat_map {A B} (p : B -> bool) (F : A -> list B) (l : list A) :
  existsb p (flat_map F l) = existsb (fun x => existsb p (F x)) l.
Proof.
  induction l as [|x l IH]; simpl; [reflexivity|]. now rewrite existsb_app, IH.
Qed.

Lemma negb_forallb {A} (p : A -> bool) (l : list A) :
  negb (forallb (fun x => negb (p x)) l) = existsb p l.
Proof.
  induction l as [|x l IH]; simpl; [reflexivity|].
  rewrite negb_andb, negb_involutive. now rewrite IH.
Qed.

(** X20. The clause [SmtBasedDSAE::learnNogood] hands to the SMT solver
    for a no-good is falsified by exactly the size vectors that
    [HackyDSAE::checkConstriant] matches against the same no-good: a
    vector of as many sizes as the no-good has entries satisfies the
    clause if and only if [checkConstriant] answers [false] on it. *)
Theorem smt_nogood_excludes (sizes : list Z) (nogood : Constraint_Generator_Vals) :
  length sizes = length nogood ->
  clause_holds sizes (smt_nogood_clause nogood) = negb (checkConstriant sizes nogood).
Proof.
  intros Hlen. unfold clause_holds, smt_nogood_clause, checkConstriant.
  rewrite negb_forallb, existsb_flat_map, Hlen.
  induction (seq 0 (length nogood)) as [|i l IH]; simpl; [reflexivity|].
  rewrite IH. f_equal.
  unfold entry_fails. destruct (fst (rdc nogood i)); simpl; rewrite ?orb_false_r.
  - now rewrite Z.eqb_sym.
  - now rewrite Z.gtb_ltb.
  - now rewrite Z.gtb_ltb.
  - reflexivity.
Qed.

Lemma smt_nogood_excludes_witness :
  clause_holds [2; 1] (smt_nogood_clause [(EQ, 1); (GEQ, 1)])
  = negb (checkConstriant [2; 1] [(EQ, 1); (GEQ, 1)]).
Proof. apply (smt_nogood_excludes [2; 1] [(EQ, 1); (GEQ, 1)]). reflexivity. Defined.

(** ** The symmetry ordering *)

Lemma flat_map_app_perm {A B} (G H : A -> list B) (l : list A) :
  Permutation (flat_map (fun x => G x ++ H x) l) (flat_map G l ++ flat_map H l).
Proof.
  induction l as [|x l IH]; simpl; [constructor|].
  rewrite IH. rewrite <- !app_assoc. apply Permutation_app_head.
  rewrite !app_assoc. apply Permutation_app_tail. apply Permutation_app_comm.
Qed.

Lemma flat_map_swap {A B C} (F : A -> B -> list C) (la : list A) (lb : list B) :
  Permutation (flat_map (fun a => flat_map (F a) lb) la)
              (flat_map (fun b => flat_map (fun a => F a b) la) lb).
Proof.
  induction la as [|a la IH]; simpl.
  - induction lb as [|b lb IHb]; simpl; [constructor|exact IHb].
  - rewrite IH. symmetry. apply flat_map_app_perm.
Qed.

Lemma flat_map_perm_ext {A B} (F G : A -> list B) (l : list A) :
  (forall x, In x l -> Permutation (F x) (G x)) ->
  Permutation (flat_map F l) (flat_map G l).
Proof.
  induction l as [|x l IH]; intros H; simpl; [constructor|].
  apply Permutation_app; [apply H; now left|]. apply IH. intros y Hy. apply H. now right.
Qed.

Lemma diagonal_exact (size m : Z) (f : nat) :
  1 <= m <= size -> size + Z.of_nat f < U32.modulus ->
  diagonal size m f = 1 + (m + Z.of_nat f) mod size
  /\ 1 <= diagonal size m f <= size.
Proof.
  intros Hm Hfit. unfold diagonal, U32.add.
  assert (Hmod : U32.modulus = 2 ^ 32) by reflexivity.
  rewrite (wrap_small (m + Z.of_nat f)) by lia.
  pose proof (Z.mod_pos_bound (m + Z.of_nat f) size ltac:(lia)) as Hr.
  rewrite wrap_small by lia. lia.
Qed.

Lemma diagonal_permutes (size : Z) (f : nat) :
  size + Z.of_nat f < U32.modulus ->
  Permutation (map (fun m => diagonal size m f) (zrange 1 size)) (zrange 1 size).
Proof.
  intros Hfit.
  assert (Hnd : List.NoDup (zrange 1 size)).
  { unfold zrange. apply NoDup_map_NoDup_ForallPairs; [|apply List.seq_NoDup].
    intros a b _ _ Hab. lia. }
  apply NoDup_Permutation_bis.
  - apply NoDup_map_NoDup_ForallPairs; [|exact Hnd].
    intros a b Ha Hb Hab. apply in_zrange in Ha, Hb.
    destruct (diagonal_exact size a f Ha Hfit) as [Ea _].
    destruct (diagonal_exact size b f Hb Hfit) as [Eb _].
    rewrite Ea, Eb in Hab.
    assert (Hs : 0 < size) by lia.
    pose proof (Z.div_mod (a + Z.of_nat f) size ltac:(lia)) as Da.
    pose proof (Z.div_mod (b + Z.of_nat f) size ltac:(lia)) as Db.
    assert (Hr : (a + Z.of_nat f) mod size = (b + Z.of_nat f) mod size) by lia.
    rewrite Hr in Da.
    assert (Hq : a - b = size * ((a + Z.of_nat f) / size - (b + Z.of_nat f) / size)) by lia.
    assert ((a + Z.of_nat f) / size - (b + Z.of_nat f) / size = 0) by nia.
    nia.
  - now rewrite length_map.
  - intros x Hx. apply in_map_iff in Hx as (m & <- & Hm). apply in_zrange in Hm.
    apply in_zrange. now apply diagonal_exact.
Qed.

Lemma flat_map_ext_map_diag (inp : Input) (st : FMB) (size : Z) (gf f : nat) :
  flat_map (symmetry_widget inp st size gf)
    (map (fun m => diagonal size m f) (zrange 1 size))
  = flat_map (fun m => symmetry_widget inp st size gf (diagonal size m f))
      (zrange 1 size).
Proof. induction (zrange 1 size) as [|m l IH]; simpl; [reflexivity|now rewrite IH]. Qed.

(** X21. The three widget orders of [createSymmetryOrdering] list the
    same grounded terms. When [m+f] does not wrap around, the ordering of
    a sort under ARGUMENT_FIRST or DIAGONAL is a permutation of the one
    under FUNCTION_FIRST, and under every order the constants of the sort
    come first, in the order of [sortedConstants]. *)
Theorem widget_orders_permute (order : FMBWidgetOrders) (sym : SortedSymbols)
    (inp : Input) (st : FMB) (s : nat) :
  rd (_sortModelSizes st) s + Z.of_nat (length (rdl (sortedFunctions sym) s))
    <= U32.modulus ->
  Permutation (createSymmetryOrdering_sort FUNCTION_FIRST sym inp st s)
              (createSymmetryOrdering_sort order sym inp st s)
  /\ firstn (length (rdl (sortedConstants sym) s))
       (createSymmetryOrdering_sort order sym inp st s)
     = constant_terms sym s.
Proof.
  intros Hfit. split.
  - unfold createSymmetryOrdering_sort. apply Permutation_app_head.
    set (size := rd (_sortModelSizes st) s) in *.
    set (funs := rdl (sortedFunctions sym) s) in *.
    destruct order.
    + reflexivity.
    + apply (flat_map_swap
               (fun f m => symmetry_widget inp st size (rdn funs f) m)).
    + etransitivity;
        [|apply (flat_map_swap
                   (fun f m => symmetry_widget inp st size (rdn funs f)
                                 (diagonal size m f)))].
      apply flat_map_perm_ext. intros f Hf. apply in_seq in Hf.
      rewrite <- (flat_map_ext_map_diag inp st size (rdn funs f) f).
      apply Permutation_flat_map. symmetry. apply diagonal_permutes. lia.
  - unfold createSymmetryOrdering_sort.
    replace (length (rdl (sortedConstants sym) s)) with (length (constant_terms sym s))
      by (unfold constant_terms; apply length_map).
    rewrite firstn_app, Nat.sub_diag. simpl. rewrite firstn_all. apply app_nil_r.
Qed.

Lemma widget_orders_permute_witness :
  Permutation
    (createSymmetryOrdering_sort FUNCTION_FIRST ex_symbols ex_contour_input
       ex_contour_builder 0)
    (createSymmetryOrdering_sort DIAGONAL ex_symbols ex_contour_input
       ex_contour_builder 0)
  /\ firstn (length (rdl (sortedConstants ex_symbols) 0))
       (createSymmetryOrdering_sort DIAGONAL ex_symbols ex_contour_input
          ex_contour_builder 0)
     = constant_terms ex_symbols 0.
Proof.
  apply (widget_orders_permute DIAGONAL ex_symbols ex_contour_input ex_contour_builder 0).
  vm_compute. intros H. discriminate H.
Defined.

Lemma symmetry_widget_spec (inp : Input) (st : FMB) (size : Z) (gf : nat)
    (groundWith : Z) (t : GroundedTerm) :
  (forall i, (i < rdn (functionArity (signature inp)) gf)%nat ->
     1 <= rd (_sortModelSizes st)
            (rdn (rdl (functionSignatures (_sortedSignature inp)) gf) i)) ->
  1 <= groundWith ->
  In t (symmetry_widget inp st size gf groundWith) ->
  gt_f t = gf
  /\ size <= rd (sortBounds (_sortedSignature inp)) (retSrt inp gf)
  /\ in_domain (argumentBounds inp st gf) (gt_grounding t).
Proof.
  intros Hpos Hg. unfold symmetry_widget.
  fold (retSrt inp gf).
  destruct (rd (sortBounds (_sortedSignature inp)) (retSrt inp gf) <? size) eqn:Eb;
    [intros []|].
  match goal with |- context [existsb ?p ?l] => destruct (existsb p l) eqn:Eo end;
    [intros []|].
  intros [<-|[]]. simpl. split; [reflexivity|]. split; [lia|].
  unfold in_domain, argumentBounds. apply Forall2_fmap, Forall_Forall2_diag.
  apply Forall_forall. intros i Hi. apply list_elem_of_In, in_seq in Hi.
  assert (Hi' : In i (seq 0 (rdn (functionArity (signature inp)) gf)))
    by (apply in_seq; lia).
  assert (Hle : (rd (sortBounds (_sortedSignature inp))
                    (rdn (rdl (functionSignatures (_sortedSignature inp)) gf) i)
                 <? rd (map (fun i0 => Z.min groundWith
                                 (rd (_sortModelSizes st)
                                    (rdn (rdl (functionSignatures (_sortedSignature inp)) gf) i0)))
                          (seq 0 (rdn (functionArity (signature inp)) gf))) i) = false).
  { apply Bool.not_true_iff_false. intros Ht.
    rewrite (proj2 (existsb_exists _ _) (ex_intro _ i (conj Hi' Ht))) in Eo.
    discriminate Eo. }
  rewrite rd_map_seq in Hle by lia.
  specialize (Hpos i ltac:(lia)). unfold boundedSize. lia.
Qed.

Lemma in_createSymmetryOrdering (order : FMBWidgetOrders) (sym : SortedSymbols)
    (inp : Input) (st : FMB) (s : nat) :
  arguments_inhabited sym inp st s ->
  rd (_sortModelSizes st) s < U32.modulus ->
  exists function_terms,
    createSymmetryOrdering_sort order sym inp st s
    = constant_terms sym s ++ function_terms
    /\ forall t, In t function_terms ->
         In (gt_f t) (rdl (sortedFunctions sym) s)
         /\ rd (_sortModelSizes st) s
            <= rd (sortBounds (_sortedSignature inp)) (retSrt inp (gt_f t))
         /\ in_domain (argumentBounds inp st (gt_f t)) (gt_grounding t).
Proof.
  intros Hinh Hfit. unfold createSymmetryOrdering_sort.
  eexists. split; [reflexivity|]. intros t Ht.
  set (size := rd (_sortModelSizes st) s) in *.
  set (funs := rdl (sortedFunctions sym) s) in *.
  assert (Hfun : forall f, (f < length funs)%nat -> In (rdn funs f) funs).
  { intros f Hf. unfold rdn. destruct (funs !! f) as [x|] eqn:E.
    - simpl. apply list_elem_of_In. eapply list_elem_of_lookup_2. exact E.
    - apply lookup_ge_None in E. lia. }
  assert (Hw : forall f g, (f < length funs)%nat -> 1 <= g ->
            In t (symmetry_widget inp st size (rdn funs f) g) ->
            In (gt_f t) funs
            /\ size <= rd (sortBounds (_sortedSignature inp)) (retSrt inp (gt_f t))
            /\ in_domain (argumentBounds inp st (gt_f t)) (gt_grounding t)).
  { intros f g Hf Hg Hin.
    destruct (symmetry_widget_spec inp st size (rdn funs f) g t) as (E & H1 & H2);
      [intros i Hi; apply Hinh; [now apply Hfun|exact Hi]|exact Hg|exact Hin|].
    rewrite E. split; [now apply Hfun|]. split; assumption. }
  destruct order.
  - apply in_flat_map in Ht as (f & Hf & Ht). apply in_flat_map in Ht as (m & Hm & Ht).
    apply in_seq in Hf. apply in_zrange in Hm. apply (Hw f m); [lia|lia|exact Ht].
  - apply in_flat_map in Ht as (m & Hm & Ht). apply in_flat_map in Ht as (f & Hf & Ht).
    apply in_seq in Hf. apply in_zrange in Hm. apply (Hw f m); [lia|lia|exact Ht].
  - apply in_flat_map in Ht as (m & Hm & Ht). apply in_flat_map in Ht as (f & Hf & Ht).
    apply in_seq in Hf. apply in_zrange in Hm.
    apply (Hw f (diagonal size m f)); [lia| |exact Ht].
    unfold diagonal.
    pose proof (Z.mod_pos_bound (U32.add m (Z.of_nat f)) size ltac:(lia)) as Hr.
    unfold U32.add at 1. rewrite wrap_small by lia. lia.
Qed.

Lemma length_flat_map_bound {A B} (body : A -> list B) (l : list A) (n : nat) :
  (forall x, (length (body x) <= n)%nat) ->
  (length (flat_map body l) <= n * length l)%nat.
Proof.
  intros Hb. induction l as [|x l IH]; simpl; [lia|].
  rewrite length_app. specialize (Hb x). lia.
Qed.

Lemma length_symmetry_widget (inp : Input) (st : FMB) (size : Z) (gf : nat) (g : Z) :
  (length (symmetry_widget inp st size gf g) <= 1)%nat.
Proof.
  unfold symmetry_widget.
  destruct (_ <? size); [simpl; lia|].
  match goal with |- context [existsb ?p ?l] => destruct (existsb p l) end; simpl; lia.
Qed.

(** X22. [createSymmetryOrdering] never lists a grounding outside the
    bounds. When the argument sorts of the functions of a sort have a
    value, every term of the ordering of that sort beyond the constants is
    a function of [sortedFunctions] whose range is not bounded below the
    size of the sort and whose arguments lie within the bounds that
    [addNewFunctionalDefs] and [addNewTotalityDefs] ground it with; and
    the ordering has at most one term per constant and [size] terms per
    function. *)
Theorem symmetry_terms_in_bounds (order : FMBWidgetOrders) (sym : SortedSymbols)
    (inp : Input) (st : FMB) (s : nat) :
  arguments_inhabited sym inp st s ->
  0 <= rd (_sortModelSizes st) s < U32.modulus ->
  (forall i t,
     createSymmetryOrdering_sort order sym inp st s !! i = Some t ->
     if (i <? length (rdl (sortedConstants sym) s))%nat
     then gt_f t = rdn (rdl (sortedConstants sym) s) i /\ gt_grounding t = []
     else In (gt_f t) (rdl (sortedFunctions sym) s)
          /\ rd (_sortModelSizes st) s
             <= rd (sortBounds (_sortedSignature inp)) (retSrt inp (gt_f t))
          /\ in_domain (argumentBounds inp st (gt_f t)) (gt_grounding t))
  /\ Z.of_nat (length (createSymmetryOrdering_sort order sym inp st s))
     <= Z.of_nat (length (rdl (sortedConstants sym) s))
        + Z.of_nat (length (rdl (sortedFunctions sym) s)) * rd (_sortModelSizes st) s.
Proof.
  intros Hinh Hfit. split.
  - destruct (in_createSymmetryOrdering order sym inp st s Hinh ltac:(lia))
      as (ft & -> & Hft).
    intros i t Hi.
    assert (Hlc : length (constant_terms sym s) = length (rdl (sortedConstants sym) s))
      by (unfold constant_terms; apply length_map).
    destruct (i <? length (rdl (sortedConstants sym) s))%nat eqn:Ei.
    + apply Nat.ltb_lt in Ei. rewrite lookup_app_l in Hi by lia.
      unfold constant_terms in Hi. rewrite list_lookup_fmap in Hi.
      unfold rdn. destruct (rdl (sortedConstants sym) s !! i) as [c|]; [|discriminate Hi].
      injection Hi as <-. split; reflexivity.
    + apply Nat.ltb_ge in Ei. rewrite lookup_app_r in Hi by lia.
      apply Hft. apply list_elem_of_In. eapply list_elem_of_lookup_2. exact Hi.
  - unfold createSymmetryOrdering_sort. rewrite length_app.
    unfold constant_terms at 1. rewrite length_map.
    set (size := rd (_sortModelSizes st) s) in *.
    set (funs := rdl (sortedFunctions sym) s) in *.
    assert (Hlen : (length
              match order with
              | FUNCTION_FIRST =>
                  flat_map (fun f =>
                    flat_map (fun m => symmetry_widget inp st size (rdn funs f) m)
                      (zrange 1 size)) (seq 0 (length funs))
              | _ =>
                  flat_map (fun m =>
                    flat_map (fun f =>
                      symmetry_widget inp st size (rdn funs f)
                        (if match order with ARGUMENT_FIRST => true | _ => false end
                         then m else diagonal size m f))
                      (seq 0 (length funs))) (zrange 1 size)
              end <= length funs * Z.to_nat size)%nat).
    { destruct order.
      - etransitivity; [apply (length_flat_map_bound _ _ (Z.to_nat size))|].
        + intros f. etransitivity; [apply (length_flat_map_bound _ _ 1%nat)|].
          * intros m. apply length_symmetry_widget.
          * rewrite length_zrange. lia.
        + rewrite length_seq. lia.
      - etransitivity; [apply (length_flat_map_bound _ _ (length funs))|].
        + intros m. etransitivity; [apply (length_flat_map_bound _ _ 1%nat)|].
          * intros f. apply length_symmetry_widget.
          * rewrite length_seq. lia.
        + rewrite length_zrange. lia.
      - etransitivity; [apply (length_flat_map_bound _ _ (length funs))|].
        + intros m. etransitivity; [apply (length_flat_map_bound _ _ 1%nat)|].
          * intros f. apply length_symmetry_widget.
          * rewrite length_seq. lia.
        + rewrite length_zrange. lia. }
    nia.
Qed.

Lemma symmetry_terms_in_bounds_witness :
  (forall i t,
     createSymmetryOrdering_sort DIAGONAL ex_symbols ex_contour_input
       ex_contour_builder 0 !! i = Some t ->
     if (i <? length (rdl (sortedConstants ex_symbols) 0))%nat
     then gt_f t = rdn (rdl (sortedConstants ex_symbols) 0) i /\ gt_grounding t = []
     else In (gt_f t) (rdl (sortedFunctions ex_symbols) 0)
          /\ rd (_sortModelSizes ex_contour_builder) 0
             <= rd (sortBounds (_sortedSignature ex_contour_input))
                  (retSrt ex_contour_input (gt_f t))
          /\ in_domain (argumentBounds ex_contour_input ex_contour_builder (gt_f t))
               (gt_grounding t))
  /\ Z.of_nat (length (createSymmetryOrdering_sort DIAGONAL ex_symbols ex_contour_input
                         ex_contour_builder 0))
     <= Z.of_nat (length (rdl (sortedConstants ex_symbols) 0))
        + Z.of_nat (length (rdl (sortedFunctions ex_symbols) 0))
          * rd (_sortModelSizes ex_contour_builder) 0.
Proof.
  apply (symmetry_terms_in_bounds DIAGONAL ex_symbols ex_contour_input
           ex_contour_builder 0).
  - intros f i [<-|[]] Hi. vm_compute in Hi.
    assert (i = 0%nat) as -> by lia. vm_compute. intros H. discriminate H.
  - vm_compute. split; [intros H; discriminate H|reflexivity].
Defined.

(** X23. The ordering axiom over the ordering [createSymmetryOrdering]
    builds. For [1 <= k <= size] of a sort whose symbols are listed with
    their result sort, [addNewSymmetryOrderingAxioms] adds nothing when
    the ordering has fewer than [k] terms, and otherwise exactly the
    clause [t = 1 | ... | t = k] for the [k]-th term [t] of the ordering:
    its literals are the positive variables of the symbol of [t] at the
    grounding of [t], which lies within the argument bounds, and at the
    values [1..k], which are values of the sort and, for a function term,
    within the bound of its result sort. *)
Theorem ordering_axiom_over_ordering (order : FMBWidgetOrders) (sym : SortedSymbols)
    (inp : Input) (st : FMB) (s : nat) (k : Z) :
  symbols_sorted sym inp s ->
  arguments_inhabited sym inp st s ->
  rd (_sortModelSizes st) s < U32.modulus ->
  1 <= k <= rd (_sortModelSizes st) s ->
  (Z.of_nat (length (createSymmetryOrdering_sort order sym inp st s)) < k
   /\ addNewSymmetryOrderingAxioms inp st k
        (createSymmetryOrdering_sort order sym inp st s) = Some [])
  \/ exists t,
       createSymmetryOrdering_sort order sym inp st s !! Z.to_nat (k - 1) = Some t
       /\ addNewSymmetryOrderingAxioms inp st k
            (createSymmetryOrdering_sort order sym inp st s)
          = Some [map (fun i => (varId inp st true (gt_f t) (gt_grounding t ++ [i]), true))
                    (zrange 1 k)]
       /\ in_domain (argumentBounds inp st (gt_f t)) (gt_grounding t)
       /\ k <= rd (_sortModelSizes st) (retSrt inp (gt_f t))
       /\ (Z.of_nat (length (rdl (sortedConstants sym) s)) < k ->
           k <= maxRtSrtSize inp st (gt_f t)).
Proof.
  intros [Hconst Hfun] Hinh Hfit Hk.
  destruct (in_createSymmetryOrdering order sym inp st s Hinh Hfit) as (ft & E & Hft).
  rewrite E.
  assert (Hlc : length (constant_terms sym s) = length (rdl (sortedConstants sym) s))
    by (unfold constant_terms; apply length_map).
  unfold addNewSymmetryOrderingAxioms.
  destruct (Z.of_nat (length (constant_terms sym s ++ ft)) <? k) eqn:El.
  { left. apply Z.ltb_lt in El. split; [exact El|reflexivity]. }
  right. apply Z.ltb_ge in El.
  assert (Hsub : U32.sub k 1 = k - 1).
  { unfold U32.sub. apply wrap_small. lia. }
  rewrite Hsub.
  destruct ((constant_terms sym s ++ ft) !! Z.to_nat (k - 1)) as [t|] eqn:Et;
    [|apply lookup_ge_None in Et; lia].
  exists t. split; [reflexivity|].
  assert (Hterm : in_domain (argumentBounds inp st (gt_f t)) (gt_grounding t)
                  /\ retSrt inp (gt_f t) = s
                  /\ (Z.of_nat (length (rdl (sortedConstants sym) s)) < k ->
                      rd (_sortModelSizes st) s
                      <= rd (sortBounds (_sortedSignature inp)) (retSrt inp (gt_f t)))).
  { destruct (decide (Z.to_nat (k - 1) < length (constant_terms sym s))%nat) as [Hi|Hi].
    - rewrite lookup_app_l in Et by exact Hi.
      unfold constant_terms in Et. rewrite list_lookup_fmap in Et.
      destruct (rdl (sortedConstants sym) s !! Z.to_nat (k - 1)) as [c|] eqn:Ec;
        [|discriminate Et].
      injection Et as <-. simpl.
      apply list_elem_of_lookup_2, list_elem_of_In in Ec.
      destruct (Hconst c Ec) as [Ha Hr].
      split; [|split; [exact Hr|]].
      + unfold in_domain, argumentBounds. rewrite Ha. constructor.
      + intros Hc. lia.
    - rewrite lookup_app_r in Et by lia.
      apply list_elem_of_lookup_2, list_elem_of_In in Et.
      destruct (Hft t Et) as (Hin & Hb & Hd).
      split; [exact Hd|]. split; [now apply Hfun|]. intros _. exact Hb. }
  destruct Hterm as (Hd & Hr & Hb).
  split.
  - f_equal. f_equal.
    rewrite <- (argumentBounds_length inp st (gt_f t) (gt_grounding t) Hd).
    rewrite map_rd_seq. reflexivity.
  - split; [exact Hd|]. split; [rewrite Hr; lia|].
    intros Hc. specialize (Hb Hc). unfold maxRtSrtSize, boundedSize. rewrite Hr in *. lia.
Qed.

Lemma ordering_axiom_over_ordering_witness :
  (Z.of_nat (length (createSymmetryOrdering_sort FUNCTION_FIRST ex_symbols
                       ex_contour_input ex_contour_builder 0)) < 2
   /\ addNewSymmetryOrderingAxioms ex_contour_input ex_contour_builder 2
        (createSymmetryOrdering_sort FUNCTION_FIRST ex_symbols ex_contour_input
           ex_contour_builder 0) = Some [])
  \/ exists t,
       createSymmetryOrdering_sort FUNCTION_FIRST ex_symbols ex_contour_input
         ex_contour_builder 0 !! Z.to_nat (2 - 1) = Some t
       /\ addNewSymmetryOrderingAxioms ex_contour_input ex_contour_builder 2
            (createSymmetryOrdering_sort FUNCTION_FIRST ex_symbols ex_contour_input
               ex_contour_builder 0)
          = Some [map (fun i => (varId ex_contour_input ex_contour_builder true (gt_f t)
                                   (gt_grounding t ++ [i]), true))
                    (zrange 1 2)]
       /\ in_domain (argumentBounds ex_contour_input ex_contour_builder (gt_f t))
            (gt_grounding t)
       /\ 2 <= rd (_sortModelSizes ex_contour_builder) (retSrt ex_contour_input (gt_f t))
       /\ (Z.of_nat (length (rdl (sortedConstants ex_symbols) 0)) < 2 ->
           2 <= maxRtSrtSize ex_contour_input ex_contour_builder (gt_f t)).
Proof.
  apply (ordering_axiom_over_ordering FUNCTION_FIRST ex_symbols ex_contour_input
           ex_contour_builder 0 2).
  - split.
    + intros c [<-|[]]. split; reflexivity.
    + intros f [<-|[]]. reflexivity.
  - intros f i [<-|[]] Hi. vm_compute in Hi.
    assert (i = 0%nat) as -> by lia. vm_compute. intros H. discriminate H.
  - reflexivity.
  - vm_compute. split; intros H; discriminate H.
Defined.

(** ** The canonicity axioms *)

Lemma ordering_structure (order : FMBWidgetOrders) (sym : SortedSymbols)
    (inp : Input) (st : FMB) (s : nat) :
  exists function_terms,
    createSymmetryOrdering_sort order sym inp st s
    = constant_terms sym s ++ function_terms
    /\ forall t, In t function_terms -> In (gt_f t) (rdl (sortedFunctions sym) s).
Proof.
  unfold createSymmetryOrdering_sort. eexists. split; [reflexivity|]. intros t Ht.
  set (size := rd (_sortModelSizes st) s) in *.
  set (funs := rdl (sortedFunctions sym) s) in *.
  assert (Hw : forall f g, (f < length funs)%nat ->
            In t (symmetry_widget inp st size (rdn funs f) g) -> In (gt_f t) funs).
  { intros f g Hf. unfold symmetry_widget.
    destruct (_ <? size); [intros []|].
    match goal with |- context [existsb ?p ?l] => destruct (existsb p l) end;
      [intros []|].
    intros [<-|[]]. simpl. unfold rdn. destruct (funs !! f) as [x|] eqn:E.
    - simpl. apply list_elem_of_In. eapply list_elem_of_lookup_2. exact E.
    - apply lookup_ge_None in E. lia. }
  destruct order.
  - apply in_flat_map in Ht as (f & Hf & Ht). apply in_flat_map in Ht as (m & Hm & Ht).
    apply in_seq in Hf. apply (Hw f m); [lia|exact Ht].
  - apply in_flat_map in Ht as (m & Hm & Ht). apply in_flat_map in Ht as (f & Hf & Ht).
    apply in_seq in Hf. apply (Hw f m); [lia|exact Ht].
  - apply in_flat_map in Ht as (m & Hm & Ht). apply in_flat_map in Ht as (f & Hf & Ht).
    apply in_seq in Hf. apply (Hw f (diagonal size m f)); [lia|exact Ht].
Qed.

Lemma canonicity_loop_spec (inp : Input) (st : FMB) (size : Z)
    (groundedTerms : list GroundedTerm) (C : nat) :
  (forall i, (i < C)%nat ->
     rdn (functionArity (signature inp)) (gt_f (rdt groundedTerms i)) = 0%nat) ->
  (forall i, (C <= i < length groundedTerms)%nat ->
     rdn (functionArity (signature inp)) (gt_f (rdt groundedTerms i)) <> 0%nat) ->
  forall n a, (n = 0 \/ a + n <= length groundedTerms)%nat ->
    canonicity_loop inp st size groundedTerms (seq a n)
    = map (canonicity_clause inp st size groundedTerms) (seq a (Nat.min (a + n) C - a)).
Proof.
  intros Hc Hf. induction n as [|n IH]; intros a Hn.
  - simpl. replace (Nat.min (a + 0) C - a)%nat with 0%nat by lia. reflexivity.
  - destruct Hn as [Hn|Hn]; [discriminate Hn|]. simpl.
    destruct (decide (a < C)%nat) as [Ha|Ha].
    + rewrite (Hc a Ha). simpl. rewrite (IH (S a)) by lia.
      replace (Nat.min (a + S n) C - a)%nat with (S (Nat.min (S a + n) C - S a)) by lia.
      reflexivity.
    + specialize (Hf a ltac:(lia)).
      destruct (rdn (functionArity (signature inp)) (gt_f (rdt groundedTerms a)));
        [congruence|]. simpl.
      replace (Nat.min (a + S n) C - a)%nat with 0%nat by lia. reflexivity.
Qed.

(** X24. The canonicity axioms over the ordering [createSymmetryOrdering]
    builds are about constants only. When the constants listed for a sort
    have no argument and the functions listed have one, then for a size of
    at least 2 [addNewSymmetryCanonicityAxioms] adds exactly, for every
    [i] from 1 below the smaller of [_symmetryRatio * maxSize] and the
    number of constants, the clause saying that constant [i] does not take
    the value [size] unless an earlier constant takes [size-1]; for a size
    of at most 1 it adds nothing. *)
Theorem canonicity_axioms_over_constants (order : FMBWidgetOrders) (sym : SortedSymbols)
    (inp : Input) (st : FMB) (s : nat) (size ratioTimesMaxSize : Z) :
  symbols_sorted sym inp s ->
  (forall f, In f (rdl (sortedFunctions sym) s) ->
     rdn (functionArity (signature inp)) f <> 0%nat) ->
  0 <= size < U32.modulus ->
  0 <= ratioTimesMaxSize ->
  addNewSymmetryCanonicityAxioms inp st size
    (createSymmetryOrdering_sort order sym inp st s) ratioTimesMaxSize
  = if size <=? 1 then []
    else
      map (fun i =>
             (varId inp st true (rdn (rdl (sortedConstants sym) s) i) [size], false)
             :: map (fun j =>
                       (varId inp st true (rdn (rdl (sortedConstants sym) s) j) [size - 1],
                        true))
                  (seq 0 i))
        (seq 1 (Z.to_nat (Z.min ratioTimesMaxSize
                            (Z.of_nat (length (rdl (sortedConstants sym) s)))) - 1)).
Proof.
  intros [Hconst _] Hfun Hsize Hw.
  destruct (ordering_structure order sym inp st s) as (ft & -> & Hft).
  unfold addNewSymmetryCanonicityAxioms.
  destruct (size <=? 1) eqn:Es; [reflexivity|]. apply Z.leb_gt in Es.
  set (cs := rdl (sortedConstants sym) s) in *.
  set (terms := constant_terms sym s ++ ft).
  assert (Hlc : length (constant_terms sym s) = length cs)
    by (unfold constant_terms; apply length_map).
  assert (Hlen : length terms = (length cs + length ft)%nat)
    by (unfold terms; rewrite length_app; lia).
  assert (Hterm : forall i, (i < length cs)%nat ->
            rdt terms i = {| gt_f := rdn cs i; gt_grounding := [] |}
            /\ rdn (functionArity (signature inp)) (rdn cs i) = 0%nat).
  { intros i Hi. unfold rdt, terms. rewrite lookup_app_l by lia.
    unfold constant_terms. fold cs. rewrite list_lookup_fmap. unfold rdn at 1 3.
    destruct (cs !! i) as [c|] eqn:Ec; [|apply lookup_ge_None in Ec; lia].
    simpl. split; [reflexivity|].
    apply Hconst. apply list_elem_of_In. eapply list_elem_of_lookup_2. exact Ec. }
  assert (Hc : forall i, (i < length cs)%nat ->
            rdn (functionArity (signature inp)) (gt_f (rdt terms i)) = 0%nat).
  { intros i Hi. destruct (Hterm i Hi) as [-> E]. exact E. }
  assert (Hf : forall i, (length cs <= i < length terms)%nat ->
            rdn (functionArity (signature inp)) (gt_f (rdt terms i)) <> 0%nat).
  { intros i Hi. unfold rdt, terms. rewrite lookup_app_r by lia.
    destruct (ft !! (i - length (constant_terms sym s))%nat) as [t|] eqn:Et;
      [|apply lookup_ge_None in Et; lia].
    simpl. apply Hfun, Hft. apply list_elem_of_In. eapply list_elem_of_lookup_2. exact Et. }
  set (w := if ratioTimesMaxSize >? Z.of_nat (length terms)
            then Z.of_nat (length terms) else ratioTimesMaxSize).
  assert (Ew : w = Z.min ratioTimesMaxSize (Z.of_nat (length terms))).
  { unfold w. destruct (ratioTimesMaxSize >? Z.of_nat (length terms)) eqn:E.
    - apply Z.gtb_lt in E. lia.
    - rewrite Z.gtb_ltb in E. apply Z.ltb_ge in E. lia. }
  rewrite (canonicity_loop_spec inp st size terms (length cs) Hc Hf) by lia.
  replace (Nat.min (1 + (Z.to_nat w - 1)) (length cs) - 1)%nat
    with (Z.to_nat (Z.min ratioTimesMaxSize (Z.of_nat (length cs))) - 1)%nat by lia.
  apply map_ext_in. intros i Hi. apply in_seq in Hi.
  assert (Hsub : U32.sub size 1 = size - 1) by (unfold U32.sub; apply wrap_small; lia).
  unfold canonicity_clause. rewrite Hsub.
  assert (Hlit : forall j v p, (j < length cs)%nat ->
            getSATLiteral inp st (gt_f (rdt terms j))
              (term_arguments inp (rdt terms j) ++ [v]) p true
            = (varId inp st true (rdn cs j) [v], p)).
  { intros j v p Hj. destruct (Hterm j Hj) as [-> E].
    unfold term_arguments. simpl. rewrite E. reflexivity. }
  rewrite Hlit by lia. f_equal.
  apply map_ext_in. intros j Hj. apply in_seq in Hj. apply Hlit. lia.
Qed.

Lemma canonicity_axioms_over_constants_witness :
  addNewSymmetryCanonicityAxioms ex_constants_input ex_constants_builder 2
    (createSymmetryOrdering_sort FUNCTION_FIRST ex_constants_symbols ex_constants_input
       ex_constants_builder 0) 2
  = [[(4, false); (1, true)]].
Proof.
  rewrite (canonicity_axioms_over_constants FUNCTION_FIRST ex_constants_symbols
             ex_constants_input ex_constants_builder 0 2 2).
  - reflexivity.
  - split.
    + intros c [<-|[<-|[]]]; split; reflexivity.
    + intros f [].
  - intros f [].
  - vm_compute. split; [intros H; discriminate H|reflexivity].
  - lia.
Defined.

(** ** The functional definitions and their estimate *)

Lemma swap_involutive (g : list Z) :
  match match g with y :: z :: r => z :: y :: r | _ => g end with
  | y :: z :: r => z :: y :: r
  | g' => g'
  end = g.
Proof. destruct g as [|y [|z r]]; reflexivity. Qed.

Lemma length_filter_disjoint {A} (p q : A -> bool) (l : list A) :
  (forall x, p x = true -> q x = false) ->
  (length (List.filter p l) + length (List.filter q l) <= length l)%nat.
Proof.
  intros Hpq. induction l as [|x l IH]; simpl; [lia|].
  destruct (p x) eqn:Ep; [rewrite (Hpq x Ep)|destruct (q x)]; simpl; lia.
Qed.

Lemma NoDup_visited (maxVarSize : list Z) :
  maxVarSize <> [] ->
  Forall (fun m => 1 <= m) maxVarSize ->
  Forall (fun m => m < U32.modulus) maxVarSize ->
  List.NoDup (visited maxVarSize)
  /\ Z.of_nat (length (visited maxVarSize)) = product maxVarSize.
Proof.
  intros Hne Hpos Hfit.
  destruct (visited_spec maxVarSize Hne Hpos Hfit) as [_ Hr].
  pose proof (product_pos _ Hpos) as Hp. split.
  - apply (NoDup_map_inv (rank maxVarSize)). rewrite Hr. unfold zrange.
    apply NoDup_map_NoDup_ForallPairs; [|apply List.seq_NoDup].
    intros a b _ _ Hab. lia.
  - apply (f_equal (@length Z)) in Hr. rewrite length_map, length_zrange in Hr. lia.
Qed.

Lemma length_functionalDef_bodies (inp : Input) (st : FMB) (f : nat) (l : list (list Z)) :
  (length (flat_map (functionalDef_body inp st f) l)
   <= length (List.filter (fun g => (rd g 0 <? rd g 1)%Z) l))%nat.
Proof.
  induction l as [|g l IH]; simpl; [lia|]. rewrite length_app.
  assert (Hb : (length (functionalDef_body inp st f g)
                <= if (rd g 0 <? rd g 1)%Z then 1 else 0)%nat).
  { unfold functionalDef_body.
    destruct (rd g 0 >=? rd g 1) eqn:E1; [simpl; lia|].
    rewrite Z.geb_leb in E1. apply Z.leb_gt in E1.
    rewrite (proj2 (Z.ltb_lt _ _) E1). simpl. lia. }
  destruct (rd g 0 <? rd g 1); simpl in *; lia.
Qed.

(** At most half of the groundings [[y, z, x1, ..., xn]] have [y < z]. *)
Lemma functionalDefs_of_half (inp : Input) (st : FMB) (f : nat) :
  Forall (fun m => 1 <= m) (functionalDefs_maxVarSize inp st f) ->
  Forall (fun m => m < U32.modulus) (functionalDefs_maxVarSize inp st f) ->
  Z.of_nat (length (functionalDefs_of inp st f))
  <= functionalDef_groundings inp st f / 2.
Proof.
  intros Hpos Hfit. unfold functionalDefs_of, functionalDef_groundings.
  rewrite odometer_visited.
  set (maxs := functionalDefs_maxVarSize inp st f) in *.
  assert (Hne : maxs <> []) by (unfold maxs; rewrite functionalDefs_maxVarSize_eq; discriminate).
  destruct (NoDup_visited maxs Hne Hpos Hfit) as [Hnd Hlen].
  destruct (visited_spec maxs Hne Hpos Hfit) as [Hdom _].
  set (lt := fun g : list Z => rd g 0 <? rd g 1).
  set (gt := fun g : list Z => rd g 1 <? rd g 0).
  set (swap := fun g : list Z => match g with y :: z :: r => z :: y :: r | _ => g end).
  pose proof (length_functionalDef_bodies inp st f (visited maxs)) as H2.
  fold lt in H2.
  assert (H3 : (length (List.filter lt (visited maxs))
                <= length (List.filter gt (visited maxs)))%nat).
  { rewrite <- (length_map swap (List.filter lt (visited maxs))).
    apply NoDup_incl_length.
    - apply NoDup_map_NoDup_ForallPairs; [|now apply List.NoDup_filter].
      intros a b _ _ Hab. rewrite <- (swap_involutive a), <- (swap_involutive b).
      fold (swap a) (swap b). now rewrite Hab.
    - intros x Hx. apply in_map_iff in Hx as (g & <- & Hg).
      apply filter_In in Hg as [Hg Hlt]. apply filter_In.
      apply Hdom in Hg. unfold maxs in Hg. rewrite functionalDefs_maxVarSize_eq in Hg.
      unfold in_domain in Hg.
      inversion Hg as [|y m1 r1 ms1 Hy Hr1]; subst.
      inversion Hr1 as [|z m2 r2 ms2 Hz Hr2]; subst.
      split.
      + apply Hdom. unfold maxs. rewrite functionalDefs_maxVarSize_eq.
        simpl. constructor; [exact Hz|]. constructor; [exact Hy|exact Hr2].
      + exact Hlt. }
  pose proof (length_filter_disjoint lt gt (visited maxs)) as H4.
  assert (Hd : forall x : list Z, lt x = true -> gt x = false).
  { intros x Hx. unfold lt, gt in *. apply Z.ltb_lt in Hx. apply Z.ltb_ge. lia. }
  specialize (H4 Hd).
  apply Z.div_le_lower_bound; lia.
Qed.

Lemma functionalDef_sizes (inp : Input) (st : FMB) (f : nat) :
  functions_sized inp st ->
  (forall srt, rd (_sortModelSizes st) srt < U32.modulus) ->
  (f < functions (signature inp))%nat -> rdb (del_f inp) f = false ->
  Forall (fun m => 1 <= m) (functionalDefs_maxVarSize inp st f)
  /\ Forall (fun m => m < U32.modulus) (functionalDefs_maxVarSize inp st f).
Proof.
  intros Hs Hsizes Hf Hdel. unfold functionalDefs_maxVarSize.
  pose proof (Hs f Hf Hdel (rdn (functionArity (signature inp)) f) ltac:(lia)) as [_ Hret].
  simpl in Hret. split.
  - constructor; [exact Hret|]. constructor; [exact Hret|].
    apply Forall_map. apply Forall_forall. intros var Hvar.
    apply list_elem_of_In, in_seq in Hvar.
    now destruct (Hs f Hf Hdel var ltac:(lia)) as [_ H].
  - constructor; [apply (boundedSize_fits inp st f Hsizes Hf)|].
    constructor; [apply (boundedSize_fits inp st f Hsizes Hf)|].
    apply Forall_map. apply Forall_forall. intros var _.
    apply (boundedSize_fits inp st f Hsizes Hf).
Qed.

(** X25. When the sizes of the sorts follow those of their distinct
    sorts, every argument and result ranges over at least one value and
    the count does not wrap around, [estimateFunctionalDefCount] is half
    the number of groundings of [y], [z] and the arguments, summed over
    the functions that are not deleted, and [addNewFunctionalDefs] hands
    at most that many clauses to [addSATClause]. *)
Theorem functionalDefs_within_estimate (inp : Input) (st : FMB) :
  functions_sized inp st ->
  (forall srt, rd (_sortModelSizes st) srt < U32.modulus) ->
  (forall f, (f < functions (signature inp))%nat -> rdb (del_f inp) f = false ->
     functionalDef_groundings inp st f < U32.modulus) ->
  functionalDefCount inp st < U32.modulus ->
  estimateFunctionalDefCount inp (_distinctSortSizes st) = functionalDefCount inp st
  /\ Z.of_nat (length (addNewFunctionalDefs inp st))
     <= estimateFunctionalDefCount inp (_distinctSortSizes st).
Proof.
  intros Hs Hsizes Hfit Hsum. unfold estimateFunctionalDefCount.
  match goal with |- context [fold_left ?s _ 0] => set (step := s) end.
  set (count := fun f : nat =>
         if rdb (del_f inp) f then 0 else functionalDef_groundings inp st f / 2).
  assert (Hcount : forall f, (f < functions (signature inp))%nat ->
            0 <= count f
            /\ Z.of_nat (length (if rdb (del_f inp) f then []
                                 else functionalDefs_of inp st f)) <= count f).
  { intros f Hf. unfold count. destruct (rdb (del_f inp) f) eqn:Hdel; [simpl; lia|].
    destruct (functionalDef_sizes inp st f Hs Hsizes Hf Hdel) as [Hpos Hlt].
    pose proof (functionalDefs_of_half inp st f Hpos Hlt). lia. }
  assert (Hstep : forall f res, (f < functions (signature inp))%nat ->
            0 <= res -> res + count f < U32.modulus ->
            step res f = res + count f).
  { intros f res Hf Hres Hrc. unfold count in *. unfold step.
    destruct (rdb (del_f inp) f) eqn:Hdel; [lia|].
    cbv zeta.
    set (arity := rdn (functionArity (signature inp)) f) in *.
    set (sig := rdl (functionSignatures (_sortedSignature inp)) f) in *.
    destruct (functionalDef_sizes inp st f Hs Hsizes Hf Hdel) as [Hpos _].
    specialize (Hfit f Hf Hdel).
    unfold functionalDef_groundings in *.
    unfold functionalDefs_maxVarSize in *. fold arity sig in Hpos, Hfit, Hrc |- *.
    assert (Hb : forall var, (var <= arity)%nat ->
              Z.min (rd (sortBounds (_sortedSignature inp)) (rdn sig var))
                    (rd (_distinctSortSizes st)
                       (rdn (parents (_sortedSignature inp)) (rdn sig var)))
              = boundedSize inp st (rdn sig var)).
    { intros var Hvar. destruct (Hs f Hf Hdel var Hvar) as [Heq _].
      fold sig in Heq. unfold boundedSize. now rewrite Heq. }
    rewrite (Hb arity) by lia.
    set (m := boundedSize inp st (rdn sig arity)) in *.
    set (F := fun var => boundedSize inp st (rdn sig var)) in *.
    inversion Hpos as [|? ? Hm Hpos1]; subst. inversion Hpos1 as [|? ? _ Hargs]; subst.
    pose proof (product_pos _ Hargs) as HP. simpl in Hfit, Hrc.
    assert (Hfold : fold_left (fun instances var =>
                       U32.mul instances
                         (Z.min (rd (sortBounds (_sortedSignature inp)) (rdn sig var))
                            (rd (_distinctSortSizes st)
                               (rdn (parents (_sortedSignature inp)) (rdn sig var)))))
                      (seq 0 arity) (U32.mul (U32.mul 1 m) m)
                    = m * (m * product (map F (seq 0 arity)))).
    { assert (Hmm : U32.mul (U32.mul 1 m) m = m * m).
      { unfold U32.mul. rewrite Z.mul_1_l. rewrite (wrap_small m) by nia.
        apply wrap_small. nia. }
      rewrite Hmm.
      transitivity (fold_left (fun instances var => U32.mul instances (F var))
                      (seq 0 arity) (m * m)).
      - assert (Hgen : forall l acc, (forall var, In var l -> (var < arity)%nat) ->
                  fold_left (fun instances var =>
                     U32.mul instances
                       (Z.min (rd (sortBounds (_sortedSignature inp)) (rdn sig var))
                          (rd (_distinctSortSizes st)
                             (rdn (parents (_sortedSignature inp)) (rdn sig var)))))
                    l acc
                  = fold_left (fun instances var => U32.mul instances (F var)) l acc).
        { induction l as [|v l IH]; intros acc Hl; simpl; [reflexivity|].
          rewrite (Hb v) by (specialize (Hl v ltac:(now left)); lia).
          apply IH. intros var Hvar. apply Hl. now right. }
        apply Hgen. intros var Hvar. apply in_seq in Hvar. lia.
      - rewrite fold_mul_exact; [lia| |nia|nia].
        apply (proj1 (Forall_map _ _ _)). exact Hargs. }
    rewrite Hfold. unfold U32.add. apply wrap_small.
    pose proof (Z.div_pos (m * (m * product (map F (seq 0 arity)))) 2 ltac:(nia) ltac:(lia)).
    change (product (m :: m :: map F (seq 0 arity)))
      with (m * (m * product (map F (seq 0 arity)))).
    lia. }
  assert (Hgen : forall fs acc,
            (forall f, In f fs -> (f < functions (signature inp))%nat) ->
            0 <= acc -> acc + sum (map count fs) < U32.modulus ->
            fold_left step fs acc
            = acc + sum (map count fs)
            /\ Z.of_nat (length (flat_map (fun f => if rdb (del_f inp) f then []
                                                    else functionalDefs_of inp st f) fs))
               <= sum (map count fs)).
  { induction fs as [|f fs IH]; intros acc Hin Hacc Hfits.
    - simpl. split; lia.
    - assert (Hf : (f < functions (signature inp))%nat) by (apply Hin; now left).
      destruct (Hcount f Hf) as [Hc0 Hc1].
      assert (Hrest : 0 <= sum (map count fs)).
      { apply sum_nonneg. apply Forall_map. apply Forall_forall. intros g Hg.
        apply list_elem_of_In in Hg. apply Hcount. apply Hin. now right. }
      simpl map in *. rewrite sum_cons in *.
      cbn [fold_left flat_map]. rewrite (Hstep f acc Hf Hacc) by lia.
      destruct (IH (acc + count f)) as [E1 E2];
        [intros g Hg; apply Hin; now right|lia|lia|].
      rewrite E1. split; [lia|]. rewrite length_app. lia. }
  destruct (Hgen (seq 0 (functions (signature inp))) 0) as [E1 E2].
  - intros f Hf. apply in_seq in Hf. lia.
  - lia.
  - exact Hsum.
  - unfold addNewFunctionalDefs, functionalDefCount.
    fold count. rewrite E1. split; lia.
Qed.

Lemma functionalDefs_within_estimate_witness :
  estimateFunctionalDefCount ex_sized_input (_distinctSortSizes ex_sized_builder)
  = functionalDefCount ex_sized_input ex_sized_builder
  /\ Z.of_nat (length (addNewFunctionalDefs ex_sized_input ex_sized_builder))
     <= estimateFunctionalDefCount ex_sized_input (_distinctSortSizes ex_sized_builder).
Proof.
  apply (functionalDefs_within_estimate ex_sized_input ex_sized_builder).
  - intros f Hf _ var Hvar. simpl in Hf.
    destruct f as [|[|f]]; [| |lia]; vm_compute in Hvar.
    + assert (var = 0%nat) as -> by lia.
      vm_compute. split; [reflexivity|intros H; discriminate H].
    + destruct var as [|[|var]]; [| |lia];
        vm_compute; (split; [reflexivity|intros H; discriminate H]).
  - intros [|srt]; vm_compute; reflexivity.
  - intros f Hf _. simpl in Hf. destruct f as [|[|f]]; [| |lia]; vm_compute; reflexivity.
  - vm_compute. reflexivity.
Defined.

(** ** The enumerator that asks an SMT solver *)

Lemma fold_add_wrap (F : nat -> Z) (l : list nat) (acc : Z) :
  fold_left (fun weight i => U32.add weight (F i)) l (U32.wrap acc)
  = U32.wrap (acc + sum (map F l)).
Proof.
  revert acc. induction l as [|i l IH]; intros acc; simpl.
  - now rewrite Z.add_0_r.
  - assert (E : U32.add (U32.wrap acc) (F i) = U32.wrap (acc + F i)).
    { unfold U32.add, U32.wrap. apply Zplus_mod_idemp_l. }
    rewrite E, IH. f_equal. lia.
Qed.

Lemma loadSizesFromSmt_spec (model szs : list Z) :
  fst (loadSizesFromSmt model szs)
  = map (fun i => U32.wrap (rd model i)) (seq 0 (length szs))
  /\ length (fst (loadSizesFromSmt model szs)) = length szs
  /\ snd (loadSizesFromSmt model szs)
     = U32.wrap (sum (map (rd model) (seq 0 (length szs)))).
Proof.
  unfold loadSizesFromSmt. simpl. split; [reflexivity|]. split.
  - now rewrite length_map, length_seq.
  - change 0 with (U32.wrap 0) at 1. now rewrite fold_add_wrap.
Qed.

Lemma wrap_range (z : Z) : 0 <= U32.wrap z < U32.modulus.
Proof. unfold U32.wrap. apply Z.mod_pos_bound. reflexivity. Qed.

Section SmtEnumerator.

Variable smt_check : nat -> list SmtAssertion -> option (list Z).
Hypothesis Hsound : smt_check_sound smt_check.

Lemma smt_minimize_spec (fuel : nat) :
  forall (e e' : SmtBasedDSAE) (szs sizes : list Z),
    0 <= _lastWeight e < U32.modulus ->
    smt_minimize smt_check fuel e szs = Some (sizes, e') ->
    exists model,
      (forall a, In a (_smtSolver e) -> assertion_holds model a = true)
      /\ (forall i, - 2 ^ 31 <= rd model i < 2 ^ 31)
      /\ sizes = map (fun i => U32.wrap (rd model i)) (seq 0 (length szs))
      /\ _smtSolver e' = _smtSolver e
      /\ sum (map (rd model) (seq 0 (length szs))) = _lastWeight e'
      /\ 0 <= _lastWeight e' < U32.modulus.
Proof.
  induction fuel as [|fuel IH]; intros e e' szs sizes Hw Hrun; [discriminate Hrun|].
  simpl in Hrun.
  destruct (smt_check (smt_checks e)
              (_smtSolver e ++ [SumEquals (length szs) (_lastWeight e)]))
    as [model|] eqn:Ec.
  - injection Hrun as <- <-. destruct (Hsound _ _ _ Ec) as [Hall Hint].
    exists model. split; [intros a Ha; apply Hall, in_or_app; now left|].
    split; [exact Hint|].
    split; [apply loadSizesFromSmt_spec|]. split; [reflexivity|].
    specialize (Hall (SumEquals (length szs) (_lastWeight e))
                  ltac:(apply in_or_app; right; now left)).
    simpl in Hall. apply Z.eqb_eq in Hall. split; [exact Hall|exact Hw].
  - apply IH in Hrun; [|simpl; apply wrap_range].
    destruct Hrun as (model & H1 & H0 & H2 & H3 & H4 & H5). exists model.
    split; [exact H1|]. split; [exact H0|]. split; [exact H2|].
    split; [exact H3|]. split; assumption.
Qed.

Lemma smt_increaseModelSizes_spec (fuel : nat) (e e' : SmtBasedDSAE)
    (szs sortMaxes sizes : list Z) :
  0 <= _lastWeight e < U32.modulus ->
  smt_increaseModelSizes smt_check fuel e szs sortMaxes = Some (true, sizes, e') ->
  exists model,
    (forall a, In a (_smtSolver e) -> assertion_holds model a = true)
    /\ (forall i, - 2 ^ 31 <= rd model i < 2 ^ 31)
    /\ sizes = map (fun i => U32.wrap (rd model i)) (seq 0 (length szs))
    /\ _smtSolver e' = _smtSolver e
    /\ U32.wrap (sum (map (rd model) (seq 0 (length szs)))) = _lastWeight e'.
Proof.
  intros Hw Hrun. unfold smt_increaseModelSizes in Hrun.
  destruct (smt_check (smt_checks e) (_smtSolver e)) as [model|] eqn:Ec;
    [|discriminate Hrun].
  destruct (loadSizesFromSmt_spec model szs) as (Hl1 & Hl2 & Hl3).
  cbv zeta in Hrun.
  destruct (snd (loadSizesFromSmt model szs) =? _lastWeight e) eqn:Ew.
  - injection Hrun as <- <-. destruct (Hsound _ _ _ Ec) as [Hall Hint].
    apply Z.eqb_eq in Ew. exists model.
    split; [exact Hall|]. split; [exact Hint|]. split; [exact Hl1|].
    split; [reflexivity|]. simpl. now rewrite <- Hl3.
  - destruct (smt_minimize smt_check fuel (smt_checked e)
                (fst (loadSizesFromSmt model szs))) as [[sizes' e'']|] eqn:Em;
      [|discriminate Hrun].
    injection Hrun as <- <-.
    apply smt_minimize_spec in Em; [|exact Hw].
    destruct Em as (model' & H1 & H0 & H2 & H3 & H4 & H5).
    exists model'. rewrite Hl2 in *.
    split; [exact H1|]. split; [exact H0|]. split; [exact H2|].
    split; [exact H3|]. rewrite H4. now apply wrap_small.
Qed.

Lemma smt_minimize_total (d : nat) :
  forall (e1 : SmtBasedDSAE) (szs model : list Z) (fuel : nat),
    smt_model e1 model ->
    _lastWeight e1 + Z.of_nat d = smt_weight (length szs) model ->
    smt_weight (length szs) model < U32.modulus ->
    weight_floor e1 (length szs) ->
    (forall k w model',
       smt_check k (_smtSolver e1 ++ [SumEquals (length szs) w]) = None ->
       ~ (smt_model e1 model' /\ smt_weight (length szs) model' = w)) ->
    (d < fuel)%nat ->
    exists sizes e',
      smt_minimize smt_check fuel e1 szs = Some (sizes, e')
      /\ _smtSolver e' = _smtSolver e1
      /\ (exists model',
            smt_model e1 model'
            /\ sizes = map (fun i => U32.wrap (rd model' i)) (seq 0 (length szs))
            /\ smt_weight (length szs) model' = _lastWeight e')
      /\ weight_floor e' (length szs).
Proof.
  induction d as [|d IH]; intros e1 szs model fuel Hm HW Hfit Hfloor Hright Hfuel;
    (destruct fuel as [|fuel]; [lia|]); simpl;
    destruct (smt_check (smt_checks e1)
                (_smtSolver e1 ++ [SumEquals (length szs) (_lastWeight e1)]))
      as [m'|] eqn:Ec.
  1, 3: destruct (Hsound _ _ _ Ec) as [Hall _];
    exists (fst (loadSizesFromSmt m' szs)), (smt_checked e1);
    (split; [reflexivity|]); (split; [reflexivity|]);
    (split; [|exact Hfloor]); exists m';
    (split; [intros a Ha; apply Hall, in_or_app; now left|]);
    (split; [apply loadSizesFromSmt_spec|]);
    specialize (Hall (SumEquals (length szs) (_lastWeight e1))
                  ltac:(apply in_or_app; right; now left));
    simpl in Hall; apply Z.eqb_eq in Hall; exact Hall.
  - exfalso. apply (Hright _ _ model Ec). split; [exact Hm|lia].
  - destruct Hfloor as [H0 Hfl].
    assert (Hnext : U32.add (_lastWeight e1) 1 = _lastWeight e1 + 1).
    { unfold U32.add. apply wrap_small. lia. }
    destruct (IH (smt_next_weight (smt_checked e1)) szs model fuel)
      as (sizes & e' & H1 & H2 & H3 & H4).
    + exact Hm.
    + simpl. rewrite Hnext. lia.
    + exact Hfit.
    + split; [simpl; rewrite Hnext; lia|]. intros model' Hm'. simpl. rewrite Hnext.
      pose proof (Hfl model' Hm') as Hge.
      destruct (Z.eq_dec (smt_weight (length szs) model') (_lastWeight e1)) as [E|E];
        [|lia].
      exfalso. apply (Hright _ _ model' Ec). split; [exact Hm'|exact E].
    + exact Hright.
    + lia.
    + exists sizes, e'. split; [exact H1|]. split; [exact H2|]. split; assumption.
Qed.

End SmtEnumerator.

Lemma sum_lower_bound (F : nat -> Z) (c : Z) (l : list nat) :
  (forall i, In i l -> c <= F i) -> Z.of_nat (length l) * c <= sum (map F l).
Proof.
  induction l as [|i l IH]; intros H; [simpl; lia|].
  simpl map. rewrite sum_cons. simpl length.
  specialize (IH ltac:(intros j Hj; apply H; now right)).
  specialize (H i ltac:(now left)). lia.
Qed.

(** What the assertions of [init] say of a model. *)
Lemma smt_init_assertions (smt_check : nat -> list SmtAssertion -> option (list Z))
    (start : Z) (dsizes : list Z) (nonstrict strict : list (nat * nat))
    (model : list Z) :
  1 <= start < U32.modulus ->
  smt_model (snd (smt_init smt_check start dsizes nonstrict strict)) model
  <-> (forall i, (i < length dsizes)%nat -> start <= rd model i)
      /\ (forall a b, In (a, b) nonstrict -> rd model b <= rd model a)
      /\ (forall a b, In (a, b) strict -> rd model b < rd model a).
Proof.
  intros Hstart.
  assert (Hzero : U32.sub start 1 = start - 1) by (unfold U32.sub; apply wrap_small; lia).
  assert (Hsolver : _smtSolver (snd (smt_init smt_check start dsizes nonstrict strict))
                    = map (fun i => AboveConstant i (start - 1)) (seq 0 (length dsizes))
                      ++ map (fun constr => AtLeastSize (fst constr) (snd constr)) nonstrict
                      ++ map (fun constr => AboveSize (fst constr) (snd constr)) strict).
  { unfold smt_init. rewrite Hzero. destruct strict; [reflexivity|].
    cbv zeta. match goal with |- context [smt_check 0%nat ?A] => destruct (smt_check 0%nat A) end;
      reflexivity. }
  unfold smt_model. rewrite Hsolver. split.
  - intros H. split; [|split].
    + intros i Hi.
      specialize (H (AboveConstant i (start - 1))
                    ltac:(apply in_or_app; left; apply in_map_iff; exists i;
                          split; [reflexivity|apply in_seq; lia])).
      simpl in H. apply Z.gtb_lt in H. lia.
    + intros a b Hab.
      specialize (H (AtLeastSize a b)
                    ltac:(apply in_or_app; right; apply in_or_app; left;
                          apply in_map_iff; exists (a, b); split; [reflexivity|exact Hab])).
      simpl in H. rewrite Z.geb_leb in H. apply Z.leb_le in H. exact H.
    + intros a b Hab.
      specialize (H (AboveSize a b)
                    ltac:(apply in_or_app; right; apply in_or_app; right;
                          apply in_map_iff; exists (a, b); split; [reflexivity|exact Hab])).
      simpl in H. apply Z.gtb_lt in H. exact H.
  - intros (H1 & H2 & H3) a Ha.
    apply in_app_or in Ha as [Ha|Ha]; [|apply in_app_or in Ha as [Ha|Ha]];
      apply in_map_iff in Ha as (x & <- & Hx); simpl.
    + apply in_seq in Hx. specialize (H1 x ltac:(lia)). apply Z.gtb_lt. lia.
    + destruct x as [a b]. specialize (H2 a b Hx). simpl.
      rewrite Z.geb_leb. now apply Z.leb_le.
    + destruct x as [a b]. specialize (H3 a b Hx). simpl. now apply Z.gtb_lt.
Qed.

(** X26. What [SmtBasedDSAE::init] asserts. For a start size of at least
    1 whose product with the number of sorts fits 32 bits, a model
    satisfies the assertions of the solver after [init] exactly when every
    size is at least the start size and both families of sort constraints
    hold; [_lastWeight] is the number of sorts times the start size, and
    no model is lighter; [init] answers [false] only when there is a
    strict constraint and the solver answered [unsat]. *)
Theorem smt_init_spec (smt_check : nat -> list SmtAssertion -> option (list Z))
    (start : Z) (dsizes : list Z) (nonstrict strict : list (nat * nat)) :
  1 <= start ->
  Z.of_nat (length dsizes) * start < U32.modulus ->
  start < U32.modulus ->
  (forall model,
     smt_model (snd (smt_init smt_check start dsizes nonstrict strict)) model
     <-> (forall i, (i < length dsizes)%nat -> start <= rd model i)
         /\ (forall a b, In (a, b) nonstrict -> rd model b <= rd model a)
         /\ (forall a b, In (a, b) strict -> rd model b < rd model a))
  /\ _lastWeight (snd (smt_init smt_check start dsizes nonstrict strict))
     = Z.of_nat (length dsizes) * start
  /\ weight_floor (snd (smt_init smt_check start dsizes nonstrict strict))
       (length dsizes)
  /\ (fst (smt_init smt_check start dsizes nonstrict strict) = false ->
      strict <> []
      /\ smt_check 0%nat
           (_smtSolver (snd (smt_init smt_check start dsizes nonstrict strict)))
         = None).
Proof.
  intros Hstart Hfit Hlt.
  assert (Hlw : _lastWeight (snd (smt_init smt_check start dsizes nonstrict strict))
                = Z.of_nat (length dsizes) * start).
  { unfold smt_init. destruct strict.
    - simpl. apply wrap_small. lia.
    - cbv zeta. match goal with |- context [smt_check 0%nat ?A] => destruct (smt_check 0%nat A) end;
        simpl; apply wrap_small; lia. }
  split; [intros model; apply smt_init_assertions; lia|].
  split; [exact Hlw|]. split.
  - split; [rewrite Hlw; lia|]. intros model Hm. rewrite Hlw.
    apply smt_init_assertions in Hm; [|lia]. destruct Hm as [Hge _].
    unfold smt_weight. etransitivity; [|apply sum_lower_bound].
    + rewrite length_seq. reflexivity.
    + intros i Hi. apply in_seq in Hi. apply Hge. lia.
  - unfold smt_init. destruct strict as [|c strict]; [discriminate|].
    cbv zeta. match goal with |- context [smt_check 0%nat ?A] => destruct (smt_check 0%nat A) eqn:E end;
      simpl; intros H; [discriminate H|]. split; [discriminate|exact E].
Qed.

(** X27. [SmtBasedDSAE::increaseModelSizes] proposes a lightest vector.
    With a solver whose models satisfy the assertions, whose [unsat]
    answers are right on the queries made, and when no model of the
    assertions is lighter than [_lastWeight], the call returns: it
    answers [false] only when the assertions have no model at all;
    otherwise the sizes it loads are those of a model of all the
    assertions whose weight is the new [_lastWeight], no model is lighter
    than that, and the assertions of the solver are as before the call. *)
Theorem smt_increaseModelSizes_minimal
    (smt_check : nat -> list SmtAssertion -> option (list Z))
    (e : SmtBasedDSAE) (szs sortMaxes : list Z) :
  smt_check_sound smt_check ->
  smt_answers_rightly smt_check e (length szs) ->
  weight_floor e (length szs) ->
  exists fuel0, forall fuel, (fuel0 <= fuel)%nat ->
    exists answer sizes e',
      smt_increaseModelSizes smt_check fuel e szs sortMaxes = Some (answer, sizes, e')
      /\ _smtSolver e' = _smtSolver e
      /\ if answer
         then exists model,
                smt_model e model
                /\ sizes = map (fun i => U32.wrap (rd model i)) (seq 0 (length szs))
                /\ smt_weight (length szs) model = _lastWeight e'
                /\ weight_floor e' (length szs)
         else sizes = szs /\ forall model, ~ smt_model e model.
Proof.
  intros Hsound (Hunsat & Hright & Hfit) Hfloor.
  unfold smt_increaseModelSizes.
  destruct (smt_check (smt_checks e) (_smtSolver e)) as [model|] eqn:Ec.
  - destruct (Hsound _ _ _ Ec) as [Hm _]. fold (smt_model e model) in Hm.
    specialize (Hfit _ _ Ec).
    destruct (loadSizesFromSmt_spec model szs) as (Hl1 & Hl2 & Hl3).
    fold (smt_weight (length szs) model) in Hl3.
    destruct Hfloor as [H0 Hfl]. pose proof (Hfl model Hm) as Hge.
    rewrite wrap_small in Hl3 by lia.
    exists (S (Z.to_nat (smt_weight (length szs) model - _lastWeight e))).
    intros fuel Hfuel. cbv zeta. rewrite Hl3.
    destruct (smt_weight (length szs) model =? _lastWeight e) eqn:Ew.
    + apply Z.eqb_eq in Ew. exists true, (fst (loadSizesFromSmt model szs)), (smt_checked e).
      split; [reflexivity|]. split; [reflexivity|]. exists model.
      split; [exact Hm|]. split; [exact Hl1|]. split; [exact Ew|].
      split; [exact H0|exact Hfl].
    + apply Z.eqb_neq in Ew.
      destruct (smt_minimize_total smt_check Hsound
                  (Z.to_nat (smt_weight (length szs) model - _lastWeight e))
                  (smt_checked e) (fst (loadSizesFromSmt model szs)) model fuel)
        as (sizes & e' & H1 & H2 & (model' & H3 & H4 & H5) & H6).
      * exact Hm.
      * rewrite Hl2. simpl. lia.
      * rewrite Hl2. exact Hfit.
      * rewrite Hl2. split; [exact H0|exact Hfl].
      * rewrite Hl2. exact Hright.
      * lia.
      * rewrite H1. exists true, sizes, e'. split; [reflexivity|]. split; [exact H2|].
        rewrite Hl2 in *. exists model'. split; [exact H3|]. split; [exact H4|].
        split; assumption.
  - exists 0%nat. intros fuel _. exists false, szs, (smt_checked e).
    split; [reflexivity|]. split; [reflexivity|]. split; [reflexivity|].
    intros model. exact (Hunsat _ model Ec).
Qed.

Lemma fold_smt_learnNogood (nogoods : list (Constraint_Generator_Vals * Z))
    (e0 : SmtBasedDSAE) :
  _smtSolver (fold_left (fun e ng => smt_learnNogood e (fst ng) (snd ng)) nogoods e0)
  = _smtSolver e0 ++ map (fun ng => NogoodClause (smt_nogood_clause (fst ng))) nogoods
  /\ _lastWeight (fold_left (fun e ng => smt_learnNogood e (fst ng) (snd ng)) nogoods e0)
     = _lastWeight e0.
Proof.
  revert e0. induction nogoods as [|ng nogoods IH]; intros e0; simpl.
  - now rewrite app_nil_r.
  - destruct (IH (smt_learnNogood e0 (fst ng) (snd ng))) as [-> ->]. simpl.
    now rewrite <- app_assoc.
Qed.

(** A vector that agrees with a model of the clause of a no-good is not
    matched by the no-good. *)
Lemma nogood_clause_rules_in (model sizes : list Z) (nogood : Constraint_Generator_Vals) :
  (forall i, (i < length nogood)%nat -> rd sizes i = rd model i) ->
  length sizes = length nogood ->
  clause_holds model (smt_nogood_clause nogood) = true ->
  checkConstriant sizes nogood = false.
Proof.
  intros Hagree Hlen Hclause. apply Bool.not_true_iff_false. intros Hcheck.
  unfold checkConstriant in Hcheck. rewrite forallb_forall in Hcheck.
  unfold clause_holds in Hclause. apply existsb_exists in Hclause as (atom & Hin & Hat).
  unfold smt_nogood_clause in Hin. apply in_flat_map in Hin as (i & Hi & Hin).
  assert (Hi' := Hi). apply in_seq in Hi'. rewrite <- Hlen in Hi.
  specialize (Hcheck i Hi). apply negb_true_iff in Hcheck.
  rewrite (Hagree i ltac:(lia)) in Hcheck. unfold entry_fails in Hcheck.
  destruct (fst (rdc nogood i)); simpl in Hin.
  - destruct Hin as [<-|[]]. simpl in Hat. apply negb_true_iff in Hat.
    apply negb_false_iff in Hcheck. rewrite Z.eqb_sym in Hcheck. congruence.
  - destruct Hin as [<-|[]]. simpl in Hat. rewrite Z.gtb_ltb in Hat. congruence.
  - destruct Hin as [<-|[]]. simpl in Hat. rewrite Z.gtb_ltb in Hcheck. congruence.
  - destruct Hin.
Qed.

(** X28. What [SmtBasedDSAE] proposes is sound. With a solver whose
    models satisfy the assertions and fit an [int], after [init] with a
    start size of at least 1 and any number of calls of [learnNogood],
    every size vector [increaseModelSizes] proposes has one size per sort,
    each at least the start size; it satisfies the sort constraints,
    non-strict and strict, between existing sorts; it is matched by none
    of the no-goods learnt, in the sense of [HackyDSAE::checkConstriant];
    and its weight is the new [_lastWeight]. *)
Theorem smt_proposal_sound (smt_check : nat -> list SmtAssertion -> option (list Z))
    (start : Z) (dsizes : list Z) (nonstrict strict : list (nat * nat))
    (nogoods : list (Constraint_Generator_Vals * Z)) (fuel : nat)
    (szs sortMaxes sizes : list Z) (e' : SmtBasedDSAE) :
  smt_check_sound smt_check ->
  1 <= start < U32.modulus ->
  length szs = length dsizes ->
  smt_increaseModelSizes smt_check fuel
    (fold_left (fun e ng => smt_learnNogood e (fst ng) (snd ng)) nogoods
       (snd (smt_init smt_check start dsizes nonstrict strict)))
    szs sortMaxes = Some (true, sizes, e') ->
  length sizes = length dsizes
  /\ (forall i, (i < length dsizes)%nat -> start <= rd sizes i)
  /\ (forall a b, In (a, b) nonstrict ->
        (a < length dsizes)%nat -> (b < length dsizes)%nat -> rd sizes b <= rd sizes a)
  /\ (forall a b, In (a, b) strict ->
        (a < length dsizes)%nat -> (b < length dsizes)%nat -> rd sizes b < rd sizes a)
  /\ (forall nogood weight, In (nogood, weight) nogoods ->
        length nogood = length dsizes -> checkConstriant sizes nogood = false)
  /\ U32.wrap (sum sizes) = _lastWeight e'.
Proof.
  intros Hsound Hstart Hlen Hrun.
  set (e0 := snd (smt_init smt_check start dsizes nonstrict strict)) in *.
  destruct (fold_smt_learnNogood nogoods e0) as [Hsolver Hlw].
  set (e := fold_left (fun e ng => smt_learnNogood e (fst ng) (snd ng)) nogoods e0) in *.
  assert (Hrange : 0 <= _lastWeight e < U32.modulus).
  { rewrite Hlw. unfold e0, smt_init. destruct strict.
    - simpl. apply wrap_range.
    - cbv zeta.
      match goal with |- context [smt_check 0%nat ?A] => destruct (smt_check 0%nat A) end;
        simpl; apply wrap_range. }
  destruct (smt_increaseModelSizes_spec smt_check Hsound fuel e e' szs sortMaxes sizes
              Hrange Hrun) as (model & Hall & Hint & Hsizes & _ & Hw).
  assert (Hinit : smt_model e0 model).
  { intros a Ha. apply Hall. rewrite Hsolver. apply in_or_app. now left. }
  apply smt_init_assertions in Hinit; [|exact Hstart].
  destruct Hinit as (Hge & Hns & Hss).
  assert (Hrd : forall i, (i < length dsizes)%nat -> rd sizes i = rd model i).
  { intros i Hi. rewrite Hsizes, Hlen. rewrite rd_map_seq by exact Hi.
    apply wrap_small. specialize (Hge i Hi). specialize (Hint i).
    assert (2 ^ 31 < U32.modulus) by reflexivity. lia. }
  assert (Hl : length sizes = length dsizes).
  { rewrite Hsizes, length_map, length_seq. exact Hlen. }
  split; [exact Hl|]. split; [intros i Hi; rewrite (Hrd i Hi); now apply Hge|].
  split; [intros a b Hab Ha Hb; rewrite (Hrd a Ha), (Hrd b Hb); now apply Hns|].
  split; [intros a b Hab Ha Hb; rewrite (Hrd a Ha), (Hrd b Hb); now apply Hss|].
  split.
  - intros nogood weight Hng Hn.
    apply (nogood_clause_rules_in model).
    + intros i Hi. apply Hrd. lia.
    + lia.
    + apply (Hall (NogoodClause (smt_nogood_clause nogood))).
      rewrite Hsolver. apply in_or_app. right. apply in_map_iff.
      exists (nogood, weight). split; [reflexivity|exact Hng].
  - rewrite <- Hw. f_equal. rewrite Hlen.
    rewrite <- (map_rd_seq sizes) at 1. rewrite Hl.
    f_equal. apply map_ext_in. intros i Hi. apply in_seq in Hi. apply Hrd. lia.
Qed.

(** The solver of the examples. *)
Lemma ex_smt_check_sound : smt_check_sound ex_smt_check.
Proof.
  intros n assertions model H. unfold ex_smt_check in H.
  apply find_some in H as [Hin Hall]. split.
  - intros a Ha. rewrite forallb_forall in Hall. now apply Hall.
  - intros i. change (2 ^ 31) with 2147483648.
    destruct Hin as [<-|[<-|[<-|[<-|[]]]]]; destruct i as [|[|i]];
      unfold rd; simpl; lia.
Qed.

Lemma ex_smt_enumerator_models (model : list Z) :
  smt_model ex_smt_enumerator model ->
  (rd model 0 = 2 /\ rd model 1 = 1) \/ (rd model 0 = 2 /\ rd model 1 = 2).
Proof.
  intros Hm.
  pose proof (Hm (AboveConstant 0 0) ltac:(vm_compute; tauto)) as H0.
  pose proof (Hm (AboveConstant 1 0) ltac:(vm_compute; tauto)) as H1.
  pose proof (Hm (AtLeastSize 0 1) ltac:(vm_compute; tauto)) as H2.
  pose proof (Hm (NogoodClause [SizeLt 0 3]) ltac:(vm_compute; tauto)) as H3.
  pose proof (Hm (NogoodClause [SizeLt 1 3]) ltac:(vm_compute; tauto)) as H4.
  pose proof (Hm (NogoodClause [SizeNe 0 1; SizeNe 1 1]) ltac:(vm_compute; tauto)) as H5.
  unfold assertion_holds, clause_holds, existsb, atom_holds in *.
  rewrite ?orb_false_r in *.
  apply Z.gtb_lt in H0, H1. rewrite Z.geb_leb in H2. apply Z.leb_le in H2.
  apply Z.ltb_lt in H3, H4. apply orb_true_iff in H5.
  rewrite !negb_true_iff, !Z.eqb_neq in H5. lia.
Qed.

Lemma ex_smt_answers_rightly : smt_answers_rightly ex_smt_check ex_smt_enumerator 2.
Proof.
  split; [|split].
  - intros k model Ec Hm. unfold ex_smt_check in Ec.
    pose proof (find_none _ _ Ec [2; 1] ltac:(simpl; tauto)) as Hc.
    vm_compute in Hc. discriminate Hc.
  - intros k w model Ec [Hm Hw]. unfold ex_smt_check in Ec.
    unfold smt_weight in Hw. simpl in Hw.
    destruct (ex_smt_enumerator_models model Hm) as [[E0 E1]|[E0 E1]];
      rewrite E0, E1 in Hw; subst w.
    + pose proof (find_none _ _ Ec [2; 1] ltac:(simpl; tauto)) as Hc.
      vm_compute in Hc. discriminate Hc.
    + pose proof (find_none _ _ Ec [2; 2] ltac:(simpl; tauto)) as Hc.
      vm_compute in Hc. discriminate Hc.
  - intros k model Ec. unfold ex_smt_check in Ec.
    apply find_some in Ec as [Hin _].
    destruct Hin as [<-|[<-|[<-|[<-|[]]]]]; vm_compute; reflexivity.
Qed.

Lemma ex_smt_weight_floor : weight_floor ex_smt_enumerator 2.
Proof.
  split; [vm_compute; discriminate|]. intros model Hm.
  change (_lastWeight ex_smt_enumerator) with 2.
  unfold smt_weight. simpl.
  destruct (ex_smt_enumerator_models model Hm) as [[E0 E1]|[E0 E1]];
    rewrite E0, E1; lia.
Qed.

Lemma smt_init_spec_witness :
  (forall model,
     smt_model (snd (smt_init ex_smt_check 1 [1; 1] [(0%nat, 1%nat)] [])) model
     <-> (forall i, (i < length [1; 1])%nat -> 1 <= rd model i)
         /\ (forall a b, In (a, b) [(0%nat, 1%nat)] -> rd model b <= rd model a)
         /\ (forall a b, In (a, b) [] -> rd model b < rd model a))
  /\ _lastWeight (snd (smt_init ex_smt_check 1 [1; 1] [(0%nat, 1%nat)] []))
     = Z.of_nat (length [1; 1]) * 1
  /\ weight_floor (snd (smt_init ex_smt_check 1 [1; 1] [(0%nat, 1%nat)] []))
       (length [1; 1])
  /\ (fst (smt_init ex_smt_check 1 [1; 1] [(0%nat, 1%nat)] []) = false ->
      @nil (nat * nat) <> []
      /\ ex_smt_check 0%nat
           (_smtSolver (snd (smt_init ex_smt_check 1 [1; 1] [(0%nat, 1%nat)] [])))
         = None).
Proof.
  apply (smt_init_spec ex_smt_check 1 [1; 1] [(0%nat, 1%nat)] []).
  - lia.
  - vm_compute. reflexivity.
  - vm_compute. reflexivity.
Defined.

Lemma smt_increaseModelSizes_minimal_witness :
  exists fuel0, forall fuel, (fuel0 <= fuel)%nat ->
    exists answer sizes e',
      smt_increaseModelSizes ex_smt_check fuel ex_smt_enumerator [1; 1] []
      = Some (answer, sizes, e')
      /\ _smtSolver e' = _smtSolver ex_smt_enumerator
      /\ if answer
         then exists model,
                smt_model ex_smt_enumerator model
                /\ sizes = map (fun i => U32.wrap (rd model i)) (seq 0 (length [1; 1]))
                /\ smt_weight (length [1; 1]) model = _lastWeight e'
                /\ weight_floor e' (length [1; 1])
         else sizes = [1; 1] /\ forall model, ~ smt_model ex_smt_enumerator model.
Proof.
  apply (smt_increaseModelSizes_minimal ex_smt_check ex_smt_enumerator [1; 1] []).
  - exact ex_smt_check_sound.
  - exact ex_smt_answers_rightly.
  - exact ex_smt_weight_floor.
Defined.

Lemma smt_proposal_sound_witness :
  length [2; 1] = length [1; 1]
  /\ (forall i, (i < length [1; 1])%nat -> 1 <= rd [2; 1] i)
  /\ (forall a b, In (a, b) [(0%nat, 1%nat)] ->
        (a < length [1; 1])%nat -> (b < length [1; 1])%nat -> rd [2; 1] b <= rd [2; 1] a)
  /\ (forall a b, In (a, b) [] ->
        (a < length [1; 1])%nat -> (b < length [1; 1])%nat -> rd [2; 1] b < rd [2; 1] a)
  /\ (forall nogood weight, In (nogood, weight) ex_smt_nogoods ->
        length nogood = length [1; 1] -> checkConstriant [2; 1] nogood = false)
  /\ U32.wrap (sum [2; 1])
     = _lastWeight (smt_next_weight (smt_checked (smt_checked (smt_checked ex_smt_enumerator)))).
Proof.
  apply (smt_proposal_sound ex_smt_check 1 [1; 1] [(0%nat, 1%nat)] [] ex_smt_nogoods
           5 [1; 1] [] [2; 1]).
  - exact ex_smt_check_sound.
  - vm_compute. split; [intros H; discriminate H|reflexivity].
  - reflexivity.
  - vm_compute. reflexivity.
Defined.
